(* ===== verification/_CoqProject ===== *)
-Q . S2P
Prelude.v
Strconv.v
Heap.v
Offsets.v
Assign.v
Sort.v
Consumer.v
Refinement.v
Mutex.v
Registry.v
Typing.v
Readers.v
Lifecycle.v
Shutdown.v
Safety.v
