(* ===== verification/Prelude.v ===== *)
(** * Verification of the partition-consumer core of sarama-cluster

    The program (Go, two files) is the per-partition consumption and
    offset-tracking core of a Kafka consumer group:

    - [src/cluster.go] holds the assignment [Strategy] names, the
      [topicPartition] key, the offset ledger [offsetInfo] with
      [Serialize], [Deserialize] and [NextOffset], and the ordered
      partition list [int32Slice] with [Len], [Less], [Swap] and [Diff];
    - [src/unnamed/part_000] holds [partitionConsumer] (constructor, the
      forwarding [Loop], [Close], and the state accessors [State],
      [MarkOffset], [MarkCommitted], [AddPendingOffset],
      [RemovePendingOffset], [SetOffset]), the snapshot type
      [partitionState], and the registry [partitionMap] ([Fetch], [Store],
      [HasDirty], [Snapshot], [Stop], [Clear], [Info]).

    ** How the program is modelled

    Go values become Rocq values of the same shape: [int64] and [int32]
    are [Z] (the code only compares and stores offsets, it never does
    arithmetic on them; the one place where width matters, the midpoint
    of the binary search, is written with its 64-bit wrap-around);
    strings are [string] (byte strings); structs are [Record]s whose
    fields keep the source's names.

    Two things of Go are not values and are modelled as such:

    - a [map[int64]struct{}] is a reference.  Copying an [offsetInfo]
      copies the reference, not the set, so [State], [Snapshot] and the
      consumer itself share one map object.  A map reference is
      [option loc] ([None] is the nil map) and the objects live in a
      store [gmap loc (gset Z)] read with total lookup: a location that
      was never written holds the empty set, as a fresh [make(map...)]
      would.  Writing through the nil map panics, reading it does not.
    - ranging over a map visits its keys in an order the language leaves
      unspecified, and differently each time.  Every operation that
      ranges over a map takes the order of that visit as an argument
      [ks], and the theorems quantify over every [ks] that is a
      permutation of the keys ([Heap.range_of]).

    Code that can panic, or that reads and writes a store, is written in
    the monad [exec S A := S -> outcome (A * S)] of this file: [Done]
    carries the result and the new store, [Panic] names the run-time
    panic.  Nothing here assumes that panics do not happen: the theorems
    say where they do.

    ** Goroutines

    [Loop], [Close] and [Stop] are a protocol between goroutines.  A
    goroutine is a thread with a program counter, one statement of a
    method is one step, and a run is a sequence of steps of threads and of
    actions of the environment (the Kafka client feeding a stream, the
    application taking or not taking what is sent to it, a caller
    starting a goroutine).  Steps are executable ([Lifecycle.run_action]
    returns the next configuration, [Blocked] or [Crash]), runs are an
    inductive relation ([Lifecycle.run]), and a [select] takes the ready
    case the action names, so the theorems about runs hold for every
    interleaving and every choice.  [dying] and [dead] carry no value and
    are only closed: each is a flag.

    ** Files

    - [Prelude] (this file): machine-integer ranges, the [exec] monad
      with its laws and tactics, the hint database [go], list lemmas.
    - [Strconv]: the Go library functions the ledger calls,
      [strconv.FormatInt], [strconv.ParseInt] and [strings.Split],
      modelled from their documentation (they are not code of this
      repository), with the round trip [ParseInt (FormatInt k) = k].
    - [Heap]: the store of map objects and the three map operations the
      sources use (assignment, [delete], [len]) and [range].
    - [Offsets]: [offsetInfo], [Serialize], [Deserialize], [NextOffset].
    - [Assign]: [Strategy], [int32Slice] with [Len], [Less], [Swap],
      [sort.Search] and [Diff].
    - [Sort]: [sort.Interface] as a class, [int32Slice] as an instance
      of it, and [sort.Sort] run through the interface; the class
      [Sorts] is what a caller may rely on of a sorting routine.
    - [Consumer]: [partitionState], [partitionConsumer], its constructor
      against the stream-provider interface ([Provider]), and the state
      accessors, over a store of consumer objects addressed by pointers;
      the type [Error].
    - [Refinement]: the specification of the accessors and of the
      constructor on ledgers that are values ([spec_run] on a finite map
      of [ledger]s), the abstraction [abs] from stores to ledgers, and
      the proof that the code implements the specification on stores in
      which each consumer owns its map object ([owned]).
    - [Mutex]: [State], [MarkCommitted] and [MarkOffset] as goroutines
      that take one statement at a time on a shared store
      ([State_step], [MarkCommitted_step], [MarkOffset_step]), a pool of
      them under a schedule ([pool_step]), and the invariant by which
      each mutex owns the ledger of its consumer ([pool_inv]).
    - [Registry]: [topicPartition], the reader/writer lock, and in
      [Module PartitionMap] the registry with [Fetch], [Store],
      [HasDirty], [Snapshot], [Clear] and [Info].
    - [Typing]: the types the model does not carry ([int32] partitions,
      [int64] offsets, pointers that refer to consumers, the lock free
      between calls) as the invariant [system_wf], and its preservation
      by every method ([run_method]).
    - [Readers]: [Fetch], [Store] and [Clear] as goroutines that take
      one statement at a time on one registry ([Fetch_step],
      [Store_step], [Clear_step]), a crowd of them under a schedule
      ([crowd_step]), and the invariant by which the reader/writer lock
      owns the map ([crowd_inv]).
    - [Lifecycle]: the streams of the client, threads and program
      counters, [Loop_step], [Close_step] and [Stop_step] (one statement
      of [Loop], [Close], [Stop]), steps and runs, the invariant of the
      shutdown protocol and the invariant of forwarding.
    - [Shutdown]: the weight that bounds every schedule, and the
      counting invariant of the wait group of [Stop].
    - [Safety]: the invariant under which no statement beside a [Stop]
      panics ([crash_inv]), and the return of [Stop] within the weight of
      the configuration.

    ** What the theorems show

    Each file states, after its definitions, the behaviour of every
    operation on every branch (panics included), the invariants the
    operations keep, and the round trips.  The main ones are introduced
    by a comment that names a claim:

    - ledger: [Serialize] then [Deserialize] reproduces the pending set
      for every order of the range; [Deserialize] drops malformed tokens
      and, of the numerals of any numbers, stores the [int64] and drops
      the others, for which [ParseInt] returns the nearest [int64] beside
      its error; it panics on a nil map; the
      metadata takes at most 21 bytes for each pending offset; what
      [NextOffset] returns on each branch;
    - consumer: what each accessor does to the state, the lock and the
      rest of the store; the confirmed offset never decreases; the
      constructor's retry at the default offset, which never reports an
      offset out of range when the default names an end of the log;
      where a nil map or a nil receiver panics; that [State] hands out
      the consumer's own map;
    - refinement: on consumers that own their map objects, every
      accessor and every sequence of accessors does to the ledgers what
      the specification on values says, [State] returns the snapshot the
      specification describes, and the constructor adds one ledger;
    - mutex: under every schedule of the statements of [State],
      [MarkCommitted] and [MarkOffset] no two goroutines are between
      [Lock] and [Unlock] on one consumer and no statement panics; a
      goroutine waits only at [Lock] and only for one that is inside on
      the same consumer, so the accessors cannot deadlock; when all have
      returned the ledgers are those of the calls made one after the
      other, and each [State] returned the snapshot of a ledger that
      whole calls left; no confirmed offset decreases at any statement;
      the three guarded accessors are free of data races, by tables of
      accesses that the step functions are shown to respect; a call of
      [AddPendingOffset] or [RemovePendingOffset] does not wait for the
      goroutine that holds the mutex and writes the pending offsets the
      mutex guards;
    - types: every method, accessor and constructor call that returns
      keeps partitions [int32], offsets [int64], pointers valid and the
      registry lock free, and returns a value of its type;
    - list difference: [Diff] always returns, is the difference on an
      ascending argument, and errs only by keeping too much otherwise;
      its binary search returns what a linear search returns, and no
      probe is out of range at any length an [int] can hold, although
      the sum of two indexes can exceed the largest [int];
      [sort.Sort] through [Less] and [Swap] sorts without an index out
      of range;
    - registry: [Fetch] after [Store], [Clear], [HasDirty], [Snapshot]
      and [Info] for every order of their ranges, with the lock released
      on every path; [Info] feeds [Diff] what it needs;
    - registry lock: under every schedule of the statements of [Fetch],
      [Store] and [Clear] no statement panics, a writer is inside alone
      and readers share, writers wait for readers and everybody for a
      writer; when all have returned the registry and the pointers the
      [Fetch] returned are those of the methods run one after the other;
      a [Clear] leaves the registry empty whatever is stored beside it;
      the goroutines cannot deadlock and return within a bound;
    - shutdown: [Close] returns from its wait only after [Loop] has
      returned; nothing is delivered afterwards; messages are forwarded
      in the order of the stream; a second [Close] returns at once; two
      concurrent calls of [Close] crash; [Close] without a [Loop] never
      returns; [Stop] returns only when every consumer is closed and
      every loop has returned; [wg.Done()] never panics; every schedule
      of statements ends; a [Stop] that has not returned does not leave
      the program stuck; beside one [Stop] over distinct consumers, with
      one [Loop] each and no other [Close], no statement panics and the
      [Stop] returns within [weight] statements.

    Theorems with hypotheses come with a witness, named after the theorem,
    that applies it to the configurations defined in the same file
    ([ex_heap], [ex_world], [ex_owned], [ex_pool], [ex_system],
    [ex_crowd], [ex_config], [ex_stop_config] and the schedules run on
    them).

    ** Bounds and fuel

    [Strconv.FormatUint] prints with fuel 20, the number of decimal
    digits of 2^64 - 1; [Strconv.digits_value_digits] shows that fuel
    [n] covers every number below 10^n, and [Strconv.ParseInt_FormatInt]
    uses it at every [int64]; [Offsets.Deserialize_bounds] is about the
    numerals [FormatInt] writes of the numbers between -10^20 and 10^20,
    which this fuel covers and which leave the 64 bits on both sides.  [Assign.Search] runs with fuel 64: each
    turn halves a range of at most 2^63 - 1 indices, and
    [Assign.Search_loop_spec] shows that fuel [n] is enough for a range
    shorter than 2^n; [Assign.Diff_total] shows that [Diff] never runs
    out.  The midpoint is computed as the code does, on the [uint] of a
    sum that may have wrapped: [Assign.midpoint_spec] shows that it is
    the half of the sum for every pair of indexes up to 2^63 - 1.
    [sort.Sort] is modelled by the insertion sort the library runs on
    ranges of at most 12 elements; [Sort.Sorts_unique] shows that every
    sorting routine returns the same slice.  Runs of goroutines need no
    fuel: [Shutdown.schedule_bounded] bounds the statements the threads
    can run by the weight of the configuration, and
    [Mutex.pool_step_weight] the statements of a pool of accessors by
    [Mutex.pool_weight], at most seven for each call.
    [Readers.crowd_step_weight] bounds the statements of a crowd on the
    registry by [Readers.crowd_weight]: three for a [Fetch] or a [Store],
    and for a [Clear] three and one for each key it can find, which is
    at most [Readers.room], the keys of the registry and the [Store]s
    that have not written theirs.

    ** Not modelled

    The Kafka client (package sarama) is outside the repository: the
    constructor, [SetOffset] and [Close] are stated against an interface
    ([Consumer.Provider]) and the theorems hold for every implementation
    of it, or for every implementation that keeps the one promise of
    the library's documentation stated in [Consumer.ProviderLaws]; its
    channels are modelled from the library's documentation
    ([Lifecycle.stream]).  [Lifecycle.stream_Close] closes both channels
    and harvests the errors; it leaves the messages the loop has not
    taken in the channel.  A client whose [Close] also drains them
    changes what is left in the stream, which the equality of
    [Lifecycle.Loop_forwards_in_order] counts, and not what the loop
    forwards.  The type [Error] of [src/cluster.go] is
    modelled as the record it is; no code of the repository builds or
    reads one, so no theorem is about it.  The callers of this code
    (rebalance, commit, the consumer-group protocol) are not in the
    repository.

    The refinement of [Refinement] covers the ledgers, which the
    accessors and the constructor change; the mutex is free before and
    after each call there, and [Mutex] shows what it is for.
    [AddPendingOffset], [RemovePendingOffset] and [SetOffset] take no
    lock: [Mutex.unguarded_accessors_ignore_mutex] shows that the first
    two write the map object of a consumer while another goroutine holds
    its mutex.  Beside a [State] on the same consumer that is a data
    race, for which Go defines no behaviour, so they are calls of the
    sequential model only and no goroutines of [Mutex].  The registry is
    a finite map in the code and in the model: its specification is the
    set of theorems of [Registry], with no further abstraction.
    [HasDirty], [Snapshot] and [Info] are no goroutines of [Readers], and
    the scheduler of [Lifecycle] has no thread that writes the registry:
    what [Stop] finds there stays while it runs, and [Readers] shows
    that a [Store] or a [Clear] waits for whoever holds the read lock.

    The order [ks] of a range is an argument of [State], [Serialize] and
    [NextOffset] that the definitions do not tie to the keys of the map:
    the theorems that need it assume [Heap.range_of], the others hold for
    every list.

    Interleavings are sequentially consistent: the model does not have
    the weaker orders Go's memory model allows for the unsynchronised
    field [closed].  In the files other than [Mutex], [Readers],
    [Lifecycle], [Shutdown] and [Safety] a method runs alone: a lock
    that is held there can be released by nobody, and taking it is the
    outcome [Deadlock]; in [Mutex] and [Readers] a goroutine that finds
    this outcome waits. *)

From stdpp Require Export base tactics option list numbers strings gmap.

#[local] Open Scope Z_scope.

(** ** Machine integers *)

(** The range of a signed [w]-bit integer, and of an unsigned one. *)
Definition int_min (w : Z) : Z := - 2 ^ (w - 1).
Definition int_max (w : Z) : Z := 2 ^ (w - 1) - 1.
Definition uint_max (w : Z) : Z := 2 ^ w - 1.

Definition in_int (w x : Z) : Prop := int_min w ≤ x ≤ int_max w.
Definition in_uint (w x : Z) : Prop := 0 ≤ x ≤ uint_max w.

#[export] Instance in_int_dec w x : Decision (in_int w x).
Proof. unfold in_int. apply _. Defined.
#[export] Instance in_uint_dec w x : Decision (in_uint w x).
Proof. unfold in_uint. apply _. Defined.

(** Conversion to an unsigned [w]-bit integer, as Go's [uint(x)] does. *)
Definition to_uint (w x : Z) : Z := x mod 2 ^ w.

(** Conversion to a signed [w]-bit integer, as Go's [int(x)] does. *)
Definition to_int (w x : Z) : Z := (x + 2 ^ (w - 1)) mod 2 ^ w - 2 ^ (w - 1).

(** ** Panics and the execution monad *)

(** The run-time panics the modelled code can raise.  The last one is the
    model's own: a loop that is not structurally recursive runs on fuel,
    and running out of it is an outcome of its own, so that a theorem that
    states a result also states that the fuel was enough. *)
Inductive panic : Set :=
| NilMapAssign          (* assignment to entry in nil map *)
| NilDereference        (* invalid memory address or nil pointer dereference *)
| CloseOfClosedChannel  (* close of closed channel *)
| IndexOutOfRange       (* index out of range *)
| Deadlock              (* all goroutines are asleep: Lock on a mutex that is held *)
| UnlockOfUnlocked      (* sync: unlock of unlocked mutex *)
| NegativeWaitGroup     (* sync: negative WaitGroup counter *)
| OutOfFuel.            (* not a panic of Go: a loop of the model ran out of fuel *)

#[export] Instance panic_eq_dec : EqDecision panic.
Proof. solve_decision. Defined.

Inductive outcome (A : Type) : Type :=
| Done (a : A)
| Panic (p : panic).
Arguments Done {A} a.
Arguments Panic {A} p.

#[export] Instance outcome_eq_dec `{EqDecision A} : EqDecision (outcome A).
Proof. solve_decision. Defined.

(** A computation over a store [S] that returns an [A] or panics. *)
Definition exec (S A : Type) : Type := S → outcome (A * S).

#[export] Instance exec_ret {S} : MRet (exec S) := λ A a s, Done (a, s).
#[export] Instance exec_bind {S} : MBind (exec S) := λ A B f m s,
  match m s with
  | Done (a, s') => f a s'
  | Panic p => Panic p
  end.
#[export] Instance exec_fmap {S} : FMap (exec S) := λ A B f m s,
  match m s with
  | Done (a, s') => Done (f a, s')
  | Panic p => Panic p
  end.

Definition get {S} : exec S S := λ s, Done (s, s).
Definition put {S} (s : S) : exec S unit := λ _, Done (tt, s).
Definition modify {S} (f : S → S) : exec S unit := λ s, Done (tt, f s).
Definition raise {S A} (p : panic) : exec S A := λ _, Panic p.

(** Run a computation for its store, or for its result. *)
Definition exec_store {S A} (m : exec S A) (s : S) : option S :=
  match m s with Done (_, s') => Some s' | Panic _ => None end.
Definition exec_value {S A} (m : exec S A) (s : S) : option A :=
  match m s with Done (a, _) => Some a | Panic _ => None end.

(** [for _, x := range xs { body x }] over a slice. *)
Fixpoint for_each {S A} (body : A → exec S unit) (xs : list A) : exec S unit :=
  match xs with
  | [] => mret tt
  | x :: xs' => body x ;; for_each body xs'
  end.

(** [p[i]] on a slice: a panic when [i] is out of range. *)
Definition index {S A} (p : list A) (i : Z) : exec S A :=
  if decide (0 ≤ i) then
    match p !! Z.to_nat i with
    | Some x => mret x
    | None => raise IndexOutOfRange
    end
  else raise IndexOutOfRange.

(** Lift a computation on a part of the store to the whole store. *)
Definition zoom {S T A} (proj : T → S) (inj : S → T → T) (m : exec S A) : exec T A :=
  λ t, match m (proj t) with
       | Done (a, s') => Done (a, inj s' t)
       | Panic p => Panic p
       end.

(** A computation that never panics and leaves the store as it is. *)
Definition pure_exec {S A} (m : exec S A) : Prop :=
  ∀ s, ∃ a, m s = Done (a, s).

(** ** Notation *)

Declare Scope go_scope.
Delimit Scope go_scope with go.

(** [m ⇓ s ↦ a , s'] : running [m] from [s] returns [a] and leaves [s']. *)
Notation "m ⇓ s ↦ a , s'" := (m s = Done (a, s'))
  (at level 70, s at next level, a at next level, s' at next level) : go_scope.
(** [m ⇓ s ↯ p] : running [m] from [s] panics with [p]. *)
Notation "m ⇓ s ↯ p" := (m s = Panic p)
  (at level 70, s at next level, p at next level) : go_scope.

#[global] Open Scope go_scope.

(** ** Tactics *)

Create HintDb go discriminated.
Create Rewrite HintDb go_rw.

(** Unfold the monad's operations in the goal and in the hypotheses. *)
Ltac exec_unfold :=
  unfold mbind, mret, fmap, exec_bind, exec_ret, exec_fmap,
    get, put, modify, raise, zoom, exec_store, exec_value in *.

(** Case analysis on the first [match] or [if] on an outcome, a decision or
    an option that blocks the goal. *)
Ltac exec_case :=
  match goal with
  | |- context [match ?m ?s with Done _ => _ | Panic _ => _ end] =>
      let E := fresh "E" in destruct (m s) as [[? ?]|?] eqn:E
  | |- context [decide ?P] => destruct (decide P)
  | |- context [match ?o with Some _ => _ | None => _ end] =>
      let E := fresh "E" in destruct o eqn:E
  end.

Ltac exec_simpl := exec_unfold; simpl in *; repeat (exec_case; simpl in *).

(** Write the ranges of 32-bit and 64-bit integers as numerals, for [lia]. *)
Ltac int_ranges :=
  unfold in_int, in_uint, int_min, int_max, uint_max in *;
  change (2 ^ (64 - 1)) with 9223372036854775808 in *;
  change (2 ^ (32 - 1)) with 2147483648 in *;
  change (2 ^ 64) with 18446744073709551616 in *;
  change (2 ^ 63) with 9223372036854775808 in *.

(** Close a goal by computation. *)
Ltac by_compute := vm_compute; first [reflexivity | done | intuition congruence].

(** Close a decidable goal by running its decision procedure. *)
Ltac by_decide := apply (bool_decide_unpack _); vm_compute; exact I.

(** ** Laws of the monad *)

Section exec_laws.
Context {S A B C : Type}.
Implicit Types (m : exec S A) (f : A → exec S B) (g : B → exec S C).

Lemma exec_bind_ret_l (a : A) f s : (mret a ≫= f) s = f a s.
Proof. reflexivity. Qed.

Lemma exec_bind_ret_r m s : (m ≫= mret) s = m s.
Proof. exec_unfold. by destruct (m s) as [[]|]. Qed.

Lemma exec_bind_assoc m f g s : ((m ≫= f) ≫= g) s = (m ≫= λ a, f a ≫= g) s.
Proof. exec_unfold. by destruct (m s) as [[]|]. Qed.

Lemma exec_bind_done m f s a s' : m s = Done (a, s') → (m ≫= f) s = f a s'.
Proof. exec_unfold. by intros ->. Qed.

Lemma exec_bind_panic m f s p : m s = Panic p → (m ≫= f) s = Panic p.
Proof. exec_unfold. by intros ->. Qed.

(** Inversion of a bind that returned. *)
Lemma exec_bind_inv m f s b s'' :
  (m ≫= f) s = Done (b, s'') →
  ∃ a s', m s = Done (a, s') ∧ f a s' = Done (b, s'').
Proof. exec_unfold. destruct (m s) as [[a s']|]; [eauto | done]. Qed.

(** Inversion of a map over a result that returned. *)
Lemma exec_fmap_inv (h : A → B) m s b s' :
  (h <$> m) s = Done (b, s') → ∃ a, m s = Done (a, s') ∧ b = h a.
Proof. exec_unfold. destruct (m s) as [[a s1]|]; [|done]. intros [= <- <-]. eauto. Qed.

End exec_laws.

#[export] Hint Rewrite @exec_bind_ret_l @exec_bind_ret_r @exec_bind_assoc : go_rw.

(** ** Loops over slices *)

Section for_each.
Context {S A : Type}.
Implicit Types (body : A → exec S unit) (xs ys : list A).

Lemma for_each_app body xs ys s :
  for_each body (xs ++ ys) s = (for_each body xs ;; for_each body ys) s.
Proof.
  revert s. induction xs as [|x xs IH]; intros s; simpl; [done|].
  exec_unfold. destruct (body x s) as [[[] s']|]; [apply IH | done].
Qed.

(** A loop whose body is an update of the store is a fold. *)
Lemma for_each_modify (f : A → S → S) xs s :
  for_each (λ x, modify (f x)) xs s = Done (tt, foldl (λ s x, f x s) s xs).
Proof. revert s. induction xs as [|x xs IH]; intros s; [done|]. apply IH. Qed.

(** A loop whose body never panics never panics. *)
Lemma for_each_total body xs s :
  (∀ x s, x ∈ xs → ∃ s', body x s = Done (tt, s')) →
  ∃ s', for_each body xs s = Done (tt, s').
Proof.
  revert s. induction xs as [|x xs IH]; intros s Hbody; simpl; [by eexists|].
  destruct (Hbody x s) as [s1 Hs1]; [left|].
  rewrite (exec_bind_done _ _ _ _ _ Hs1).
  apply IH. intros y s2 Hy. apply Hbody. by right.
Qed.

(** A loop preserves what each run of its body preserves. *)
Lemma for_each_invariant (I : S → Prop) body xs s s' :
  (∀ x s s', x ∈ xs → I s → body x s = Done (tt, s') → I s') →
  I s → for_each body xs s = Done (tt, s') → I s'.
Proof.
  revert s. induction xs as [|x xs IH]; intros s Hbody Hs; simpl.
  - by intros [= <-].
  - intros (u & s1 & H1 & H2)%exec_bind_inv. destruct u.
    eapply IH; [ | | exact H2].
    + intros y t t' Hy. apply Hbody. by right.
    + eapply Hbody; [left | exact Hs | exact H1].
Qed.

End for_each.

(** ** Lists *)

(** The unfolding of the difference of lists. *)
Lemma existsb_pointwise {A} (f g : A → bool) l :
  (∀ x, f x = g x) → existsb f l = existsb g l.
Proof. intros Hfg. induction l as [|x l IH]; [done|]. simpl. by rewrite Hfg, IH. Qed.

Lemma existsb_elem_of {A} (f : A → bool) l :
  existsb f l = true ↔ ∃ x, x ∈ l ∧ f x = true.
Proof.
  rewrite existsb_exists. split; intros (x & Hx & Hf); exists x; split; try done;
    by apply list_elem_of_In.
Qed.

Lemma list_difference_cons `{EqDecision A} (x : A) (l k : list A) :
  list_difference (x :: l) k
  = if decide (x ∈ k) then list_difference l k else x :: list_difference l k.
Proof. reflexivity. Qed.

(** ** Indexing *)

Lemma index_in_range {S A} (p : list A) (i : Z) (x : A) (s : S) :
  0 ≤ i → p !! Z.to_nat i = Some x → index p i s = Done (x, s).
Proof. intros Hi Hx. unfold index. rewrite decide_True by done. by rewrite Hx. Qed.

Lemma index_out_of_range {S A} (p : list A) (i : Z) (s : S) :
  i < 0 ∨ Z.of_nat (length p) ≤ i → index (S:=S) p i s = Panic IndexOutOfRange.
Proof.
  intros Hi. unfold index. case_decide; [|done].
  rewrite (proj2 (lookup_ge_None p (Z.to_nat i))); [done | lia].
Qed.

(** Indexing returns or panics, and leaves the store alone. *)
Lemma index_inv {S A} (p : list A) (i : Z) (s : S) :
  (∃ x, 0 ≤ i < Z.of_nat (length p) ∧ p !! Z.to_nat i = Some x ∧ index p i s = Done (x, s))
  ∨ ((i < 0 ∨ Z.of_nat (length p) ≤ i) ∧ index (S:=S) p i s = Panic IndexOutOfRange).
Proof.
  destruct (decide (0 ≤ i < Z.of_nat (length p))) as [Hi|Hi].
  - left. destruct (lookup_lt_is_Some_2 p (Z.to_nat i)) as [x Hx]; [lia|].
    exists x. split; [done|]. split; [done|]. apply index_in_range; [lia | done].
  - right. split; [lia|]. apply index_out_of_range. lia.
Qed.

(** ** Strings *)

(** stdpp keeps [simpl] from unfolding the append of strings; these are its
    equations. *)
Lemma string_app_nil_l (s : string) : "" +:+ s = s.
Proof. reflexivity. Qed.

Lemma string_app_cons c (s1 s2 : string) : String c s1 +:+ s2 = String c (s1 +:+ s2).
Proof. reflexivity. Qed.

Lemma string_app_nil_r (s : string) : s +:+ "" = s.
Proof. induction s as [|c s IH]; [done|]. by rewrite string_app_cons, IH. Qed.

Lemma string_app_assoc (s1 s2 s3 : string) : (s1 +:+ s2) +:+ s3 = s1 +:+ s2 +:+ s3.
Proof. induction s1 as [|c s1 IH]; [done|]. by rewrite !string_app_cons, IH. Qed.

#[export] Hint Rewrite string_app_nil_l string_app_cons string_app_nil_r
  string_app_assoc : go_rw.

(** ** Machine-integer facts *)

Lemma in_int_64 x : in_int 64 x ↔ -9223372036854775808 ≤ x ≤ 9223372036854775807.
Proof. by int_ranges. Qed.

Lemma in_int_32 x : in_int 32 x ↔ -2147483648 ≤ x ≤ 2147483647.
Proof. by int_ranges. Qed.

Lemma in_uint_64 x : in_uint 64 x ↔ 0 ≤ x ≤ 18446744073709551615.
Proof. by int_ranges. Qed.

(** On values that fit, the conversions do nothing. *)
Lemma to_uint_small w x : 0 ≤ x < 2 ^ w → to_uint w x = x.
Proof. intros. unfold to_uint. by apply Z.mod_small. Qed.

Lemma to_int_small w x : 0 < w → in_int w x → to_int w x = x.
Proof.
  unfold in_int, int_min, int_max, to_int. intros Hw Hx.
  assert (2 ^ w = 2 * 2 ^ (w - 1)) as Hpow.
  { rewrite <-Z.pow_succ_r by lia. f_equal. lia. }
  rewrite Z.mod_small; lia.
Qed.
