(* ===== verification/Strconv.v ===== *)
(** * Strconv: the Go library functions the offset ledger calls

    [offsetInfo.Serialize] prints each pending offset with
    [strconv.FormatInt(k, 10)] and [offsetInfo.Deserialize] reads the
    metadata back with [strings.Split(meta, ",")] and
    [strconv.ParseInt(k, 10, 64)].  The three functions belong to Go's
    standard library, not to this repository; they are modelled here from
    their documented behaviour, at the base and width the sources use
    (base 10, 64 bits), with the loop of [ParseUint] and its overflow
    tests written as the library has them.

    The file proves what the ledger relies on: printing then parsing an
    [int64] gives it back, a printed number holds no separator, and
    splitting undoes joining. *)

From Stdlib Require Import Ascii.
From S2P Require Import Prelude.

#[local] Open Scope Z_scope.

(** ** Decimal digits *)

(** The byte ['0' + d]. *)
Definition digit_char (d : Z) : ascii := ascii_of_N (Z.to_N (48 + d)).

(** The value of a byte between ['0'] and ['9']; [None] for any other. *)
Definition digit_val (c : ascii) : option Z :=
  let b := Z.of_N (N_of_ascii c) in
  if decide (48 ≤ b ≤ 57) then Some (b - 48) else None.

(** The digits of [u], most significant first, with at most [fuel] of them. *)
Fixpoint digits (fuel : nat) (u : Z) : list Z :=
  match fuel with
  | O => []
  | S fuel' =>
      if decide (u < 10) then [u mod 10] else digits fuel' (u / 10) ++ [u mod 10]
  end.

Fixpoint string_of_digits (ds : list Z) : string :=
  match ds with
  | [] => ""
  | d :: ds' => String (digit_char d) (string_of_digits ds')
  end.

(** The value of a list of digits read from the left, starting from [n]. *)
Definition digits_value (n : Z) (ds : list Z) : Z :=
  foldl (λ a d, a * 10 + d) n ds.

(** ** strconv.FormatInt *)

(** The loop of [formatBits] at base 10: the digits of [u] are written in
    front of [acc], least significant first. *)
Fixpoint format_digits (fuel : nat) (u : Z) (acc : string) : string :=
  match fuel with
  | O => acc
  | S fuel' =>
      let acc' := String (digit_char (u mod 10)) acc in
      if decide (u < 10) then acc' else format_digits fuel' (u / 10) acc'
  end.

(** A [uint64] has at most 20 decimal digits. *)
Definition FormatUint (u : Z) : string := format_digits 20 u "".

(** [strconv.FormatInt(i, 10)]. *)
Definition FormatInt (i : Z) : string :=
  if decide (i < 0) then String "-" (FormatUint (- i)) else FormatUint i.

(** ** strconv.ParseInt *)

(** The two errors of package strconv. *)
Inductive NumError : Set := ErrSyntax | ErrRange.

#[export] Instance NumError_eq_dec : EqDecision NumError.
Proof. solve_decision. Defined.

Definition maxUint64 : Z := uint_max 64.

(** The loop of [strconv.ParseUint(s, 10, 64)] from accumulator [n]: a byte
    that is no digit is a syntax error; a product or a sum that leaves the
    64 bits is a range error. *)
Fixpoint ParseUint_loop (n : Z) (s : string) : Z * option NumError :=
  match s with
  | "" => (n, None)
  | String c s' =>
      match digit_val c with
      | None => (0, Some ErrSyntax)
      | Some d =>
          if decide (maxUint64 `div` 10 + 1 ≤ n) then (maxUint64, Some ErrRange)
          else
            let n10 := n * 10 in
            let n1 := to_uint 64 (n10 + d) in
            if decide (n1 < n10 ∨ maxUint64 < n1) then (maxUint64, Some ErrRange)
            else ParseUint_loop n1 s'
      end
  end.

Definition ParseUint (s : string) : Z * option NumError :=
  match s with
  | "" => (0, Some ErrSyntax)
  | _ => ParseUint_loop 0 s
  end.

(** [strconv.ParseInt(s, 10, 64)]: an optional sign, then [ParseUint], then
    the range test against [1 << 63]. *)
Definition ParseInt (s : string) : Z * option NumError :=
  match s with
  | "" => (0, Some ErrSyntax)
  | String c s' =>
      let neg := bool_decide (c = "-"%char) in
      let s1 := if decide (c = "+"%char ∨ c = "-"%char) then s' else s in
      match ParseUint s1 with
      | (_, Some ErrSyntax) => (0, Some ErrSyntax)
      | (un, _) =>
          let cutoff := 2 ^ 63 in
          if negb neg && bool_decide (cutoff ≤ un) then (cutoff - 1, Some ErrRange)
          else if neg && bool_decide (cutoff < un) then (- cutoff, Some ErrRange)
          else (if neg then - un else un, None)
      end
  end.

(** ** strings.Split *)

(** [strings.Split(s, sep)] for a separator of one byte: the substrings of
    [s] between the separators, an empty one included. *)
Fixpoint Split (s : string) (sep : ascii) : list string :=
  match s with
  | "" => [""]
  | String c s' =>
      if decide (c = sep) then "" :: Split s' sep
      else match Split s' sep with
           | [] => [String c ""]
           | t :: ts => String c t :: ts
           end
  end.

(** [strings.Join(ts, sep)], the inverse of [Split]. *)
Fixpoint Join (ts : list string) (sep : ascii) : string :=
  match ts with
  | [] => ""
  | [t] => t
  | t :: ts' => t +:+ String sep (Join ts' sep)
  end.

(** The bytes of a string. *)
Fixpoint bytes (s : string) : list ascii :=
  match s with
  | "" => []
  | String c s' => c :: bytes s'
  end.

(** ** Digits *)

Lemma digit_val_char d : 0 ≤ d < 10 → digit_val (digit_char d) = Some d.
Proof.
  intros Hd. unfold digit_val, digit_char.
  rewrite N_ascii_embedding by lia.
  rewrite Z2N.id by lia. rewrite decide_True by lia. f_equal. lia.
Qed.

Lemma digit_val_range c d : digit_val c = Some d → 0 ≤ d < 10.
Proof. unfold digit_val. case_decide; intros [= <-]; lia. Qed.

Lemma digit_char_val c d : digit_val c = Some d → digit_char d = c.
Proof.
  unfold digit_val, digit_char. case_decide; intros [= <-].
  replace (48 + (Z.of_N (N_of_ascii c) - 48)) with (Z.of_N (N_of_ascii c)) by lia.
  by rewrite N2Z.id, ascii_N_embedding.
Qed.

(** A digit is neither a sign nor the separator. *)
Lemma digit_char_not_punct d c :
  0 ≤ d < 10 → c ∈ ["-"; "+"; ","]%char → digit_char d ≠ c.
Proof.
  intros Hd Hc Heq. pose proof (digit_val_char d Hd) as Hv. rewrite Heq in Hv.
  set_unfold. destruct Hc as [->|[->|[->|[]]]]; discriminate Hv.
Qed.

Lemma digits_range fuel u : Forall (λ d, 0 ≤ d < 10) (digits fuel u).
Proof.
  revert u. induction fuel as [|fuel IH]; intros u; simpl; [constructor|].
  case_decide; [|apply Forall_app; split; [apply IH|]];
    repeat constructor; apply Z.mod_pos_bound; lia.
Qed.

Lemma digits_nonempty fuel u : digits (S fuel) u ≠ [].
Proof. simpl. case_decide; [done|]. by intros [? ?]%app_eq_nil. Qed.

Lemma digits_value_app n ds ds' :
  digits_value n (ds ++ ds') = digits_value (digits_value n ds) ds'.
Proof. apply foldl_app. Qed.

(** Reading the digits of [u] gives [u], when the fuel covers them. *)
Lemma digits_value_digits fuel u :
  0 ≤ u < 10 ^ Z.of_nat fuel → digits_value 0 (digits fuel u) = u.
Proof.
  revert u. induction fuel as [|fuel IH]; intros u Hu.
  - change (10 ^ Z.of_nat 0) with 1 in Hu. simpl. unfold digits_value. simpl. lia.
  - simpl. case_decide; [unfold digits_value; simpl; rewrite Z.mod_small; lia|].
    rewrite digits_value_app, IH.
    + unfold digits_value. simpl. pose proof (Z.div_mod u 10). lia.
    + rewrite Nat2Z.inj_succ, Z.pow_succ_r in Hu by lia.
      split; [apply Z.div_pos; lia|]. apply Z.div_lt_upper_bound; lia.
Qed.

Lemma digits_value_mono n ds :
  0 ≤ n → Forall (λ d, 0 ≤ d < 10) ds → n ≤ digits_value n ds.
Proof.
  intros Hn Hds. revert n Hn. induction Hds as [|d ds Hd _ IH]; intros n Hn.
  - done.
  - unfold digits_value in *. simpl. etrans; [|apply IH]; lia.
Qed.

Lemma string_of_digits_app ds ds' :
  string_of_digits (ds ++ ds') = string_of_digits ds +:+ string_of_digits ds'.
Proof.
  induction ds as [|d ds IH]; simpl; [done|]. by rewrite string_app_cons, IH.
Qed.

Lemma bytes_app s1 s2 : bytes (s1 +:+ s2) = bytes s1 ++ bytes s2.
Proof.
  induction s1 as [|c s1 IH]; [done|]. rewrite string_app_cons. simpl. by f_equal.
Qed.

Lemma bytes_string_of_digits ds : bytes (string_of_digits ds) = digit_char <$> ds.
Proof. induction ds as [|d ds IH]; simpl; [done|]. by f_equal. Qed.

(** ** FormatInt *)

(** The printing loop writes the digits of [u]. *)
Lemma format_digits_spec fuel u acc :
  format_digits fuel u acc = string_of_digits (digits fuel u) +:+ acc.
Proof.
  revert u acc. induction fuel as [|fuel IH]; intros u acc; simpl; [done|].
  case_decide; [done|].
  by rewrite IH, string_of_digits_app, string_app_assoc.
Qed.

Lemma FormatUint_spec u : FormatUint u = string_of_digits (digits 20 u).
Proof. unfold FormatUint. by rewrite format_digits_spec, string_app_nil_r. Qed.

(** ** ParseInt *)

(** Parsing a run of digits that stays within 64 bits reads their value. *)
Lemma ParseUint_loop_digits ds n rest :
  0 ≤ n → Forall (λ d, 0 ≤ d < 10) ds → digits_value n ds ≤ maxUint64 →
  ParseUint_loop n (string_of_digits ds +:+ rest)
  = ParseUint_loop (digits_value n ds) rest.
Proof.
  intros Hn Hds. revert n Hn.
  induction Hds as [|d ds Hd Hds IH]; intros n Hn Hmax; [done|].
  pose proof (digits_value_mono (n * 10 + d) ds ltac:(lia) Hds) as Hmono.
  change (digits_value n (d :: ds)) with (digits_value (n * 10 + d) ds) in *.
  cbn [string_of_digits]. rewrite string_app_cons.
  cbn [ParseUint_loop]. rewrite digit_val_char by done. cbv zeta.
  unfold maxUint64 in *. int_ranges.
  change ((18446744073709551616 - 1) `div` 10) with 1844674407370955161.
  rewrite to_uint_small by (int_ranges; lia).
  rewrite !decide_False by lia. apply IH; lia.
Qed.

(** What [ParseUint] accepts fits in 64 bits. *)
Lemma ParseUint_loop_range s n v :
  in_uint 64 n → ParseUint_loop n s = (v, None) → in_uint 64 v.
Proof.
  revert n. induction s as [|c s IH]; intros n Hn; simpl.
  - by intros [= <-].
  - destruct (digit_val c) as [d|] eqn:Hd; [|done].
    apply digit_val_range in Hd. repeat case_decide; try done.
    apply IH. unfold to_uint, maxUint64 in *.
    pose proof (Z.mod_pos_bound (n * 10 + d) (2 ^ 64) ltac:(done)).
    int_ranges. lia.
Qed.

Lemma ParseUint_range s v : ParseUint s = (v, None) → in_uint 64 v.
Proof. destruct s; [done|]. apply ParseUint_loop_range. by int_ranges. Qed.

(** A range error comes with the largest [uint64]. *)
Lemma ParseUint_loop_ErrRange s n v :
  ParseUint_loop n s = (v, Some ErrRange) → v = maxUint64.
Proof.
  revert n. induction s as [|c s IH]; intros n; simpl; [done|].
  destruct (digit_val c); [|done]. repeat case_decide; try by intros [= <-].
  apply IH.
Qed.

Lemma ParseUint_ErrRange s v : ParseUint s = (v, Some ErrRange) → v = maxUint64.
Proof. destruct s; [done|]. apply ParseUint_loop_ErrRange. Qed.

Lemma ParseUint_FormatUint u :
  in_uint 64 u → ParseUint (FormatUint u) = (u, None).
Proof.
  intros Hu. rewrite FormatUint_spec.
  pose proof (digits_nonempty 19 u) as Hne.
  pose proof (digits_range 20 u) as Hr.
  assert (digits_value 0 (digits 20 u) = u) as Hv.
  { apply digits_value_digits.
    change (10 ^ Z.of_nat 20) with 100000000000000000000. int_ranges. lia. }
  destruct (digits 20 u) as [|d ds] eqn:Hds; [done|].
  change (ParseUint (string_of_digits (d :: ds)))
    with (ParseUint_loop 0 (string_of_digits (d :: ds))).
  rewrite <-(string_app_nil_r (string_of_digits (d :: ds))).
  rewrite ParseUint_loop_digits; rewrite ?Hv; unfold maxUint64; int_ranges;
    first [done | lia].
Qed.

(** The first byte of a printed unsigned number is a digit. *)
Lemma FormatUint_head u : ∃ d s, 0 ≤ d < 10 ∧ FormatUint u = String (digit_char d) s.
Proof.
  rewrite FormatUint_spec. pose proof (digits_nonempty 19 u) as Hne.
  pose proof (digits_range 20 u) as Hr.
  destruct (digits 20 u) as [|d ds]; [done|].
  apply Forall_cons in Hr as [Hd _]. by exists d, (string_of_digits ds).
Qed.

(** Printing then parsing an [int64] gives it back, with no error. *)
Lemma ParseInt_FormatInt k : in_int 64 k → ParseInt (FormatInt k) = (k, None).
Proof.
  intros Hk. unfold FormatInt. case_decide as Hneg.
  - unfold ParseInt. rewrite bool_decide_eq_true_2, decide_True by auto.
    rewrite ParseUint_FormatUint by (int_ranges; lia). simpl.
    rewrite bool_decide_eq_false_2 by (int_ranges; lia). f_equal. lia.
  - destruct (FormatUint_head k) as (d & s & Hd & Heq).
    assert (∀ c, c ∈ ["-"; "+"; ","]%char → digit_char d ≠ c) as Hpunct
      by (intros; by apply digit_char_not_punct).
    pose proof (ParseUint_FormatUint k ltac:(int_ranges; lia)) as Hp.
    rewrite Heq in *. unfold ParseInt.
    rewrite bool_decide_eq_false_2 by (apply Hpunct; set_solver).
    rewrite decide_False by (intros [?|?]; (eapply Hpunct; [|done]; set_solver)).
    rewrite Hp. simpl. by rewrite bool_decide_eq_false_2 by (int_ranges; lia).
Qed.

(** What [ParseInt] accepts is an [int64]. *)
Lemma ParseInt_range s v : ParseInt s = (v, None) → in_int 64 v.
Proof.
  destruct s as [|c s]; [done|]. unfold ParseInt.
  destruct (ParseUint _) as [un [[]|]] eqn:Hp; [done|..].
  - apply ParseUint_ErrRange in Hp as ->. unfold maxUint64.
    by destruct (bool_decide (c = "-"%char)).
  - apply ParseUint_range in Hp.
    destruct (bool_decide (c = "-"%char)); simpl; case_bool_decide; try done;
      intros [= <-]; int_ranges; lia.
Qed.

(** Parsing a run of digits whose value leaves the 64 bits is a range
    error, with the largest [uint64]. *)
Lemma ParseUint_loop_overflow ds n :
  0 ≤ n ≤ maxUint64 → Forall (λ d, 0 ≤ d < 10) ds → maxUint64 < digits_value n ds →
  ParseUint_loop n (string_of_digits ds) = (maxUint64, Some ErrRange).
Proof.
  intros Hn Hds. revert n Hn.
  induction Hds as [|d ds Hd Hds IH]; intros n Hn Hmax; [unfold digits_value in Hmax; simpl in Hmax; lia|].
  change (digits_value n (d :: ds)) with (digits_value (n * 10 + d) ds) in *.
  cbn [string_of_digits ParseUint_loop]. rewrite digit_val_char by done. cbv zeta.
  unfold maxUint64 in *. int_ranges.
  change ((18446744073709551616 - 1) `div` 10) with 1844674407370955161.
  case_decide as Hbig; [done|].
  destruct (decide (n * 10 + d < 18446744073709551616)) as [Hfit|Hwrap].
  - rewrite to_uint_small by (int_ranges; lia). rewrite decide_False by lia.
    apply IH; [lia|done].
  - rewrite decide_True; [done|]. left. unfold to_uint. int_ranges.
    rewrite <-(Z.mod_add _ (-1)) by done. rewrite Z.mod_small; lia.
Qed.

Lemma ParseUint_FormatUint_overflow u :
  uint_max 64 < u < 10 ^ 20 → ParseUint (FormatUint u) = (maxUint64, Some ErrRange).
Proof.
  intros Hu. rewrite FormatUint_spec.
  pose proof (digits_nonempty 19 u) as Hne.
  pose proof (digits_range 20 u) as Hr.
  assert (digits_value 0 (digits 20 u) = u) as Hv
    by (apply digits_value_digits; int_ranges; lia).
  destruct (digits 20 u) as [|d ds] eqn:Hds; [done|].
  change (ParseUint (string_of_digits (d :: ds)))
    with (ParseUint_loop 0 (string_of_digits (d :: ds))).
  apply ParseUint_loop_overflow; [unfold maxUint64; int_ranges; lia|done|].
  rewrite Hv. unfold maxUint64. lia.
Qed.

(** The numeral of a number that is no [int64] is a range error, with the
    nearest [int64]: [ParseInt] returns the clamped value beside the error. *)
Lemma ParseInt_FormatInt_overflow k :
  ¬ in_int 64 k → - 10 ^ 20 < k < 10 ^ 20 →
  ParseInt (FormatInt k)
  = (if decide (k < 0) then int_min 64 else int_max 64, Some ErrRange).
Proof.
  intros Hk Hb.
  assert (∀ u, int_max 64 < u < 10 ^ 20 →
            ∃ un e, ParseUint (FormatUint u) = (un, e) ∧ e ≠ Some ErrSyntax ∧
                    u `min` maxUint64 = un) as Hun.
  { intros u Hu. destruct (decide (u ≤ uint_max 64)).
    - exists u, None. rewrite ParseUint_FormatUint by (int_ranges; lia).
      split_and!; [done..|]. unfold maxUint64. lia.
    - exists maxUint64, (Some ErrRange). rewrite ParseUint_FormatUint_overflow by lia.
      split_and!; [done..|]. unfold maxUint64. lia. }
  unfold FormatInt. case_decide as Hneg.
  - destruct (Hun (- k)) as (un & e & Hp & He & Hmin); [int_ranges; lia|].
    unfold ParseInt. rewrite bool_decide_eq_true_2, decide_True by auto. rewrite Hp.
    destruct e as [[]|]; try done; simpl;
      (rewrite bool_decide_eq_true_2; [done|unfold maxUint64 in *; int_ranges; lia]).
  - destruct (Hun k) as (un & e & Hp & He & Hmin); [int_ranges; lia|].
    destruct (FormatUint_head k) as (d & s & Hd & Heq).
    assert (∀ c, c ∈ ["-"; "+"; ","]%char → digit_char d ≠ c) as Hpunct
      by (intros; by apply digit_char_not_punct).
    rewrite Heq in *. unfold ParseInt.
    rewrite bool_decide_eq_false_2 by (apply Hpunct; set_solver).
    rewrite decide_False by (intros [?|?]; (eapply Hpunct; [|done]; set_solver)).
    rewrite Hp.
    destruct e as [[]|]; try done; simpl;
      (rewrite bool_decide_eq_true_2; [done|unfold maxUint64 in *; int_ranges; lia]).
Qed.

(** A printed number holds digits and possibly a leading sign, so it holds
    no separator and is not empty. *)
Lemma FormatInt_bytes k :
  Forall (λ c, c = "-"%char ∨ ∃ d, 0 ≤ d < 10 ∧ c = digit_char d) (bytes (FormatInt k)).
Proof.
  assert (∀ u, Forall (λ c, c = "-"%char ∨ ∃ d, 0 ≤ d < 10 ∧ c = digit_char d)
                 (bytes (FormatUint u))) as Hu.
  { intros u. rewrite FormatUint_spec, bytes_string_of_digits.
    apply Forall_fmap. eapply Forall_impl; [apply digits_range|].
    intros d Hd. right. by exists d. }
  unfold FormatInt. case_decide; [|apply Hu].
  simpl. constructor; [by left | apply Hu].
Qed.

(** A number below [10 ^ n] has at most [n] digits, *)
Lemma digits_length fuel u n :
  (0 < n)%nat → 0 ≤ u < 10 ^ Z.of_nat n → (length (digits fuel u) ≤ n)%nat.
Proof.
  revert u n. induction fuel as [|fuel IH]; intros u n Hn Hu; simpl; [lia|].
  case_decide as Hlt; [simpl; lia|]. rewrite length_app. simpl.
  destruct n as [|[|n]]; [lia | change (10 ^ Z.of_nat 1) with 10 in Hu; lia |].
  rewrite Nat2Z.inj_succ, Z.pow_succ_r in Hu by lia.
  assert (length (digits fuel (u `div` 10)) ≤ S n)%nat; [|lia].
  apply IH; [lia|]. split; [apply Z.div_pos; lia | apply Z.div_lt_upper_bound; lia].
Qed.

(** so an [int64] prints in at most 20 bytes: 19 digits and a sign. *)
Lemma FormatInt_length k : in_int 64 k → (length (bytes (FormatInt k)) ≤ 20)%nat.
Proof.
  intros Hk. int_ranges.
  assert (∀ u, 0 ≤ u ≤ 9223372036854775808 → (length (bytes (FormatUint u)) ≤ 19)%nat)
    as Hu.
  { intros u Hu. rewrite FormatUint_spec, bytes_string_of_digits, length_fmap.
    apply digits_length; [lia|]. change (10 ^ Z.of_nat 19) with 10000000000000000000. lia. }
  unfold FormatInt. case_decide; simpl.
  - specialize (Hu (- k)). lia.
  - specialize (Hu k). lia.
Qed.

Lemma FormatInt_no_comma k : ","%char ∉ bytes (FormatInt k).
Proof.
  intros Hin. pose proof (FormatInt_bytes k) as Hall.
  rewrite Forall_forall in Hall. destruct (Hall _ Hin) as [?|(d & Hd & Heq)]; [done|].
  symmetry in Heq. revert Heq. apply digit_char_not_punct; [done | set_solver].
Qed.

Lemma FormatInt_nonempty k : FormatInt k ≠ "".
Proof.
  unfold FormatInt. case_decide; [done|].
  by destruct (FormatUint_head k) as (d & s & _ & ->).
Qed.

(** Printing is injective on [int64]: two offsets never share a token. *)
Lemma FormatInt_inj k1 k2 :
  in_int 64 k1 → in_int 64 k2 → FormatInt k1 = FormatInt k2 → k1 = k2.
Proof.
  intros H1 H2 Heq. apply ParseInt_FormatInt in H1, H2.
  rewrite Heq in H1. congruence.
Qed.

(** ** Split *)

Lemma Split_nonempty s sep : Split s sep ≠ [].
Proof. destruct s as [|c s]; simpl; [done|]. case_decide; [done|]. by destruct (Split s sep). Qed.

(** A string with no separator is one token. *)
Lemma Split_no_sep s sep : sep ∉ bytes s → Split s sep = [s].
Proof.
  induction s as [|c s IH]; simpl; [done|]. intros Hnin.
  rewrite decide_False by set_solver. rewrite IH by set_solver. done.
Qed.

(** The first token ends at the first separator. *)
Lemma Split_app_sep a rest sep :
  sep ∉ bytes a → Split (a +:+ String sep rest) sep = a :: Split rest sep.
Proof.
  induction a as [|c a IH]; intros Hnin.
  - rewrite string_app_nil_l. simpl. by rewrite decide_True.
  - rewrite string_app_cons. simpl in *. rewrite decide_False by set_solver.
    by rewrite IH by set_solver.
Qed.

(** No token holds the separator. *)
Lemma Split_tokens s sep : Forall (λ t, sep ∉ bytes t) (Split s sep).
Proof.
  induction s as [|c s IH]; simpl; [repeat constructor; set_solver|].
  case_decide; [constructor; [set_solver | done]|].
  destruct (Split s sep) as [|t ts]; [repeat constructor; set_solver|].
  apply Forall_cons in IH as [Ht Hts]. constructor; [set_solver | done].
Qed.

(** Joining the tokens with the separator gives the string back. *)
Lemma Join_Split s sep : Join (Split s sep) sep = s.
Proof.
  induction s as [|c s IH]; simpl; [done|].
  pose proof (Split_nonempty s sep) as Hne. case_decide as Hc.
  - subst c. destruct (Split s sep) as [|t ts]; [done|]. simpl in *. by rewrite IH.
  - destruct (Split s sep) as [|t ts]; [done|]. destruct ts as [|t' ts].
    + simpl in *. by rewrite IH.
    + change (Join (String c t :: t' :: ts) sep)
        with (String c t +:+ String sep (Join (t' :: ts) sep)).
      rewrite string_app_cons. f_equal. exact IH.
Qed.
