(* ===== verification/Heap.v ===== *)
(** * Heap: Go maps as shared objects

    The pending offsets of a ledger are a [map[int64]struct{}].  A Go map
    is a reference to an object: copying the struct that holds it copies
    the reference, and every copy sees the writes made through any other.
    This file models the objects and the operations the sources use on
    them:

    - [m[k] = struct{}{}]  is [map_assign] (it panics on the nil map);
    - [delete(m, k)]       is [map_delete] (it does nothing on the nil map);
    - [len(m)]             is [map_len];
    - [for k := range m]   visits the keys in an order [ks] that satisfies
      [range_of].

    These are operations of the language, not functions of the
    repository; they are modelled from the language specification. *)

From S2P Require Import Prelude.

#[local] Open Scope Z_scope.

(** The address of a map object. *)
Definition loc : Set := positive.

(** A value of type [map[int64]struct{}]: nil, or a reference. *)
Definition mapref : Set := option loc.

(** The store of map objects.  It is read with total lookup: an address
    that was never written holds the empty map. *)
Abbreviation heap := (gmap loc (gset Z)).

(** The keys of the map [r] refers to. *)
Definition map_contents (h : heap) (r : mapref) : gset Z :=
  match r with
  | None => ∅
  | Some l => h !!! l
  end.

(** [len(m)] *)
Definition map_len (h : heap) (r : mapref) : Z :=
  Z.of_nat (size (map_contents h r)).

(** [m[k] = struct{}{}] *)
Definition map_assign (r : mapref) (k : Z) : exec heap unit :=
  match r with
  | None => raise NilMapAssign
  | Some l => modify (λ h, <[l := {[k]} ∪ h !!! l]> h)
  end.

(** [delete(m, k)] *)
Definition map_delete (r : mapref) (k : Z) : exec heap unit :=
  match r with
  | None => mret tt
  | Some l => modify (λ h, <[l := h !!! l ∖ {[k]}]> h)
  end.

(** [ks] is an order in which [for k := range m] may visit the keys. *)
Definition range_of (h : heap) (r : mapref) (ks : list Z) : Prop :=
  ks ≡ₚ elements (map_contents h r).

#[export] Instance range_of_dec h r ks : Decision (range_of h r ks).
Proof. unfold range_of. apply _. Defined.

(** Two stores are equivalent when every address holds the same keys in
    both: a store cannot tell an address that was never written from one
    that holds the empty map. *)
#[export] Instance heap_equiv : Equiv heap := λ h1 h2, ∀ l, h1 !!! l = h2 !!! l.

(** Every key stored anywhere is an [int64]. *)
Definition heap_wf (h : heap) : Prop :=
  map_Forall (λ _ X, set_Forall (in_int 64) X) h.

#[export] Instance heap_wf_dec h : Decision (heap_wf h).
Proof. unfold heap_wf. apply _. Defined.

(** ** The equivalence of stores *)

#[export] Instance heap_equiv_equivalence : Equivalence (≡@{heap}).
Proof.
  split.
  - by intros h l.
  - intros h1 h2 H l. by rewrite (H l).
  - intros h1 h2 h3 H12 H23 l. by rewrite (H12 l), (H23 l).
Qed.

#[export] Instance map_contents_proper : Proper ((≡) ==> (=) ==> (=)) map_contents.
Proof. intros h1 h2 H r ? <-. destruct r as [l|]; [apply H | done]. Qed.

#[export] Instance map_len_proper : Proper ((≡) ==> (=) ==> (=)) map_len.
Proof. intros h1 h2 H r ? <-. unfold map_len. by rewrite H. Qed.

#[export] Instance range_of_proper : Proper ((≡) ==> (=) ==> (=) ==> iff) range_of.
Proof. intros h1 h2 H r ? <- ks ? <-. unfold range_of. by rewrite H. Qed.

(** Well-formedness, in terms of what can be read from the store. *)
Lemma heap_wf_alt h : heap_wf h ↔ ∀ l k, k ∈ h !!! l → in_int 64 k.
Proof.
  unfold heap_wf. rewrite map_Forall_lookup. split.
  - intros Hwf l k. rewrite lookup_total_alt.
    destruct (h !! l) as [X|] eqn:Hl; simpl; [|set_solver].
    intros Hk. by apply (Hwf l X Hl).
  - intros Hwf l X Hl k Hk. apply (Hwf l). by rewrite lookup_total_alt, Hl.
Qed.

Lemma heap_wf_lookup h l k : heap_wf h → k ∈ h !!! l → in_int 64 k.
Proof. rewrite heap_wf_alt. intros Hwf. apply Hwf. Qed.

Lemma heap_wf_contents h r k : heap_wf h → k ∈ map_contents h r → in_int 64 k.
Proof. destruct r as [l|]; simpl; [apply heap_wf_lookup | set_solver]. Qed.

#[export] Instance heap_wf_proper : Proper ((≡) ==> iff) heap_wf.
Proof.
  intros h1 h2 H. rewrite !heap_wf_alt.
  split; intros Hwf l k Hk; apply (Hwf l k); [by rewrite (H l) | by rewrite <-(H l)].
Qed.

(** Writing the keys an address already holds changes nothing. *)
Lemma heap_insert_id (h : heap) l : <[l := h !!! l]> h ≡ h.
Proof.
  intros l'. destruct (decide (l = l')) as [<-|Hne].
  - by rewrite lookup_total_insert_eq.
  - by rewrite lookup_total_insert_ne.
Qed.

(** ** Reading *)

Lemma map_contents_nil h : map_contents h None = ∅.
Proof. done. Qed.

Lemma map_len_nil h : map_len h None = 0.
Proof. done. Qed.

Lemma map_len_nonneg h r : 0 ≤ map_len h r.
Proof. unfold map_len. lia. Qed.

Lemma map_len_zero h r : map_len h r = 0 ↔ map_contents h r = ∅.
Proof.
  unfold map_len. split.
  - intros Hz. apply leibniz_equiv, size_empty_iff. lia.
  - intros ->. by rewrite size_empty.
Qed.

Lemma map_len_pos h r : 0 < map_len h r ↔ map_contents h r ≠ ∅.
Proof. pose proof (map_len_nonneg h r). rewrite <-map_len_zero. lia. Qed.

(** ** Assignment and deletion *)

Lemma map_assign_nil k h : map_assign None k h = Panic NilMapAssign.
Proof. done. Qed.

Lemma map_assign_Some l k h :
  map_assign (Some l) k h = Done (tt, <[l := {[k]} ∪ h !!! l]> h).
Proof. done. Qed.

Lemma map_delete_nil k h : map_delete None k h = Done (tt, h).
Proof. done. Qed.

Lemma map_delete_Some l k h :
  map_delete (Some l) k h = Done (tt, <[l := h !!! l ∖ {[k]}]> h).
Proof. done. Qed.

(** The keys seen through [r'] after a store through [Some l]. *)
Lemma map_contents_insert h l (X : gset Z) r' :
  map_contents (<[l := X]> h) r'
  = if decide (r' = Some l) then X else map_contents h r'.
Proof.
  case_decide as Hr; [subst; apply lookup_total_insert_eq|].
  destruct r' as [l'|]; [|done]. apply lookup_total_insert_ne. congruence.
Qed.

(** A reference that aliases [r] sees the assignment; any other does not. *)
Lemma map_assign_contents r k h h' r' :
  map_assign r k h = Done (tt, h') →
  map_contents h' r'
  = if decide (r' = r) then {[k]} ∪ map_contents h r else map_contents h r'.
Proof.
  destruct r as [l|]; [|done]. rewrite map_assign_Some. intros [= <-].
  by rewrite map_contents_insert.
Qed.

Lemma map_delete_contents r k h h' r' :
  map_delete r k h = Done (tt, h') →
  map_contents h' r'
  = if decide (r' = r) then map_contents h r ∖ {[k]} else map_contents h r'.
Proof.
  destruct r as [l|].
  - rewrite map_delete_Some. intros [= <-]. by rewrite map_contents_insert.
  - rewrite map_delete_nil. intros [= <-]. case_decide; [subst; set_solver | done].
Qed.

(** Deleting never panics. *)
Lemma map_delete_total r k h : ∃ h', map_delete r k h = Done (tt, h').
Proof. destruct r; by eexists. Qed.

(** Assigning panics exactly on the nil map. *)
Lemma map_assign_panics r k h p : map_assign r k h = Panic p ↔ r = None ∧ p = NilMapAssign.
Proof. destruct r; simpl; [|unfold raise]; naive_solver. Qed.

(** The operations keep every key an [int64], when the key written is one. *)
Lemma map_assign_wf r k h h' :
  in_int 64 k → heap_wf h → map_assign r k h = Done (tt, h') → heap_wf h'.
Proof.
  rewrite !heap_wf_alt. intros Hk Hwf Hrun l' k'.
  change (h' !!! l') with (map_contents h' (Some l')).
  rewrite (map_assign_contents _ _ _ _ _ Hrun). case_decide; simpl.
  - destruct r as [l|]; [|done]. simpl. intros [->%elem_of_singleton|?]%elem_of_union;
      [done | by eapply Hwf].
  - apply Hwf.
Qed.

Lemma map_delete_wf r k h h' :
  heap_wf h → map_delete r k h = Done (tt, h') → heap_wf h'.
Proof.
  rewrite !heap_wf_alt. intros Hwf Hrun l' k'.
  change (h' !!! l') with (map_contents h' (Some l')).
  rewrite (map_delete_contents _ _ _ _ _ Hrun). case_decide; simpl.
  - destruct r as [l|]; [|done]. simpl. intros [? _]%elem_of_difference. by eapply Hwf.
  - apply Hwf.
Qed.

(** ** Ranging *)

Section range.
Context (h : heap) (r : mapref) (ks : list Z).
Hypothesis Hrange : range_of h r ks.

(** A range visits every key, *)
Lemma range_of_elem k : k ∈ ks ↔ k ∈ map_contents h r.
Proof. unfold range_of in Hrange. rewrite Hrange. apply elem_of_elements. Qed.

(** each of them once, *)
Lemma range_of_NoDup : NoDup ks.
Proof. unfold range_of in Hrange. rewrite Hrange. apply NoDup_elements. Qed.

(** so it makes [len(m)] visits. *)
Lemma range_of_length : Z.of_nat (length ks) = map_len h r.
Proof. unfold range_of, map_len in *. by rewrite Hrange. Qed.

Lemma range_of_set : list_to_set ks = map_contents h r.
Proof. unfold range_of in Hrange. rewrite Hrange. apply list_to_set_elements_L. Qed.

Lemma range_of_nil : ks = [] ↔ map_len h r = 0.
Proof. rewrite <-range_of_length. destruct ks; simpl; split; (done || lia). Qed.

End range.

(** Every map has an order to range in. *)
Lemma range_of_elements h r : range_of h r (elements (map_contents h r)).
Proof. by unfold range_of. Qed.

(** Any two orders of one map are permutations of each other. *)
Lemma range_of_perm h r ks ks' : range_of h r ks → range_of h r ks' → ks ≡ₚ ks'.
Proof. unfold range_of. by intros -> ->. Qed.
