(* ===== verification/Offsets.v ===== *)
(** * Offsets: the offset ledger

    [offsetInfo] (src/cluster.go) records, for one partition, the last
    confirmed offset, the offsets confirmed out of order (a map used as a
    set) and a metadata string that carries those pending offsets through
    the commit API.  [Serialize] prints the pending offsets into the
    metadata, [Deserialize] reads the metadata back into the pending map,
    [NextOffset] chooses the offset to resume from.

    The three methods have value receivers: each works on a copy of the
    struct.  The copy shares the pending map with the original, so
    [Deserialize], which writes to the map, changes the original's pending
    offsets too, and panics when the map is nil and the metadata holds a
    number.  [Serialize] and [NextOffset] range over the map; the order of
    the visit is their argument [ks].

    The file proves the round trip between the two representations for
    every order of the visit, the behaviour of [Deserialize] on malformed
    metadata, on numbers that are no [int64] and on the nil map, the
    size of the metadata [Serialize] writes, and the three cases of
    [NextOffset]. *)

From Stdlib Require Import Ascii.
From S2P Require Import Prelude Strconv Heap.

#[local] Open Scope Z_scope.

(** ** The ledger *)

Record offsetInfo : Set := mkOffsetInfo {
  Offset : Z;
  PendingOffsets : mapref;
  Metadata : string;
}.

#[export] Instance offsetInfo_eq_dec : EqDecision offsetInfo.
Proof. solve_decision. Defined.

(** The zero value of the struct. *)
#[export] Instance offsetInfo_inhabited : Inhabited offsetInfo :=
  populate {| Offset := 0; PendingOffsets := None; Metadata := "" |}.

(** The pending offsets of a ledger, as a set. *)
Definition pending (h : heap) (i : offsetInfo) : gset Z :=
  map_contents h (PendingOffsets i).

(** ** Serialize *)

(** One turn of the loop: [meta += strconv.FormatInt(k, 10) + ","]. *)
Definition Serialize_entry (meta : string) (k : Z) : string :=
  meta +:+ FormatInt k +:+ ",".

(** [Serialize], when the range over the pending map visits [ks]. *)
Definition Serialize (ks : list Z) (i : offsetInfo) : offsetInfo :=
  let meta := foldl Serialize_entry "" ks in
  {| Offset := Offset i; PendingOffsets := PendingOffsets i; Metadata := meta |}.

(** ** Deserialize *)

(** One turn of the loop, on the token [k]: an empty token and a token that
    is no [int64] are skipped; a number is stored in the pending map. *)
Definition Deserialize_entry (r : mapref) (k : string) : exec heap unit :=
  if decide (k = "") then mret tt
  else
    match ParseInt k with
    | (_, Some _) => mret tt
    | (offset, None) => map_assign r offset
    end.

Definition Deserialize (i : offsetInfo) : exec heap offsetInfo :=
  let parts := Split (Metadata i) "," in
  for_each (Deserialize_entry (PendingOffsets i)) parts ;;
  mret i.

(** ** NextOffset *)

(** [NextOffset], when the range over the pending map visits [ks]: the loop
    returns at its first turn. *)
Definition NextOffset (h : heap) (ks : list Z) (i : offsetInfo) (fallback : Z) : Z :=
  if decide (-1 < Offset i) then
    if decide (0 < map_len h (PendingOffsets i)) then
      match ks with
      | k :: _ => k
      | [] => Offset i
      end
    else Offset i
  else fallback.

(** ** Reference definitions *)

(** The number a token stands for, if it is one. *)
Definition token_offset (k : string) : option Z :=
  if decide (k = "") then None
  else match ParseInt k with
       | (offset, None) => Some offset
       | (_, Some _) => None
       end.

(** The offsets a metadata string holds: its well-formed tokens. *)
Definition metadata_offsets (meta : string) : list Z :=
  omap token_offset (Split meta ",").

(** The metadata of a list of offsets: each followed by the separator. *)
Fixpoint offsets_metadata (ks : list Z) : string :=
  match ks with
  | [] => ""
  | k :: ks' => FormatInt k +:+ String "," (offsets_metadata ks')
  end.

(** A ledger is well formed when its confirmed offset is an [int64] not
    below -1. *)
Definition offsetInfo_wf (i : offsetInfo) : Prop :=
  -1 ≤ Offset i ∧ in_int 64 (Offset i).

#[export] Instance offsetInfo_wf_dec i : Decision (offsetInfo_wf i).
Proof. unfold offsetInfo_wf. apply _. Defined.

(** ** Ledgers to run the definitions on *)

(** A store with one map, the pending offsets 5 and 7, *)
Definition ex_heap : heap := {[ 1%positive := {[ 5; 7 ]} ]}.

(** the ledger that owns it, *)
Definition ex_ledger : offsetInfo :=
  {| Offset := 4; PendingOffsets := Some 1%positive; Metadata := "" |}.

(** a fresh ledger that received the metadata the first one wrote, *)
Definition ex_received : offsetInfo :=
  {| Offset := 4; PendingOffsets := Some 2%positive; Metadata := "7,5," |}.

(** A ledger whose metadata holds two numbers that are no [int64], beside
    5 and the smallest [int64]. *)
Definition ex_overflowing : offsetInfo :=
  {| Offset := 3; PendingOffsets := Some 2%positive;
     Metadata := "9223372036854775808,5,-9223372036854775809,-9223372036854775808," |}.

(** the same with a nil map, *)
Definition ex_nil_ledger : offsetInfo :=
  {| Offset := 4; PendingOffsets := None; Metadata := "7,5," |}.

(** and a ledger with pending offsets but no confirmed offset. *)
Definition ex_unconfirmed : offsetInfo :=
  {| Offset := -1; PendingOffsets := Some 1%positive; Metadata := "" |}.

(** ** Serialize: what it writes *)

Lemma Serialize_entry_foldl acc ks :
  foldl Serialize_entry acc ks = acc +:+ offsets_metadata ks.
Proof.
  revert acc. induction ks as [|k ks IH]; intros acc; simpl.
  - by rewrite string_app_nil_r.
  - rewrite IH. unfold Serialize_entry.
    by rewrite !string_app_assoc, string_app_cons, string_app_nil_l.
Qed.

Lemma Serialize_Metadata ks i : Metadata (Serialize ks i) = offsets_metadata ks.
Proof. unfold Serialize. simpl. by rewrite Serialize_entry_foldl. Qed.

(** [Serialize] changes the metadata only. *)
Lemma Serialize_Offset ks i : Offset (Serialize ks i) = Offset i.
Proof. done. Qed.

Lemma Serialize_PendingOffsets ks i : PendingOffsets (Serialize ks i) = PendingOffsets i.
Proof. done. Qed.

(** No pending offset, empty metadata: the representation [State] takes for
    "not serialized yet". *)
Lemma Serialize_empty h i ks :
  range_of h (PendingOffsets i) ks → pending h i = ∅ → Metadata (Serialize ks i) = "".
Proof.
  intros Hr He%map_len_zero. rewrite Serialize_Metadata.
  by apply (range_of_nil _ _ _ Hr) in He as ->.
Qed.

Lemma offsets_metadata_nonempty k ks : offsets_metadata (k :: ks) ≠ "".
Proof.
  simpl. pose proof (FormatInt_nonempty k). by destruct (FormatInt k).
Qed.

(** The tokens of a serialized list: the printed offsets, then the empty
    token that follows the last separator. *)
Lemma Split_offsets_metadata ks :
  Split (offsets_metadata ks) "," = (FormatInt <$> ks) ++ [""].
Proof.
  induction ks as [|k ks IH]; simpl; [done|].
  by rewrite Split_app_sep, IH by apply FormatInt_no_comma.
Qed.

Lemma token_offset_FormatInt k : in_int 64 k → token_offset (FormatInt k) = Some k.
Proof.
  intros Hk. unfold token_offset.
  rewrite decide_False by apply FormatInt_nonempty. by rewrite ParseInt_FormatInt.
Qed.

Lemma token_offset_range k v : token_offset k = Some v → in_int 64 v.
Proof.
  unfold token_offset. case_decide; [done|].
  destruct (ParseInt k) as [v' [e|]] eqn:Hp; [done|].
  intros [= <-]. by eapply ParseInt_range.
Qed.

Lemma token_offset_FormatInt_list ks :
  Forall (in_int 64) ks → omap token_offset (FormatInt <$> ks) = ks.
Proof.
  induction 1 as [|k ks Hk _ IH]; [done|].
  cbn [fmap list_fmap omap list_omap]. by rewrite token_offset_FormatInt, IH.
Qed.

(** Reading back what was written gives the offsets, in the order written. *)
Lemma metadata_offsets_metadata ks :
  Forall (in_int 64) ks → metadata_offsets (offsets_metadata ks) = ks.
Proof.
  intros Hks. unfold metadata_offsets.
  rewrite Split_offsets_metadata, omap_app, token_offset_FormatInt_list by done.
  apply app_nil_r.
Qed.

Lemma metadata_offsets_range meta : Forall (in_int 64) (metadata_offsets meta).
Proof.
  unfold metadata_offsets. apply Forall_forall. intros v (k & _ & Hk)%list_elem_of_omap.
  by eapply token_offset_range.
Qed.

(** A numeral that is no [int64] is no offset. *)
Lemma token_offset_overflow k :
  ¬ in_int 64 k → - 10 ^ 20 < k < 10 ^ 20 → token_offset (FormatInt k) = None.
Proof.
  intros Hk Hb. unfold token_offset.
  rewrite decide_False by apply FormatInt_nonempty.
  by rewrite ParseInt_FormatInt_overflow.
Qed.

(** Reading back the numerals of any numbers gives the [int64] among them,
    in the order written. *)
Lemma metadata_offsets_numerals ks :
  Forall (λ k, - 10 ^ 20 < k < 10 ^ 20) ks →
  metadata_offsets (offsets_metadata ks) = filter (in_int 64) ks.
Proof.
  intros Hks. unfold metadata_offsets. rewrite Split_offsets_metadata, omap_app.
  cbn [omap list_omap]. rewrite app_nil_r.
  induction Hks as [|k ks Hk _ IH]; [done|].
  cbn [fmap list_fmap omap list_omap]. rewrite filter_cons, IH.
  destruct (decide (in_int 64 k)).
  - by rewrite token_offset_FormatInt.
  - by rewrite token_offset_overflow.
Qed.

(** ** Deserialize: what it stores *)

Lemma Deserialize_entry_spec r k :
  Deserialize_entry r k
  = match token_offset k with
    | Some offset => map_assign r offset
    | None => mret tt
    end.
Proof.
  unfold Deserialize_entry, token_offset. case_decide; [done|].
  by destruct (ParseInt k) as [v [e|]].
Qed.

(** The loop over the tokens, on a map that is not nil: every number is
    added to the map, and nothing else changes. *)
Lemma Deserialize_loop_Some l ts h :
  ∃ h', for_each (Deserialize_entry (Some l)) ts h = Done (tt, h') ∧
    ∀ r', map_contents h' r'
          = if decide (r' = Some l)
            then list_to_set (omap token_offset ts) ∪ map_contents h (Some l)
            else map_contents h r'.
Proof.
  revert h. induction ts as [|t ts IH]; intros h.
  - exists h. split; [done|]. intros r'. case_decide; [subst; set_solver | done].
  - cbn [for_each]. rewrite Deserialize_entry_spec. cbn [omap list_omap].
    destruct (token_offset t) as [v|].
    + destruct (IH (<[l := {[v]} ∪ h !!! l]> h)) as (h' & Hrun & Hc).
      exists h'. split; [by rewrite (exec_bind_done _ _ _ tt _ (map_assign_Some l v h))|].
      intros r'. rewrite Hc, !map_contents_insert.
      rewrite (decide_True (P:=Some l = Some l)) by done.
      case_decide; [simpl; set_solver | done].
    + destruct (IH h) as (h' & Hrun & Hc). exists h'. split; [done|].
      intros r'. by rewrite Hc.
Qed.

(** The loop over the tokens, on the nil map: it panics at the first number. *)
Lemma Deserialize_loop_nil ts h :
  for_each (Deserialize_entry None) ts h
  = match omap token_offset ts with
    | [] => Done (tt, h)
    | _ :: _ => Panic NilMapAssign
    end.
Proof.
  induction ts as [|t ts IH]; [done|].
  cbn [for_each]. rewrite Deserialize_entry_spec. cbn [omap list_omap].
  destruct (token_offset t) as [v|]; [done|].
  by rewrite (exec_bind_done _ _ _ tt h).
Qed.

(** [Deserialize] returns the ledger it was called on; what it changes is
    the map the ledger shares with its copies. *)
Lemma Deserialize_returns i h j h' : Deserialize i h = Done (j, h') → j = i.
Proof.
  unfold Deserialize. intros (u & h1 & _ & Hret)%exec_bind_inv.
  by injection Hret as <- _.
Qed.

(** [Deserialize] in closed form, on a ledger whose map is not nil, *)
Lemma Deserialize_Some i l h :
  PendingOffsets i = Some l →
  ∃ h', Deserialize i h = Done (i, h') ∧
    ∀ r', map_contents h' r'
          = if decide (r' = Some l)
            then list_to_set (metadata_offsets (Metadata i)) ∪ map_contents h (Some l)
            else map_contents h r'.
Proof.
  intros Hl. unfold Deserialize. rewrite Hl.
  destruct (Deserialize_loop_Some l (Split (Metadata i) ",") h) as (h' & Hrun & Hc).
  exists h'. by rewrite (exec_bind_done _ _ _ tt h' Hrun).
Qed.

(** and on a ledger whose map is nil. *)
Lemma Deserialize_None i h :
  PendingOffsets i = None →
  Deserialize i h
  = match metadata_offsets (Metadata i) with
    | [] => Done (i, h)
    | _ :: _ => Panic NilMapAssign
    end.
Proof.
  intros Hnil. unfold Deserialize, metadata_offsets. rewrite Hnil.
  exec_unfold. rewrite Deserialize_loop_nil.
  by destruct (omap token_offset _).
Qed.

(** On a ledger whose pending map is not nil, [Deserialize] never
    panics: it adds the well-formed tokens of the metadata to the pending
    map, skips every other token, and leaves every other map as it was. *)
Theorem Deserialize_spec i l h :
  PendingOffsets i = Some l →
  ∃ h', Deserialize i h = Done (i, h') ∧
    pending h' i = list_to_set (metadata_offsets (Metadata i)) ∪ pending h i ∧
    ∀ r', r' ≠ Some l → map_contents h' r' = map_contents h r'.
Proof.
  intros Hl. destruct (Deserialize_Some i l h Hl) as (h' & Hrun & Hc).
  exists h'. unfold pending. rewrite Hl. split; [done|]. split.
  - by rewrite Hc, decide_True.
  - intros r' Hr'. by rewrite Hc, decide_False.
Qed.

Lemma Deserialize_spec_witness :
  ∃ h', Deserialize ex_received ex_heap = Done (ex_received, h') ∧
    pending h' ex_received
    = list_to_set (metadata_offsets (Metadata ex_received)) ∪ pending ex_heap ex_received ∧
    ∀ r', r' ≠ Some 2%positive → map_contents h' r' = map_contents ex_heap r'.
Proof. exact (Deserialize_spec ex_received 2%positive ex_heap eq_refl). Defined.

(** On a ledger whose pending map is nil, [Deserialize] panics with
    "assignment to entry in nil map" as soon as the metadata holds one
    well-formed offset, and does nothing otherwise. *)
Theorem Deserialize_nil i h :
  PendingOffsets i = None →
  (metadata_offsets (Metadata i) ≠ [] → Deserialize i h = Panic NilMapAssign) ∧
  (metadata_offsets (Metadata i) = [] → Deserialize i h = Done (i, h)).
Proof.
  intros Hnil. rewrite (Deserialize_None i h Hnil).
  by destruct (metadata_offsets _).
Qed.

Lemma Deserialize_nil_witness :
  Deserialize ex_nil_ledger ex_heap = Panic NilMapAssign.
Proof.
  apply (Deserialize_nil ex_nil_ledger ex_heap eq_refl). by_compute.
Defined.

(** [Deserialize] keeps every stored key an [int64]. *)
Lemma Deserialize_wf i h j h' :
  heap_wf h → Deserialize i h = Done (j, h') → heap_wf h'.
Proof.
  intros Hwf. unfold Deserialize. intros (u & h1 & Hloop & Hret)%exec_bind_inv.
  injection Hret as _ <-. destruct u. revert Hloop.
  apply for_each_invariant; [|done].
  intros t s s' _ Hs. rewrite Deserialize_entry_spec.
  destruct (token_offset t) as [v|] eqn:Ht; [|by intros [= <-]].
  apply map_assign_wf; [by eapply token_offset_range | done].
Qed.

(** [C1] Round trip.  Whatever the order in which [Serialize] visits the
    pending offsets, [Deserialize] on a ledger that carries the metadata it
    wrote adds exactly those offsets to that ledger's pending map: on a
    fresh ledger, whose map is empty, the pending set is reproduced. *)
Theorem Deserialize_Serialize h i ks j l :
  heap_wf h →
  range_of h (PendingOffsets i) ks →
  PendingOffsets j = Some l →
  Metadata j = Metadata (Serialize ks i) →
  ∃ h', Deserialize j h = Done (j, h') ∧
    pending h' j = pending h i ∪ pending h j ∧
    (pending h j = ∅ → pending h' j = pending h i).
Proof.
  intros Hwf Hks Hl Hmeta.
  destruct (Deserialize_Some j l h Hl) as (h' & Hrun & Hc).
  assert (pending h' j = pending h i ∪ pending h j) as Heq.
  { unfold pending at 1 3. rewrite Hl, Hc, decide_True by done.
    rewrite Hmeta, Serialize_Metadata, metadata_offsets_metadata.
    - by rewrite (range_of_set _ _ _ Hks).
    - apply Forall_forall. intros k Hk%(range_of_elem _ _ _ Hks).
      by eapply heap_wf_contents. }
  exists h'. split; [done|]. split; [done|]. intros He. rewrite Heq, He. set_solver.
Qed.

Lemma Deserialize_Serialize_witness :
  ∃ h', Deserialize ex_received ex_heap = Done (ex_received, h') ∧
    pending h' ex_received = pending ex_heap ex_ledger ∪ pending ex_heap ex_received ∧
    (pending ex_heap ex_received = ∅ → pending h' ex_received = pending ex_heap ex_ledger).
Proof.
  apply (Deserialize_Serialize ex_heap ex_ledger [7; 5] ex_received 2%positive);
    [by_decide | by_decide | reflexivity | reflexivity].
Defined.

(** A malformed token among well-formed ones is dropped: the offsets
    read from the metadata are exactly those of the well-formed tokens. *)
Theorem metadata_offsets_malformed ks1 bad ks2 :
  Forall (in_int 64) ks1 → Forall (in_int 64) ks2 →
  ","%char ∉ bytes bad → token_offset bad = None →
  metadata_offsets (offsets_metadata ks1 +:+ bad +:+ String "," (offsets_metadata ks2))
  = ks1 ++ ks2.
Proof.
  intros H1 H2 Hsep Hbad. unfold metadata_offsets.
  induction H1 as [|k ks1 Hk _ IH].
  - rewrite string_app_nil_l, Split_app_sep by done. cbn [omap list_omap].
    rewrite Hbad. by apply metadata_offsets_metadata.
  - cbn [offsets_metadata]. rewrite string_app_assoc, string_app_cons.
    rewrite Split_app_sep by apply FormatInt_no_comma. cbn [omap list_omap].
    by rewrite token_offset_FormatInt, IH.
Qed.

Lemma metadata_offsets_malformed_witness :
  metadata_offsets "1,2,x3,4," = [1; 2; 4].
Proof.
  apply (metadata_offsets_malformed [1; 2] "x3" [4]);
    [by_decide | by_decide | by_decide | reflexivity].
Defined.

(** [C26] A number of the metadata that does not fit in 64 bits is dropped,
    not stored wrapped or clamped: of the numerals of any numbers, each
    followed by the separator, [Deserialize] adds to the pending map the
    numbers that are [int64], and nothing else, although [ParseInt] returns
    the nearest [int64] beside its range error. *)
Theorem Deserialize_bounds i l h ks :
  PendingOffsets i = Some l → heap_wf h →
  Forall (λ k, - 10 ^ 20 < k < 10 ^ 20) ks → Metadata i = offsets_metadata ks →
  ∃ h', Deserialize i h = Done (i, h') ∧ heap_wf h' ∧
        pending h' i = list_to_set (filter (in_int 64) ks) ∪ pending h i.
Proof.
  intros Hl Hwf Hks Hmeta. destruct (Deserialize_Some i l h Hl) as (h' & Hrun & Hc).
  exists h'. split_and!; [done|by eapply Deserialize_wf|].
  unfold pending. by rewrite Hl, Hc, decide_True, Hmeta, metadata_offsets_numerals.
Qed.

Lemma Deserialize_bounds_witness :
  ∃ h', Deserialize ex_overflowing ex_heap = Done (ex_overflowing, h') ∧ heap_wf h' ∧
        pending h' ex_overflowing
        = list_to_set [5; int_min 64] ∪ pending ex_heap ex_overflowing.
Proof.
  apply (Deserialize_bounds ex_overflowing 2%positive ex_heap
           [2 ^ 63; 5; - 2 ^ 63 - 1; - 2 ^ 63]);
    [reflexivity | by_decide | by_decide | reflexivity].
Defined.

(** The largest and the smallest [int64] are read; the numbers next to
    them are dropped. *)
Example metadata_offsets_out_of_range :
  metadata_offsets
    "9223372036854775807,9223372036854775808,-9223372036854775808,-9223372036854775809,"
  = [int_max 64; int_min 64].
Proof. by_compute. Qed.

(** The metadata of a list of offsets takes at most 21 bytes for each. *)
Lemma offsets_metadata_length ks :
  Forall (in_int 64) ks → (length (bytes (offsets_metadata ks)) ≤ 21 * length ks)%nat.
Proof.
  induction 1 as [|k ks Hk _ IH]; [done|].
  cbn [offsets_metadata]. rewrite bytes_app. cbn [bytes]. rewrite length_app.
  pose proof (FormatInt_length k Hk). simpl. lia.
Qed.

(** [C37] The metadata [Serialize] writes takes at most 21 bytes for each
    pending offset, 19 digits, a sign and the separator, whatever the
    order of the range. *)
Theorem Serialize_length h ks i :
  heap_wf h → range_of h (PendingOffsets i) ks →
  (length (bytes (Metadata (Serialize ks i))) ≤ 21 * size (pending h i))%nat.
Proof.
  intros Hwf Hks. rewrite Serialize_Metadata.
  pose proof (range_of_length _ _ _ Hks) as Hlen. unfold map_len in Hlen.
  unfold pending. rewrite <-(Nat2Z.inj _ _ Hlen).
  apply offsets_metadata_length, Forall_forall. intros k Hk.
  apply (heap_wf_contents h (PendingOffsets i)); [done|].
  by apply (range_of_elem _ _ _ Hks).
Qed.

Lemma Serialize_length_witness :
  (length (bytes (Metadata (Serialize [7; 5]%Z ex_ledger)))
   ≤ 21 * size (pending ex_heap ex_ledger))%nat.
Proof. apply (Serialize_length ex_heap [7; 5] ex_ledger); by_decide. Defined.

(** ** NextOffset *)

(** With no confirmed offset ([Offset] not above -1), [NextOffset]
    returns the fallback, whatever the pending offsets are. *)
Theorem NextOffset_fallback h ks i fallback :
  Offset i ≤ -1 → NextOffset h ks i fallback = fallback.
Proof. intros Ho. unfold NextOffset. by rewrite decide_False by lia. Qed.

Lemma NextOffset_fallback_witness :
  NextOffset ex_heap [5; 7] ex_unconfirmed 9 = 9 ∧ 9 ∉ pending ex_heap ex_unconfirmed.
Proof.
  split; [apply (NextOffset_fallback ex_heap [5; 7] ex_unconfirmed 9); simpl; lia|].
  by_decide.
Defined.

(** With a confirmed offset and no pending offset, [NextOffset] returns
    the confirmed offset, whatever the fallback is. *)
Theorem NextOffset_confirmed h ks i fallback :
  -1 < Offset i → pending h i = ∅ → NextOffset h ks i fallback = Offset i.
Proof.
  intros Ho He%map_len_zero. unfold NextOffset.
  rewrite decide_True by done. by rewrite decide_False by lia.
Qed.

Lemma NextOffset_confirmed_witness :
  NextOffset ex_heap [] ex_received 9 = 4.
Proof.
  apply (NextOffset_confirmed ex_heap [] ex_received 9); [simpl; lia | by_compute].
Defined.

(** [C27] With a confirmed offset and pending offsets, [NextOffset] returns
    one of the pending offsets: the first the range visits. *)
Theorem NextOffset_pending h ks i fallback :
  -1 < Offset i → pending h i ≠ ∅ → range_of h (PendingOffsets i) ks →
  NextOffset h ks i fallback ∈ pending h i ∧ head ks = Some (NextOffset h ks i fallback).
Proof.
  intros Ho Hne%map_len_pos Hks. unfold NextOffset.
  rewrite !decide_True by done. destruct ks as [|k ks'].
  - pose proof (proj1 (range_of_nil _ _ _ Hks) eq_refl). lia.
  - split; [|done]. apply (range_of_elem _ _ _ Hks). by left.
Qed.

Lemma NextOffset_pending_witness :
  NextOffset ex_heap [7; 5] ex_ledger 9 ∈ pending ex_heap ex_ledger ∧
  head [7; 5] = Some (NextOffset ex_heap [7; 5] ex_ledger 9).
Proof.
  apply (NextOffset_pending ex_heap [7; 5] ex_ledger 9);
    [simpl; lia | by_decide | by_decide].
Defined.

(** Which pending offset [NextOffset] returns is not determined: every
    pending offset, the largest included, is returned for some order of the
    range.  Resuming there skips the smaller pending offsets' neighbours
    that were never confirmed. *)
Theorem NextOffset_any_pending h i fallback k :
  -1 < Offset i → k ∈ pending h i →
  ∃ ks, range_of h (PendingOffsets i) ks ∧ NextOffset h ks i fallback = k.
Proof.
  intros Ho Hk.
  assert (pending h i ≠ ∅) as Hne%map_len_pos by set_solver.
  apply elem_of_elements, elem_of_Permutation in Hk as [ks' Hperm].
  exists (k :: ks'). split; [by unfold range_of|].
  unfold NextOffset. by rewrite !decide_True.
Qed.

Lemma NextOffset_any_pending_witness :
  ∃ ks, range_of ex_heap (PendingOffsets ex_ledger) ks ∧
        NextOffset ex_heap ks ex_ledger 9 = 7.
Proof.
  apply (NextOffset_any_pending ex_heap ex_ledger 9 7); [simpl; lia | by_decide].
Defined.
