(* ===== verification/Assign.v ===== *)
(** * Assign: assignment strategies and the difference of partition lists

    The rebalance procedure, which is outside this repository, is handed a
    [Strategy] and uses [int32Slice.Diff] to find the partitions to stop:
    those of the first list that the second does not hold
    (src/cluster.go).  [Diff] looks each element up in the second list
    with [sort.Search], a binary search, so the second list has to be
    ascending.  [Len], [Less] and [Swap] make [int32Slice] sortable by
    [sort.Sort].

    [sort.Search] is a function of Go's standard library; it is modelled
    here from its source, the midpoint [int(uint(i+j) >> 1)] with its
    64-bit conversions included.  Its loop runs on fuel 64: an [int] has
    64 bits and every turn halves the range, and [Search_spec] shows that
    no range of a slice exhausts it.

    The file proves that [Diff] never indexes out of range, whatever the
    lists, that on an ascending second list it is the difference of lists,
    and what remains true on a list that is not ascending; that the
    binary search returns the index a linear search returns
    ([linear_search]); and that the midpoint stays between the two
    indexes where their sum exceeds the largest [int]. *)

From stdpp Require Import sorting.
From S2P Require Import Prelude.

#[local] Open Scope Z_scope.

(** ** Strategy *)

(** [type Strategy string] and its two constants. *)
Definition Strategy : Set := string.
Definition StrategyRange : Strategy := "range".
Definition StrategyRoundRobin : Strategy := "roundrobin".

(** ** int32Slice *)

(** [type int32Slice []int32] *)
Definition int32Slice : Set := list Z.

(** [Len], [Less] and [Swap] work on the slice they are called on: the
    store of these computations is its contents. *)
Definition Len (p : int32Slice) : Z := Z.of_nat (length p).

Definition Less (i j : Z) : exec int32Slice bool :=
  p ← get;
  x ← index p i;
  y ← index p j;
  mret (bool_decide (x < y)).

Definition Swap (i j : Z) : exec int32Slice unit :=
  p ← get;
  x ← index p i;
  y ← index p j;
  put (<[Z.to_nat j := x]> (<[Z.to_nat i := y]> p)).

(** ** sort.Search *)

(** [int(uint(i+j) >> 1)]: the sum wraps to 64 bits, unsigned, before it is
    halved. *)
Definition midpoint (i j : Z) : Z := to_int 64 (to_uint 64 (i + j) ≫ 1).

(** The loop [for i < j { h := ...; if !f(h) { i = h + 1 } else { j = h } }]. *)
Fixpoint Search_loop {S} (fuel : nat) (f : Z → exec S bool) (i j : Z) : exec S Z :=
  match fuel with
  | O => if decide (i < j) then raise OutOfFuel else mret i
  | S fuel' =>
      if decide (i < j) then
        let h := midpoint i j in
        b ← f h;
        if negb b then Search_loop fuel' f (h + 1) j else Search_loop fuel' f i h
      else mret i
  end.

(** [sort.Search(n, f)] *)
Definition Search {S} (n : Z) (f : Z → exec S bool) : exec S Z :=
  Search_loop 64 f 0 n.

(** ** Diff *)

(** The predicate [Diff] searches with: [func(i int) bool { return o[i] >= x }]. *)
Definition Diff_pred {S} (o : int32Slice) (x : Z) (i : Z) : exec S bool :=
  y ← index o i;
  mret (bool_decide (x ≤ y)).

(** One turn of the loop of [Diff], on the element [x]; the store is the
    result [res]. *)
Definition Diff_body (o : int32Slice) (x : Z) : exec (list Z) unit :=
  let on := Len o in
  n ← Search on (Diff_pred o x);
  found ← (if decide (n < on) then y ← index o n; mret (bool_decide (y = x))
           else mret false);
  if (found : bool) then mret tt else modify (λ res, res ++ [x]).

Definition Diff (p o : int32Slice) : outcome (list Z) :=
  match for_each (Diff_body o) p [] with
  | Done (_, res) => Done res
  | Panic e => Panic e
  end.

(** ** Reference definitions *)

(** A slice of [int32]. *)
Definition int32Slice_wf (p : int32Slice) : Prop := Forall (in_int 32) p.

(** Ascending, as [sort.Sort] leaves a slice. *)
Definition ascending (o : int32Slice) : Prop := Sorted Z.le o.

#[export] Instance ascending_dec o : Decision (ascending o).
Proof. unfold ascending. apply _. Defined.

(** The search [sort.Search] stands for: the first of the [n] indexes from
    [i] up at which [g] holds, and [i + n] when there is none. *)
Fixpoint linear_search (g : Z → bool) (i : Z) (n : nat) : Z :=
  match n with
  | O => i
  | S n' => if g i then i else linear_search g (i + 1) n'
  end.

(** What [Diff] asks of the index [k] of [o], as a function. *)
Definition not_below (o : int32Slice) (x : Z) (k : Z) : bool :=
  bool_decide (x ≤ o !!! Z.to_nat k).

(** The midpoint without the conversion to [uint]: the sum wraps to a
    negative [int] before it is halved. *)
Definition signed_midpoint (i j : Z) : Z := to_int 64 (i + j) ≫ 1.

(** A slice of the largest length an [int] can hold is not built here:
    these are two indexes of one. *)
Definition ex_high : Z := int_max 64 - 1.

(** The partition lists of the specification's example. *)
Definition ex_all : int32Slice := [0; 1; 2; 3; 4; 5].
Definition ex_odd : int32Slice := [1; 3; 5].
Definition ex_unsorted : int32Slice := [2; 1].

(** ** Strategy *)

Lemma Strategy_distinct : StrategyRange ≠ StrategyRoundRobin.
Proof. done. Qed.

(** ** The midpoint *)

(** On the indexes of a slice the midpoint is the half of the sum, even when
    the sum does not fit in an [int]. *)
Lemma midpoint_spec i j :
  0 ≤ i → i ≤ j → j ≤ int_max 64 → midpoint i j = (i + j) `div` 2.
Proof.
  intros Hi Hij Hj. unfold midpoint. int_ranges.
  rewrite to_uint_small by (int_ranges; lia).
  rewrite Z.shiftr_div_pow2 by done. change (2 ^ 1) with 2.
  apply to_int_small; [done|]. int_ranges.
  split; [|apply Z.div_le_upper_bound]; try lia.
  pose proof (Z.div_pos (i + j) 2). lia.
Qed.

Lemma midpoint_between i j :
  0 ≤ i → i < j → j ≤ int_max 64 → i ≤ midpoint i j < j.
Proof.
  intros Hi Hij Hj. rewrite midpoint_spec by lia.
  split; [apply Z.div_le_lower_bound | apply Z.div_lt_upper_bound]; lia.
Qed.

(** ** sort.Search *)

Section search.
Context {S : Type} (f : Z → exec S bool) (g : Z → bool) (n : Z) (s : S).
Hypothesis Hn : 0 ≤ n ≤ int_max 64.
(** On the indexes below [n] the predicate returns, and leaves the store. *)
Hypothesis Hf : ∀ k, 0 ≤ k < n → f k s = Done (g k, s).

(** The loop keeps [g (i - 1) = false] and [g j = true] at the ends of the
    range and halves it at each turn. *)
Lemma Search_loop_spec fuel i j :
  0 ≤ i → i ≤ j → j ≤ n → j - i < 2 ^ Z.of_nat fuel →
  ∃ r, Search_loop fuel f i j s = Done (r, s) ∧ i ≤ r ≤ j ∧
       (r = i ∨ g (r - 1) = false) ∧ (r = j ∨ g r = true).
Proof.
  revert i j. induction fuel as [|fuel IH]; intros i j Hi Hij Hj Hfuel.
  { change (2 ^ Z.of_nat 0) with 1 in Hfuel. exists i. simpl.
    rewrite decide_False by lia. repeat split; auto; lia. }
  rewrite Nat2Z.inj_succ, Z.pow_succ_r in Hfuel by lia.
  cbn [Search_loop]. case_decide as Hlt; [|exists i; repeat split; auto; lia].
  pose proof (midpoint_between i j Hi Hlt ltac:(lia)) as Hh.
  pose proof (midpoint_spec i j Hi Hij ltac:(lia)) as Hmid.
  set (h := midpoint i j) in *.
  assert (2 * h ≤ i + j < 2 * h + 2) as Hdiv
    by (rewrite Hmid; pose proof (Z.div_mod (i + j) 2 ltac:(done));
        pose proof (Z.mod_pos_bound (i + j) 2 ltac:(done)); lia).
  rewrite (exec_bind_done _ _ _ _ _ (Hf h ltac:(lia))).
  destruct (g h) eqn:Hg; simpl.
  - destruct (IH i h) as (r & Hrun & Hr & Hlo & Hhi); [lia..|].
    exists r. split; [done|]. split; [lia|]. split; [done|].
    destruct Hhi as [->|?]; auto.
  - destruct (IH (h + 1) j) as (r & Hrun & Hr & Hlo & Hhi); [lia..|].
    exists r. split; [done|]. split; [lia|]. split; [|done].
    destruct Hlo as [->|?]; [|by right]. right. by replace (h + 1 - 1) with h by lia.
Qed.

(** [sort.Search] returns, with the store unchanged, an index [r] of
    [0..n] such that [g] is false just below [r] and true at [r]. *)
Lemma Search_spec :
  ∃ r, Search n f s = Done (r, s) ∧ 0 ≤ r ≤ n ∧
       (r = 0 ∨ g (r - 1) = false) ∧ (r = n ∨ g r = true).
Proof.
  apply Search_loop_spec; [lia..|].
  change (2 ^ Z.of_nat 64) with 18446744073709551616. int_ranges. lia.
Qed.

(** The first index at which [g] holds is the one with [g] false at every
    index before it. *)
Lemma linear_search_spec i m r :
  i ≤ r ≤ i + Z.of_nat m → (∀ k, i ≤ k < r → g k = false) →
  r = i + Z.of_nat m ∨ g r = true → linear_search g i m = r.
Proof.
  revert i. induction m as [|m IH]; intros i Hr Hlo Hhi; simpl; [lia|].
  destruct (g i) eqn:Hg.
  - destruct (decide (r = i)) as [|Hne]; [done|]. rewrite Hlo in Hg by lia. done.
  - apply IH; [|intros k Hk; apply Hlo; lia|].
    + destruct (decide (r = i)) as [->|]; [|lia]. destruct Hhi; [lia | congruence].
    + destruct Hhi; [left; lia | by right].
Qed.

(** On a predicate that stays true once it is true, the binary search
    returns what the linear search returns. *)
Lemma Search_linear :
  (∀ a b, 0 ≤ a → a ≤ b → b < n → g a = true → g b = true) →
  Search n f s = Done (linear_search g 0 (Z.to_nat n), s).
Proof.
  intros Hmono. destruct Search_spec as (r & -> & Hr & Hlo & Hhi).
  do 2 f_equal. symmetry. apply linear_search_spec; [lia | | by rewrite Z2Nat.id by lia].
  intros k Hk. destruct Hlo as [->|Hlo]; [lia|].
  destruct (g k) eqn:Hg; [|done]. rewrite (Hmono k (r - 1)) in Hlo; [done|lia..|done].
Qed.

End search.

(** ** Ascending slices *)

(** In an ascending slice, a smaller index holds a smaller or equal element. *)
Lemma ascending_lookup o a b x y :
  ascending o → (a ≤ b)%nat → o !! a = Some x → o !! b = Some y → x ≤ y.
Proof.
  intros Hs%Sorted_StronglySorted; [|apply _]. revert a b.
  induction Hs as [|z o Hs IH Hz]; intros a b Hab Ha Hb; [done|].
  destruct a as [|a], b as [|b]; simplify_eq/=; [lia| |lia|by eapply IH; [|done..]; lia].
  rewrite Forall_forall in Hz. apply Hz. by eapply list_elem_of_lookup_2.
Qed.

(** ** Diff *)

Lemma Diff_pred_spec {S} o x k (s : S) y :
  0 ≤ k → o !! Z.to_nat k = Some y →
  Diff_pred o x k s = Done (bool_decide (x ≤ y), s).
Proof.
  intros Hk Hy. unfold Diff_pred.
  by rewrite (exec_bind_done _ _ _ _ _ (index_in_range o k y s Hk Hy)).
Qed.

Section diff_body.
Context (o : int32Slice) (x : Z).
Hypothesis Hlen : Len o ≤ int_max 64.

(** The search of [Diff]: it never panics, and finds an index [r] with an
    element below [x] just before it and an element not below [x] at it. *)
Lemma Diff_Search {S} (s : S) :
  ∃ r, Search (Len o) (Diff_pred o x) s = Done (r, s) ∧ 0 ≤ r ≤ Len o ∧
       (r = 0 ∨ ∃ y, o !! Z.to_nat (r - 1) = Some y ∧ y < x) ∧
       (r = Len o ∨ ∃ y, o !! Z.to_nat r = Some y ∧ x ≤ y).
Proof.
  pose (g := λ k : Z, bool_decide (x ≤ o !!! Z.to_nat k)).
  assert (∀ k, 0 ≤ k < Len o → o !! Z.to_nat k = Some (o !!! Z.to_nat k)) as Hlook.
  { intros k Hk. apply list_lookup_lookup_total_lt. unfold Len in Hk. lia. }
  destruct (Search_spec (Diff_pred o x) g (Len o) s) as (r & Hrun & Hr & Hlo & Hhi).
  - unfold Len in *. lia.
  - intros k Hk. apply Diff_pred_spec; [lia | by apply Hlook].
  - exists r. split; [done|]. split; [done|]. split.
    + destruct (decide (r = 0)) as [->|]; [by left|].
      destruct Hlo as [->|Hg]; [done|]. right.
      exists (o !!! Z.to_nat (r - 1)). apply bool_decide_eq_false in Hg.
      split; [apply Hlook|]; lia.
    + destruct Hhi as [->|Hg]; [by left|].
      destruct (decide (r = Len o)) as [->|]; [by left|]. right.
      exists (o !!! Z.to_nat r). apply bool_decide_eq_true in Hg.
      split; [apply Hlook; lia | done].
Qed.

(** One turn of [Diff] never panics: it keeps [x] or drops it.  It drops
    only an element of [o]; on an ascending [o] it drops every element of
    [o]. *)
Lemma Diff_body_spec res :
  ∃ found : bool,
    Diff_body o x res = Done (tt, if found then res else res ++ [x]) ∧
    (found = true → x ∈ o) ∧
    (ascending o → x ∈ o → found = true).
Proof.
  unfold Diff_body. destruct (Diff_Search res) as (r & Hrun & Hr & Hlo & Hhi).
  rewrite (exec_bind_done _ _ _ _ _ Hrun).
  destruct Hhi as [->|(y & Hy & Hxy)].
  { (* every element is below [x] *)
    exists false. rewrite decide_False by lia. split; [done|]. split; [done|].
    intros Hasc (k & Hk)%list_elem_of_lookup_1.
    destruct Hlo as [Hz|(y & Hy & Hyx)].
    - apply lookup_lt_Some in Hk. unfold Len in Hz. lia.
    - pose proof (lookup_lt_Some _ _ _ Hk) as Hklt.
      assert (x ≤ y); [|lia]. unfold Len in *.
      eapply (ascending_lookup o k (Z.to_nat (Z.of_nat (length o) - 1))); eauto. lia. }
  assert (r < Len o) as Hrlt by (apply lookup_lt_Some in Hy; unfold Len; lia).
  rewrite decide_True by done.
  rewrite (exec_bind_done _ _ _ _ res
             (exec_bind_done _ _ _ _ _ (index_in_range o r y res ltac:(lia) Hy))).
  exists (bool_decide (y = x)). split; [by destruct (bool_decide (y = x))|]. split.
  - intros ->%bool_decide_eq_true. by eapply list_elem_of_lookup_2.
  - intros Hasc (k & Hk)%list_elem_of_lookup_1. apply bool_decide_eq_true.
    destruct (decide (k < Z.to_nat r)%nat) as [Hkr|Hkr].
    + destruct Hlo as [->|(z & Hz & Hzx)]; [simpl in Hkr; lia|].
      assert (x ≤ z); [|lia].
      eapply (ascending_lookup o k (Z.to_nat (r - 1))); eauto. lia.
    + assert (y ≤ x); [|lia].
      eapply (ascending_lookup o (Z.to_nat r) k); eauto. lia.
Qed.

End diff_body.

(** The loop of [Diff] appends to the result the elements it keeps: all
    those that [o] does not hold, and on an ascending [o] no other. *)
Lemma Diff_loop_spec p o res :
  Len o ≤ int_max 64 →
  ∃ kept, for_each (Diff_body o) p res = Done (tt, res ++ kept) ∧
    sublist (list_difference p o) kept ∧ sublist kept p ∧
    (ascending o → kept = list_difference p o).
Proof.
  intros Hlen. revert res. induction p as [|x p IH]; intros res.
  { exists []. by rewrite app_nil_r. }
  cbn [for_each]. rewrite list_difference_cons.
  destruct (Diff_body_spec o x Hlen res) as (found & Hrun & Hin & Hasc).
  rewrite (exec_bind_done _ _ _ _ _ Hrun).
  destruct found.
  - destruct (IH res) as (kept & Hloop & Hsub1 & Hsub2 & Heq).
    exists kept. rewrite decide_True by auto.
    split; [done|]. split; [done|]. split; [by apply sublist_cons|done].
  - destruct (IH (res ++ [x])) as (kept & Hloop & Hsub1 & Hsub2 & Heq).
    exists (x :: kept). rewrite Hloop, <-app_assoc. split; [done|].
    split; [|split; [by apply sublist_skip|]].
    + case_decide; [by apply sublist_cons | by apply sublist_skip].
    + intros Ho. case_decide as Hx; [by specialize (Hasc Ho Hx) | by rewrite Heq].
Qed.

(** [Diff] always returns: on every pair of slices its binary search
    ends within its fuel and no index it computes is out of range. *)
Theorem Diff_total p o : Len o ≤ int_max 64 → ∃ res, Diff p o = Done res.
Proof.
  intros Hlen. destruct (Diff_loop_spec p o [] Hlen) as (kept & Hrun & _).
  exists kept. unfold Diff. by rewrite Hrun.
Qed.

Lemma Diff_total_witness : ∃ res, Diff ex_all ex_unsorted = Done res.
Proof. apply (Diff_total ex_all ex_unsorted). by_decide. Defined.

(** [C30] On an ascending second list, [Diff] is the difference of lists:
    the elements of [p] that [o] does not hold, in the order of [p]. *)
Theorem Diff_ascending p o :
  Len o ≤ int_max 64 → ascending o → Diff p o = Done (list_difference p o).
Proof.
  intros Hlen Ho. destruct (Diff_loop_spec p o [] Hlen) as (kept & Hrun & _ & _ & Heq).
  unfold Diff. by rewrite Hrun, Heq.
Qed.

Lemma Diff_ascending_witness : Diff ex_all ex_odd = Done [0; 2; 4].
Proof. apply (Diff_ascending ex_all ex_odd); by_decide. Defined.

(** Whatever the second list, ascending or not, [Diff] returns a
    sublist of [p] that holds every element of [p] that [o] does not hold:
    on a list that is not ascending it can keep too much, never too
    little. *)
Theorem Diff_unsorted p o res :
  Len o ≤ int_max 64 → Diff p o = Done res →
  sublist res p ∧ sublist (list_difference p o) res.
Proof.
  intros Hlen. destruct (Diff_loop_spec p o [] Hlen) as (kept & Hrun & H1 & H2 & _).
  unfold Diff. rewrite Hrun. by intros [= <-].
Qed.

Lemma Diff_unsorted_witness :
  sublist [1] [1] ∧ sublist (list_difference [1] ex_unsorted) [1].
Proof. apply (Diff_unsorted [1] ex_unsorted [1]); [by_decide | reflexivity]. Defined.

(** [C11] The binary search of [Diff] is a linear search: on an ascending
    slice of any length an [int] can hold, [sort.Search] returns the
    first index whose element is not below [x], the one a scan from the
    left finds, and the length when there is none. *)
Theorem Diff_Search_linear {S} o x (s : S) :
  Len o ≤ int_max 64 → ascending o →
  Search (Len o) (Diff_pred o x) s
  = Done (linear_search (not_below o x) 0 (length o), s).
Proof.
  intros Hlen Hasc. unfold Len in *. rewrite <-(Nat2Z.id (length o)) at 2.
  assert (∀ k, 0 ≤ k < Z.of_nat (length o) → o !! Z.to_nat k = Some (o !!! Z.to_nat k))
    as Hlook by (intros k Hk; apply list_lookup_lookup_total_lt; lia).
  apply Search_linear; [lia | |].
  - intros k Hk. apply Diff_pred_spec; [lia | by apply Hlook].
  - intros a b Ha Hab Hb Hg%bool_decide_eq_true. apply bool_decide_eq_true.
    etrans; [exact Hg|].
    eapply (ascending_lookup o (Z.to_nat a) (Z.to_nat b)); [done | lia | by apply Hlook; lia..].
Qed.

Lemma Diff_Search_linear_witness :
  Search (Len ex_odd) (Diff_pred ex_odd 2) tt = Done (1, tt).
Proof. apply (Diff_Search_linear ex_odd 2 tt); by_decide. Defined.

(** No probe of the search of [Diff] is out of range, at any length
    an [int] can hold: the sum of two indexes can exceed the largest
    [int], and its half, taken on the [uint], is still an index between
    the two, where the predicate reads the slice. *)
Theorem Diff_probe_in_range {S} o x i j (s : S) :
  0 ≤ i → i < j → j ≤ Len o → Len o ≤ int_max 64 →
  i ≤ midpoint i j < j ∧ midpoint i j = (i + j) `div` 2 ∧
  ∃ y, o !! Z.to_nat (midpoint i j) = Some y ∧
       Diff_pred o x (midpoint i j) s = Done (bool_decide (x ≤ y), s).
Proof.
  intros Hi Hij Hj Hlen. pose proof (midpoint_between i j Hi Hij ltac:(lia)) as Hh.
  split; [done|]. split; [apply midpoint_spec; lia|].
  destruct (lookup_lt_is_Some_2 o (Z.to_nat (midpoint i j))) as [y Hy];
    [unfold Len in *; lia|].
  exists y. split; [done|]. apply Diff_pred_spec; [lia | done].
Qed.

Lemma Diff_probe_in_range_witness :
  1 ≤ midpoint 1 3 < 3 ∧ midpoint 1 3 = (1 + 3) `div` 2 ∧
  ∃ y, ex_odd !! Z.to_nat (midpoint 1 3) = Some y ∧
       Diff_pred ex_odd 4 (midpoint 1 3) tt = Done (bool_decide (4 ≤ y), tt).
Proof. apply (Diff_probe_in_range ex_odd 4 1 3 tt); by_decide. Defined.

(** What the conversion is for: between the two largest indexes the sum
    wraps, the midpoint of the code is still between them, and the half of
    the signed sum is negative. *)
Example midpoint_of_large_indexes :
  in_int 64 ex_high ∧ ¬ in_int 64 (ex_high + int_max 64) ∧
  midpoint ex_high (int_max 64) = ex_high ∧
  signed_midpoint ex_high (int_max 64) = -2.
Proof. by_compute. Qed.

(** The examples of the specification. *)
Example Diff_example : Diff ex_all ex_odd = Done [0; 2; 4].
Proof. reflexivity. Qed.

Example Diff_self : Diff ex_all ex_all = Done [].
Proof. reflexivity. Qed.

Example Diff_of_empty : Diff [] ex_odd = Done [].
Proof. reflexivity. Qed.

(** The second list has to be ascending: 1 is an element of [2; 1], and
    [Diff] keeps it. *)
Example Diff_not_ascending : Diff [1] ex_unsorted = Done [1] ∧ 1 ∈ ex_unsorted.
Proof. split; [reflexivity | by_decide]. Qed.

(** ** Len, Less, Swap *)

Lemma Less_spec p i j x y :
  0 ≤ i → 0 ≤ j → p !! Z.to_nat i = Some x → p !! Z.to_nat j = Some y →
  Less i j p = Done (bool_decide (x < y), p).
Proof.
  intros Hi Hj Hx Hy. unfold Less. exec_unfold. cbv beta iota.
  by rewrite (index_in_range (S:=list Z) p i x p Hi Hx),
    (index_in_range (S:=list Z) p j y p Hj Hy).
Qed.

Lemma Swap_spec p i j x y :
  0 ≤ i → 0 ≤ j → p !! Z.to_nat i = Some x → p !! Z.to_nat j = Some y →
  Swap i j p = Done (tt, <[Z.to_nat j := x]> (<[Z.to_nat i := y]> p)).
Proof.
  intros Hi Hj Hx Hy. unfold Swap. exec_unfold. cbv beta iota.
  by rewrite (index_in_range (S:=list Z) p i x p Hi Hx),
    (index_in_range (S:=list Z) p j y p Hj Hy).
Qed.

(** [Less] and [Swap] panic exactly when an index is out of range. *)
Lemma Less_out_of_range p i j :
  (i < 0 ∨ Len p ≤ i) ∨ (j < 0 ∨ Len p ≤ j) → Less i j p = Panic IndexOutOfRange.
Proof.
  intros Hij. unfold Less. exec_unfold. cbv beta iota.
  destruct (index_inv (S:=list Z) p i p) as [(x & Hi & _ & ->)|[_ ->]]; [|done].
  destruct (index_inv (S:=list Z) p j p) as [(y & Hj & _ & ->)|[_ ->]]; [|done].
  unfold Len in Hij. lia.
Qed.

Lemma Swap_out_of_range p i j :
  (i < 0 ∨ Len p ≤ i) ∨ (j < 0 ∨ Len p ≤ j) → Swap i j p = Panic IndexOutOfRange.
Proof.
  intros Hij. unfold Swap. exec_unfold. cbv beta iota.
  destruct (index_inv (S:=list Z) p i p) as [(x & Hi & _ & ->)|[_ ->]]; [|done].
  destruct (index_inv (S:=list Z) p j p) as [(y & Hj & _ & ->)|[_ ->]]; [|done].
  unfold Len in Hij. lia.
Qed.

(** [Swap] permutes the slice. *)
Lemma Swap_perm p i j p' : Swap i j p = Done (tt, p') → p' ≡ₚ p.
Proof.
  unfold Swap. exec_unfold. cbv beta iota.
  destruct (index_inv (S:=list Z) p i p) as [(x & Hi & Hx & ->)|[_ ->]]; [|done].
  destruct (index_inv (S:=list Z) p j p) as [(y & Hj & Hy & ->)|[_ ->]]; [|done].
  intros [= <-]. destruct (decide (Z.to_nat i = Z.to_nat j)) as [Heq|Hne].
  - rewrite Heq in *. rewrite list_insert_insert_eq.
    rewrite list_insert_id; [done | congruence].
  - apply Permutation_insert_swap; done.
Qed.
