(* ===== verification/Sort.v ===== *)
(** * Sort: sort.Interface and sort.Sort on an int32Slice

    [int32Slice] has the methods [Len], [Less] and [Swap] (src/cluster.go)
    so that [sort.Sort] can sort it; [partitionMap.Info] does so.  This
    file states Go's [sort.Interface] as the class [Interface], makes
    [int32Slice] an instance of it with the three methods of Assign.v, and
    runs a sort through the interface.

    [sort.Sort] belongs to Go's standard library.  It sorts a range of at
    most 12 elements by insertion, and [insertionSort] is that loop, taken
    from the library's source; the model uses it at every length.  What a
    caller may rely on is the class [Sorts]: the routine returns, and
    leaves an ascending permutation of the slice.  [Sort_sorts] shows that
    the insertion sort, run on an [int32Slice] through [Less] and [Swap],
    meets it, without an index out of range; [Sorts_unique] shows that any
    two routines that meet it return the same slice, so that nothing proved
    of a caller depends on the algorithm chosen here. *)

From stdpp Require Import sorting.
From S2P Require Import Prelude Assign.

#[local] Open Scope Z_scope.

(** ** sort.Interface *)

(** [type Interface interface { Len() int; Less(i, j int) bool; Swap(i, j int) }] *)
Class Interface (T : Type) : Type := {
  sort_Len : T → Z;
  sort_Less : Z → Z → exec T bool;
  sort_Swap : Z → Z → exec T unit;
}.

(** [int32Slice] implements it. *)
#[export] Instance int32Slice_Interface : Interface int32Slice := {|
  sort_Len := Len;
  sort_Less := Less;
  sort_Swap := Swap;
|}.

(** ** sort.Sort *)

Section sort.
Context {T : Type} `{!Interface T}.

(** [for j := i; j > a && data.Less(j, j-1); j-- { data.Swap(j, j-1) }],
    where [j] is [a + n]. *)
Fixpoint insertionSort_inner (a : Z) (n : nat) : exec T unit :=
  match n with
  | O => mret tt
  | S n' =>
      let j := a + Z.of_nat (S n') in
      b ← sort_Less j (j - 1);
      if (b : bool) then sort_Swap j (j - 1) ;; insertionSort_inner a n'
      else mret tt
  end.

(** [for i := a + 1; i < b; i++ { ... }] *)
Definition insertionSort (a b : Z) : exec T unit :=
  for_each (λ i, insertionSort_inner a (Z.to_nat (i - a))) (seqZ (a + 1) (b - (a + 1))).

(** [sort.Sort(data)] *)
Definition Sort : exec T unit :=
  data ← get;
  insertionSort 0 (sort_Len data).

End sort.

(** ** What a caller relies on *)

(** A routine sorts when it returns on every slice and leaves an ascending
    permutation of it. *)
Class Sorts (sort : exec int32Slice unit) : Prop :=
  sorts p : ∃ p', sort p = Done (tt, p') ∧ p' ≡ₚ p ∧ ascending p'.

(** The slice a sort leaves. *)
Definition sorted_of (p : int32Slice) : int32Slice := merge_sort Z.le p.

(** ** Lists *)

Lemma ascending_StronglySorted p : ascending p ↔ StronglySorted Z.le p.
Proof.
  split; [apply Sorted_StronglySorted, _ | apply StronglySorted_Sorted].
Qed.

(** An ascending permutation of a slice is unique. *)
Lemma ascending_unique p q : ascending p → ascending q → p ≡ₚ q → p = q.
Proof. apply (Sorted_unique Z.le). Qed.

Lemma sorted_of_ascending p : ascending (sorted_of p).
Proof. apply (Sorted_merge_sort Z.le). Qed.

Lemma sorted_of_perm p : sorted_of p ≡ₚ p.
Proof. apply (merge_sort_Permutation Z.le). Qed.

Lemma sorted_of_unique p q : q ≡ₚ p → ascending q → q = sorted_of p.
Proof.
  intros Hperm Hq. apply ascending_unique; [done | apply sorted_of_ascending|].
  by rewrite sorted_of_perm.
Qed.

#[export] Instance sorted_of_proper : Proper ((≡ₚ) ==> (=)) sorted_of.
Proof.
  intros p q Hpq. apply sorted_of_unique; [|apply sorted_of_ascending].
  by rewrite sorted_of_perm.
Qed.

Lemma sorted_of_idemp p : ascending p → sorted_of p = p.
Proof. intros Hp. symmetry. by apply sorted_of_unique. Qed.

(** Two neighbours of a slice, and the slice with them exchanged. *)
Lemma lookup_neighbours (q : list Z) y x rest :
  (q ++ y :: x :: rest) !! length q = Some y ∧
  (q ++ y :: x :: rest) !! S (length q) = Some x.
Proof.
  split; [by apply list_lookup_middle|].
  change (q ++ y :: x :: rest) with (q ++ [y] ++ x :: rest).
  rewrite app_assoc. apply list_lookup_middle. rewrite length_app. simpl. lia.
Qed.

Lemma insert_neighbours (q : list Z) y x rest :
  <[length q := x]> (<[S (length q) := y]> (q ++ y :: x :: rest))
  = q ++ x :: y :: rest.
Proof. induction q as [|z q IH]; [done|]. simpl. by rewrite IH. Qed.

(** ** The insertion sort on an int32Slice *)

(** [Less] and [Swap] on two neighbours. *)
Lemma Less_neighbours (q : list Z) y x rest :
  let j := Z.of_nat (S (length q)) in
  Less j (j - 1) (q ++ y :: x :: rest) = Done (bool_decide (x < y), q ++ y :: x :: rest).
Proof.
  cbv zeta. destruct (lookup_neighbours q y x rest) as [Hy Hx].
  apply Less_spec; try lia.
  - by rewrite Nat2Z.id.
  - by replace (Z.to_nat (Z.of_nat (S (length q)) - 1)) with (length q) by lia.
Qed.

Lemma Swap_neighbours (q : list Z) y x rest :
  let j := Z.of_nat (S (length q)) in
  Swap j (j - 1) (q ++ y :: x :: rest) = Done (tt, q ++ x :: y :: rest).
Proof.
  cbv zeta. destruct (lookup_neighbours q y x rest) as [Hy Hx].
  rewrite (Swap_spec _ _ _ x y); try lia.
  - replace (Z.to_nat (Z.of_nat (S (length q)) - 1)) with (length q) by lia.
    by rewrite Nat2Z.id, insert_neighbours.
  - by rewrite Nat2Z.id.
  - by replace (Z.to_nat (Z.of_nat (S (length q)) - 1)) with (length q) by lia.
Qed.

(** The inner loop moves the element behind an ascending prefix to its
    place in it. *)
Lemma insertionSort_inner_spec n (q : list Z) x rest :
  length q = n → StronglySorted Z.le q →
  ∃ q', insertionSort_inner 0 n (q ++ x :: rest) = Done (tt, q' ++ rest) ∧
    q' ≡ₚ q ++ [x] ∧ StronglySorted Z.le q'.
Proof.
  revert q rest. induction n as [|n IH]; intros q rest Hlen Hq.
  { destruct q; [|done]. exists [x]. split; [done|]. split; [done|]. repeat constructor. }
  destruct (exists_last (l:=q)) as (q0 & y & ->); [by destruct q|].
  rewrite length_app in Hlen. simpl in Hlen. assert (length q0 = n) as Hn by lia.
  apply StronglySorted_app in Hq as (Hle & Hq0 & _).
  assert (∀ z, z ∈ q0 → z ≤ y) as Hy.
  { intros z Hz. apply Hle; [done | by apply list_elem_of_singleton]. }
  cbn [insertionSort_inner]. rewrite <-(app_assoc q0 [y]). simpl app.
  rewrite Z.add_0_l. subst n.
  rewrite (exec_bind_done _ _ _ _ _ (Less_neighbours q0 y x rest)).
  case_bool_decide as Hxy.
  - rewrite (exec_bind_done _ _ _ _ _ (Swap_neighbours q0 y x rest)).
    destruct (IH q0 (y :: rest) eq_refl Hq0) as (q' & -> & Hperm & Hq').
    exists (q' ++ [y]). rewrite <-app_assoc. split; [done|]. split.
    + rewrite Hperm. solve_Permutation.
    + apply StronglySorted_app_2; [|done|repeat constructor].
      intros x1 x2 Hx1 ->%list_elem_of_singleton. rewrite Hperm in Hx1.
      apply elem_of_app in Hx1 as [Hx1| ->%list_elem_of_singleton]; [auto|lia].
  - exists ((q0 ++ [y]) ++ [x]). rewrite <-!app_assoc. split; [done|]. split; [done|].
    rewrite app_assoc. apply StronglySorted_app_2; [| |repeat constructor].
    + intros x1 x2 Hx1 ->%list_elem_of_singleton.
      apply elem_of_app in Hx1 as [Hx1%Hy| ->%list_elem_of_singleton]; lia.
    + apply StronglySorted_app_2; [done|done|repeat constructor].
Qed.

(** The outer loop, from an ascending prefix [q] on. *)
Lemma insertionSort_loop_spec rest : ∀ q : list Z,
  StronglySorted Z.le q →
  ∃ p', for_each (λ i, insertionSort_inner 0 (Z.to_nat (i - 0)))
          (seqZ (Z.of_nat (length q)) (Z.of_nat (length rest))) (q ++ rest)
        = Done (tt, p') ∧
    p' ≡ₚ q ++ rest ∧ StronglySorted Z.le p'.
Proof.
  induction rest as [|x rest IH]; intros q Hq.
  { exists q. rewrite app_nil_r. by split. }
  rewrite seqZ_cons by (simpl; lia). cbn [for_each].
  replace (Z.to_nat (Z.of_nat (length q) - 0)) with (length q) by lia.
  destruct (insertionSort_inner_spec (length q) q x rest eq_refl Hq)
    as (q' & Hrun & Hperm & Hq').
  rewrite (exec_bind_done _ _ _ _ _ Hrun).
  destruct (IH q' Hq') as (p' & Hloop & Hperm' & Hp').
  exists p'. split; [|split; [|done]].
  - rewrite <-Hloop. f_equal. f_equal.
    + rewrite (Permutation_length Hperm), length_app. simpl. lia.
    + simpl length. lia.
  - rewrite Hperm', Hperm. by rewrite <-app_assoc.
Qed.

(** The insertion sort, run through [Less] and [Swap], sorts an
    [int32Slice]: no index it passes is out of range. *)
Lemma Sort_sorted (p : int32Slice) :
  ∃ p', Sort p = Done (tt, p') ∧ p' ≡ₚ p ∧ ascending p'.
Proof.
  unfold Sort, insertionSort. exec_unfold. cbn [sort_Len int32Slice_Interface].
  destruct p as [|x rest]; [by exists []; repeat constructor|].
  destruct (insertionSort_loop_spec rest [x]) as (p' & Hrun & Hperm & Hp');
    [repeat constructor|].
  exists p'. rewrite ascending_StronglySorted. split; [|done].
  unfold Len. cbn [length app] in *.
  by replace (Z.of_nat (S (length rest)) - (0 + 1)) with (Z.of_nat (length rest)) by lia.
Qed.

#[export] Instance Sort_sorts : Sorts Sort.
Proof. exact Sort_sorted. Qed.

(** Every routine that sorts leaves the slice [sorted_of] describes, *)
Lemma Sorts_sorted_of sort `{!Sorts sort} p : sort p = Done (tt, sorted_of p).
Proof.
  destruct (sorts p) as (p' & -> & Hperm & Hp').
  by rewrite (sorted_of_unique p p').
Qed.

(** so any two of them agree. *)
Lemma Sorts_unique f g `{!Sorts f, !Sorts g} p : f p = g p.
Proof. by rewrite !Sorts_sorted_of. Qed.

(** [sort.Sort] on an [int32Slice] returns, on every slice, with the
    ascending permutation of it: [Less] and [Swap] are never called with
    an index out of range, and [Less] orders the elements as integers. *)
Theorem Sort_spec (p : int32Slice) :
  Sort p = Done (tt, sorted_of p) ∧ sorted_of p ≡ₚ p ∧ ascending (sorted_of p).
Proof.
  split; [apply (Sorts_sorted_of Sort)|].
  split; [apply sorted_of_perm | apply sorted_of_ascending].
Qed.

Example Sort_example : Sort [3; 1; 2; 1; 0] = Done (tt, [0; 1; 1; 2; 3]).
Proof. reflexivity. Qed.
