(* ===== verification/Consumer.v ===== *)
(** * Consumer: the partition consumer and its state accessors

    A [partitionConsumer] (src/unnamed/part_000) owns the stream of one
    partition and the ledger of its offsets.  This file models the struct,
    its constructor [newPartitionConsumer], and the accessors the
    application and the committer call: [State], [MarkOffset],
    [MarkCommitted], [AddPendingOffset], [RemovePendingOffset] and
    [SetOffset].  The forwarding loop and [Close] are a protocol between
    goroutines: they are modelled in Lifecycle.v.

    ** The store

    Consumers are used through pointers ([*partitionConsumer]), which the
    registry keeps and hands out, and a pointer may be nil.  A [world]
    holds the consumer objects by address, the map objects of their
    ledgers ([Heap]) and the state of the Kafka client.  Both stores are
    read with total lookup.

    ** The mutex

    [State], [MarkOffset] and [MarkCommitted] lock the consumer's mutex
    for their whole body.  The mutex is a field of the model: [Lock] sets
    it, and fails with [Deadlock] when it is held, since in a sequential
    run nobody is left to release it; [Unlock] clears it.  The theorems
    show that each of the three returns with the mutex released, and where
    a panic leaves it held.  [AddPendingOffset], [RemovePendingOffset] and
    [SetOffset] neither lock nor test the receiver for nil.

    ** The Kafka client

    [sarama.Consumer] and [sarama.PartitionConsumer] are outside the
    repository.  The class [Provider] states the three calls the sources
    make ([ConsumePartition], [SetOffset], [Close]) over an abstract
    client state; the theorems hold for every instance.  [fake_provider]
    is an instance with a retained range of offsets per partition, used to
    run the definitions. *)

From S2P Require Import Prelude Strconv Heap Offsets.

#[local] Open Scope Z_scope.

(** ** Data *)

(** [type none struct{}], the element type of the signal channels. *)
Definition none : Set := unit.

(** [type partitionState struct] *)
Record partitionState : Set := mkPartitionState {
  Info : offsetInfo;
  Dirty : bool;
}.

#[export] Instance partitionState_eq_dec : EqDecision partitionState.
Proof. solve_decision. Defined.

(** [partitionState{}] *)
#[export] Instance partitionState_inhabited : Inhabited partitionState :=
  populate {| Info := inhabitant; Dirty := false |}.

(** The handle of a [sarama.PartitionConsumer]. *)
Definition handle : Set := positive.

(** [type partitionConsumer struct].  A signal channel carries no value and
    is only ever closed: it is the flag "closed". *)
Record partitionConsumer : Set := mkPartitionConsumer {
  pcm : handle;
  state : partitionState;
  mutex : bool;
  closed : bool;
  dying : bool;
  dead : bool;
}.

#[export] Instance partitionConsumer_eq_dec : EqDecision partitionConsumer.
Proof. solve_decision. Defined.

#[export] Instance partitionConsumer_inhabited : Inhabited partitionConsumer :=
  populate {| pcm := 1%positive; state := inhabitant; mutex := false;
              closed := false; dying := false; dead := false |}.

(** The address of a consumer, and a [*partitionConsumer]. *)
Definition ptr : Set := positive.
Definition cref : Set := option ptr.

(** The errors of the Kafka client: the one the constructor recovers from,
    and the others. *)
Inductive error : Set :=
| ErrOffsetOutOfRange
| ErrOther (msg : string).

#[export] Instance error_eq_dec : EqDecision error.
Proof. solve_decision. Defined.

(** [type Error struct { Ctx string; error }] (src/cluster.go): an error
    with the context it was met in.  The embedded field has the name of
    its type in Go; here it is [Error_error].  The errors [Loop] forwards
    are those of the stream, as they come: no code of the repository
    wraps one. *)
Record Error : Set := mkError {
  Ctx : string;
  Error_error : error;
}.

#[export] Instance Error_eq_dec : EqDecision Error.
Proof. solve_decision. Defined.

(** What the sources ask of the Kafka client, over a client state [P]. *)
Class Provider (P : Type) := {
  (** [manager.ConsumePartition(topic, partition, offset)] *)
  ConsumePartition : string → Z → Z → P → (handle + error) * P;
  (** [pcm.SetOffset(offset)] *)
  pcm_SetOffset : handle → Z → P → P;
  (** [pcm.Close()] *)
  pcm_Close : handle → P → option error * P;
}.

(** The store: map objects, consumer objects, and the client. *)
Record world (P : Type) : Type := mkWorld {
  maps : heap;
  consumers : gmap ptr partitionConsumer;
  client : P;
}.
Arguments mkWorld {P} _ _ _.
Arguments maps {P} _.
Arguments consumers {P} _.
Arguments client {P} _.

(** ** Field updates *)

Definition set_Offset (o : Z) (i : offsetInfo) : offsetInfo :=
  {| Offset := o; PendingOffsets := PendingOffsets i; Metadata := Metadata i |}.
Definition set_Metadata (m : string) (i : offsetInfo) : offsetInfo :=
  {| Offset := Offset i; PendingOffsets := PendingOffsets i; Metadata := m |}.
Definition set_Info (i : offsetInfo) (st : partitionState) : partitionState :=
  {| Info := i; Dirty := Dirty st |}.
Definition set_Dirty (d : bool) (st : partitionState) : partitionState :=
  {| Info := Info st; Dirty := d |}.
Definition set_state (st : partitionState) (c : partitionConsumer) : partitionConsumer :=
  {| pcm := pcm c; state := st; mutex := mutex c; closed := closed c;
     dying := dying c; dead := dead c |}.
Definition set_mutex (m : bool) (c : partitionConsumer) : partitionConsumer :=
  {| pcm := pcm c; state := state c; mutex := m; closed := closed c;
     dying := dying c; dead := dead c |}.

Definition set_closed (b : bool) (c : partitionConsumer) : partitionConsumer :=
  {| pcm := pcm c; state := state c; mutex := mutex c; closed := b;
     dying := dying c; dead := dead c |}.
Definition set_dying (b : bool) (c : partitionConsumer) : partitionConsumer :=
  {| pcm := pcm c; state := state c; mutex := mutex c; closed := closed c;
     dying := b; dead := dead c |}.
Definition set_dead (b : bool) (c : partitionConsumer) : partitionConsumer :=
  {| pcm := pcm c; state := state c; mutex := mutex c; closed := closed c;
     dying := dying c; dead := b |}.

Section accessors.
Context {P : Type} `{!Provider P}.

Definition set_maps (h : heap) (w : world P) : world P :=
  {| maps := h; consumers := consumers w; client := client w |}.
Definition set_consumers (cs : gmap ptr partitionConsumer) (w : world P) : world P :=
  {| maps := maps w; consumers := cs; client := client w |}.
Definition set_client (cl : P) (w : world P) : world P :=
  {| maps := maps w; consumers := consumers w; client := cl |}.

(** ** Pointers *)

(** Using a [*partitionConsumer]: a nil pointer panics. *)
Definition deref (c : cref) : exec (world P) ptr :=
  match c with
  | None => raise NilDereference
  | Some p => mret p
  end.

(** Reading and writing the object at an address. *)
Definition load (p : ptr) : exec (world P) partitionConsumer :=
  w ← get; mret (consumers w !!! p).
Definition store (p : ptr) (c : partitionConsumer) : exec (world P) unit :=
  modify (λ w, set_consumers (<[p := c]> (consumers w)) w).

(** Running a computation on the map objects. *)
Definition on_maps {A} (m : exec heap A) : exec (world P) A :=
  zoom maps set_maps m.

(** [c.mutex.Lock()] and [c.mutex.Unlock()] *)
Definition Lock (p : ptr) : exec (world P) unit :=
  c ← load p;
  if mutex c then raise Deadlock else store p (set_mutex true c).
Definition Unlock (p : ptr) : exec (world P) unit :=
  c ← load p;
  if mutex c then store p (set_mutex false c) else raise UnlockOfUnlocked.

(** ** newPartitionConsumer *)

(** The constructor, when the range of [info.NextOffset] visits [ks].  It
    returns the pointer and the error; the new object is stored at a fresh
    address. *)
Definition newPartitionConsumer (ks : list Z) (topic : string) (partition : Z)
    (info : offsetInfo) (defaultOffset : Z) : exec (world P) (cref * option error) :=
  w ← get;
  let '(r, cl) :=
    ConsumePartition topic partition (NextOffset (maps w) ks info defaultOffset) (client w) in
  (* Resume from default offset, if requested offset is out-of-range *)
  let '(info, r, cl) :=
    match r with
    | inr ErrOffsetOutOfRange =>
        let '(r', cl') := ConsumePartition topic partition defaultOffset cl in
        (set_Offset (-1) info, r', cl')
    | _ => (info, r, cl)
    end in
  modify (set_client cl) ;;
  match r with
  | inr err => mret (None, Some err)
  | inl h =>
      w ← get;
      let p := fresh (dom (consumers w)) in
      store p {| pcm := h; state := {| Info := info; Dirty := false |};
                 mutex := false; closed := false; dying := false; dead := false |} ;;
      mret (Some p, None)
  end.

(** ** State *)

(** [State], when the range of [Serialize] visits [ks]. *)
Definition State (ks : list Z) (c : cref) : exec (world P) partitionState :=
  match c with
  | None => mret inhabitant
  | Some p =>
      Lock p ;;
      pc ← load p;
      let st := state pc in
      w ← get;
      info ← (if decide (Metadata (Info st) = "") then
                mret (Serialize ks (Info st))
              else if decide (map_len (maps w) (PendingOffsets (Info st)) = 0) then
                on_maps (Deserialize (Info st))
              else mret (Info st));
      Unlock p ;;
      mret (set_Info info st)
  end.

(** ** MarkCommitted *)

Definition MarkCommitted (c : cref) (offset : Z) : exec (world P) unit :=
  match c with
  | None => mret tt
  | Some p =>
      Lock p ;;
      pc ← load p;
      (if bool_decide (offset = Offset (Info (state pc)))
          || bool_decide (Metadata (Info (state pc)) ≠ "")
       then store p (set_state (set_Dirty false (state pc)) pc)
       else mret tt) ;;
      Unlock p
  end.

(** ** AddPendingOffset, RemovePendingOffset, SetOffset *)

Definition AddPendingOffset (c : cref) (offset : Z) : exec (world P) unit :=
  p ← deref c;
  pc ← load p;
  on_maps (map_assign (PendingOffsets (Info (state pc))) offset).

Definition SetOffset (c : cref) (offset : Z) : exec (world P) unit :=
  p ← deref c;
  pc ← load p;
  modify (λ w, set_client (pcm_SetOffset (pcm pc) offset (client w)) w).

Definition RemovePendingOffset (c : cref) (offset : Z) : exec (world P) unit :=
  p ← deref c;
  pc ← load p;
  on_maps (map_delete (PendingOffsets (Info (state pc))) offset).

(** ** MarkOffset *)

Definition MarkOffset (c : cref) (offset : Z) (metadata : string) : exec (world P) unit :=
  match c with
  | None => mret tt
  | Some p =>
      Lock p ;;
      pc ← load p;
      (if decide (Offset (Info (state pc)) < offset) then
         let info := set_Offset offset (Info (state pc)) in
         (* Only commit metadata if it's a valid string. *)
         let info := if decide (metadata ≠ "") then set_Metadata metadata info else info in
         store p (set_state {| Info := info; Dirty := true |} pc)
       else mret tt) ;;
      Unlock p
  end.

(** ** Calls *)

(** The calls an application and a committer make on consumers, *)
Inductive call : Set :=
| CallState (ks : list Z) (c : cref)
| CallMarkOffset (c : cref) (offset : Z) (metadata : string)
| CallMarkCommitted (c : cref) (offset : Z)
| CallAddPendingOffset (c : cref) (offset : Z)
| CallRemovePendingOffset (c : cref) (offset : Z)
| CallSetOffset (c : cref) (offset : Z).

(** and what each runs. *)
Definition run_call (k : call) : exec (world P) unit :=
  match k with
  | CallState ks c => State ks c ;; mret tt
  | CallMarkOffset c offset metadata => MarkOffset c offset metadata
  | CallMarkCommitted c offset => MarkCommitted c offset
  | CallAddPendingOffset c offset => AddPendingOffset c offset
  | CallRemovePendingOffset c offset => RemovePendingOffset c offset
  | CallSetOffset c offset => SetOffset c offset
  end.

(** The offset a call passes is an [int64]. *)
Definition call_wf (k : call) : Prop :=
  match k with
  | CallState _ _ => True
  | CallMarkOffset _ offset _ | CallMarkCommitted _ offset
  | CallAddPendingOffset _ offset | CallRemovePendingOffset _ offset
  | CallSetOffset _ offset => in_int 64 offset
  end.

End accessors.

(** ** A client to run the definitions on *)

(** A Kafka client that retains a range of offsets, oldest to newest, for
    each partition it knows, and hands out a new handle for each stream. *)
Record fake_client : Type := mkFakeClient {
  retained : gmap (string * Z) (Z * Z);
  cursors : gmap handle Z;
  closed_streams : gset handle;
}.

(** [sarama.OffsetNewest] and [sarama.OffsetOldest] *)
Definition OffsetNewest : Z := -1.
Definition OffsetOldest : Z := -2.

Definition fake_ConsumePartition (topic : string) (partition offset : Z)
    (cl : fake_client) : (handle + error) * fake_client :=
  match retained cl !! (topic, partition) with
  | None => (inr (ErrOther "unknown topic or partition"), cl)
  | Some (oldest, newest) =>
      let start :=
        if decide (offset = OffsetNewest) then Some newest
        else if decide (offset = OffsetOldest) then Some oldest
        else if decide (oldest ≤ offset ≤ newest) then Some offset
        else None in
      match start with
      | None => (inr ErrOffsetOutOfRange, cl)
      | Some o =>
          let h := fresh (dom (cursors cl)) in
          (inl h, {| retained := retained cl; cursors := <[h := o]> (cursors cl);
                     closed_streams := closed_streams cl |})
      end
  end.

(** What the documentation of the client promises of the two offsets
    that name an end of the log: a stream asked for at [OffsetNewest] or
    at [OffsetOldest] starts where the log starts or ends now, so the
    request is never out of range.  It may fail otherwise. *)
Class ProviderLaws (P : Type) `{!Provider P} := {
  ConsumePartition_end topic partition offset (cl : P) :
    offset = OffsetNewest ∨ offset = OffsetOldest →
    (ConsumePartition topic partition offset cl).1 ≠ inr ErrOffsetOutOfRange;
}.

#[export] Instance fake_provider : Provider fake_client := {|
  ConsumePartition := fake_ConsumePartition;
  pcm_SetOffset h o cl :=
    {| retained := retained cl; cursors := <[h := o]> (cursors cl);
       closed_streams := closed_streams cl |};
  pcm_Close h cl :=
    (None, {| retained := retained cl; cursors := cursors cl;
              closed_streams := {[h]} ∪ closed_streams cl |});
|}.

(** A client that retains offsets 10 to 20 of partition 0 of topic "t". *)
Definition ex_client : fake_client :=
  {| retained := {[ ("t", 0) := (10, 20) ]}; cursors := ∅; closed_streams := ∅ |}.

(** A consumer at offset 4 with the pending offsets 5 and 7 of [ex_heap], *)
Definition ex_consumer : partitionConsumer :=
  {| pcm := 1%positive; state := {| Info := ex_ledger; Dirty := false |};
     mutex := false; closed := false; dying := false; dead := false |}.

(** one that received metadata and has an empty pending map, *)
Definition ex_consumer_meta : partitionConsumer :=
  {| pcm := 2%positive; state := {| Info := ex_received; Dirty := false |};
     mutex := false; closed := false; dying := false; dead := false |}.

(** one that received metadata and has a nil pending map, *)
Definition ex_consumer_nil : partitionConsumer :=
  {| pcm := 3%positive; state := {| Info := ex_nil_ledger; Dirty := false |};
     mutex := false; closed := false; dying := false; dead := false |}.

(** and the store that holds them at the addresses 1, 2 and 3. *)
Definition ex_world : world fake_client :=
  {| maps := ex_heap;
     consumers := {[ 1%positive := ex_consumer; 2%positive := ex_consumer_meta;
                     3%positive := ex_consumer_nil ]};
     client := ex_client |}.

(** ** Reference definitions *)

(** Two states that differ at most in the metadata of their ledgers. *)
Definition up_to_metadata (st st' : partitionState) : Prop :=
  Dirty st = Dirty st' ∧ Offset (Info st) = Offset (Info st') ∧
  PendingOffsets (Info st) = PendingOffsets (Info st').

(** The consumer the constructor builds around the handle [h]. *)
Definition new_consumer (h : handle) (info : offsetInfo) : partitionConsumer :=
  {| pcm := h; state := {| Info := info; Dirty := false |};
     mutex := false; closed := false; dying := false; dead := false |}.

(** What [MarkOffset] does to the state of a consumer. *)
Definition mark_offset (offset : Z) (metadata : string) (st : partitionState)
    : partitionState :=
  if decide (Offset (Info st) < offset) then
    {| Info := {| Offset := offset;
                  PendingOffsets := PendingOffsets (Info st);
                  Metadata := if decide (metadata = "") then Metadata (Info st)
                              else metadata |};
       Dirty := true |}
  else st.

(** What [MarkCommitted] does to the state of a consumer. *)
Definition mark_committed (offset : Z) (st : partitionState) : partitionState :=
  if decide (offset = Offset (Info st) ∨ Metadata (Info st) ≠ "")
  then set_Dirty false st else st.

Section store.
Context {P : Type} `{!Provider P}.
Implicit Types (w : world P) (p q : ptr) (c : partitionConsumer).

(** The consumer a pointer refers to. *)
Definition consumer_at w p : partitionConsumer := consumers w !!! p.

(** The store with the consumer at [p] replaced by [c]. *)
Definition upd p c w : world P := set_consumers (<[p := c]> (consumers w)) w.

(** The state and the pending offsets of the consumer at [p]. *)
Definition state_at w p : partitionState := state (consumer_at w p).
Definition pending_at w p : gset Z := pending (maps w) (Info (state_at w p)).

(** A consumer whose mutex is free. *)
Definition unlocked w p : Prop := mutex (consumer_at w p) = false.

(** The state behind a pointer; [partitionState{}] behind nil. *)
Definition state_of w (c : cref) : partitionState :=
  match c with
  | None => inhabitant
  | Some p => state_at w p
  end.

(** [State] can run on [c]: the mutex is free, and a ledger without a map
    carries no offset in its metadata. *)
Definition State_safe w (c : cref) : Prop :=
  match c with
  | None => True
  | Some p =>
      unlocked w p ∧
      (PendingOffsets (Info (state_at w p)) = None →
       metadata_offsets (Metadata (Info (state_at w p))) = [])
  end.

(** [w'] differs from [w] at most in the ledger and the dirty flag of the
    consumer at [p]: the maps, the client, the other consumers and the
    other fields of this one, its mutex included, are the same. *)
Definition only_state_of p w w' : Prop :=
  maps w' = maps w ∧ client w' = client w ∧
  (∀ q, q ≠ p → consumer_at w' q = consumer_at w q) ∧
  consumer_at w' p = set_state (state_at w' p) (consumer_at w p).

(** A store is well formed when every pending offset and every confirmed
    offset is an [int64], and no confirmed offset is below -1. *)
Definition world_wf w : Prop :=
  heap_wf (maps w) ∧ ∀ p, offsetInfo_wf (Info (state_at w p)).

(** The same, as a condition on the consumers the store holds. *)
Definition consumers_wf w : Prop :=
  map_Forall (λ _ c, offsetInfo_wf (Info (state c))) (consumers w).

(** [w'] differs from [w] at most in the map objects. *)
Definition only_maps w w' : Prop :=
  client w' = client w ∧ ∀ q, consumer_at w' q = consumer_at w q.

#[export] Instance unlocked_dec w p : Decision (unlocked w p).
Proof. unfold unlocked. apply _. Defined.

#[export] Instance State_safe_dec w (r : cref) : Decision (State_safe w r).
Proof. destruct r; simpl; apply _. Defined.

#[export] Instance consumers_wf_dec w : Decision (consumers_wf w).
Proof. unfold consumers_wf. apply _. Defined.

End store.

(** Unfold the operations on the store and evaluate them. *)
Ltac store_simpl :=
  repeat first
    [ rewrite lookup_total_insert_eq
    | rewrite insert_insert_eq
    | progress cbn [consumers set_consumers maps set_maps client set_client
                    state set_state mutex set_mutex Info Dirty set_Info set_Dirty
                    pcm closed dying dead] ].

Ltac run_accessor :=
  unfold Lock, Unlock, load, store, deref, on_maps, upd, state_at, consumer_at in *;
  exec_unfold; cbv beta iota; store_simpl.

(** ** The store *)

Section store_lemmas.
Context {P : Type} `{!Provider P}.
Implicit Types (w : world P) (p q : ptr) (c : partitionConsumer).

Lemma set_state_id c : set_state (state c) c = c.
Proof. by destruct c. Qed.

Lemma set_mutex_relock c : mutex c = false → set_mutex false (set_mutex true c) = c.
Proof. destruct c. simpl. by intros ->. Qed.

Lemma set_state_mutex st c :
  mutex c = false → set_mutex false (set_state st (set_mutex true c)) = set_state st c.
Proof. destruct c. simpl. by intros ->. Qed.

Lemma consumer_at_upd p c w : consumer_at (upd p c w) p = c.
Proof. unfold consumer_at, upd. simpl. apply lookup_total_insert_eq. Qed.

Lemma consumer_at_upd_ne p q c w : p ≠ q → consumer_at (upd p c w) q = consumer_at w q.
Proof. intros. unfold consumer_at, upd. simpl. by apply lookup_total_insert_ne. Qed.

Lemma upd_upd p c c' w : upd p c' (upd p c w) = upd p c' w.
Proof. unfold upd. simpl. unfold set_consumers. simpl. by rewrite insert_insert_eq. Qed.

Lemma maps_upd p c w : maps (upd p c w) = maps w.
Proof. done. Qed.

Lemma client_upd p c w : client (upd p c w) = client w.
Proof. done. Qed.

Lemma pending_at_upd p c w :
  pending_at (upd p c w) p = pending (maps w) (Info (state c)).
Proof. unfold pending_at, state_at. by rewrite consumer_at_upd. Qed.

Lemma world_eq w w' :
  maps w = maps w' → consumers w = consumers w' → client w = client w' → w = w'.
Proof. destruct w, w'. simpl. by intros -> -> ->. Qed.

Lemma set_mutex_unlocked c : mutex c = false → set_mutex false c = c.
Proof. destruct c. simpl. by intros ->. Qed.

Lemma upd_only_state p st w : only_state_of p w (upd p (set_state st (consumer_at w p)) w).
Proof.
  unfold only_state_of, state_at. rewrite consumer_at_upd.
  split; [done|]. split; [done|]. split; [|done].
  intros q Hq. by apply consumer_at_upd_ne.
Qed.

Lemma state_at_upd p st w : state_at (upd p (set_state st (consumer_at w p)) w) p = st.
Proof. unfold state_at. by rewrite consumer_at_upd. Qed.

Lemma only_state_of_unlocked p w w' : only_state_of p w w' → unlocked w p → unlocked w' p.
Proof. intros (_ & _ & _ & Hc) Hm. unfold unlocked in *. by rewrite Hc. Qed.

(** What is true of the store after an accessor has rewritten the state of
    a consumer whose mutex was free. *)
Lemma upd_state_result p st w :
  unlocked w p →
  let w' := upd p (set_state st (consumer_at w p)) w in
  state_at w' p = st ∧ only_state_of p w w' ∧ unlocked w' p.
Proof.
  intros Hm w'. split; [apply state_at_upd|]. split; [apply upd_only_state|].
  eapply only_state_of_unlocked; [apply upd_only_state | done].
Qed.

(** The same, after an accessor that only took and released the mutex. *)
Lemma upd_same_result p w :
  unlocked w p →
  let w' := upd p (consumer_at w p) w in
  state_at w' p = state_at w p ∧ only_state_of p w w' ∧ unlocked w' p.
Proof.
  intros Hm. pose proof (upd_state_result p (state_at w p) w Hm) as Hres.
  unfold state_at in Hres at 1 2 3. by rewrite set_state_id in Hres.
Qed.

Lemma consumer_at_set_maps h w p : consumer_at (set_maps h w) p = consumer_at w p.
Proof. done. Qed.

Lemma maps_set_maps h w : maps (set_maps h w) = h.
Proof. done. Qed.

Lemma world_wf_alt w : heap_wf (maps w) → consumers_wf w → world_wf w.
Proof.
  intros Hmaps Hcs. split; [done|]. intros p.
  unfold state_at, consumer_at. rewrite lookup_total_alt.
  destruct (consumers w !! p) as [c|] eqn:Hp; [by apply (Hcs p c)|].
  split; by_compute.
Qed.

Lemma set_maps_only_maps h w : only_maps w (set_maps h w).
Proof. done. Qed.

End store_lemmas.

(** Two results are equal when their stores agree field by field. *)
Ltac same_world :=
  lazymatch goal with
  | |- Done (?a, _) = Done (?a, _) => do 2 f_equal
  | |- _ => idtac
  end;
  apply world_eq; store_simpl; [reflexivity | f_equal | reflexivity].

(** ** The accessors, branch by branch *)

Section accessor_specs.
Context {P : Type} `{!Provider P}.
Implicit Types (w : world P) (p q : ptr) (c : cref).

(** *** On a nil receiver *)

Lemma State_nil ks w : State ks None w = Done (inhabitant, w).
Proof. done. Qed.

Lemma MarkOffset_nil offset metadata w : MarkOffset None offset metadata w = Done (tt, w).
Proof. done. Qed.

Lemma MarkCommitted_nil offset w : MarkCommitted None offset w = Done (tt, w).
Proof. done. Qed.

Lemma AddPendingOffset_nil offset w : AddPendingOffset None offset w = Panic NilDereference.
Proof. done. Qed.

Lemma RemovePendingOffset_nil offset w :
  RemovePendingOffset None offset w = Panic NilDereference.
Proof. done. Qed.

Lemma SetOffset_nil offset w : SetOffset None offset w = Panic NilDereference.
Proof. done. Qed.

(** *** MarkOffset *)

Lemma MarkOffset_exec p offset metadata w :
  unlocked w p →
  MarkOffset (Some p) offset metadata w
  = Done (tt, upd p (set_state (mark_offset offset metadata (state_at w p))
                               (consumer_at w p)) w).
Proof.
  unfold unlocked. intros Hm. unfold MarkOffset, mark_offset. run_accessor.
  rewrite Hm. store_simpl. case_decide; store_simpl; same_world.
  - rewrite set_state_mutex by done. do 2 f_equal.
    unfold set_Metadata, set_Offset. repeat case_decide; try done; by exfalso; auto.
  - by rewrite set_mutex_relock, set_state_id.
Qed.

Lemma MarkOffset_deadlock p offset metadata w :
  ¬ unlocked w p → MarkOffset (Some p) offset metadata w = Panic Deadlock.
Proof.
  unfold unlocked. intros Hm%not_false_is_true. unfold MarkOffset. run_accessor.
  by rewrite Hm.
Qed.

(** *** MarkCommitted *)

Lemma MarkCommitted_exec p offset w :
  unlocked w p →
  MarkCommitted (Some p) offset w
  = Done (tt, upd p (set_state (mark_committed offset (state_at w p))
                               (consumer_at w p)) w).
Proof.
  unfold unlocked. intros Hm. unfold MarkCommitted, mark_committed. run_accessor.
  rewrite Hm. store_simpl.
  destruct (bool_decide_reflect (offset = Offset (Info (state (consumers w !!! p)))));
    destruct (bool_decide_reflect (Metadata (Info (state (consumers w !!! p))) ≠ ""));
    simpl; store_simpl; same_world.
  1-3: rewrite decide_True by auto; by rewrite set_state_mutex.
  rewrite decide_False by naive_solver. by rewrite set_mutex_relock, set_state_id.
Qed.

Lemma MarkCommitted_deadlock p offset w :
  ¬ unlocked w p → MarkCommitted (Some p) offset w = Panic Deadlock.
Proof.
  unfold unlocked. intros Hm%not_false_is_true. unfold MarkCommitted. run_accessor.
  by rewrite Hm.
Qed.

(** *** AddPendingOffset, RemovePendingOffset, SetOffset *)

Lemma AddPendingOffset_exec p offset w :
  AddPendingOffset (Some p) offset w
  = match map_assign (PendingOffsets (Info (state_at w p))) offset (maps w) with
    | Done (_, h) => Done (tt, set_maps h w)
    | Panic e => Panic e
    end.
Proof.
  unfold AddPendingOffset. run_accessor.
  by destruct (map_assign _ _ _) as [[[] h]|].
Qed.

Lemma RemovePendingOffset_exec p offset w :
  RemovePendingOffset (Some p) offset w
  = match map_delete (PendingOffsets (Info (state_at w p))) offset (maps w) with
    | Done (_, h) => Done (tt, set_maps h w)
    | Panic e => Panic e
    end.
Proof.
  unfold RemovePendingOffset. run_accessor.
  by destruct (map_delete _ _ _) as [[[] h]|].
Qed.

Lemma SetOffset_exec p offset w :
  SetOffset (Some p) offset w
  = Done (tt, set_client (pcm_SetOffset (pcm (consumer_at w p)) offset (client w)) w).
Proof. done. Qed.

(** *** State *)

Lemma State_exec ks p w :
  unlocked w p →
  let c := consumer_at w p in
  let st := state c in
  State ks (Some p) w
  = if decide (Metadata (Info st) = "") then
      Done (set_Info (Serialize ks (Info st)) st, upd p c w)
    else if decide (map_len (maps w) (PendingOffsets (Info st)) = 0) then
      match Deserialize (Info st) (maps w) with
      | Done (i, h) => Done (set_Info i st, set_maps h (upd p c w))
      | Panic e => Panic e
      end
    else Done (set_Info (Info st) st, upd p c w).
Proof.
  intros Hm. cbv zeta. unfold unlocked in Hm. unfold State. run_accessor.
  rewrite Hm. store_simpl. repeat case_decide; store_simpl.
  - same_world. by rewrite set_mutex_relock.
  - destruct (Deserialize _ _) as [[i h]|]; [|done]. store_simpl.
    same_world. by rewrite set_mutex_relock.
  - same_world. by rewrite set_mutex_relock.
Qed.

Lemma State_deadlock ks p w :
  ¬ unlocked w p → State ks (Some p) w = Panic Deadlock.
Proof.
  unfold unlocked. intros Hm%not_false_is_true. unfold State. run_accessor.
  by rewrite Hm.
Qed.

End accessor_specs.

(** ** The accessors: what they promise *)

Section accessor_theorems.
Context {P : Type} `{!Provider P}.
Implicit Types (w : world P) (p q : ptr) (c : cref).

(** [C2] [MarkOffset] on a consumer whose mutex is free returns with the
    mutex free and has advanced the confirmed offset to the larger of the
    old one and [offset].  Only when the offset advanced is the consumer
    dirty afterwards and the metadata replaced, and the metadata is
    replaced only by a non-empty string.  Nothing else changes. *)
Theorem MarkOffset_spec p offset metadata w :
  unlocked w p →
  let old := state_at w p in
  let advanced := bool_decide (Offset (Info old) < offset) in
  ∃ w', MarkOffset (Some p) offset metadata w = Done (tt, w') ∧
    Offset (Info (state_at w' p)) = Offset (Info old) `max` offset ∧
    Dirty (state_at w' p) = Dirty old || advanced ∧
    Metadata (Info (state_at w' p))
      = (if advanced && bool_decide (metadata ≠ "") then metadata
         else Metadata (Info old)) ∧
    PendingOffsets (Info (state_at w' p)) = PendingOffsets (Info old) ∧
    only_state_of p w w' ∧ unlocked w' p.
Proof.
  intros Hm. cbv zeta. eexists. split; [by apply MarkOffset_exec|].
  destruct (upd_state_result p (mark_offset offset metadata (state_at w p)) w Hm)
    as (-> & Hframe & Hm').
  split_and!; [..|done|done]; unfold mark_offset;
    destruct (decide (Offset (Info (state_at w p)) < offset)) as [Hlt|Hlt];
    rewrite ?(bool_decide_eq_true_2 _ Hlt), ?(bool_decide_eq_false_2 _ Hlt);
    simpl; rewrite ?orb_true_r, ?orb_false_r; try done; try lia.
  destruct (decide (metadata = "")) as [->|Hmeta]; [done|].
  by rewrite bool_decide_eq_true_2.
Qed.

(** [MarkCommitted] clears the dirty flag exactly when the committed
    offset is the confirmed one or the metadata is not empty; the ledger is
    untouched and the mutex is released. *)
Theorem MarkCommitted_spec p offset w :
  unlocked w p →
  let old := state_at w p in
  ∃ w', MarkCommitted (Some p) offset w = Done (tt, w') ∧
    Info (state_at w' p) = Info old ∧
    Dirty (state_at w' p)
      = Dirty old && negb (bool_decide (offset = Offset (Info old))
                           || bool_decide (Metadata (Info old) ≠ "")) ∧
    only_state_of p w w' ∧ unlocked w' p.
Proof.
  intros Hm. cbv zeta. eexists. split; [by apply MarkCommitted_exec|].
  destruct (upd_state_result p (mark_committed offset (state_at w p)) w Hm)
    as (-> & Hframe & Hm').
  split_and!; [..|done|done]; unfold mark_committed; case_decide as Hc; try done.
  - destruct Hc as [Ho|Hmeta];
      [rewrite (bool_decide_eq_true_2 _ Ho)
      |rewrite (bool_decide_eq_true_2 _ Hmeta), orb_true_r];
      simpl; by rewrite andb_false_r.
  - rewrite !bool_decide_eq_false_2 by tauto. simpl. by rewrite andb_true_r.
Qed.

(** [C40] A commit of a stale offset clears the dirty flag as soon as the
    metadata is not empty: after [MarkOffset] has stored metadata, a later
    mark is forgotten by [MarkCommitted] of any earlier offset. *)
Theorem MarkCommitted_stale p offset w :
  unlocked w p → Metadata (Info (state_at w p)) ≠ "" →
  ∃ w', MarkCommitted (Some p) offset w = Done (tt, w') ∧
    Dirty (state_at w' p) = false ∧
    Offset (Info (state_at w' p)) = Offset (Info (state_at w p)).
Proof.
  intros Hm Hmeta. eexists. split; [by apply MarkCommitted_exec|].
  destruct (upd_state_result p (mark_committed offset (state_at w p)) w Hm)
    as (-> & _ & _).
  unfold mark_committed. by rewrite decide_True by tauto.
Qed.

(** The three accessors that test their receiver do nothing on a nil
    consumer; [AddPendingOffset], [RemovePendingOffset] and [SetOffset] do
    not test it and panic with a nil dereference. *)
Theorem accessors_on_nil ks offset metadata w :
  State ks None w = Done (inhabitant, w) ∧
  MarkOffset None offset metadata w = Done (tt, w) ∧
  MarkCommitted None offset w = Done (tt, w) ∧
  AddPendingOffset None offset w = Panic NilDereference ∧
  RemovePendingOffset None offset w = Panic NilDereference ∧
  SetOffset None offset w = Panic NilDereference.
Proof. done. Qed.

(** [AddPendingOffset] adds the offset to the consumer's pending map
    and panics when that map is nil; [RemovePendingOffset] removes it and
    does nothing on a nil map.  Both leave every consumer object as it was:
    neither takes the mutex, neither sets the dirty flag. *)
Theorem PendingOffset_spec p offset w :
  let r := PendingOffsets (Info (state_at w p)) in
  (if r is None then AddPendingOffset (Some p) offset w = Panic NilMapAssign
   else ∃ w', AddPendingOffset (Some p) offset w = Done (tt, w') ∧
              pending_at w' p = {[offset]} ∪ pending_at w p ∧ only_maps w w') ∧
  ∃ w', RemovePendingOffset (Some p) offset w = Done (tt, w') ∧
        pending_at w' p = pending_at w p ∖ {[offset]} ∧ only_maps w w'.
Proof.
  cbv zeta. rewrite AddPendingOffset_exec, RemovePendingOffset_exec.
  unfold pending_at, pending, state_at. split.
  - destruct (PendingOffsets _) as [l|] eqn:Hr; [|done].
    eexists. rewrite map_assign_Some. split; [done|]. split; [|done].
    rewrite consumer_at_set_maps, maps_set_maps, Hr. simpl.
    by rewrite lookup_total_insert_eq.
  - destruct (map_delete_total (PendingOffsets (Info (state (consumer_at w p))))
                offset (maps w)) as [h Hh].
    rewrite Hh. eexists. split; [done|]. split; [|done].
    rewrite consumer_at_set_maps, maps_set_maps.
    rewrite (map_delete_contents _ _ _ _ _ Hh). by rewrite decide_True.
Qed.

(** With empty metadata, [State] serializes: it returns the ledger
    with the pending offsets printed in the order of the range, and changes
    nothing in the store but the mutex it took and released. *)
Theorem State_serializes ks p w :
  unlocked w p → Metadata (Info (state_at w p)) = "" →
  ∃ w', State ks (Some p) w = Done (set_Info (Serialize ks (Info (state_at w p)))
                                             (state_at w p), w') ∧
    state_at w' p = state_at w p ∧ only_state_of p w w' ∧ unlocked w' p.
Proof.
  intros Hm Hmeta. rewrite State_exec by done. cbv zeta.
  unfold state_at in Hmeta. rewrite decide_True by done.
  eexists. split; [done|]. by apply upd_same_result.
Qed.

(** With metadata and an empty pending map that is not nil, [State]
    deserializes into the map the consumer itself holds: after the call
    the consumer's pending offsets are those of the metadata.  The state it
    returns is the stored one, and shares that map. *)
Theorem State_deserializes ks p l w :
  unlocked w p →
  Metadata (Info (state_at w p)) ≠ "" →
  PendingOffsets (Info (state_at w p)) = Some l →
  pending_at w p = ∅ →
  ∃ w', State ks (Some p) w = Done (state_at w p, w') ∧
    state_at w' p = state_at w p ∧
    pending_at w' p = list_to_set (metadata_offsets (Metadata (Info (state_at w p)))) ∧
    (∀ r', r' ≠ Some l → map_contents (maps w') r' = map_contents (maps w) r') ∧
    unlocked w' p.
Proof.
  intros Hm Hmeta Hl Hempty. rewrite State_exec by done. cbv zeta.
  unfold pending_at, state_at in *. rewrite decide_False by done.
  rewrite decide_True by by apply map_len_zero.
  destruct (Deserialize_Some _ l (maps w) Hl) as (h & -> & Hc).
  eexists. split; [by destruct (state (consumer_at w p))|].
  unfold unlocked. rewrite !consumer_at_set_maps, consumer_at_upd, maps_set_maps.
  split; [done|]. split; [|split; [|done]].
  - unfold pending in *. rewrite Hl in *. rewrite Hc, decide_True, Hempty by done.
    set_solver.
  - intros r' Hr'. by rewrite Hc, decide_False.
Qed.

(** [C38] With metadata that holds an offset and a nil pending map, [State]
    panics: "assignment to entry in nil map". *)
Theorem State_nil_map_panics ks p w :
  unlocked w p →
  PendingOffsets (Info (state_at w p)) = None →
  metadata_offsets (Metadata (Info (state_at w p))) ≠ [] →
  State ks (Some p) w = Panic NilMapAssign.
Proof.
  intros Hm Hnil Hoffs. rewrite State_exec by done. cbv zeta. unfold state_at in *.
  assert (Metadata (Info (state (consumer_at w p))) ≠ "") as Hmeta.
  { intros Heq. by rewrite Heq in Hoffs. }
  rewrite decide_False by done. rewrite Hnil, map_len_nil, decide_True by done.
  rewrite Deserialize_None by done.
  by destruct (metadata_offsets _).
Qed.

(** [C39] The state [State] returns is not a copy of the pending offsets: it
    holds the reference the consumer holds, so an offset added to the
    consumer afterwards is pending in the snapshot too. *)
Theorem State_snapshot_aliases ks p offset w st w1 w2 :
  State ks (Some p) w = Done (st, w1) →
  AddPendingOffset (Some p) offset w1 = Done (tt, w2) →
  PendingOffsets (Info st) = PendingOffsets (Info (state_at w p)) ∧
  pending (maps w2) (Info st) = {[offset]} ∪ pending (maps w1) (Info st).
Proof.
  intros HS HA. destruct (decide (unlocked w p)) as [Hm|Hm];
    [|by rewrite State_deadlock in HS].
  rewrite State_exec in HS by done. cbv zeta in HS.
  assert (PendingOffsets (Info st) = PendingOffsets (Info (state_at w p)) ∧
          state_at w1 p = state_at w p) as [Href Hst].
  { unfold state_at in *. repeat case_decide; simplify_eq.
    - by rewrite consumer_at_upd.
    - destruct (Deserialize _ _) as [[i h]|] eqn:HD; simplify_eq.
      apply Deserialize_returns in HD as ->.
      by rewrite consumer_at_set_maps, consumer_at_upd.
    - by rewrite consumer_at_upd. }
  split; [done|]. rewrite AddPendingOffset_exec, Hst, <-Href in HA.
  destruct (map_assign _ _ _) as [[[] h]|] eqn:Hassign; simplify_eq.
  unfold pending. simpl. rewrite (map_assign_contents _ _ _ _ _ Hassign).
  by rewrite decide_True.
Qed.

End accessor_theorems.

(** ** Sequences of calls *)

Section calls.
Context {P : Type} `{!Provider P}.
Implicit Types (w : world P) (p q : ptr) (c : cref) (k : call).

(** [State] leaves every consumer object as it was. *)
Lemma State_consumers ks c w st w' q :
  State ks c w = Done (st, w') → consumer_at w' q = consumer_at w q.
Proof.
  destruct c as [p|]; [|by intros [= _ <-]].
  destruct (decide (unlocked w p)) as [Hm|Hm]; [|by rewrite State_deadlock].
  rewrite State_exec by done. cbv zeta.
  assert (consumer_at (upd p (consumer_at w p) w) q = consumer_at w q) as Hq.
  { destruct (decide (p = q)) as [<-|]; [apply consumer_at_upd|by apply consumer_at_upd_ne]. }
  repeat case_decide; try by intros [= _ <-].
  destruct (Deserialize _ _) as [[i h]|]; [|done]. by intros [= _ <-].
Qed.

#[export] Instance only_maps_preorder : PreOrder (only_maps (P:=P)).
Proof.
  split; [done|]. intros w1 w2 w3 [Hc1 Hq1] [Hc2 Hq2].
  split; [congruence|]. intros q. by rewrite Hq2.
Qed.

Lemma only_maps_state_of w w' c : only_maps w w' → state_of w' c = state_of w c.
Proof. intros [_ Hq]. destruct c as [p|]; [|done]. simpl. unfold state_at. by rewrite Hq. Qed.

Lemma only_maps_State_safe w w' c : only_maps w w' → State_safe w c → State_safe w' c.
Proof.
  intros [_ Hq]. destruct c as [p|]; [|done]. simpl.
  unfold unlocked, state_at. by rewrite Hq.
Qed.

(** Where [State] can run it returns the state behind the pointer, up to
    the metadata, and changes nothing but map objects. *)
Lemma State_total ks c w :
  State_safe w c →
  ∃ st w', State ks c w = Done (st, w') ∧
    up_to_metadata st (state_of w c) ∧ only_maps w w'.
Proof.
  destruct c as [p|]; [|by exists inhabitant, w]. intros [Hm Hnil].
  assert (only_maps w (upd p (consumer_at w p) w)) as Hupd.
  { split; [done|]. intros q.
    destruct (decide (p = q)) as [<-|]; [apply consumer_at_upd|by apply consumer_at_upd_ne]. }
  rewrite State_exec by done. cbv zeta. simpl. unfold state_at in *.
  repeat case_decide; [by eexists _, _|..|by eexists _, _].
  destruct (PendingOffsets (Info (state (consumer_at w p)))) as [l|] eqn:Hl.
  - destruct (Deserialize_Some _ l (maps w) Hl) as (h & -> & _).
    by eexists _, _.
  - rewrite Deserialize_None, Hnil by done. by eexists _, _.
Qed.

(** What a call that returns has done to the state of each consumer. *)
Lemma run_call_state_at k w w' q :
  run_call k w = Done (tt, w') →
  state_at w' q
  = match k with
    | CallMarkOffset (Some p) offset metadata =>
        if decide (p = q) then mark_offset offset metadata (state_at w q) else state_at w q
    | CallMarkCommitted (Some p) offset =>
        if decide (p = q) then mark_committed offset (state_at w q) else state_at w q
    | _ => state_at w q
    end.
Proof.
  destruct k as [ks c|[p|] offset metadata|[p|] offset|[p|] offset|[p|] offset|[p|] offset];
    cbn [run_call]; try done; try by intros [= <-].
  - intros (st & w1 & HS & [= <-])%exec_bind_inv. unfold state_at.
    by rewrite (State_consumers _ _ _ _ _ _ HS).
  - destruct (decide (unlocked w p)) as [Hm|Hm]; [|by rewrite MarkOffset_deadlock].
    rewrite MarkOffset_exec by done. intros [= <-]. unfold state_at. case_decide.
    + subst. by rewrite consumer_at_upd.
    + by rewrite consumer_at_upd_ne.
  - destruct (decide (unlocked w p)) as [Hm|Hm]; [|by rewrite MarkCommitted_deadlock].
    rewrite MarkCommitted_exec by done. intros [= <-]. unfold state_at. case_decide.
    + subst. by rewrite consumer_at_upd.
    + by rewrite consumer_at_upd_ne.
  - rewrite AddPendingOffset_exec. destruct (map_assign _ _ _) as [[[] h]|]; [|done].
    by intros [= <-].
  - rewrite RemovePendingOffset_exec. destruct (map_delete _ _ _) as [[[] h]|]; [|done].
    by intros [= <-].
Qed.

Lemma mark_offset_Offset offset metadata st :
  Offset (Info (mark_offset offset metadata st)) = Offset (Info st) `max` offset.
Proof. unfold mark_offset. case_decide; simpl; lia. Qed.

Lemma mark_committed_Info offset st : Info (mark_committed offset st) = Info st.
Proof. unfold mark_committed. by case_decide. Qed.

(** One call never moves a confirmed offset back. *)
Lemma run_call_Offset k w w' q :
  run_call k w = Done (tt, w') →
  Offset (Info (state_at w q)) ≤ Offset (Info (state_at w' q)).
Proof.
  intros Hrun. rewrite (run_call_state_at _ _ _ q Hrun).
  destruct k as [ks c|[p|] offset metadata|[p|] offset|c offset|c offset|c offset];
    try done; case_decide; try done.
  - rewrite mark_offset_Offset. lia.
  - by rewrite mark_committed_Info.
Qed.

(** [C14] Monotonic advance.  Whatever calls are made on whatever consumers,
    in whatever order, the confirmed offset of a consumer never moves back. *)
Theorem Offset_never_decreases ks w w' q :
  for_each run_call ks w = Done (tt, w') →
  Offset (Info (state_at w q)) ≤ Offset (Info (state_at w' q)).
Proof.
  revert w. induction ks as [|k ks IH]; intros w; simpl.
  - by intros [= <-].
  - intros ([] & w1 & Hk & Hks)%exec_bind_inv.
    etrans; [by eapply run_call_Offset | by apply IH].
Qed.

(** What a call that returns has done to the map objects. *)
Lemma run_call_wf_maps k w w' :
  call_wf k → heap_wf (maps w) → run_call k w = Done (tt, w') → heap_wf (maps w').
Proof.
  intros Hk Hwf.
  destruct k as [ks [p|]|[p|] offset metadata|[p|] offset|[p|] offset|[p|] offset|[p|] offset];
    cbn [run_call]; try done; try by intros [= <-].
  - intros (st & w1 & HS & [= <-])%exec_bind_inv. revert HS.
    destruct (decide (unlocked w p)) as [Hm|Hm]; [|by rewrite State_deadlock].
    rewrite State_exec by done. cbv zeta. repeat case_decide; try by intros [= _ <-].
    destruct (Deserialize _ _) as [[i h]|] eqn:HD; [|done]. intros [= _ <-].
    by eapply Deserialize_wf.
  - destruct (decide (unlocked w p)) as [Hm|Hm]; [|by rewrite MarkOffset_deadlock].
    rewrite MarkOffset_exec by done. by intros [= <-].
  - destruct (decide (unlocked w p)) as [Hm|Hm]; [|by rewrite MarkCommitted_deadlock].
    rewrite MarkCommitted_exec by done. by intros [= <-].
  - rewrite AddPendingOffset_exec.
    destruct (map_assign _ _ _) as [[[] h]|] eqn:HA; [|done]. intros [= <-].
    by eapply map_assign_wf.
  - rewrite RemovePendingOffset_exec.
    destruct (map_delete _ _ _) as [[[] h]|] eqn:HA; [|done]. intros [= <-].
    by eapply map_delete_wf.
Qed.

(** Every call keeps the store well formed: pending and confirmed
    offsets stay [int64], and no confirmed offset falls below -1. *)
Theorem run_call_wf k w w' :
  call_wf k → world_wf w → run_call k w = Done (tt, w') → world_wf w'.
Proof.
  intros Hk [Hmaps Hinfo] Hrun. split; [by eapply run_call_wf_maps|].
  intros q. rewrite (run_call_state_at _ _ _ q Hrun). specialize (Hinfo q).
  destruct k as [ks c|[p|] offset metadata|[p|] offset|c offset|c offset|c offset];
    try done; case_decide; try done.
  - unfold offsetInfo_wf in *. rewrite mark_offset_Offset.
    simpl in Hk. destruct Hinfo. int_ranges. split; lia.
  - by rewrite mark_committed_Info.
Qed.

(** The consumers a call finds in the store are there when it returns. *)
Lemma run_call_dom k w w' :
  run_call k w = Done (tt, w') → dom (consumers w) ⊆ dom (consumers w').
Proof.
  assert (∀ p pc, dom (consumers w) ⊆ dom (consumers (upd p pc w))) as Hupd.
  { intros p pc. cbn [upd consumers set_consumers]. rewrite dom_insert. set_solver. }
  destruct k as [ks [p|]|[p|] offset metadata|[p|] offset|[p|] offset|[p|] offset|[p|] offset];
    cbn [run_call]; try done; try by intros [= <-].
  - intros (st & w1 & HS & [= <-])%exec_bind_inv. revert HS.
    destruct (decide (unlocked w p)) as [Hm|Hm]; [|by rewrite State_deadlock].
    rewrite State_exec by done. cbv zeta. repeat case_decide; try by (intros [= _ <-]; apply Hupd).
    destruct (Deserialize _ _) as [[i h]|]; [|done]. intros [= _ <-]. apply Hupd.
  - destruct (decide (unlocked w p)) as [Hm|Hm]; [|by rewrite MarkOffset_deadlock].
    rewrite MarkOffset_exec by done. intros [= <-]. apply Hupd.
  - destruct (decide (unlocked w p)) as [Hm|Hm]; [|by rewrite MarkCommitted_deadlock].
    rewrite MarkCommitted_exec by done. intros [= <-]. apply Hupd.
  - rewrite AddPendingOffset_exec. destruct (map_assign _ _ _) as [[[] h]|]; [|done].
    by intros [= <-].
  - rewrite RemovePendingOffset_exec. destruct (map_delete _ _ _) as [[[] h]|]; [|done].
    by intros [= <-].
Qed.

(** The state [State] returns has the confirmed offset of the consumer. *)
Lemma State_Offset ks c w st w' :
  State ks c w = Done (st, w') → Offset (Info st) = Offset (Info (state_of w c)).
Proof.
  destruct c as [p|]; [|by intros [= <- _]].
  destruct (decide (unlocked w p)) as [Hm|Hm]; [|by rewrite State_deadlock].
  rewrite State_exec by done. cbv zeta. repeat case_decide; try by intros [= <- _].
  destruct (Deserialize _ _) as [[i h]|] eqn:HD; [|done]. intros [= <- _].
  by rewrite (Deserialize_returns _ _ _ _ HD).
Qed.

(** [State] keeps the store well formed, and what it returns is. *)
Lemma State_wf ks c w st w' :
  world_wf w → State ks c w = Done (st, w') →
  world_wf w' ∧ offsetInfo_wf (Info st) ∧ dom (consumers w) ⊆ dom (consumers w').
Proof.
  intros Hwf HS.
  assert (run_call (CallState ks c) w = Done (tt, w')) as Hrun
    by (cbn [run_call]; by rewrite (exec_bind_done _ _ _ _ _ HS)).
  split; [by eapply (run_call_wf (CallState ks c))|]. split; [|by eapply run_call_dom].
  unfold offsetInfo_wf. rewrite (State_Offset _ _ _ _ _ HS).
  destruct c as [p|]; [apply Hwf | by_compute].
Qed.

End calls.

(** ** The constructor *)

Section constructor.
Context {P : Type} `{!Provider P}.
Implicit Types (w : world P) (p q : ptr).

(** The address the constructor stores the new consumer at is not in use. *)
Lemma fresh_consumer w : consumers w !! fresh (dom (consumers w)) = None.
Proof. apply not_elem_of_dom, is_fresh. Qed.

(** When the client opens the stream at the offset [NextOffset] chose,
    the constructor returns a new consumer on that stream: stored at an
    address that was not in use, with the ledger it was given, whose
    pending map it shares with the caller, not dirty, not closed, its
    mutex free.  No other consumer and no map changes. *)
Theorem newPartitionConsumer_first_try ks topic partition info defaultOffset w h cl :
  ConsumePartition topic partition (NextOffset (maps w) ks info defaultOffset) (client w)
    = (inl h, cl) →
  ∃ p, consumers w !! p = None ∧
    newPartitionConsumer ks topic partition info defaultOffset w
    = Done ((Some p, None), upd p (new_consumer h info) (set_client cl w)).
Proof.
  intros Hfirst. exists (fresh (dom (consumers w))). split; [apply fresh_consumer|].
  unfold newPartitionConsumer. run_accessor. by rewrite Hfirst.
Qed.

(** When the client answers that the offset is out of range, the
    constructor asks once more, at the default offset, and the consumer it
    returns has forgotten its confirmed offset: [Offset] is -1.  Its
    pending offsets and its metadata are kept. *)
Theorem newPartitionConsumer_retry ks topic partition info defaultOffset w h cl cl' :
  ConsumePartition topic partition (NextOffset (maps w) ks info defaultOffset) (client w)
    = (inr ErrOffsetOutOfRange, cl) →
  ConsumePartition topic partition defaultOffset cl = (inl h, cl') →
  ∃ p, consumers w !! p = None ∧
    newPartitionConsumer ks topic partition info defaultOffset w
    = Done ((Some p, None),
            upd p (new_consumer h (set_Offset (-1) info)) (set_client cl' w)).
Proof.
  intros Hfirst Hretry. exists (fresh (dom (consumers w))).
  split; [apply fresh_consumer|].
  unfold newPartitionConsumer. run_accessor. by rewrite Hfirst, Hretry.
Qed.

(** Any other answer of the client is returned to the caller: an error
    of the first call that is not "out of range", or any error of the
    second call.  No consumer is created. *)
Theorem newPartitionConsumer_fails ks topic partition info defaultOffset w err cl cl' :
  let first :=
    ConsumePartition topic partition (NextOffset (maps w) ks info defaultOffset) (client w) in
  (first = (inr err, cl') ∧ err ≠ ErrOffsetOutOfRange) ∨
  (first = (inr ErrOffsetOutOfRange, cl) ∧
   ConsumePartition topic partition defaultOffset cl = (inr err, cl')) →
  newPartitionConsumer ks topic partition info defaultOffset w
  = Done ((None, Some err), set_client cl' w).
Proof.
  cbv zeta. unfold newPartitionConsumer. run_accessor.
  intros [[-> Herr]|[-> ->]]; [by destruct err|done].
Qed.

(** [C29] With a default offset that names an end of the log, as the callers
    pass, the constructor never reports an offset out of range: against
    every client that keeps the promise of [ProviderLaws], it returns a
    consumer, or an error of another kind and no consumer. *)
Theorem newPartitionConsumer_resumes `{!ProviderLaws P} ks topic partition info
    defaultOffset w :
  defaultOffset = OffsetNewest ∨ defaultOffset = OffsetOldest →
  ∃ r w', newPartitionConsumer ks topic partition info defaultOffset w = Done (r, w') ∧
    r.2 ≠ Some ErrOffsetOutOfRange ∧ (is_Some r.1 ↔ r.2 = None).
Proof.
  intros Hend. unfold newPartitionConsumer. run_accessor.
  destruct (ConsumePartition topic partition _ (client w)) as [[h|[|msg]] cl] eqn:Hfirst.
  - eexists (_, _), _. split; [done|]. simpl. by split; [|split; [|intros; eexists]].
  - pose proof (ConsumePartition_end topic partition defaultOffset cl Hend) as Hlaw.
    destruct (ConsumePartition topic partition defaultOffset cl) as [[h|err] cl'].
    + eexists (_, _), _. split; [done|]. simpl. by split; [|split; [|intros; eexists]].
    + eexists (_, _), _. split; [done|]. simpl in *.
      split; [congruence|]. by split; [intros []|].
  - eexists (_, _), _. split; [done|]. simpl. by split; [|split; [intros []|]].
Qed.

(** The constructor always returns: an error and no consumer, or a new
    consumer at an address that was not in use, with the ledger it was
    given or that ledger with its offset forgotten. *)
Lemma newPartitionConsumer_cases ks topic partition info defaultOffset w :
  let p := fresh (dom (consumers w)) in
  ∃ cl,
    (∃ err, newPartitionConsumer ks topic partition info defaultOffset w
            = Done ((None, Some err), set_client cl w)) ∨
    (∃ h info', (info' = info ∨ info' = set_Offset (-1) info) ∧
       newPartitionConsumer ks topic partition info defaultOffset w
       = Done ((Some p, None), upd p (new_consumer h info') (set_client cl w))).
Proof.
  cbv zeta. unfold newPartitionConsumer. run_accessor.
  destruct (ConsumePartition _ _ _ _) as [[h|err] cl] eqn:Hfirst.
  { exists cl. right. exists h, info. by split; [left|]. }
  destruct (decide (err = ErrOffsetOutOfRange)) as [->|Hne];
    [|exists cl; left; exists err; by destruct err].
  destruct (ConsumePartition topic partition defaultOffset cl) as [[h|err] cl'] eqn:Hretry;
    exists cl'; [right | left].
  - exists h, (set_Offset (-1) info). by split; [right|].
  - by exists err.
Qed.

End constructor.

(** ** The theorems on a concrete store *)

Lemma MarkOffset_spec_witness :
  ∃ w', MarkOffset (Some 1%positive) 9 "m" ex_world = Done (tt, w') ∧
    Offset (Info (state_at w' 1%positive)) = 9 ∧
    Dirty (state_at w' 1%positive) = true ∧
    Metadata (Info (state_at w' 1%positive)) = "m".
Proof.
  destruct (MarkOffset_spec 1%positive 9 "m" ex_world ltac:(by_decide))
    as (w' & Hrun & Ho & Hd & Hmeta & _).
  exists w'. by rewrite Ho, Hd, Hmeta.
Defined.

Lemma MarkCommitted_spec_witness :
  ∃ w', MarkCommitted (Some 1%positive) 4 ex_world = Done (tt, w') ∧
    Dirty (state_at w' 1%positive) = false.
Proof.
  destruct (MarkCommitted_spec 1%positive 4 ex_world ltac:(by_decide))
    as (w' & Hrun & _ & Hd & _).
  exists w'. by rewrite Hd.
Defined.

Lemma MarkCommitted_stale_witness :
  ∃ w', MarkCommitted (Some 2%positive) 0 ex_world = Done (tt, w') ∧
    Dirty (state_at w' 2%positive) = false ∧
    Offset (Info (state_at w' 2%positive)) = Offset (Info (state_at ex_world 2%positive)).
Proof.
  apply (MarkCommitted_stale 2%positive 0 ex_world); [by_decide | by_decide].
Defined.

Lemma State_serializes_witness :
  ∃ w', State [7; 5] (Some 1%positive) ex_world
        = Done ({| Info := {| Offset := 4; PendingOffsets := Some 1%positive;
                              Metadata := "7,5," |};
                   Dirty := false |}, w').
Proof.
  destruct (State_serializes [7; 5] 1%positive ex_world ltac:(by_decide) eq_refl)
    as (w' & Hrun & _).
  by exists w'.
Defined.

Lemma State_deserializes_witness :
  ∃ w', State [] (Some 2%positive) ex_world = Done (state_at ex_world 2%positive, w') ∧
    pending_at w' 2%positive = {[5; 7]}.
Proof.
  destruct (State_deserializes [] 2%positive 2%positive ex_world
              ltac:(by_decide) ltac:(by_decide) eq_refl ltac:(by_compute))
    as (w' & Hrun & _ & Hp & _).
  exists w'. split; [done|]. rewrite Hp. by_compute.
Defined.

Lemma State_nil_map_panics_witness :
  State [] (Some 3%positive) ex_world = Panic NilMapAssign.
Proof.
  apply (State_nil_map_panics [] 3%positive ex_world); [by_decide | reflexivity | by_decide].
Defined.

Lemma State_snapshot_aliases_witness :
  ∃ st (w1 w2 : world fake_client),
    State [7; 5] (Some 1%positive) ex_world = Done (st, w1) ∧
    AddPendingOffset (Some 1%positive) 6 w1 = Done (tt, w2) ∧
    pending (maps w2) (Info st) = {[6]} ∪ pending (maps w1) (Info st).
Proof.
  destruct (State [7; 5] (Some 1%positive) ex_world) as [[st w1]|] eqn:HS;
    [|by vm_compute in HS].
  destruct (AddPendingOffset (Some 1%positive) 6 w1) as [[[] w2]|] eqn:HA.
  - exists st, w1, w2. split; [done|]. split; [done|].
    apply (State_snapshot_aliases [7; 5] 1%positive 6 ex_world st w1 w2 HS HA).
  - vm_compute in HS. injection HS as <- <-. by vm_compute in HA.
Defined.

Lemma Offset_never_decreases_witness :
  ∃ w', for_each run_call
          [CallMarkOffset (Some 1%positive) 5 ""; CallMarkOffset (Some 1%positive) 3 ""]
          ex_world = Done (tt, w') ∧
        Offset (Info (state_at ex_world 1%positive))
        ≤ Offset (Info (state_at w' 1%positive)).
Proof.
  eexists. split; [by_compute|].
  apply (Offset_never_decreases
    [CallMarkOffset (Some 1%positive) 5 ""; CallMarkOffset (Some 1%positive) 3 ""]
    ex_world). by_compute.
Defined.

Lemma run_call_wf_witness :
  ∃ w', run_call (CallMarkOffset (Some 1%positive) 9 "m") ex_world = Done (tt, w') ∧
        world_wf w'.
Proof.
  eexists. split; [by_compute|].
  apply (run_call_wf (CallMarkOffset (Some 1%positive) 9 "m") ex_world).
  - by_decide.
  - apply world_wf_alt; by_decide.
  - by_compute.
Defined.

(** A ledger the client of [ex_client] can resume: offset 12 is retained. *)
Lemma newPartitionConsumer_first_try_witness :
  ∃ p, consumers ex_world !! p = None ∧
    newPartitionConsumer [] "t" 0
      {| Offset := 12; PendingOffsets := None; Metadata := "" |} OffsetNewest ex_world
    = Done ((Some p, None),
            upd p (new_consumer 1%positive
                     {| Offset := 12; PendingOffsets := None; Metadata := "" |})
              (set_client (snd (fake_ConsumePartition "t" 0 12 ex_client)) ex_world)).
Proof.
  apply (newPartitionConsumer_first_try [] "t" 0
           {| Offset := 12; PendingOffsets := None; Metadata := "" |} OffsetNewest ex_world).
  by_compute.
Defined.

(** The pending offset 5 of [ex_ledger] is older than what the client
    retains: the consumer starts at the oldest retained offset. *)
Lemma newPartitionConsumer_retry_witness :
  ∃ p, consumers ex_world !! p = None ∧
    newPartitionConsumer [5; 7] "t" 0 ex_ledger OffsetOldest ex_world
    = Done ((Some p, None),
            upd p (new_consumer 1%positive (set_Offset (-1) ex_ledger))
              (set_client (snd (fake_ConsumePartition "t" 0 OffsetOldest ex_client))
                 ex_world)).
Proof.
  apply (newPartitionConsumer_retry [5; 7] "t" 0 ex_ledger OffsetOldest ex_world
           1%positive ex_client); by_compute.
Defined.

(** The small client keeps the promise. *)
#[export] Instance fake_provider_laws : ProviderLaws fake_client.
Proof.
  split. intros topic partition offset cl Hend. simpl. unfold fake_ConsumePartition.
  destruct (retained cl !! (topic, partition)) as [[oldest newest]|]; [|done].
  by destruct Hend as [-> | ->]; repeat case_decide.
Qed.

Lemma newPartitionConsumer_resumes_witness :
  ∃ r w', newPartitionConsumer [5; 7] "t" 0 ex_ledger OffsetOldest ex_world = Done (r, w') ∧
    r.2 ≠ Some ErrOffsetOutOfRange ∧ (is_Some r.1 ↔ r.2 = None).
Proof.
  apply (newPartitionConsumer_resumes [5; 7] "t" 0 ex_ledger OffsetOldest ex_world).
  by right.
Defined.

(** With a default offset that is a number, the retry can be out of range
    as well, and the caller gets that error. *)
Example newPartitionConsumer_default_out_of_range :
  newPartitionConsumer [5; 7] "t" 0 ex_ledger 5 ex_world
  = Done ((None, Some ErrOffsetOutOfRange), ex_world).
Proof. by_compute. Qed.

Lemma newPartitionConsumer_fails_witness :
  newPartitionConsumer [5; 7] "u" 0 ex_ledger OffsetNewest ex_world
  = Done ((None, Some (ErrOther "unknown topic or partition")),
          set_client ex_client ex_world).
Proof.
  apply (newPartitionConsumer_fails [5; 7] "u" 0 ex_ledger OffsetNewest ex_world
           (ErrOther "unknown topic or partition") ex_client ex_client).
  left. split; [by_compute | done].
Defined.
