(* ===== verification/Refinement.v ===== *)
(** * Refinement: the ledgers of the consumers, as values

    The accessors of a [partitionConsumer] (src/unnamed/part_000) work on
    a struct behind a pointer, whose ledger holds a reference to a map
    object; the mutex of the struct guards some of them.  What they
    promise to the application and to the committer is simpler: each
    consumer keeps a [ledger], a confirmed offset, a set of pending
    offsets, a metadata string and a dirty flag, and each call changes the
    ledger of one consumer and of no other.

    This file states that promise, the specification [spec_run] on a
    finite map of ledgers, and proves that the accessors of Consumer.v
    implement it: [abs] reads the map of ledgers off a store, and on a
    store in which every consumer owns a map object of its own and no
    mutex is held ([owned]) every call returns, keeps the store owned, and
    commutes with [abs].  Sequences of calls follow by induction.  The
    last section shows what the hypothesis is for: on two consumers that
    share a map object a call on one changes the ledger of the other. *)

From S2P Require Import Prelude Strconv Heap Offsets Consumer.

#[local] Open Scope Z_scope.

(** ** The specification *)

(** The ledger of one consumer. *)
Record ledger : Type := mkLedger {
  l_Offset : Z;
  l_Pending : gset Z;
  l_Metadata : string;
  l_Dirty : bool;
}.

#[export] Instance ledger_eq_dec : EqDecision ledger.
Proof. solve_decision. Defined.

(** [MarkOffset]: a larger offset is confirmed, with its metadata when it
    has one, and the ledger is dirty. *)
Definition spec_MarkOffset (offset : Z) (metadata : string) (a : ledger) : ledger :=
  if decide (l_Offset a < offset) then
    {| l_Offset := offset; l_Pending := l_Pending a;
       l_Metadata := if decide (metadata = "") then l_Metadata a else metadata;
       l_Dirty := true |}
  else a.

(** [MarkCommitted]: the ledger is clean when the committed offset is the
    confirmed one, or when the ledger carries metadata. *)
Definition spec_MarkCommitted (offset : Z) (a : ledger) : ledger :=
  if decide (offset = l_Offset a ∨ l_Metadata a ≠ "") then
    {| l_Offset := l_Offset a; l_Pending := l_Pending a;
       l_Metadata := l_Metadata a; l_Dirty := false |}
  else a.

Definition set_Pending (X : gset Z) (a : ledger) : ledger :=
  {| l_Offset := l_Offset a; l_Pending := X;
     l_Metadata := l_Metadata a; l_Dirty := l_Dirty a |}.

Definition spec_AddPendingOffset (offset : Z) (a : ledger) : ledger :=
  set_Pending ({[offset]} ∪ l_Pending a) a.

Definition spec_RemovePendingOffset (offset : Z) (a : ledger) : ledger :=
  set_Pending (l_Pending a ∖ {[offset]}) a.

(** [State]: a ledger that carries metadata and has no pending offset
    takes the pending offsets its metadata holds. *)
Definition spec_State (a : ledger) : ledger :=
  if decide (l_Metadata a = "") then a
  else if decide (l_Pending a = ∅) then
    set_Pending (list_to_set (metadata_offsets (l_Metadata a))) a
  else a.

(** What [State] returns: the ledger after the call, with the pending
    offsets printed in the order [ks] when it carries no metadata. *)
Definition spec_snapshot (ks : list Z) (a : ledger) : ledger :=
  {| l_Offset := l_Offset a; l_Pending := l_Pending (spec_State a);
     l_Metadata := if decide (l_Metadata a = "") then offsets_metadata ks
                   else l_Metadata a;
     l_Dirty := l_Dirty a |}.

(** The consumer a call is made on, *)
Definition target (k : call) : cref :=
  match k with
  | CallState _ c | CallMarkOffset c _ _ | CallMarkCommitted c _
  | CallAddPendingOffset c _ | CallRemovePendingOffset c _ | CallSetOffset c _ => c
  end.

(** what the call does to its ledger, *)
Definition effect (k : call) : ledger → ledger :=
  match k with
  | CallState _ _ => spec_State
  | CallMarkOffset _ offset metadata => spec_MarkOffset offset metadata
  | CallMarkCommitted _ offset => spec_MarkCommitted offset
  | CallAddPendingOffset _ offset => spec_AddPendingOffset offset
  | CallRemovePendingOffset _ offset => spec_RemovePendingOffset offset
  | CallSetOffset _ _ => id
  end.

(** and what it does to the ledgers of all consumers: a call on nil
    changes nothing. *)
Definition spec_run (k : call) (σ : gmap ptr ledger) : gmap ptr ledger :=
  match target k with
  | Some p => alter (effect k) p σ
  | None => σ
  end.

(** The methods that return on a nil receiver; the others read a field of
    the receiver first. *)
Definition nil_safe (k : call) : bool :=
  match k with
  | CallState _ _ | CallMarkOffset _ _ _ | CallMarkCommitted _ _ => true
  | _ => false
  end.

(** A call the specification covers: on one of the consumers [d], or on
    nil when the method allows it. *)
Definition call_ok (d : gset ptr) (k : call) : Prop :=
  match target k with
  | Some p => p ∈ d
  | None => nil_safe k = true
  end.

#[export] Instance call_ok_dec d k : Decision (call_ok d k).
Proof. unfold call_ok. destruct (target k); apply _. Defined.

(** ** The abstraction *)

(** The ledger a state stands for, in a store of map objects. *)
Definition abs_state (h : heap) (st : partitionState) : ledger :=
  {| l_Offset := Offset (Info st); l_Pending := pending h (Info st);
     l_Metadata := Metadata (Info st); l_Dirty := Dirty st |}.

Section abstraction.
Context {P : Type} `{!Provider P}.
Implicit Types (w : world P) (p q : ptr) (c : partitionConsumer).

(** The ledgers of the consumers of a store. *)
Definition abs w : gmap ptr ledger :=
  (λ c, abs_state (maps w) (state c)) <$> consumers w.

(** The map object of a consumer. *)
Definition map_of c : mapref := PendingOffsets (Info (state c)).

(** No two consumers share a map object. *)
Definition separate w : Prop :=
  map_Forall (λ p cp, map_Forall (λ q cq, map_of cp = map_of cq → p = q)
                        (consumers w)) (consumers w).

(** Every consumer has a map object of its own, and no mutex is held. *)
Definition owned w : Prop :=
  map_Forall (λ _ c, mutex c = false ∧ is_Some (map_of c)) (consumers w) ∧
  separate w.

(** [w'] has the consumers of [w], with the mutexes and the map objects
    they had, the state of the consumer at [p] apart: it is [st']. *)
Definition same_but_state p st' w w' : Prop :=
  ∀ q, consumers w' !! q
       = (λ c, if decide (q = p) then set_state st' c else c) <$> consumers w !! q.

(** No consumer holds the map object [r]. *)
Definition fresh_map w (r : mapref) : Prop :=
  is_Some r ∧ map_Forall (λ _ c, map_of c ≠ r) (consumers w).

(** Running [m] from [w] returns, leaves the store owned, and does to the
    ledgers what [f] says. *)
Definition refines (m : exec (world P) unit) (f : gmap ptr ledger → gmap ptr ledger) w
    : Prop :=
  ∃ w', m w = Done (tt, w') ∧ owned w' ∧ abs w' = f (abs w).

#[export] Instance owned_dec w : Decision (owned w).
Proof. unfold owned, separate. apply _. Defined.

#[export] Instance fresh_map_dec w r : Decision (fresh_map w r).
Proof. unfold fresh_map. apply _. Defined.

End abstraction.

(** ** Stores to run the definitions on *)

(** The consumers 1 and 2 of [ex_world], each with its map object, *)
Definition ex_owned : world fake_client :=
  set_consumers (delete 3%positive (consumers ex_world)) ex_world.

(** a sequence of calls on them, *)
Definition ex_calls : list call :=
  [ CallMarkOffset (Some 1%positive) 6 "";
    CallAddPendingOffset (Some 1%positive) 9;
    CallState [] (Some 2%positive);
    CallRemovePendingOffset (Some 1%positive) 5;
    CallMarkCommitted (Some 1%positive) 6;
    CallState [7; 9] None ].

(** a ledger with a map object of its own and no confirmed offset in the
    range the client retains, *)
Definition ex_fresh_ledger : offsetInfo :=
  {| Offset := 4; PendingOffsets := Some 3%positive; Metadata := "" |}.

(** and a store in which the second consumer was built from the ledger of
    the first: both hold the map object 1. *)
Definition ex_shared_map : world fake_client :=
  upd 2%positive (set_state {| Info := ex_ledger; Dirty := false |} ex_consumer_meta)
    ex_owned.

(** ** The abstraction of an updated store *)

Section abstraction_lemmas.
Context {P : Type} `{!Provider P}.
Implicit Types (w : world P) (p q : ptr) (c : partitionConsumer) (σ : gmap ptr ledger).

Lemma abs_lookup w p : abs w !! p = (λ c, abs_state (maps w) (state c)) <$> consumers w !! p.
Proof. apply lookup_fmap. Qed.

Lemma dom_abs w : dom (abs w) = dom (consumers w).
Proof. apply dom_fmap_L. Qed.

Lemma separate_alt w :
  separate w ↔
  ∀ p q cp cq, consumers w !! p = Some cp → consumers w !! q = Some cq →
               map_of cp = map_of cq → p = q.
Proof.
  unfold separate. split.
  - intros Hsep p q cp cq Hp Hq.
    exact (map_Forall_lookup_1 _ _ _ _ (map_Forall_lookup_1 _ _ _ _ Hsep Hp) Hq).
  - intros Hsep. apply map_Forall_lookup. intros p cp Hp.
    apply map_Forall_lookup. intros q cq Hq. by apply (Hsep p q cp cq).
Qed.

(** A store holds its consumer at [p] already. *)
Lemma upd_id w p c : consumers w !! p = Some c → upd p c w = w.
Proof. intros Hc. apply world_eq; [done| |done]. by apply insert_id. Qed.

Lemma owned_same_but_state p c st' w w' :
  consumers w !! p = Some c → PendingOffsets (Info st') = map_of c →
  same_but_state p st' w w' → owned w → owned w'.
Proof.
  intros Hc Hmap Hsame [Hall Hsep]. rewrite separate_alt in Hsep.
  assert (∀ q cq', consumers w' !! q = Some cq' →
            ∃ cq, consumers w !! q = Some cq ∧ mutex cq' = mutex cq ∧
                  map_of cq' = map_of cq) as Hback.
  { intros q cq'. rewrite Hsame.
    destruct (consumers w !! q) as [cq|] eqn:Hq; [|done]. intros [= <-].
    exists cq. split; [done|]. case_decide as Hqp; [|done]. subst q.
    rewrite Hc in Hq. injection Hq as <-. split; [done | by rewrite <-Hmap]. }
  split.
  - apply map_Forall_lookup. intros q cq' (cq & Hq & -> & ->)%Hback.
    by apply (map_Forall_lookup_1 _ _ _ _ Hall Hq).
  - apply separate_alt. intros q1 q2 c1 c2 (? & ? & _ & ->)%Hback (? & ? & _ & ->)%Hback.
    by eapply Hsep.
Qed.

(** The ledgers after a change of the state of the consumer at [p] that
    keeps its map object. *)
Lemma abs_state_update p c st' w w' f :
  consumers w !! p = Some c → maps w' = maps w →
  same_but_state p st' w w' →
  abs_state (maps w) st' = f (abs_state (maps w) (state c)) →
  abs w' = alter f p (abs w).
Proof.
  intros Hc Hmaps Hsame Hf. apply map_eq. intros q.
  rewrite abs_lookup, Hsame, Hmaps. destruct (decide (q = p)) as [->|Hne].
  - rewrite lookup_alter_eq, abs_lookup, Hc. simpl. by rewrite <-Hf.
  - rewrite lookup_alter_ne, abs_lookup by done. by destruct (consumers w !! q).
Qed.

(** The ledgers after a change of the map object of the consumer at [p],
    in a store where no other consumer holds it. *)
Lemma abs_heap_update p c h' w f :
  separate w → consumers w !! p = Some c →
  (∀ r, r ≠ map_of c → map_contents h' r = map_contents (maps w) r) →
  abs_state h' (state c) = f (abs_state (maps w) (state c)) →
  abs (set_maps h' w) = alter f p (abs w).
Proof.
  rewrite separate_alt. intros Hsep Hc Hother Hf. apply map_eq. intros q.
  rewrite abs_lookup. cbn [consumers maps set_maps].
  destruct (decide (q = p)) as [->|Hne].
  - by rewrite lookup_alter_eq, abs_lookup, Hc; simpl; rewrite Hf.
  - rewrite lookup_alter_ne, abs_lookup by done.
    destruct (consumers w !! q) as [cq|] eqn:Hq; [|done]. simpl. f_equal.
    unfold abs_state, pending. f_equal. apply Hother. intros Heq.
    apply Hne. by eapply Hsep.
Qed.

Lemma owned_set_maps h w : owned w → owned (set_maps h w).
Proof. done. Qed.

Lemma owned_lookup w p c :
  owned w → consumers w !! p = Some c →
  consumer_at w p = c ∧ unlocked w p ∧ is_Some (map_of c).
Proof.
  intros [Hall _] Hc. destruct (map_Forall_lookup_1 _ _ _ _ Hall Hc) as [Hm Hl].
  unfold unlocked, consumer_at. by rewrite (lookup_total_correct _ _ _ Hc).
Qed.

Lemma upd_same_but_state p c st' w :
  consumers w !! p = Some c → same_but_state p st' w (upd p (set_state st' c) w).
Proof.
  intros Hc q. cbn [upd consumers set_consumers]. destruct (decide (q = p)) as [->|Hne].
  - by rewrite lookup_insert_eq, Hc.
  - rewrite lookup_insert_ne by done. by destruct (consumers w !! q).
Qed.

(** A change of the state of one consumer that keeps its map object. *)
Lemma state_update_refines p c st' w f :
  owned w → consumers w !! p = Some c →
  PendingOffsets (Info st') = map_of c →
  abs_state (maps w) st' = f (abs_state (maps w) (state c)) →
  owned (upd p (set_state st' c) w) ∧
  abs (upd p (set_state st' c) w) = alter f p (abs w).
Proof.
  intros Hown Hc Hmap Hf. pose proof (upd_same_but_state p c st' w Hc) as Hsame. split.
  - by eapply owned_same_but_state.
  - by eapply abs_state_update.
Qed.

(** A change of the map object of one consumer. *)
Lemma heap_update_refines p c h' w f :
  owned w → consumers w !! p = Some c →
  (∀ r, r ≠ map_of c → map_contents h' r = map_contents (maps w) r) →
  abs_state h' (state c) = f (abs_state (maps w) (state c)) →
  owned (set_maps h' w) ∧ abs (set_maps h' w) = alter f p (abs w).
Proof.
  intros Hown Hc Hother Hf. split; [done|].
  destruct Hown as [_ Hsep]. by eapply abs_heap_update.
Qed.

(** A new consumer, at an address that is not in use, with a map object
    no consumer holds. *)
Lemma new_consumer_refines p h info w :
  owned w → consumers w !! p = None → fresh_map w (PendingOffsets info) →
  owned (upd p (new_consumer h info) w) ∧
  abs (upd p (new_consumer h info) w)
  = <[p := abs_state (maps w) {| Info := info; Dirty := false |}]> (abs w).
Proof.
  intros [Hall Hsep] Hp [Hsome Hfresh].
  split; [|apply (fmap_insert (λ c, abs_state (maps w) (state c)))]. split.
  - by apply map_Forall_insert_2.
  - rewrite separate_alt in *. cbn [upd consumers set_consumers].
    intros q1 q2 c1 c2 [[-> <-]|[? H1]]%lookup_insert_Some
      [[-> <-]|[? H2]]%lookup_insert_Some Heq; [done| | |by eapply Hsep].
    + by destruct (map_Forall_lookup_1 _ _ _ _ Hfresh H2).
    + by destruct (map_Forall_lookup_1 _ _ _ _ Hfresh H1).
Qed.

(** No change at all, when [f] has nothing to do on the ledger at [p]. *)
Lemma no_update_refines p c w f :
  owned w → consumers w !! p = Some c →
  f (abs_state (maps w) (state c)) = abs_state (maps w) (state c) →
  owned (upd p c w) ∧ abs (upd p c w) = alter f p (abs w).
Proof.
  intros Hown Hc Hf. rewrite (upd_id _ _ _ Hc). split; [done|].
  symmetry. apply alter_id. intros a. rewrite abs_lookup, Hc. by intros [= <-].
Qed.

End abstraction_lemmas.

(** ** The accessors implement the specification *)

Lemma abs_mark_offset h offset metadata st :
  abs_state h (mark_offset offset metadata st)
  = spec_MarkOffset offset metadata (abs_state h st).
Proof. unfold mark_offset, spec_MarkOffset. simpl. by case_decide. Qed.

Lemma abs_mark_committed h offset st :
  abs_state h (mark_committed offset st) = spec_MarkCommitted offset (abs_state h st).
Proof. unfold mark_committed, spec_MarkCommitted. simpl. by case_decide. Qed.

Lemma mark_offset_PendingOffsets offset metadata st :
  PendingOffsets (Info (mark_offset offset metadata st)) = PendingOffsets (Info st).
Proof. unfold mark_offset. by case_decide. Qed.

Lemma spec_State_id a : l_Metadata a = "" ∨ l_Pending a ≠ ∅ → spec_State a = a.
Proof. unfold spec_State. intros [?|?]; repeat case_decide; done. Qed.

Lemma spec_State_recovers a :
  l_Metadata a ≠ "" → l_Pending a = ∅ →
  spec_State a = set_Pending (list_to_set (metadata_offsets (l_Metadata a))) a.
Proof. intros. unfold spec_State. by rewrite decide_False, decide_True. Qed.

(** The snapshot of a ledger [State] leaves as it is. *)
Lemma spec_snapshot_id ks a :
  l_Metadata a = "" ∨ l_Pending a ≠ ∅ →
  spec_snapshot ks a
  = {| l_Offset := l_Offset a; l_Pending := l_Pending a;
       l_Metadata := if decide (l_Metadata a = "") then offsets_metadata ks
                     else l_Metadata a;
       l_Dirty := l_Dirty a |}.
Proof. intros Ha. unfold spec_snapshot. by rewrite spec_State_id. Qed.

Section accessors_refine.
Context {P : Type} `{!Provider P}.
Implicit Types (w : world P) (p q : ptr) (c : partitionConsumer).

Lemma MarkOffset_refines p offset metadata w :
  owned w → p ∈ dom (consumers w) →
  refines (MarkOffset (Some p) offset metadata)
    (alter (spec_MarkOffset offset metadata) p) w.
Proof.
  intros Hown [c Hc]%elem_of_dom. destruct (owned_lookup w p c Hown Hc) as (Hat & Hm & _).
  eexists. split; [by apply MarkOffset_exec|]. unfold state_at. rewrite Hat.
  apply state_update_refines; [done | done | apply mark_offset_PendingOffsets
                              | apply abs_mark_offset].
Qed.

Lemma MarkCommitted_refines p offset w :
  owned w → p ∈ dom (consumers w) →
  refines (MarkCommitted (Some p) offset) (alter (spec_MarkCommitted offset) p) w.
Proof.
  intros Hown [c Hc]%elem_of_dom. destruct (owned_lookup w p c Hown Hc) as (Hat & Hm & _).
  eexists. split; [by apply MarkCommitted_exec|]. unfold state_at. rewrite Hat.
  apply state_update_refines; [done | done | by rewrite mark_committed_Info
                              | apply abs_mark_committed].
Qed.

Lemma AddPendingOffset_refines p offset w :
  owned w → p ∈ dom (consumers w) →
  refines (AddPendingOffset (Some p) offset) (alter (spec_AddPendingOffset offset) p) w.
Proof.
  intros Hown [c Hc]%elem_of_dom.
  destruct (owned_lookup w p c Hown Hc) as (Hat & _ & [l Hl]).
  eexists. split.
  { rewrite AddPendingOffset_exec. unfold state_at. rewrite Hat.
    fold (map_of c). by rewrite Hl, map_assign_Some. }
  apply (heap_update_refines p c); [done | done | |].
  - intros r Hr. rewrite map_contents_insert, decide_False; congruence.
  - unfold abs_state, spec_AddPendingOffset, set_Pending, pending. simpl. f_equal.
    fold (map_of c). by rewrite Hl, map_contents_insert, decide_True.
Qed.

Lemma RemovePendingOffset_refines p offset w :
  owned w → p ∈ dom (consumers w) →
  refines (RemovePendingOffset (Some p) offset)
    (alter (spec_RemovePendingOffset offset) p) w.
Proof.
  intros Hown [c Hc]%elem_of_dom.
  destruct (owned_lookup w p c Hown Hc) as (Hat & _ & [l Hl]).
  eexists. split.
  { rewrite RemovePendingOffset_exec. unfold state_at. rewrite Hat.
    fold (map_of c). by rewrite Hl, map_delete_Some. }
  apply (heap_update_refines p c); [done | done | |].
  - intros r Hr. rewrite map_contents_insert, decide_False; congruence.
  - unfold abs_state, spec_RemovePendingOffset, set_Pending, pending. simpl. f_equal.
    fold (map_of c). by rewrite Hl, map_contents_insert, decide_True.
Qed.

Lemma SetOffset_refines p offset w :
  owned w → refines (SetOffset (Some p) offset) (alter id p) w.
Proof.
  intros Hown. eexists. split; [apply SetOffset_exec|]. split; [done|].
  symmetry. by apply alter_id.
Qed.

(** [State] on a ledger it has nothing to recover for. *)
Lemma State_refines_id ks p c w :
  owned w → consumers w !! p = Some c →
  l_Metadata (abs_state (maps w) (state c)) = "" ∨
    l_Pending (abs_state (maps w) (state c)) ≠ ∅ →
  ∃ st, State ks (Some p) w = Done (st, w) ∧
    abs_state (maps w) st = spec_snapshot ks (abs_state (maps w) (state c)) ∧
    abs w = alter spec_State p (abs w).
Proof.
  intros Hown Hc Ha. destruct (owned_lookup w p c Hown Hc) as (Hat & Hm & _).
  rewrite (State_exec ks p w Hm). cbv zeta. rewrite Hat, (upd_id _ _ _ Hc).
  rewrite (spec_snapshot_id _ _ Ha).
  assert (abs w = alter spec_State p (abs w)) as Habs.
  { symmetry. apply alter_id. intros a. rewrite abs_lookup, Hc. intros [= <-].
    by apply spec_State_id. }
  simpl in Ha. case_decide as Hmeta.
  - eexists. split; [done|]. split; [|done].
    unfold abs_state. simpl. by rewrite Serialize_entry_foldl, string_app_nil_l, decide_True.
  - destruct Ha as [?|Hne]; [done|]. apply map_len_pos in Hne.
    rewrite decide_False by (unfold pending in Hne; lia).
    eexists. split; [done|]. split; [|done]. unfold abs_state. simpl.
    by rewrite decide_False.
Qed.

(** [State] on a ledger that carries metadata and has no pending offset:
    the offsets of the metadata are stored in the map object. *)
Lemma State_refines_recover ks p c w :
  owned w → consumers w !! p = Some c →
  l_Metadata (abs_state (maps w) (state c)) ≠ "" →
  l_Pending (abs_state (maps w) (state c)) = ∅ →
  ∃ st w', State ks (Some p) w = Done (st, w') ∧ owned w' ∧
    abs_state (maps w') st = spec_snapshot ks (abs_state (maps w) (state c)) ∧
    abs w' = alter spec_State p (abs w).
Proof.
  intros Hown Hc Hmeta Hpend.
  destruct (owned_lookup w p c Hown Hc) as (Hat & Hm & [l Hl]).
  destruct (Deserialize_Some (Info (state c)) l (maps w) Hl) as (h' & Hrun & Hh').
  assert (abs_state h' (state c) = spec_State (abs_state (maps w) (state c))) as Habs.
  { rewrite spec_State_recovers by done. unfold abs_state, set_Pending, pending. simpl.
    f_equal. rewrite Hh', decide_True by done. simpl in Hpend.
    unfold pending in Hpend. unfold map_of in Hl.
    rewrite <-Hl, Hpend. apply (right_id_L _ _). }
  rewrite (State_exec ks p w Hm). cbv zeta. rewrite Hat, (upd_id _ _ _ Hc).
  simpl in Hmeta. rewrite decide_False by done.
  rewrite decide_True by (by apply map_len_zero). rewrite Hrun.
  destruct (heap_update_refines p c h' w spec_State Hown Hc) as [Hown' Heq]; [|done|].
  { intros r Hr. rewrite Hh', decide_False; [done|]. unfold map_of in *. congruence. }
  eexists _, _. split; [done|]. split; [done|]. split; [|done].
  cbn [maps set_maps]. unfold spec_snapshot. rewrite <-Habs. unfold abs_state. simpl.
  by rewrite decide_False.
Qed.

(** [State] implements [spec_State], and returns [spec_snapshot]. *)
Lemma State_refines ks p w :
  owned w → p ∈ dom (consumers w) →
  ∃ st w', State ks (Some p) w = Done (st, w') ∧ owned w' ∧
    abs_state (maps w') st = spec_snapshot ks (abs_state (maps w) (state_at w p)) ∧
    abs w' = alter spec_State p (abs w).
Proof.
  intros Hown [c Hc]%elem_of_dom. destruct (owned_lookup w p c Hown Hc) as (Hat & _).
  unfold state_at. rewrite Hat.
  destruct (decide (l_Metadata (abs_state (maps w) (state c)) = "")) as [Hmeta|Hmeta];
    [|destruct (decide (l_Pending (abs_state (maps w) (state c)) = ∅)) as [Hpend|Hpend]].
  2: by apply State_refines_recover.
  all: destruct (State_refines_id ks p c w Hown Hc) as (st & ? & ? & ?); [by auto|];
    by exists st, w.
Qed.

End accessors_refine.

(** ** The refinement *)

Section refinement.
Context {P : Type} `{!Provider P}.
Implicit Types (w : world P) (k : call) (ks : list call).

Lemma run_call_step k w :
  owned w → call_ok (dom (consumers w)) k → refines (run_call k) (spec_run k) w.
Proof.
  intros Hown Hok. unfold call_ok, spec_run, refines in *.
  destruct k as [ord [p|]|[p|] o m|[p|] o|[p|] o|[p|] o|[p|] o]; simpl in *;
    try done; try (by exists w).
  - destruct (State_refines ord p w Hown Hok) as (st & w' & Hrun & ? & _ & ?).
    exists w'. by rewrite (exec_bind_done _ _ _ _ _ Hrun).
  - by apply MarkOffset_refines.
  - by apply MarkCommitted_refines.
  - by apply AddPendingOffset_refines.
  - by apply RemovePendingOffset_refines.
  - by apply SetOffset_refines.
Qed.

(** The specification keeps the consumers it has. *)
Lemma dom_spec_run k σ : dom (spec_run k σ) = dom σ.
Proof. unfold spec_run. destruct (target k); [apply dom_alter_L | done]. Qed.

Lemma calls_step ks w :
  owned w → Forall (call_ok (dom (consumers w))) ks →
  refines (for_each run_call ks) (λ σ, foldl (λ σ k, spec_run k σ) σ ks) w.
Proof.
  revert w. induction ks as [|k ks IH]; intros w Hown Hok; [by exists w|].
  apply Forall_cons in Hok as [Hk Hks].
  destruct (run_call_step k w Hown Hk) as (w1 & Hrun & Hown1 & Habs1).
  unfold refines. cbn [for_each foldl]. rewrite (exec_bind_done _ _ _ _ _ Hrun), <-Habs1.
  apply IH; [done|]. by rewrite <-dom_abs, Habs1, dom_spec_run, dom_abs.
Qed.

(** [C5] Every call the specification covers returns, leaves every
    consumer with a map object of its own and a free mutex, and changes
    the ledgers as the specification says: that of its target as [effect]
    says, and no other. *)
Theorem run_call_refines k w :
  owned w → call_ok (dom (consumers w)) k →
  ∃ w', run_call k w = Done (tt, w') ∧ owned w' ∧ abs w' = spec_run k (abs w).
Proof. apply run_call_step. Qed.

(** A sequence of calls does to the ledgers what the specification
    says of each call in turn: the accessors can be reasoned about on
    ledgers, without the store. *)
Theorem calls_refine ks w :
  owned w → Forall (call_ok (dom (consumers w))) ks →
  ∃ w', for_each run_call ks w = Done (tt, w') ∧ owned w' ∧
        abs w' = foldl (λ σ k, spec_run k σ) (abs w) ks.
Proof. apply calls_step. Qed.

(** [State] returns the snapshot the specification describes: the
    ledger after the call, and as its metadata the pending offsets in the
    order of the range when the ledger carries none. *)
Theorem State_returns_snapshot ord p w :
  owned w → p ∈ dom (consumers w) →
  ∃ st w', State ord (Some p) w = Done (st, w') ∧
    abs_state (maps w') st = spec_snapshot ord (abs_state (maps w) (state_at w p)).
Proof.
  intros Hown Hp. destruct (State_refines ord p w Hown Hp) as (st & w' & ? & _ & ? & _).
  by exists st, w'.
Qed.

(** [C28] The constructor returns an error and leaves the ledgers as they
    are, or adds one ledger, at an address that was not in use: clean,
    with the pending offsets and the metadata of the ledger it was given,
    and its offset or -1. *)
Theorem newPartitionConsumer_refines ord topic partition info defaultOffset w :
  owned w → fresh_map w (PendingOffsets info) →
  ∃ r w', newPartitionConsumer ord topic partition info defaultOffset w = Done (r, w') ∧
    owned w' ∧
    match r.1 with
    | None => is_Some r.2 ∧ abs w' = abs w
    | Some p =>
        r.2 = None ∧ consumers w !! p = None ∧
        ∃ a, abs w' = <[p := a]> (abs w) ∧
             (l_Offset a = Offset info ∨ l_Offset a = (-1)) ∧
             l_Pending a = pending (maps w) info ∧
             l_Metadata a = Metadata info ∧ l_Dirty a = false
    end.
Proof.
  intros Hown Hfresh.
  destruct (newPartitionConsumer_cases ord topic partition info defaultOffset w)
    as (cl & [(err & ->)|(h & info' & Hinfo & ->)]); eexists _, _; (split; [done|]).
  { by split. }
  destruct (new_consumer_refines (fresh (dom (consumers w))) h info' (set_client cl w))
    as [Hown' Habs]; [done | exact (fresh_consumer w) | by destruct Hinfo as [->| ->] |].
  split; [done|]. split; [done|]. split; [apply fresh_consumer|].
  eexists. split; [exact Habs|]. by destruct Hinfo as [->| ->]; simpl; auto.
Qed.

End refinement.

(** ** The theorems on concrete stores *)

Lemma run_call_refines_witness :
  ∃ w', run_call (CallAddPendingOffset (Some 1%positive) 9) ex_owned = Done (tt, w') ∧
    owned w' ∧
    abs w' = spec_run (CallAddPendingOffset (Some 1%positive) 9) (abs ex_owned).
Proof.
  apply (run_call_refines (CallAddPendingOffset (Some 1%positive) 9) ex_owned); by_decide.
Defined.

Lemma calls_refine_witness :
  ∃ w', for_each run_call ex_calls ex_owned = Done (tt, w') ∧ owned w' ∧
        abs w' = foldl (λ σ k, spec_run k σ) (abs ex_owned) ex_calls.
Proof. apply (calls_refine ex_calls ex_owned); by_decide. Defined.

Lemma State_returns_snapshot_witness :
  ∃ st w', State [7; 5] (Some 1%positive) ex_owned = Done (st, w') ∧
    abs_state (maps w') st
    = spec_snapshot [7; 5] (abs_state (maps ex_owned) (state_at ex_owned 1%positive)).
Proof. apply (State_returns_snapshot [7; 5] 1%positive ex_owned); by_decide. Defined.

Lemma newPartitionConsumer_refines_witness :
  ∃ r w', newPartitionConsumer [] "t" 0 ex_fresh_ledger 15 ex_owned = Done (r, w') ∧
    owned w' ∧
    match r.1 with
    | None => is_Some r.2 ∧ abs w' = abs ex_owned
    | Some p =>
        r.2 = None ∧ consumers ex_owned !! p = None ∧
        ∃ a, abs w' = <[p := a]> (abs ex_owned) ∧
             (l_Offset a = Offset ex_fresh_ledger ∨ l_Offset a = (-1)) ∧
             l_Pending a = pending (maps ex_owned) ex_fresh_ledger ∧
             l_Metadata a = Metadata ex_fresh_ledger ∧ l_Dirty a = false
    end.
Proof.
  apply (newPartitionConsumer_refines [] "t" 0 ex_fresh_ledger 15 ex_owned); by_decide.
Defined.

(** The ledgers the calls of [ex_calls] leave: offset 6 confirmed and
    committed, 5 removed and 9 added for the first consumer; the pending
    offsets of its metadata recovered for the second. *)
Example calls_example :
  abs <$> exec_store (for_each run_call ex_calls) ex_owned
  = Some {[ 1%positive := {| l_Offset := 6; l_Pending := {[7; 9]};
                             l_Metadata := ""; l_Dirty := false |};
            2%positive := {| l_Offset := 4; l_Pending := {[5; 7]};
                             l_Metadata := "7,5,"; l_Dirty := false |} ]}.
Proof. by_decide. Qed.

(** Without a map object of its own a consumer does not keep its ledger:
    on [ex_shared_map] a pending offset added to the first consumer is
    pending for the second too, which the specification does not allow. *)
Example shared_map_not_refined :
  ¬ owned ex_shared_map ∧
  ∃ w', run_call (CallAddPendingOffset (Some 1%positive) 9) ex_shared_map = Done (tt, w') ∧
    abs w' ≠ spec_run (CallAddPendingOffset (Some 1%positive) 9) (abs ex_shared_map) ∧
    l_Pending <$> abs w' !! 2%positive = Some {[5; 7; 9]}.
Proof.
  split; [by_decide|]. eexists. split; [reflexivity|]. split; by_decide.
Qed.
