(* ===== verification/Mutex.v ===== *)
(** * Mutex: the guarded accessors, one statement at a time

    [State], [MarkCommitted] and [MarkOffset] (src/unnamed/part_000) work
    between [c.mutex.Lock()] and [c.mutex.Unlock()].  Consumer.v runs each
    of them from entry to return; here they are goroutines that take one
    statement at a time, in the order a scheduler picks, on a store they
    share.  [MarkOffset] writes the offset, the metadata and the dirty
    flag in three statements, [State] copies the state and reads the map
    object in two: what another goroutine would see between them is a
    ledger no call leaves.

    A goroutine that runs alone does what its call does in Consumer.v
    ([accessor_alone]): the statements are those of the accessors.

    The file shows that the mutex hides these ledgers.  The invariant
    [pool_inv] reads the mutex as the owner of the ledger it guards: while
    the mutex of a consumer is free, its ledger is the one the calls that
    have returned leave when they are made one after the other, in the
    order of their return; while it is held, one goroutine is between
    [Lock] and [Unlock] on this consumer, and the ledger is the one the
    statements it has run make of that ledger.  It follows that

    - no two goroutines are inside on one consumer, and no statement
      panics;
    - when every goroutine has returned, the ledgers are those of the
      calls made one after the other, in the order of their return, and
      each [State] returned the snapshot the specification of
      Refinement.v describes, of the ledger it found;
    - a goroutine waits only at [Lock], and only for a goroutine that is
      inside on the same consumer: calls on different consumers do not
      wait for each other, and some goroutine can always run until all
      have returned;
    - no confirmed offset decreases, at any statement;
    - no two statements that may run next read and write the same field
      or map object ([accesses], [race]): the guarded accessors are free
      of data races, so the interleavings of whole statements are all
      the behaviours Go gives them.

    The tables [State_accesses], [MarkCommitted_accesses] and
    [MarkOffset_accesses] say what each statement reads and writes; they
    are tied to the step functions: a statement changes only the cells it
    has a write access to ([accessor_step_writes]), and the variables it
    sets depend only on the cells it has a read access to
    ([accessor_step_reads]).

    [AddPendingOffset], [RemovePendingOffset] and [SetOffset] take no
    lock and are no goroutines of this file.  The first two do not wait
    for the goroutine that holds the mutex of their consumer: run on the
    store of any point of any schedule they return at once and have
    written the pending offsets the mutex guards
    ([unguarded_accessors_ignore_mutex]).  The write is to the map object
    a [State] that is inside reads and writes, a data race, and Go gives
    a program with a data race no meaning to model. *)

From S2P Require Import Prelude Strconv Heap Offsets Consumer Refinement.

#[local] Open Scope Z_scope.

(** ** The statements *)

(** Where a goroutine is in [State]: before its nil test, before
    [c.mutex.Lock()], before [state := c.state], before the conditional on
    the copy, before [c.mutex.Unlock()], and after [return state]. *)
Inductive state_pc : Type :=
| StateEntry
| StateLock
| StateCopy
| StateInfo (state : partitionState)
| StateUnlock (state : partitionState)
| StateReturned (state : partitionState).

(** In [MarkCommitted]: its conditional is one statement. *)
Inductive mark_committed_pc : Set :=
| MarkCommittedEntry
| MarkCommittedLock
| MarkCommittedDirty
| MarkCommittedUnlock
| MarkCommittedReturned.

(** In [MarkOffset]: the test [offset > c.state.Info.Offset], then the
    three assignments it guards. *)
Inductive mark_offset_pc : Set :=
| MarkOffsetEntry
| MarkOffsetLock
| MarkOffsetTest
| MarkOffsetOffset
| MarkOffsetMetadata
| MarkOffsetDirty
| MarkOffsetUnlock
| MarkOffsetReturned.

(** A goroutine that runs one guarded accessor. *)
Inductive accessor : Type :=
| GoState (ks : list Z) (c : cref) (at_ : state_pc)
| GoMarkCommitted (c : cref) (offset : Z) (at_ : mark_committed_pc)
| GoMarkOffset (c : cref) (offset : Z) (metadata : string) (at_ : mark_offset_pc).

#[export] Instance state_pc_eq_dec : EqDecision state_pc.
Proof. solve_decision. Defined.
#[export] Instance mark_committed_pc_eq_dec : EqDecision mark_committed_pc.
Proof. solve_decision. Defined.
#[export] Instance mark_offset_pc_eq_dec : EqDecision mark_offset_pc.
Proof. solve_decision. Defined.
#[export] Instance accessor_eq_dec : EqDecision accessor.
Proof. solve_decision. Defined.

(** Where a goroutine is in its call: at the nil test, at [Lock], at a
    statement between [Lock] and [Unlock], at [Unlock], or back. *)
Inductive place : Set := Entry | Locking | Working | Unlocking | Returned.

#[export] Instance place_eq_dec : EqDecision place.
Proof. solve_decision. Defined.

Section statements.
Context {P : Type} `{!Provider P}.

(** One statement of [State], when the range of [Serialize] visits [ks]. *)
Definition State_step (ks : list Z) (c : cref) (at_ : state_pc)
    : exec (world P) state_pc :=
  match at_ with
  | StateEntry =>
      mret (match c with None => StateReturned inhabitant | Some _ => StateLock end)
  | StateLock => p ← deref c; Lock p ;; mret StateCopy
  | StateCopy => p ← deref c; pc ← load p; mret (StateInfo (state pc))
  | StateInfo st =>
      w ← get;
      info ← (if decide (Metadata (Info st) = "") then
                mret (Serialize ks (Info st))
              else if decide (map_len (maps w) (PendingOffsets (Info st)) = 0) then
                on_maps (Deserialize (Info st))
              else mret (Info st));
      mret (StateUnlock (set_Info info st))
  | StateUnlock st => p ← deref c; Unlock p ;; mret (StateReturned st)
  | StateReturned st => mret (StateReturned st)
  end.

Definition MarkCommitted_step (c : cref) (offset : Z) (at_ : mark_committed_pc)
    : exec (world P) mark_committed_pc :=
  match at_ with
  | MarkCommittedEntry =>
      mret (match c with None => MarkCommittedReturned | Some _ => MarkCommittedLock end)
  | MarkCommittedLock => p ← deref c; Lock p ;; mret MarkCommittedDirty
  | MarkCommittedDirty =>
      p ← deref c;
      pc ← load p;
      (if bool_decide (offset = Offset (Info (state pc)))
          || bool_decide (Metadata (Info (state pc)) ≠ "")
       then store p (set_state (set_Dirty false (state pc)) pc)
       else mret tt) ;;
      mret MarkCommittedUnlock
  | MarkCommittedUnlock => p ← deref c; Unlock p ;; mret MarkCommittedReturned
  | MarkCommittedReturned => mret MarkCommittedReturned
  end.

Definition MarkOffset_step (c : cref) (offset : Z) (metadata : string)
    (at_ : mark_offset_pc) : exec (world P) mark_offset_pc :=
  match at_ with
  | MarkOffsetEntry =>
      mret (match c with None => MarkOffsetReturned | Some _ => MarkOffsetLock end)
  | MarkOffsetLock => p ← deref c; Lock p ;; mret MarkOffsetTest
  | MarkOffsetTest =>
      p ← deref c;
      pc ← load p;
      mret (if decide (Offset (Info (state pc)) < offset) then MarkOffsetOffset
            else MarkOffsetUnlock)
  | MarkOffsetOffset =>
      p ← deref c;
      pc ← load p;
      store p (set_state (set_Info (set_Offset offset (Info (state pc))) (state pc)) pc) ;;
      mret MarkOffsetMetadata
  | MarkOffsetMetadata =>
      p ← deref c;
      pc ← load p;
      (* Only commit metadata if it's a valid string. *)
      (if decide (metadata ≠ "") then
         store p (set_state (set_Info (set_Metadata metadata (Info (state pc))) (state pc)) pc)
       else mret tt) ;;
      mret MarkOffsetDirty
  | MarkOffsetDirty =>
      p ← deref c;
      pc ← load p;
      store p (set_state (set_Dirty true (state pc)) pc) ;;
      mret MarkOffsetUnlock
  | MarkOffsetUnlock => p ← deref c; Unlock p ;; mret MarkOffsetReturned
  | MarkOffsetReturned => mret MarkOffsetReturned
  end.

(** One statement of a goroutine. *)
Definition accessor_step (t : accessor) : exec (world P) accessor :=
  match t with
  | GoState ks c at_ => GoState ks c <$> State_step ks c at_
  | GoMarkCommitted c offset at_ => GoMarkCommitted c offset <$> MarkCommitted_step c offset at_
  | GoMarkOffset c offset metadata at_ =>
      GoMarkOffset c offset metadata <$> MarkOffset_step c offset metadata at_
  end.

(** A goroutine that runs [n] statements with no other beside it. *)
Fixpoint accessor_steps (n : nat) (t : accessor) : exec (world P) accessor :=
  match n with
  | O => mret t
  | S n' => t' ← accessor_step t; accessor_steps n' t'
  end.

End statements.

(** ** Goroutines *)

(** The call a goroutine makes, the consumer it makes it on, and how far
    it is. *)
Definition call_of (t : accessor) : call :=
  match t with
  | GoState ks c _ => CallState ks c
  | GoMarkCommitted c offset _ => CallMarkCommitted c offset
  | GoMarkOffset c offset metadata _ => CallMarkOffset c offset metadata
  end.

Definition receiver (t : accessor) : cref := target (call_of t).

Definition place_of (t : accessor) : place :=
  match t with
  | GoState _ _ StateEntry | GoMarkCommitted _ _ MarkCommittedEntry
  | GoMarkOffset _ _ _ MarkOffsetEntry => Entry
  | GoState _ _ StateLock | GoMarkCommitted _ _ MarkCommittedLock
  | GoMarkOffset _ _ _ MarkOffsetLock => Locking
  | GoState _ _ (StateUnlock _) | GoMarkCommitted _ _ MarkCommittedUnlock
  | GoMarkOffset _ _ _ MarkOffsetUnlock => Unlocking
  | GoState _ _ (StateReturned _) | GoMarkCommitted _ _ MarkCommittedReturned
  | GoMarkOffset _ _ _ MarkOffsetReturned => Returned
  | _ => Working
  end.

(** The goroutine is between [Lock] and [Unlock], *)
Definition inside (t : accessor) : bool :=
  match place_of t with
  | Working | Unlocking => true
  | _ => false
  end.

(** on the consumer at [p]. *)
Definition holds (t : accessor) (p : ptr) : Prop :=
  receiver t = Some p ∧ inside t = true.

Definition has_returned (t : accessor) : Prop := place_of t = Returned.

(** The statements a goroutine has still to run, when it does not wait. *)
Definition statements_left (t : accessor) : nat :=
  match t with
  | GoState _ _ at_ =>
      match at_ with
      | StateEntry => 5 | StateLock => 4 | StateCopy => 3 | StateInfo _ => 2
      | StateUnlock _ => 1 | StateReturned _ => 0
      end
  | GoMarkCommitted _ _ at_ =>
      match at_ with
      | MarkCommittedEntry => 4 | MarkCommittedLock => 3 | MarkCommittedDirty => 2
      | MarkCommittedUnlock => 1 | MarkCommittedReturned => 0
      end
  | GoMarkOffset _ _ _ at_ =>
      match at_ with
      | MarkOffsetEntry => 7 | MarkOffsetLock => 6 | MarkOffsetTest => 5
      | MarkOffsetOffset => 4 | MarkOffsetMetadata => 3 | MarkOffsetDirty => 2
      | MarkOffsetUnlock => 1 | MarkOffsetReturned => 0
      end
  end%nat.

#[export] Instance holds_dec t p : Decision (holds t p).
Proof. unfold holds. apply _. Defined.
#[export] Instance has_returned_dec t : Decision (has_returned t).
Proof. unfold has_returned. apply _. Defined.

(** A goroutine makes a call on a consumer of [d] or on nil, and one on
    nil is at its entry or has returned. *)
Definition goroutine_ok (d : gset ptr) (t : accessor) : Prop :=
  match receiver t with
  | Some p => p ∈ d
  | None => place_of t = Entry ∨ place_of t = Returned
  end.

#[export] Instance goroutine_ok_dec d t : Decision (goroutine_ok d t).
Proof. unfold goroutine_ok. destruct (receiver t); apply _. Defined.

(** ** Accesses *)

(** What goroutines share: the fields of the state of the consumer at
    [p], and a map object. *)
Inductive cell : Set :=
| OffsetOf (p : ptr)
| MetadataOf (p : ptr)
| DirtyOf (p : ptr)
| PendingOf (p : ptr)
| MapAt (r : mapref).

Inductive access : Set :=
| Read (x : cell)
| Write (x : cell).

#[export] Instance cell_eq_dec : EqDecision cell.
Proof. solve_decision. Defined.
#[export] Instance access_eq_dec : EqDecision access.
Proof. solve_decision. Defined.

(** What the statement [State] is at reads and writes, on the consumer at
    [p]: the copy reads every field; the conditional reads the map object
    the copy refers to, in the range of [Serialize] or in [len], and
    [Deserialize] writes it.  [Lock] and [Unlock] synchronise and are no
    accesses. *)
Definition State_accesses (p : ptr) (at_ : state_pc) : list access :=
  match at_ with
  | StateCopy =>
      [Read (OffsetOf p); Read (MetadataOf p); Read (DirtyOf p); Read (PendingOf p)]
  | StateInfo st =>
      if decide (Metadata (Info st) = "") then [Read (MapAt (PendingOffsets (Info st)))]
      else [Read (MapAt (PendingOffsets (Info st)));
            Write (MapAt (PendingOffsets (Info st)))]
  | _ => []
  end.

(** The conditional of [MarkCommitted] reads the offset and the metadata
    and writes the dirty flag. *)
Definition MarkCommitted_accesses (p : ptr) (at_ : mark_committed_pc) : list access :=
  match at_ with
  | MarkCommittedDirty => [Read (OffsetOf p); Read (MetadataOf p); Write (DirtyOf p)]
  | _ => []
  end.

(** The test of [MarkOffset] reads the offset; its three assignments
    write the offset, the metadata when the argument is not empty, and the
    dirty flag. *)
Definition MarkOffset_accesses (p : ptr) (metadata : string) (at_ : mark_offset_pc) :
    list access :=
  match at_ with
  | MarkOffsetTest => [Read (OffsetOf p)]
  | MarkOffsetOffset => [Write (OffsetOf p)]
  | MarkOffsetMetadata => if decide (metadata ≠ "") then [Write (MetadataOf p)] else []
  | MarkOffsetDirty => [Write (DirtyOf p)]
  | _ => []
  end.

(** What the statement a goroutine is at reads and writes. *)
Definition accesses (t : accessor) : list access :=
  match t with
  | GoState _ (Some p) at_ => State_accesses p at_
  | GoMarkCommitted (Some p) _ at_ => MarkCommitted_accesses p at_
  | GoMarkOffset (Some p) _ metadata at_ => MarkOffset_accesses p metadata at_
  | _ => []
  end.

(** What a cell holds. *)
Inductive content : Type :=
| AnOffset (offset : Z)
| AString (metadata : string)
| AFlag (dirty : bool)
| AMapref (r : mapref)
| AMap (keys : gset Z).

Definition cell_content {P} (w : world P) (x : cell) : content :=
  match x with
  | OffsetOf p => AnOffset (Offset (Info (state_at w p)))
  | MetadataOf p => AString (Metadata (Info (state_at w p)))
  | DirtyOf p => AFlag (Dirty (state_at w p))
  | PendingOf p => AMapref (PendingOffsets (Info (state_at w p)))
  | MapAt r => AMap (map_contents (maps w) r)
  end.

(** Two accesses conflict when they are to one cell and one of them
    writes; two statements that can both run next race when they hold
    conflicting accesses. *)
Definition conflict (a b : access) : Prop :=
  match a, b with
  | Write x, Write y | Write x, Read y | Read x, Write y => x = y
  | Read _, Read _ => False
  end.

Definition race (xs ys : list access) : Prop :=
  ∃ a b, a ∈ xs ∧ b ∈ ys ∧ conflict a b.

#[export] Instance conflict_dec a b : Decision (conflict a b).
Proof. destruct a, b; simpl; apply _. Defined.

(** ** The pool *)

(** Goroutines on a store they share, and the calls that have returned,
    in the order of their return. *)
Record pool (P : Type) : Type := mkPool {
  goroutines : list accessor;
  shared : world P;
  returns : list call;
}.
Arguments mkPool {P} _ _ _.
Arguments goroutines {P} _.
Arguments shared {P} _.
Arguments returns {P} _.

Section pool.
Context {P : Type} `{!Provider P}.

(** The scheduler runs goroutine [i] for one statement.  A goroutine at
    [Lock] on a mutex that is held waits: the pool is as it was.  A
    goroutine that has returned, or that is not there, runs nothing. *)
Definition pool_step (i : nat) : exec (pool P) unit := λ cfg,
  match goroutines cfg !! i with
  | None => Done (tt, cfg)
  | Some t =>
      match accessor_step t (shared cfg) with
      | Done (t', w') =>
          Done (tt, {| goroutines := <[i := t']> (goroutines cfg);
                       shared := w';
                       returns := if decide (has_returned t' ∧ ¬ has_returned t)
                                  then returns cfg ++ [call_of t]
                                  else returns cfg |})
      | Panic Deadlock => Done (tt, cfg)
      | Panic e => Panic e
      end
  end.

(** A schedule: the goroutines to run, in turn. *)
Definition run_pool (sched : list nat) : exec (pool P) unit :=
  for_each pool_step sched.

(** The goroutines [ts] are started on the store [w]. *)
Definition pool_init (ts : list accessor) (w : world P) : pool P :=
  {| goroutines := ts; shared := w; returns := [] |}.

(** The start of a pool: in the store every consumer has a map object of
    its own and a free mutex, and each goroutine is at the entry of a call
    on one of the consumers, or on nil. *)
Definition started (w : world P) (ts : list accessor) : Prop :=
  owned w ∧ Forall (λ t, place_of t = Entry ∧ goroutine_ok (dom (consumers w)) t) ts.

#[export] Instance started_dec w ts : Decision (started w ts).
Proof. unfold started. apply _. Defined.

(** No consumer has a smaller confirmed offset in [w'] than in [w]. *)
Definition offsets_le (w w' : world P) : Prop :=
  ∀ p, Offset (Info (state_at w p)) ≤ Offset (Info (state_at w' p)).

(** Goroutine [i] has a statement to run, and does not wait. *)
Definition can_step (cfg : pool P) (i : nat) : Prop :=
  ∃ t t' w', goroutines cfg !! i = Some t ∧ ¬ has_returned t ∧
             accessor_step t (shared cfg) = Done (t', w').

(** Goroutine [i] waits. *)
Definition waits (cfg : pool P) (i : nat) : Prop :=
  ∃ t, goroutines cfg !! i = Some t ∧ accessor_step t (shared cfg) = Panic Deadlock.

Definition all_returned (cfg : pool P) : Prop := Forall has_returned (goroutines cfg).

#[export] Instance all_returned_dec cfg : Decision (all_returned cfg).
Proof. unfold all_returned. apply _. Defined.

(** The statements the goroutines have still to run. *)
Definition pool_weight (cfg : pool P) : nat :=
  sum_list_with statements_left (goroutines cfg).

End pool.

(** ** The invariant *)

(** The ledger a goroutine that found the ledger [a] at [Lock] has made of
    it, by the statements it has run. *)
Definition partial (t : accessor) (a : ledger) : ledger :=
  match t with
  | GoState _ _ (StateUnlock _) => spec_State a
  | GoMarkCommitted _ offset MarkCommittedUnlock => spec_MarkCommitted offset a
  | GoMarkOffset _ offset _ MarkOffsetMetadata =>
      {| l_Offset := offset; l_Pending := l_Pending a;
         l_Metadata := l_Metadata a; l_Dirty := l_Dirty a |}
  | GoMarkOffset _ offset metadata MarkOffsetDirty =>
      {| l_Offset := offset; l_Pending := l_Pending a;
         l_Metadata := if decide (metadata = "") then l_Metadata a else metadata;
         l_Dirty := l_Dirty a |}
  | GoMarkOffset _ offset metadata MarkOffsetUnlock => spec_MarkOffset offset metadata a
  | _ => a
  end.

(** The state [st] holds the offset, the metadata and the dirty flag of
    the snapshot of the ledger [a], and refers to the map object [r]. *)
Definition snapshot_of (ks : list Z) (a : ledger) (r : mapref) (st : partitionState) : Prop :=
  Offset (Info st) = l_Offset a ∧
  Metadata (Info st) = l_Metadata (spec_snapshot ks a) ∧
  Dirty st = l_Dirty a ∧
  PendingOffsets (Info st) = r.

(** What a goroutine that is inside has in its variables: the outcome of
    the test of [MarkOffset], the copy [State] took. *)
Definition found (t : accessor) (c : partitionConsumer) (a : ledger) : Prop :=
  match t with
  | GoMarkOffset _ offset _ (MarkOffsetOffset | MarkOffsetMetadata | MarkOffsetDirty) =>
      l_Offset a < offset
  | GoState _ _ (StateInfo st) => st = state c
  | GoState ks _ (StateUnlock st) => snapshot_of ks a (map_of c) st
  | _ => True
  end.

(** The mutex of the consumer [c] at [p] owns its ledger.  Free, the
    ledger is [a] and no goroutine is inside on [p]; held, one goroutine
    is, and the ledger is what it has made of [a]. *)
Definition lock_inv (ts : list accessor) (h : heap) (p : ptr) (c : partitionConsumer)
    (a : ledger) : Prop :=
  if mutex c then
    ∃ i t, ts !! i = Some t ∧ holds t p ∧
           abs_state h (state c) = partial t a ∧ found t c a ∧
           ∀ j t', ts !! j = Some t' → holds t' p → j = i
  else
    abs_state h (state c) = a ∧ ∀ j t', ts !! j = Some t' → ¬ holds t' p.

(** No goroutine but [i] is inside on [p]. *)
Definition others_out (ts : list accessor) (i : nat) (p : ptr) : Prop :=
  ∀ j t, ts !! j = Some t → holds t p → j = i.

Section invariant.
Context {P : Type} `{!Provider P}.

(** The ledgers the calls [ks] leave, made one after the other from the
    store [w0]. *)
Definition ledgers_after (w0 : world P) (ks : list call) : gmap ptr ledger :=
  foldl (λ σ k, spec_run k σ) (abs w0) ks.

(** The invariant of a pool started on [w0]: the consumers keep their map
    objects; the calls that have returned are those of the goroutines
    that have; and each mutex owns the ledger of its consumer, which is
    the one the calls that have returned leave. *)
Definition pool_inv (w0 : world P) (cfg : pool P) : Prop :=
  map_of <$> consumers (shared cfg) = map_of <$> consumers w0 ∧
  Forall (goroutine_ok (dom (consumers w0))) (goroutines cfg) ∧
  returns cfg ≡ₚ call_of <$> filter has_returned (goroutines cfg) ∧
  ∀ p c, consumers (shared cfg) !! p = Some c →
    ∃ a, ledgers_after w0 (returns cfg) !! p = Some a ∧
         lock_inv (goroutines cfg) (maps (shared cfg)) p c a.

(** What a [State] that has returned holds: the snapshot of the ledger
    the calls that returned before it leave, with a reference to the map
    object of the consumer. *)
Definition State_result (w0 : world P) (rs : list call) (t : accessor) : Prop :=
  match t with
  | GoState ks None (StateReturned st) => st = inhabitant
  | GoState ks (Some p) (StateReturned st) =>
      ∃ pre post a c, rs = pre ++ CallState ks (Some p) :: post ∧
        ledgers_after w0 pre !! p = Some a ∧ consumers w0 !! p = Some c ∧
        snapshot_of ks a (map_of c) st
  | _ => True
  end.

Definition results_inv (w0 : world P) (cfg : pool P) : Prop :=
  Forall (State_result w0 (returns cfg)) (goroutines cfg).

End invariant.

(** ** A pool to run the definitions on *)

(** Five goroutines on the store [ex_owned]: a [MarkOffset], a [State] and
    a [MarkCommitted] on the consumer 1, a [State] on the consumer 2, and a
    [MarkOffset] on nil. *)
Definition ex_goroutines : list accessor :=
  [ GoMarkOffset (Some 1%positive) 6 "m" MarkOffsetEntry;
    GoState [5; 7] (Some 1%positive) StateEntry;
    GoMarkCommitted (Some 1%positive) 6 MarkCommittedEntry;
    GoState [] (Some 2%positive) StateEntry;
    GoMarkOffset None 9 "" MarkOffsetEntry ].

Definition ex_pool : pool fake_client := pool_init ex_goroutines ex_owned.

(** The scheduler runs them in turn, [n] times each. *)
Definition round_robin (n : nat) : list nat := mjoin (replicate n [0; 1; 2; 3; 4]%nat).

(** The pool a computation leaves. *)
Definition pool_of (r : outcome (unit * pool fake_client)) : pool fake_client :=
  match r with
  | Done (_, cfg) => cfg
  | Panic _ => ex_pool
  end.

(** After four statements of the first goroutine alone: it has written the
    offset, and neither the metadata nor the dirty flag. *)
Definition ex_half : pool fake_client := pool_of (run_pool [0; 0; 0; 0]%nat ex_pool).

(** After three turns: the goroutines 0 and 3 are inside, on the consumers
    1 and 2; the goroutines 1 and 2 are at [Lock] on the consumer 1. *)
Definition ex_working : pool fake_client := pool_of (run_pool (round_robin 3) ex_pool).

(** After thirteen turns every goroutine has returned. *)
Definition ex_done : pool fake_client := pool_of (run_pool (round_robin 13) ex_pool).

(** What the [State] on the consumer 1 returned. *)
Definition ex_snapshot : partitionState :=
  {| Info := {| Offset := 6; PendingOffsets := Some 1%positive; Metadata := "m" |};
     Dirty := true |}.

(** ** The statements, one by one *)

(** Two ledgers are equal field by field. *)
Ltac ledger_eq :=
  cbn [partial]; unfold abs_state, pending in *; simpl in *;
  first [done | f_equal; congruence].

(** Run the statements of a goroutine that is alone, with the tests of
    its call decided in the context. *)
Ltac alone_steps :=
  repeat (cbn [accessor_steps accessor_step State_step MarkCommitted_step
               MarkOffset_step]; run_accessor;
          repeat match goal with
                 | H : _ !!! _ = _ |- _ => rewrite H
                 | H : Deserialize _ _ = _ |- _ => rewrite H
                 end;
          rewrite ?bool_decide_true, ?bool_decide_false, ?decide_True, ?decide_False by done;
          cbn [orb]; store_simpl).

(** The receiver of a goroutine, from [receiver t = Some p]. *)
Ltac on_receiver H :=
  unfold receiver in H; cbn [call_of target] in H; subst;
  cbn [accessor_step State_step MarkCommitted_step MarkOffset_step].

Section statement_lemmas.
Context {P : Type} `{!Provider P}.
Implicit Types (w : world P) (p : ptr) (c : partitionConsumer) (t : accessor) (a : ledger).

Lemma accessor_step_Entry t w :
  place_of t = Entry →
  ∃ t', accessor_step t w = Done (t', w) ∧ call_of t' = call_of t ∧
        place_of t' = match receiver t with Some _ => Locking | None => Returned end.
Proof.
  destruct t as [? [?|] []|[?|] ? []|[?|] ? ? []]; try done; intros _; by eexists.
Qed.

Lemma accessor_step_Returned t w : place_of t = Returned → accessor_step t w = Done (t, w).
Proof. by destruct t as [? ? []|? ? []|? ? ? []]. Qed.

Lemma accessor_step_Locking t p c w :
  place_of t = Locking → receiver t = Some p → consumers w !! p = Some c →
  if mutex c then accessor_step t w = Panic Deadlock
  else ∃ t', accessor_step t w = Done (t', upd p (set_mutex true c) w) ∧
       call_of t' = call_of t ∧ place_of t' = Working ∧
       (∀ a, partial t' a = a) ∧ (∀ c' a, found t' c' a).
Proof.
  intros Ht Hp Hc.
  destruct t as [? ? []|? ? []|? ? ? []]; try done; on_receiver Hp;
    run_accessor; rewrite (lookup_total_correct _ _ _ Hc);
    destruct (mutex c); try done; by eexists.
Qed.

Lemma accessor_step_Unlocking t p c w :
  place_of t = Unlocking → receiver t = Some p → consumers w !! p = Some c →
  mutex c = true →
  ∃ t', accessor_step t w = Done (t', upd p (set_mutex false c) w) ∧
    call_of t' = call_of t ∧ place_of t' = Returned ∧
    (∀ a, partial t a = effect (call_of t) a).
Proof.
  intros Ht Hp Hc Hm.
  destruct t as [? ? []|? ? []|? ? ? []]; try done; on_receiver Hp;
    run_accessor; rewrite (lookup_total_correct _ _ _ Hc), Hm; by eexists.
Qed.

Lemma set_maps_same w : set_maps (maps w) w = w.
Proof. by destruct w. Qed.

Lemma set_maps_upd p c w : set_maps (maps w) (upd p c w) = upd p c w.
Proof. by destruct w. Qed.

(** The ledger of a state, field by field. *)
Lemma abs_state_inv h st a :
  abs_state h st = a →
  Offset (Info st) = l_Offset a ∧ pending h (Info st) = l_Pending a ∧
  Metadata (Info st) = l_Metadata a ∧ Dirty st = l_Dirty a.
Proof. by intros <-. Qed.

Lemma upd_same p c w : consumers w !! p = Some c → upd p (set_state (state c) c) w = w.
Proof. intros Hc. by rewrite set_state_id, upd_id. Qed.

Lemma MarkOffset_step_Working p offset metadata at_ c a w :
  let t := GoMarkOffset (Some p) offset metadata at_ in
  place_of t = Working → consumers w !! p = Some c →
  abs_state (maps w) (state c) = partial t a → found t c a →
  ∃ t' st', accessor_step t w = Done (t', upd p (set_state st' c) w) ∧
    call_of t' = call_of t ∧ inside t' = true ∧
    PendingOffsets (Info st') = map_of c ∧
    abs_state (maps w) st' = partial t' a ∧ found t' (set_state st' c) a ∧
    Offset (Info (state c)) ≤ Offset (Info st').
Proof.
  intros t Ht Hc Habs Hfound. subst t.
  destruct (abs_state_inv _ _ _ Habs) as (Ho & Hp & Hm & Hd).
  pose proof (upd_same p c w Hc) as Hsame. set (U := upd p) in *.
  destruct at_; try done; cbn [accessor_step MarkOffset_step]; run_accessor;
    rewrite (lookup_total_correct _ _ _ Hc); simpl in *.
  - exists (GoMarkOffset (Some p) offset metadata
              (if decide (Offset (Info (state c)) < offset) then MarkOffsetOffset
               else MarkOffsetUnlock)), (state c).
    rewrite Hsame, Ho. split; [done|]. case_decide; split_and!; try done; try lia.
    cbn [partial]. unfold spec_MarkOffset. by rewrite decide_False.
  - exists (GoMarkOffset (Some p) offset metadata MarkOffsetMetadata),
      (set_Info (set_Offset offset (Info (state c))) (state c)).
    split_and!; try done; [ledger_eq | simpl in *; lia].
  - destruct (decide (metadata ≠ "")) as [Hmeta|Hmeta%dec_stable].
    + exists (GoMarkOffset (Some p) offset metadata MarkOffsetDirty),
        (set_Info (set_Metadata metadata (Info (state c))) (state c)).
      split_and!; try done. cbn [partial]. rewrite decide_False by done. ledger_eq.
    + exists (GoMarkOffset (Some p) offset metadata MarkOffsetDirty), (state c).
      rewrite Hsame. split_and!; try done. cbn [partial].
      rewrite decide_True by done. ledger_eq.
  - exists (GoMarkOffset (Some p) offset metadata MarkOffsetUnlock),
      (set_Dirty true (state c)).
    split_and!; try done. cbn [partial]. unfold spec_MarkOffset.
    rewrite decide_True by done. ledger_eq.
Qed.

Lemma MarkCommitted_step_Working p offset at_ c a w :
  let t := GoMarkCommitted (Some p) offset at_ in
  place_of t = Working → consumers w !! p = Some c →
  abs_state (maps w) (state c) = partial t a → found t c a →
  ∃ t' st', accessor_step t w = Done (t', upd p (set_state st' c) w) ∧
    call_of t' = call_of t ∧ inside t' = true ∧
    PendingOffsets (Info st') = map_of c ∧
    abs_state (maps w) st' = partial t' a ∧ found t' (set_state st' c) a ∧
    Offset (Info (state c)) ≤ Offset (Info st').
Proof.
  intros t Ht Hc Habs Hfound. subst t.
  pose proof (upd_same p c w Hc) as Hsame. set (U := upd p) in *.
  destruct at_; try done; cbn [accessor_step MarkCommitted_step]; run_accessor;
    rewrite (lookup_total_correct _ _ _ Hc); simpl in *.
  exists (GoMarkCommitted (Some p) offset MarkCommittedUnlock),
    (mark_committed offset (state c)).
  cbn [partial]. rewrite <-bool_decide_or, <-Habs, <-abs_mark_committed.
  unfold mark_committed.
  case_bool_decide; [rewrite decide_True by done|rewrite decide_False by done]; simpl.
  - by split_and!.
  - by rewrite Hsame.
Qed.

Lemma State_step_Working ks p at_ c a w :
  let t := GoState ks (Some p) at_ in
  place_of t = Working → consumers w !! p = Some c → is_Some (map_of c) →
  abs_state (maps w) (state c) = partial t a → found t c a →
  ∃ t' h', accessor_step t w = Done (t', set_maps h' w) ∧
    call_of t' = call_of t ∧ inside t' = true ∧
    (∀ r, r ≠ map_of c → map_contents h' r = map_contents (maps w) r) ∧
    abs_state h' (state c) = partial t' a ∧ found t' c a.
Proof.
  intros t Ht Hc [l Hl] Habs Hfound. subst t.
  destruct (abs_state_inv _ _ _ Habs) as (Ho & Hp & Hm & Hd).
  pose proof (set_maps_same w) as Hsame. set (U := set_maps) in *.
  destruct at_ as [| | |st|st|st]; try done; cbn [accessor_step State_step];
    run_accessor; rewrite ?(lookup_total_correct _ _ _ Hc); simpl in *.
  - exists (GoState ks (Some p) (StateInfo (state c))), (maps w). by rewrite Hsame.
  - subst st. unfold map_of in *.
    destruct (decide (Metadata (Info (state c)) = "")) as [Hmeta|Hmeta];
      [|destruct (decide (map_len (maps w) (PendingOffsets (Info (state c))) = 0))
          as [Hlen|Hlen]].
    + eexists _, (maps w). rewrite Hsame. split; [done|]. cbn [partial].
      rewrite spec_State_id by (left; congruence).
      repeat split; try done. cbn [Info set_Info Metadata]. rewrite Serialize_Metadata.
      unfold spec_snapshot. simpl. rewrite decide_True; congruence.
    + destruct (Deserialize_Some (Info (state c)) l (maps w) Hl) as (h' & -> & Hh').
      apply map_len_zero in Hlen. eexists _, h'. split; [done|]. cbn [partial].
      rewrite spec_State_recovers by (unfold pending in *; congruence).
      repeat split; try done.
      * intros r Hr. rewrite Hh', decide_False; congruence.
      * unfold abs_state, set_Pending, pending in *. simpl. f_equal; try done.
        rewrite Hl in Hlen. rewrite Hh', Hl, decide_True, Hlen, Hm by done.
        apply (right_id_L _ _).
      * unfold spec_snapshot. simpl. rewrite decide_False; congruence.
    + eexists _, (maps w). rewrite Hsame. split; [done|]. cbn [partial].
      assert (l_Pending a ≠ ∅) as Hne.
      { rewrite <-Hp. apply map_len_pos. pose proof (map_len_nonneg (maps w)
          (PendingOffsets (Info (state c)))). unfold pending. lia. }
      rewrite spec_State_id by (by right).
      repeat split; try done. unfold spec_snapshot. simpl.
      rewrite decide_False; congruence.
Qed.

(** A statement between [Lock] and [Unlock]: it changes the state of the
    consumer of the goroutine and its map object, and nothing else. *)
Lemma accessor_step_Working t p c a w :
  place_of t = Working → receiver t = Some p → consumers w !! p = Some c →
  is_Some (map_of c) → abs_state (maps w) (state c) = partial t a → found t c a →
  ∃ t' st' h', accessor_step t w = Done (t', set_maps h' (upd p (set_state st' c) w)) ∧
    call_of t' = call_of t ∧ inside t' = true ∧
    PendingOffsets (Info st') = map_of c ∧
    (∀ r, r ≠ map_of c → map_contents h' r = map_contents (maps w) r) ∧
    abs_state h' st' = partial t' a ∧ found t' (set_state st' c) a ∧
    Offset (Info (state c)) ≤ Offset (Info st').
Proof.
  intros Ht Hp Hc Hl Habs Hfound.
  destruct t as [ks c0 at_|c0 offset at_|c0 offset metadata at_];
    unfold receiver in Hp; cbn [call_of target] in Hp; subst c0.
  - destruct (State_step_Working ks p at_ c a w) as (t' & h' & -> & ? & ? & ? & ? & ?);
      try done.
    exists t', (state c), h'. by rewrite upd_same, set_state_id.
  - destruct (MarkCommitted_step_Working p offset at_ c a w)
      as (t' & st' & -> & ? & ? & ? & ? & ? & ?); try done.
    exists t', st', (maps w). by rewrite set_maps_upd.
  - destruct (MarkOffset_step_Working p offset metadata at_ c a w)
      as (t' & st' & -> & ? & ? & ? & ? & ? & ?); try done.
    exists t', st', (maps w). by rewrite set_maps_upd.
Qed.

(** A goroutine keeps its call, and each statement it runs leaves it fewer
    to run. *)
Lemma accessor_step_call t w t' w' :
  accessor_step t w = Done (t', w') → call_of t' = call_of t.
Proof. by destruct t; simpl; intros (? & _ & ->)%exec_fmap_inv. Qed.

Lemma accessor_step_weight t w t' w' :
  accessor_step t w = Done (t', w') → ¬ has_returned t →
  (statements_left t' < statements_left t)%nat.
Proof.
  unfold has_returned.
  destruct t as [ks r at_|r o at_|r o m at_]; simpl;
    intros (at' & Hstep & ->)%exec_fmap_inv Ht; destruct at_, r; try done;
    revert Hstep; simpl; run_accessor;
    repeat first [case_decide | destruct (mutex _) | destruct (_ || _)
                 | destruct (Deserialize _ _) as [[]|]];
    intros [= <- _]; simpl; lia.
Qed.

(** A goroutine that runs alone from its entry does what its call does in
    Consumer.v: it returns and leaves the same store, or panics as the
    call does. *)
Lemma accessor_alone t w :
  place_of t = Entry →
  (accessor_steps (statements_left t) t ;; mret tt) w = run_call (call_of t) w.
Proof.
  destruct t as [ks [p|] []|[p|] o []|[p|] o m []]; try done; intros _;
    cbn [statements_left call_of run_call State MarkCommitted MarkOffset];
    destruct (consumers w !!! p) as [pcm [info dirty] [] ? ? ?] eqn:Hc.
  all: try (by alone_steps).
  - destruct (decide (Metadata info = "")),
      (decide (map_len (maps w) (PendingOffsets info) = 0)),
      (Deserialize info (maps w)) as [[i' h']|err] eqn:HD; by alone_steps.
  - by destruct (decide (o = Offset info)), (decide (Metadata info ≠ "")); alone_steps.
  - by destruct (decide (Offset info < o)), (decide (m ≠ "")); alone_steps.
Qed.

(** *** The accesses of a statement *)

(** The state of a consumer after a store to the consumer at [p]. *)
Lemma state_at_upd_cases p c w q :
  state_at (upd p c w) q = if decide (q = p) then state c else state_at w q.
Proof.
  unfold state_at, consumer_at, upd. simpl. case_decide as Hq.
  - subst. by rewrite lookup_total_insert_eq.
  - by rewrite lookup_total_insert_ne.
Qed.

(** A store to the consumer at [p] changes the cells of [p] whose field
    it changes, and no other cell. *)
Lemma cell_content_upd p c w x :
  match x with
  | OffsetOf q => q = p → Offset (Info (state c)) = Offset (Info (state_at w p))
  | MetadataOf q => q = p → Metadata (Info (state c)) = Metadata (Info (state_at w p))
  | DirtyOf q => q = p → Dirty (state c) = Dirty (state_at w p)
  | PendingOf q =>
      q = p → PendingOffsets (Info (state c)) = PendingOffsets (Info (state_at w p))
  | MapAt _ => True
  end →
  cell_content (upd p c w) x = cell_content w x.
Proof.
  destruct x as [q|q|q|q|r]; simpl; rewrite ?state_at_upd_cases; try done;
    case_decide; subst; intros Hx; by rewrite ?Hx.
Qed.

(** A statement changes only the cells it has a write access to. *)
Lemma accessor_step_writes t w t' w' x :
  (receiver t = None → place_of t = Entry ∨ place_of t = Returned) →
  accessor_step t w = Done (t', w') → Write x ∉ accesses t →
  cell_content w' x = cell_content w x.
Proof.
  intros Hok.
  destruct t as [ks [p|] at_|[p|] o at_|[p|] o m at_]; destruct at_;
    try (by destruct Hok as [[=]|[=]]); clear Hok;
    cbn [accessor_step State_step MarkCommitted_step MarkOffset_step];
    unfold Lock, Unlock, load, store, deref, on_maps; exec_unfold; cbv beta iota.
  all: try (intros [= <- <-]; done).
  all: try (destruct (mutex (consumers w !!! p)) eqn:Hm; intros [= <- <-] _;
            apply cell_content_upd; by destruct x).
  - (* the conditional of State *)
    simpl. destruct (decide (Metadata (Info state) = "")); [by intros [= <- <-]|].
    destruct (decide (map_len _ _ = 0)); [|by intros [= <- <-]].
    destruct (PendingOffsets (Info state)) as [l|] eqn:Hl.
    + destruct (Deserialize_Some (Info state) l (maps w) Hl) as (h' & -> & Hh').
      intros [= <- <-] Hx. destruct x as [q|q|q|q|r]; simpl;
        rewrite ?state_at_set_maps; try done.
      rewrite Hh', decide_False; [done|]. set_solver.
    + rewrite (Deserialize_None _ _ Hl).
      destruct (metadata_offsets _); [|done]. intros [= <- <-] _.
      by rewrite set_maps_same.
  - (* the conditional of MarkCommitted *)
    destruct (_ || _); intros [= <- <-] Hx; [|done].
    apply cell_content_upd. destruct x; try done. simpl in Hx. set_solver.
  - intros [= <- <-] Hx. apply cell_content_upd.
    destruct x; try done. simpl in Hx. set_solver.
  - destruct (decide (m ≠ "")) as [Hm|Hm]; intros [= <- <-] Hx; [|done].
    apply cell_content_upd. destruct x; try done.
    simpl in Hx. rewrite decide_True in Hx by done. set_solver.
  - intros [= <- <-] Hx. apply cell_content_upd.
    destruct x; try done. simpl in Hx. set_solver.
Qed.

(** The variables a statement sets depend only on the cells it has a
    read access to. *)
Lemma accessor_step_reads t w1 w2 t1 w1' t2 w2' :
  (receiver t = None → place_of t = Entry ∨ place_of t = Returned) →
  (∀ x, Read x ∈ accesses t → cell_content w1 x = cell_content w2 x) →
  accessor_step t w1 = Done (t1, w1') → accessor_step t w2 = Done (t2, w2') → t1 = t2.
Proof.
  intros Hok Hread.
  destruct t as [ks [p|] at_|[p|] o at_|[p|] o m at_]; destruct at_;
    try (by destruct Hok as [[=]|[=]]); clear Hok;
    cbn [accessor_step State_step MarkCommitted_step MarkOffset_step];
    unfold Lock, Unlock, load, store, deref, on_maps; exec_unfold; cbv beta iota.
  all: try (intros [= <- _] [= <- _]; done).
  all: try (destruct (mutex (consumers w1 !!! p)), (mutex (consumers w2 !!! p));
            intros [= <- _] [= <- _]; done).
  - (* the copy of State *)
    intros [= <- _] [= <- _]. do 2 f_equal.
    pose proof (Hread (OffsetOf p) ltac:(set_solver)) as [= Ho].
    pose proof (Hread (MetadataOf p) ltac:(set_solver)) as [= Hm].
    pose proof (Hread (DirtyOf p) ltac:(set_solver)) as [= Hd].
    pose proof (Hread (PendingOf p) ltac:(set_solver)) as [= Hp].
    unfold state_at, consumer_at in *.
    destruct (state (consumers w1 !!! p)) as [[] ?], (state (consumers w2 !!! p)) as [[] ?].
    simpl in *. by subst.
  - (* the conditional of State *)
    simpl in Hread. destruct (decide (Metadata (Info state) = "")).
    { by intros [= <- _] [= <- _]. }
    assert (map_len (maps w1) (PendingOffsets (Info state))
            = map_len (maps w2) (PendingOffsets (Info state))) as ->.
    { pose proof (Hread (MapAt (PendingOffsets (Info state))) ltac:(set_solver)) as [= Hr].
      unfold map_len. by rewrite Hr. }
    destruct (decide (map_len _ _ = 0)); [|by intros [= <- _] [= <- _]].
    destruct (Deserialize (Info state) (maps w1)) as [[i1 h1]|] eqn:H1; [|done].
    destruct (Deserialize (Info state) (maps w2)) as [[i2 h2]|] eqn:H2; [|done].
    apply Deserialize_returns in H1, H2. subst. by intros [= <- _] [= <- _].
  - destruct (_ || _), (_ || _); by intros [= <- _] [= <- _].
  - (* the test of MarkOffset *)
    pose proof (Hread (OffsetOf p) ltac:(set_solver)) as [= Ho].
    unfold state_at, consumer_at in Ho. rewrite Ho. by intros [= <- _] [= <- _].
  - destruct (decide (m ≠ "")); by intros [= <- _] [= <- _].
Qed.

End statement_lemmas.

(** ** The invariant is kept *)

Section filter.
Context {A : Type} (Q : A → Prop) `{!∀ x, Decision (Q x)}.

Lemma filter_none (l : list A) : Forall (λ x, ¬ Q x) l → filter Q l = [].
Proof. induction 1; [done|]. by rewrite filter_cons_False. Qed.

Lemma filter_all (l : list A) : Forall Q l → filter Q l = l.
Proof. induction 1; [done|]. rewrite filter_cons_True by done. by f_equal. Qed.

Lemma sum_list_insert (f : A → nat) (l : list A) i x y :
  l !! i = Some x →
  (sum_list_with f (<[i := y]> l) + f x = sum_list_with f l + f y)%nat.
Proof.
  intros Hi. rewrite <-(take_drop_middle l i x Hi) at 2.
  rewrite insert_take_drop by (by eapply lookup_lt_Some).
  rewrite !sum_list_with_app. simpl. lia.
Qed.

End filter.

Section invariant_lemmas.
Context {P : Type} `{!Provider P}.
Implicit Types (w : world P) (p q : ptr) (c : partitionConsumer) (t : accessor)
  (a : ledger) (ts : list accessor) (h : heap) (cfg : pool P).

(** A statement of a goroutine that is not inside on [q], before it and
    after it, leaves the mutex of [q] what it owns. *)
Lemma lock_inv_frame ts i t t' h h' q c a :
  ts !! i = Some t → ¬ holds t q → ¬ holds t' q →
  abs_state h' (state c) = abs_state h (state c) →
  lock_inv ts h q c a → lock_inv (<[i := t']> ts) h' q c a.
Proof.
  intros Hi Ht Ht' Habs. unfold lock_inv. rewrite Habs.
  assert (∀ j u, <[i := t']> ts !! j = Some u → holds u q → ts !! j = Some u) as Hold.
  { intros j u Hj Hu. destruct (decide (j = i)) as [->|Hne].
    - rewrite list_lookup_insert_eq in Hj by (by eapply lookup_lt_Some).
      by injection Hj as <-.
    - by rewrite list_lookup_insert_ne in Hj. }
  destruct (mutex c).
  - intros (j & u & Hj & Hu & ? & ? & Huniq). exists j, u.
    split_and!; try done; [|intros j0 u0 Hj0 Hu0; by apply (Huniq j0 u0); [apply Hold|]].
    rewrite list_lookup_insert_ne; [done|].
    intros ->. rewrite Hi in Hj. by injection Hj as ->.
  - intros [? Hnone]. split; [done|]. intros j u Hj Hu.
    by apply (Hnone j u); [apply Hold|].
Qed.

(** The calls of the goroutines that have returned, after a statement of
    goroutine [i]. *)
Lemma returned_insert ts i t t' :
  ts !! i = Some t → call_of t' = call_of t → ¬ has_returned t →
  call_of <$> filter has_returned (<[i := t']> ts)
  ≡ₚ (call_of <$> filter has_returned ts) ++
     (if decide (has_returned t') then [call_of t] else []).
Proof.
  intros Hi Hcall Ht. rewrite <-(take_drop_middle ts i t Hi) at 2.
  rewrite insert_take_drop by (by eapply lookup_lt_Some).
  rewrite !filter_app, !filter_cons. destruct (decide (has_returned t)); [done|].
  destruct (decide (has_returned t')); rewrite ?fmap_app, ?fmap_cons, ?Hcall, ?app_nil_r;
    [|done].
  by rewrite <-Permutation_middle, <-Permutation_cons_append.
Qed.

(** What a mutex owns, read off for the goroutine that holds it, *)
Lemma lock_inv_inside ts i t h p c a :
  lock_inv ts h p c a → ts !! i = Some t → holds t p →
  mutex c = true ∧ abs_state h (state c) = partial t a ∧ found t c a ∧ others_out ts i p.
Proof.
  unfold lock_inv. intros Hinv Hi Ht. destruct (mutex c).
  - destruct Hinv as (j & u & Hj & Hu & ? & ? & Huniq).
    assert (i = j) as -> by eauto. rewrite Hi in Hj. injection Hj as <-.
    by split_and!.
  - destruct Hinv as [_ Hnone]. by destruct (Hnone i t).
Qed.

(** and for a goroutine that finds it free. *)
Lemma lock_inv_outside ts i h p c a :
  lock_inv ts h p c a → mutex c = false →
  abs_state h (state c) = a ∧ others_out ts i p.
Proof.
  unfold lock_inv. intros Hinv Hm. rewrite Hm in Hinv. destruct Hinv as [? Hnone].
  split; [done|]. intros j u Hj Hu. by destruct (Hnone j u).
Qed.

Lemma others_out_insert ts i t' p :
  others_out ts i p → others_out (<[i := t']> ts) i p.
Proof.
  intros Hout j u Hj Hu. destruct (decide (j = i)) as [|Hne]; [done|].
  rewrite list_lookup_insert_ne in Hj by done. by eapply Hout.
Qed.

(** The mutex after a statement of the goroutine that holds it, *)
Lemma lock_inv_held ts i t t' h p c a :
  ts !! i = Some t → others_out ts i p → mutex c = true → holds t' p →
  abs_state h (state c) = partial t' a → found t' c a →
  lock_inv (<[i := t']> ts) h p c a.
Proof.
  intros Hi Hout Hm Ht' Habs Hfound. unfold lock_inv. rewrite Hm. exists i, t'.
  split_and!; try done; [|by apply others_out_insert].
  apply list_lookup_insert_eq. by eapply lookup_lt_Some.
Qed.

(** and after its [Unlock]. *)
Lemma lock_inv_free ts i t' h p c a :
  others_out ts i p → mutex c = false → ¬ holds t' p → abs_state h (state c) = a →
  lock_inv (<[i := t']> ts) h p c a.
Proof.
  intros Hout Hm Ht' Habs. unfold lock_inv. rewrite Hm. split; [done|].
  intros j u Hj Hu. assert (j = i) as -> by (by eapply others_out_insert).
  apply list_lookup_insert_Some in Hj as [(_ & <- & _)|[? _]]; done.
Qed.

End invariant_lemmas.

Section preservation.
Context {P : Type} `{!Provider P} (w0 : world P) (Hown : owned w0).
Implicit Types (w : world P) (p q : ptr) (c : partitionConsumer) (t : accessor)
  (a : ledger) (ts : list accessor) (h : heap) (cfg : pool P).

(** The consumers keep the map objects they had in [w0]: each has one, and
    no two share one. *)
Lemma same_maps_lookup w p c :
  map_of <$> consumers w = map_of <$> consumers w0 → consumers w !! p = Some c →
  ∃ c0, consumers w0 !! p = Some c0 ∧ map_of c0 = map_of c.
Proof.
  intros Heq Hc. assert ((map_of <$> consumers w) !! p = Some (map_of c)) as Hp
    by (by rewrite lookup_fmap, Hc).
  rewrite Heq, lookup_fmap in Hp. destruct (consumers w0 !! p) as [c0|]; [|done].
  exists c0. split; [done|]. by injection Hp.
Qed.

Lemma same_maps_allocated w p c :
  map_of <$> consumers w = map_of <$> consumers w0 → consumers w !! p = Some c →
  is_Some (map_of c).
Proof.
  intros Heq Hc. destruct (same_maps_lookup w p c Heq Hc) as (c0 & Hc0 & <-).
  by destruct (owned_lookup w0 p c0 Hown Hc0) as (_ & _ & ?).
Qed.

Lemma same_maps_separate w p q c cq :
  map_of <$> consumers w = map_of <$> consumers w0 →
  consumers w !! p = Some c → consumers w !! q = Some cq → q ≠ p →
  map_of cq ≠ map_of c.
Proof.
  intros Heq Hc Hq Hne Hmap.
  destruct (same_maps_lookup w p c Heq Hc) as (c0 & Hc0 & Hm0).
  destruct (same_maps_lookup w q cq Heq Hq) as (cq0 & Hcq0 & Hmq0).
  destruct Hown as [_ Hsep]. rewrite separate_alt in Hsep.
  apply Hne. apply (Hsep q p cq0 c0); congruence.
Qed.

Lemma ledgers_after_snoc ks k :
  ledgers_after w0 (ks ++ [k]) = spec_run k (ledgers_after w0 ks).
Proof. unfold ledgers_after. by rewrite foldl_snoc. Qed.

(** The ledger of [q] after the return of a call on another consumer, or
    on nil. *)
Lemma ledgers_after_return ks t t' q :
  receiver t ≠ Some q →
  ledgers_after w0 (if decide (has_returned t' ∧ ¬ has_returned t)
                    then ks ++ [call_of t] else ks) !! q
  = ledgers_after w0 ks !! q.
Proof.
  intros Hq. case_decide; [|done]. rewrite ledgers_after_snoc. unfold spec_run.
  fold (receiver t). destruct (receiver t) as [p|]; [|done].
  apply lookup_alter_ne. congruence.
Qed.

(** The calls that have returned are those of the goroutines that have,
    after a statement of goroutine [i]. *)
Lemma returns_step cfg i t t' :
  pool_inv w0 cfg → goroutines cfg !! i = Some t → call_of t' = call_of t →
  ¬ has_returned t →
  (if decide (has_returned t' ∧ ¬ has_returned t) then returns cfg ++ [call_of t]
   else returns cfg)
  ≡ₚ call_of <$> filter has_returned (<[i := t']> (goroutines cfg)).
Proof.
  intros (_ & _ & Hperm & _) Hi Hcall Ht. rewrite (returned_insert _ _ _ _ Hi Hcall Ht).
  destruct (decide (has_returned t')).
  - by rewrite decide_True, Hperm.
  - rewrite decide_False by tauto. by rewrite app_nil_r.
Qed.

Lemma goroutine_ok_step d t t' :
  call_of t' = call_of t → goroutine_ok d t →
  (receiver t = None → place_of t' = Returned) → goroutine_ok d t'.
Proof.
  unfold goroutine_ok, receiver. intros ->. destruct (target (call_of t)); auto.
Qed.

(** A statement of goroutine [i] on its consumer [p]: the invariant is
    kept when the mutex of [p] owns the ledger of [p] after it. *)
Lemma pool_inv_update cfg i t t' p c c' h' :
  pool_inv w0 cfg →
  goroutines cfg !! i = Some t → receiver t = Some p → ¬ has_returned t →
  call_of t' = call_of t →
  consumers (shared cfg) !! p = Some c → map_of c' = map_of c →
  (∀ r, r ≠ map_of c → map_contents h' r = map_contents (maps (shared cfg)) r) →
  let ks' := if decide (has_returned t' ∧ ¬ has_returned t)
             then returns cfg ++ [call_of t] else returns cfg in
  (∃ a', ledgers_after w0 ks' !! p = Some a' ∧
         lock_inv (<[i := t']> (goroutines cfg)) h' p c' a') →
  pool_inv w0 {| goroutines := <[i := t']> (goroutines cfg);
                 shared := set_maps h' (upd p c' (shared cfg));
                 returns := ks' |}.
Proof.
  intros Hinv Hi Hp Ht Hcall Hc Hmap Hheap ks' Hlock.
  pose proof Hinv as (Hmaps & Hok & _ & Hlocks). split_and!; simpl.
  - rewrite fmap_insert, Hmap, <-Hmaps. apply insert_id. by rewrite lookup_fmap, Hc.
  - apply Forall_insert; [done|]. eapply goroutine_ok_step; [done| |by rewrite Hp].
    by eapply Forall_lookup_1.
  - by apply returns_step.
  - intros q cq. destruct (decide (q = p)) as [->|Hne].
    { rewrite lookup_insert_eq. by intros [= <-]. }
    rewrite lookup_insert_ne by done. intros Hq.
    destruct (Hlocks q cq Hq) as (a & Ha & Hq'). exists a. split.
    + subst ks'. rewrite ledgers_after_return; [done|congruence].
    + eapply lock_inv_frame; [done| | | |exact Hq'].
      * intros [? _]. congruence.
      * intros [Hr _]. unfold receiver in *. congruence.
      * unfold abs_state, pending. f_equal. apply Hheap.
        by eapply same_maps_separate.
Qed.

(** The first statement of a call touches no consumer. *)
Lemma pool_inv_entry cfg i t t' :
  pool_inv w0 cfg → goroutines cfg !! i = Some t → place_of t = Entry →
  call_of t' = call_of t →
  place_of t' = match receiver t with Some _ => Locking | None => Returned end →
  pool_inv w0 {| goroutines := <[i := t']> (goroutines cfg);
                 shared := shared cfg;
                 returns := if decide (has_returned t' ∧ ¬ has_returned t)
                            then returns cfg ++ [call_of t] else returns cfg |}.
Proof.
  intros Hinv Hi Ht Hcall Ht'. pose proof Hinv as (Hmaps & Hok & _ & Hlocks).
  assert (¬ has_returned t) as Hnot by (unfold has_returned; congruence).
  assert (∀ q, ¬ holds t q ∧ ¬ holds t' q) as Hout.
  { intros q. unfold holds, inside. rewrite Ht, Ht'.
    by destruct (receiver t); split; intros [_ ?]. }
  split_and!; simpl; [done| |by apply returns_step|].
  - apply Forall_insert; [done|]. eapply goroutine_ok_step; [done| |intros Hr; by rewrite Hr in Ht'].
    by eapply Forall_lookup_1.
  - intros q cq Hq. destruct (Hlocks q cq Hq) as (a & Ha & Hq'). exists a. split.
    + destruct (receiver t) as [p|] eqn:Hr.
      * by rewrite decide_False by (unfold has_returned; rewrite Ht'; intros [[=] _]).
      * rewrite ledgers_after_return; [done|congruence].
    + by eapply lock_inv_frame; [done|apply Hout|apply Hout| |exact Hq'].
Qed.

(** A goroutine that is past its nil test and has not returned makes its
    call on a consumer of the store. *)
Lemma inv_receiver cfg i t :
  pool_inv w0 cfg → goroutines cfg !! i = Some t →
  place_of t ≠ Entry → place_of t ≠ Returned →
  ∃ p c, receiver t = Some p ∧ consumers (shared cfg) !! p = Some c.
Proof.
  intros (Hmaps & Hok & _) Hi H1 H2.
  pose proof (Forall_lookup_1 _ _ _ _ Hok Hi) as Ht. unfold goroutine_ok in Ht.
  destruct (receiver t) as [p|]; [|tauto]. exists p.
  assert (p ∈ dom (consumers (shared cfg))) as [c Hc]%elem_of_dom; [|by exists c].
  by rewrite <-(dom_fmap_L map_of), Hmaps, dom_fmap_L.
Qed.

Lemma inside_holds t t' p :
  receiver t = Some p → call_of t' = call_of t → inside t' = true → holds t' p.
Proof. unfold holds, receiver. by intros <- ->. Qed.

Lemma inside_not_returned t : inside t = true → ¬ has_returned t.
Proof. unfold inside, has_returned. intros Ht Hr. by rewrite Hr in Ht. Qed.

Lemma not_inside_not_holds t p : inside t = false → ¬ holds t p.
Proof. intros Ht [_ ?]. congruence. Qed.

(** The returns after a statement that is not the last of its call. *)
Lemma returns_same ks t t' :
  ¬ has_returned t' →
  (if decide (has_returned t' ∧ ¬ has_returned t) then ks ++ [call_of t] else ks) = ks.
Proof. intros ?. apply decide_False. tauto. Qed.

(** A goroutine that is inside holds the mutex of a consumer of the
    store, and the ledger of that consumer is what it has made of it. *)
Lemma inside_facts cfg i t :
  pool_inv w0 cfg → goroutines cfg !! i = Some t → inside t = true →
  ∃ p c a, receiver t = Some p ∧ consumers (shared cfg) !! p = Some c ∧
    is_Some (map_of c) ∧ ledgers_after w0 (returns cfg) !! p = Some a ∧
    mutex c = true ∧ abs_state (maps (shared cfg)) (state c) = partial t a ∧
    found t c a ∧ others_out (goroutines cfg) i p.
Proof.
  intros Hinv Hi Hin.
  destruct (inv_receiver cfg i t Hinv Hi) as (p & c & Hp & Hc);
    [unfold inside in Hin; by intros Ht; rewrite Ht in Hin..|].
  pose proof Hinv as (Hmaps & _ & _ & Hlocks). destruct (Hlocks p c Hc) as (a & Ha & Hl).
  destruct (lock_inv_inside _ i t _ _ _ _ Hl Hi) as (Hm & Habs & Hfound & Hout);
    [by eapply inside_holds|].
  exists p, c, a. split_and!; try done. by eapply same_maps_allocated.
Qed.

(** [Lock]: the goroutine waits, or takes the mutex and the ledger it
    owns. *)
Lemma pool_step_Locking cfg i t :
  pool_inv w0 cfg → goroutines cfg !! i = Some t → place_of t = Locking →
  ∃ cfg', pool_step i cfg = Done (tt, cfg') ∧ pool_inv w0 cfg'.
Proof.
  intros Hinv Hi Ht. unfold pool_step. rewrite Hi.
  destruct (inv_receiver cfg i t Hinv Hi) as (p & c & Hp & Hc); [by rewrite Ht..|].
  pose proof (accessor_step_Locking t p c (shared cfg) Ht Hp Hc) as Hstep.
  pose proof Hinv as (_ & _ & _ & Hlocks). destruct (Hlocks p c Hc) as (a & Ha & Hl).
  destruct (mutex c) eqn:Hm; [rewrite Hstep; by exists cfg|].
  destruct Hstep as (t' & -> & Hcall & Ht' & Hpartial & Hfound).
  destruct (lock_inv_outside _ i _ _ _ _ Hl Hm) as [Habs Hout].
  assert (inside t' = true) as Hin by (unfold inside; by rewrite Ht').
  eexists. split; [done|]. rewrite <-set_maps_upd.
  apply (pool_inv_update cfg i t t' p c); try done.
  { unfold has_returned. by rewrite Ht. }
  exists a. rewrite returns_same by (by apply inside_not_returned). split; [done|].
  eapply lock_inv_held; [done..| by eapply inside_holds | by rewrite Hpartial | done].
Qed.

(** A statement between [Lock] and [Unlock]: the goroutine holds the
    mutex, and the ledger is its own. *)
Lemma pool_step_Working cfg i t :
  pool_inv w0 cfg → goroutines cfg !! i = Some t → place_of t = Working →
  ∃ cfg', pool_step i cfg = Done (tt, cfg') ∧ pool_inv w0 cfg'.
Proof.
  intros Hinv Hi Ht. unfold pool_step. rewrite Hi.
  assert (inside t = true) as Hin by (unfold inside; by rewrite Ht).
  destruct (inside_facts cfg i t Hinv Hi Hin)
    as (p & c & a & Hp & Hc & Hl & Ha & Hm & Habs & Hfound & Hout).
  destruct (accessor_step_Working t p c a (shared cfg))
    as (t' & st' & h' & -> & Hcall & Hin' & Hmap & Hheap & Habs' & Hfound' & _);
    try done.
  eexists. split; [done|].
  apply (pool_inv_update cfg i t t' p c); try done; [by apply inside_not_returned|].
  exists a. rewrite returns_same by (by apply inside_not_returned). split; [done|].
  eapply lock_inv_held; [done..| by eapply inside_holds | done | done].
Qed.

(** [Unlock]: the goroutine returns, and the mutex owns the ledger its
    call leaves. *)
Lemma pool_step_Unlocking cfg i t :
  pool_inv w0 cfg → goroutines cfg !! i = Some t → place_of t = Unlocking →
  ∃ cfg', pool_step i cfg = Done (tt, cfg') ∧ pool_inv w0 cfg'.
Proof.
  intros Hinv Hi Ht. unfold pool_step. rewrite Hi.
  assert (inside t = true) as Hin by (unfold inside; by rewrite Ht).
  destruct (inside_facts cfg i t Hinv Hi Hin)
    as (p & c & a & Hp & Hc & Hl & Ha & Hm & Habs & Hfound & Hout).
  destruct (accessor_step_Unlocking t p c (shared cfg) Ht Hp Hc Hm)
    as (t' & -> & Hcall & Ht' & Hpartial).
  eexists. split; [done|]. rewrite <-set_maps_upd.
  apply (pool_inv_update cfg i t t' p c); try done; [by apply inside_not_returned|].
  exists (effect (call_of t) a). split.
  - rewrite decide_True by (split; [done|by apply inside_not_returned]).
    rewrite ledgers_after_snoc. unfold spec_run. fold (receiver t). rewrite Hp.
    by rewrite lookup_alter_eq, Ha.
  - eapply lock_inv_free; [done..| |by rewrite <-Hpartial].
    apply not_inside_not_holds. unfold inside. by rewrite Ht'.
Qed.

(** Every statement the scheduler runs returns or waits, and keeps the
    invariant. *)
Lemma pool_step_inv cfg i :
  pool_inv w0 cfg → ∃ cfg', pool_step i cfg = Done (tt, cfg') ∧ pool_inv w0 cfg'.
Proof.
  intros Hinv. destruct (goroutines cfg !! i) as [t|] eqn:Hi;
    [|exists cfg; unfold pool_step; by rewrite Hi].
  destruct (place_of t) eqn:Ht.
  - destruct (accessor_step_Entry t (shared cfg) Ht) as (t' & Hstep & Hcall & Ht').
    unfold pool_step. rewrite Hi, Hstep. eexists. split; [done|].
    by apply pool_inv_entry.
  - by apply (pool_step_Locking cfg i t).
  - by apply (pool_step_Working cfg i t).
  - by apply (pool_step_Unlocking cfg i t).
  - unfold pool_step. rewrite Hi, (accessor_step_Returned t _ Ht).
    rewrite list_insert_id, decide_False by tauto. exists cfg. by destruct cfg.
Qed.

Lemma run_pool_inv sched cfg :
  pool_inv w0 cfg → ∃ cfg', run_pool sched cfg = Done (tt, cfg') ∧ pool_inv w0 cfg'.
Proof.
  revert cfg. induction sched as [|i sched IH]; intros cfg Hinv; [by exists cfg|].
  destruct (pool_step_inv cfg i Hinv) as (cfg1 & Hstep & Hinv1).
  destruct (IH cfg1 Hinv1) as (cfg' & Hrun & Hinv'). exists cfg'.
  split; [|done]. unfold run_pool. cbn [for_each].
  by rewrite (exec_bind_done _ _ _ _ _ Hstep).
Qed.

(** The invariant holds when the goroutines start. *)
Lemma pool_inv_init ts :
  Forall (λ t, place_of t = Entry ∧ goroutine_ok (dom (consumers w0)) t) ts →
  pool_inv w0 (pool_init ts w0).
Proof.
  intros Hts. split_and!; simpl.
  - done.
  - eapply Forall_impl; [done|]. by intros t [_ ?].
  - rewrite filter_none; [done|].
    eapply Forall_impl; [done|]. intros t [Ht _]. unfold has_returned. by rewrite Ht.
  - intros p c Hc. exists (abs_state (maps w0) (state c)).
    split; [unfold ledgers_after; simpl; by rewrite abs_lookup, Hc|]. unfold lock_inv.
    destruct (owned_lookup w0 p c Hown Hc) as (Hat & Hm & _).
    unfold unlocked in Hm. rewrite Hat in Hm. rewrite Hm. split; [done|].
    intros j t Hj [_ Hin]. destruct (Forall_lookup_1 _ _ _ _ Hts Hj) as [Ht _].
    unfold inside in Hin. by rewrite Ht in Hin.
Qed.

Lemma dom_ledgers_after ks : dom (ledgers_after w0 ks) = dom (consumers w0).
Proof.
  induction ks as [|k ks IH] using rev_ind; [apply dom_abs|].
  by rewrite ledgers_after_snoc, dom_spec_run.
Qed.

(** When no goroutine is inside, every mutex is free and the ledgers are
    those of the calls that have returned. *)
Lemma pool_inv_quiet cfg :
  pool_inv w0 cfg → Forall (λ t, inside t = false) (goroutines cfg) →
  owned (shared cfg) ∧ abs (shared cfg) = ledgers_after w0 (returns cfg).
Proof.
  intros (Hmaps & _ & _ & Hlocks) Hout.
  assert (∀ p c, consumers (shared cfg) !! p = Some c →
            mutex c = false ∧
            ledgers_after w0 (returns cfg) !! p = Some (abs_state (maps (shared cfg)) (state c)))
    as Hfree.
  { intros p c Hc. destruct (Hlocks p c Hc) as (a & Ha & Hl). unfold lock_inv in Hl.
    destruct (mutex c); [|by destruct Hl as [-> _]].
    destruct Hl as (i & t & Hi & [_ Hin] & _).
    pose proof (Forall_lookup_1 _ _ _ _ Hout Hi). simpl in *. congruence. }
  split; [split|].
  - apply map_Forall_lookup. intros p c Hc. split; [by destruct (Hfree p c Hc)|].
    by eapply same_maps_allocated.
  - apply separate_alt. intros p q c cq Hc Hq Heq. destruct (decide (p = q)); [done|].
    by destruct (same_maps_separate (shared cfg) q p cq c Hmaps Hq Hc).
  - apply map_eq. intros p. rewrite abs_lookup.
    destruct (consumers (shared cfg) !! p) as [c|] eqn:Hc.
    + by destruct (Hfree p c Hc) as [_ ->].
    + symmetry. apply not_elem_of_dom. rewrite dom_ledgers_after.
      rewrite <-(dom_fmap_L map_of), <-Hmaps, dom_fmap_L. by apply not_elem_of_dom.
Qed.

(** The goroutine of a [State] is back from its entry, on nil, or from
    its [Unlock]. *)
Lemma State_step_Returned ks (r : cref) at_ st w w' :
  State_step ks r at_ w = Done (StateReturned st, w') →
  (at_ = StateEntry ∧ r = None ∧ st = inhabitant) ∨
  (at_ = StateUnlock st ∧ is_Some r) ∨ at_ = StateReturned st.
Proof.
  destruct at_ as [| | |st1|st1|st1], r as [p|]; cbn [State_step]; run_accessor;
    try discriminate; try (intros [= <-]; by eauto).
  - by destruct (mutex _).
  - repeat case_decide; try discriminate. by destruct (Deserialize _ _) as [[]|].
  - repeat case_decide; try discriminate. by destruct (Deserialize _ _) as [[]|].
  - destruct (mutex _); [|done]. intros [= <-]. eauto.
Qed.

Lemma State_result_mono rs l t : State_result w0 rs t → State_result w0 (rs ++ l) t.
Proof.
  destruct t as [ks [p|] []| |]; try done. intros (pre & post & a & c & -> & ?).
  exists pre, (post ++ l), a, c. by rewrite <-app_assoc.
Qed.

(** A [State] that returns from its [Unlock] holds the snapshot of the
    ledger it found at [Lock]. *)
Lemma State_result_Unlock cfg i ks p st :
  pool_inv w0 cfg → goroutines cfg !! i = Some (GoState ks (Some p) (StateUnlock st)) →
  State_result w0 (returns cfg ++ [CallState ks (Some p)])
    (GoState ks (Some p) (StateReturned st)).
Proof.
  intros Hinv Hi. destruct (inv_receiver cfg i _ Hinv Hi) as (p' & c & [= <-] & Hc); [done..|].
  pose proof Hinv as (Hmaps & _ & _ & Hlocks). destruct (Hlocks p c Hc) as (a & Ha & Hl).
  destruct (lock_inv_inside _ i _ _ _ _ _ Hl Hi) as (_ & _ & Hfound & _); [done|].
  destruct (same_maps_lookup _ p c Hmaps Hc) as (c0 & Hc0 & Hmap).
  exists (returns cfg), [], a, c0. by rewrite Hmap.
Qed.

Lemma results_inv_step cfg i cfg' :
  pool_inv w0 cfg → results_inv w0 cfg → pool_step i cfg = Done (tt, cfg') →
  results_inv w0 cfg'.
Proof.
  intros Hinv Hres. unfold pool_step.
  destruct (goroutines cfg !! i) as [t|] eqn:Hi; [|by intros [= <-]].
  destruct (accessor_step t (shared cfg)) as [[t' w']|e] eqn:Hstep;
    [|by destruct e; intros [= <-]].
  intros [= <-]. unfold results_inv in *. simpl.
  assert (∀ u, State_result w0 (returns cfg) u →
            State_result w0 (if decide (has_returned t' ∧ ¬ has_returned t)
                             then returns cfg ++ [call_of t] else returns cfg) u) as Hmono.
  { intros u Hu. case_decide; [by apply State_result_mono|done]. }
  apply Forall_insert; [by eapply Forall_impl|].
  destruct t as [ks r at_| |]; simpl in Hstep;
    apply exec_fmap_inv in Hstep as (at' & Hstep & ->); [|done..].
  destruct at' as [| | | | |st]; try (by destruct r).
  destruct (State_step_Returned _ _ _ _ _ _ Hstep) as [(-> & -> & ->)|[[-> [p ->]]| ->]].
  - done.
  - rewrite decide_True by done. by eapply State_result_Unlock.
  - apply Hmono. by eapply Forall_lookup_1.
Qed.

Lemma run_pool_results sched cfg cfg' :
  pool_inv w0 cfg → results_inv w0 cfg → run_pool sched cfg = Done (tt, cfg') →
  results_inv w0 cfg'.
Proof.
  revert cfg. induction sched as [|i sched IH]; intros cfg Hinv Hres; [by intros [= <-]|].
  unfold run_pool. cbn [for_each].
  intros ([] & cfg1 & Hstep & Hrun)%exec_bind_inv.
  destruct (pool_step_inv cfg i Hinv) as (cfg1' & Hstep' & Hinv1).
  rewrite Hstep in Hstep'. injection Hstep' as <-.
  apply (IH cfg1); [done| |done]. exact (results_inv_step cfg i cfg1 Hinv Hres Hstep).
Qed.

(** ** The confirmed offsets *)

#[export] Instance offsets_le_preorder : PreOrder (offsets_le (P:=P)).
Proof.
  split; [by intros w p|]. intros w1 w2 w3 H12 H23 p. by etrans; [apply H12|apply H23].
Qed.

(** A statement on the consumer at [p] that does not lower its offset
    lowers none. *)
Lemma offsets_le_upd w p c c' h' :
  consumers w !! p = Some c → Offset (Info (state c)) ≤ Offset (Info (state c')) →
  offsets_le w (set_maps h' (upd p c' w)).
Proof.
  intros Hc Hle q. unfold state_at. rewrite consumer_at_set_maps.
  destruct (decide (q = p)) as [->|Hne].
  - rewrite consumer_at_upd. unfold consumer_at. by rewrite (lookup_total_correct _ _ _ Hc).
  - by rewrite consumer_at_upd_ne.
Qed.

(** No statement of any goroutine lowers a confirmed offset. *)
Lemma pool_step_offsets cfg i cfg' :
  pool_inv w0 cfg → pool_step i cfg = Done (tt, cfg') →
  offsets_le (shared cfg) (shared cfg').
Proof.
  intros Hinv. unfold pool_step.
  destruct (goroutines cfg !! i) as [t|] eqn:Hi; [|by intros [= <-]].
  destruct (place_of t) eqn:Ht.
  - destruct (accessor_step_Entry t (shared cfg) Ht) as (t' & -> & _). by intros [= <-].
  - destruct (inv_receiver cfg i t Hinv Hi) as (p & c & Hp & Hc); [by rewrite Ht..|].
    pose proof (accessor_step_Locking t p c (shared cfg) Ht Hp Hc) as Hstep.
    destruct (mutex c); [rewrite Hstep; by intros [= <-]|].
    destruct Hstep as (t' & -> & _). intros [= <-]. simpl.
    rewrite <-set_maps_upd. by apply (offsets_le_upd _ _ c).
  - destruct (inside_facts cfg i t Hinv Hi)
      as (p & c & a & Hp & Hc & Hl & Ha & Hm & Habs & Hfound & Hout);
      [unfold inside; by rewrite Ht|].
    destruct (accessor_step_Working t p c a (shared cfg))
      as (t' & st' & h' & -> & _ & _ & _ & _ & _ & _ & Hle); try done.
    intros [= <-]. by apply (offsets_le_upd _ _ c).
  - destruct (inside_facts cfg i t Hinv Hi)
      as (p & c & a & Hp & Hc & Hl & Ha & Hm & Habs & Hfound & Hout);
      [unfold inside; by rewrite Ht|].
    destruct (accessor_step_Unlocking t p c (shared cfg) Ht Hp Hc Hm) as (t' & -> & _).
    intros [= <-]. simpl. rewrite <-set_maps_upd. by apply (offsets_le_upd _ _ c).
  - rewrite (accessor_step_Returned t _ Ht). by intros [= <-].
Qed.

Lemma run_pool_offsets sched cfg cfg' :
  pool_inv w0 cfg → run_pool sched cfg = Done (tt, cfg') →
  offsets_le (shared cfg) (shared cfg').
Proof.
  revert cfg. induction sched as [|i sched IH]; intros cfg Hinv; [by intros [= <-]|].
  unfold run_pool. cbn [for_each]. intros ([] & cfg1 & Hstep & Hrun)%exec_bind_inv.
  destruct (pool_step_inv cfg i Hinv) as (? & Hstep' & Hinv1).
  rewrite Hstep in Hstep'. injection Hstep' as <-.
  etrans; [by eapply pool_step_offsets|by apply IH].
Qed.

(** ** Progress *)

(** A goroutine that is inside never waits. *)
Lemma inside_can_step cfg i t :
  pool_inv w0 cfg → goroutines cfg !! i = Some t → inside t = true → can_step cfg i.
Proof.
  intros Hinv Hi Hin.
  destruct (inside_facts cfg i t Hinv Hi Hin)
    as (p & c & a & Hp & Hc & Hl & Ha & Hm & Habs & Hfound & Hout).
  exists t. unfold inside in Hin. destruct (place_of t) eqn:Ht; try done.
  - destruct (accessor_step_Working t p c a (shared cfg)) as (t' & st' & h' & ? & _);
      try done. exists t'. eexists. by split_and!; [|apply inside_not_returned; unfold inside; rewrite Ht|].
  - destruct (accessor_step_Unlocking t p c (shared cfg) Ht Hp Hc Hm) as (t' & ? & _).
    exists t'. eexists. by split_and!; [|apply inside_not_returned; unfold inside; rewrite Ht|].
Qed.

(** A goroutine at [Lock] waits exactly when another goroutine is inside
    on its consumer. *)
Lemma Locking_waits cfg i t :
  pool_inv w0 cfg → goroutines cfg !! i = Some t → place_of t = Locking →
  (can_step cfg i ∧ ¬ waits cfg i ∧ ∀ p, receiver t = Some p → others_out (goroutines cfg) i p) ∨
  (waits cfg i ∧ ¬ can_step cfg i ∧
   ∃ p j u, receiver t = Some p ∧ j ≠ i ∧ goroutines cfg !! j = Some u ∧ holds u p).
Proof.
  intros Hinv Hi Ht.
  destruct (inv_receiver cfg i t Hinv Hi) as (p & c & Hp & Hc); [by rewrite Ht..|].
  pose proof (accessor_step_Locking t p c (shared cfg) Ht Hp Hc) as Hstep.
  pose proof Hinv as (_ & _ & _ & Hlocks). destruct (Hlocks p c Hc) as (a & Ha & Hl).
  destruct (mutex c) eqn:Hm.
  - right. split_and!.
    + by exists t.
    + intros (u & u' & w' & Hu & _ & Hrun). congruence.
    + unfold lock_inv in Hl. rewrite Hm in Hl. destruct Hl as (j & u & Hj & Hu & _).
      exists p, j, u. split_and!; try done. intros ->. rewrite Hi in Hj.
      injection Hj as <-. destruct Hu as [_ Hin]. unfold inside in Hin. by rewrite Ht in Hin.
  - left. destruct Hstep as (t' & Hstep & _). split_and!.
    + exists t, t'. eexists. split_and!; try done. unfold has_returned. by rewrite Ht.
    + intros (u & Hu & Hrun). congruence.
    + intros q Hq. assert (q = p) as -> by congruence.
      by destruct (lock_inv_outside _ i _ _ _ _ Hl Hm).
Qed.

(** Until every goroutine has returned, one of them has a statement to
    run and does not wait. *)
Lemma pool_progress cfg :
  pool_inv w0 cfg → ¬ all_returned cfg → ∃ i, can_step cfg i.
Proof.
  intros Hinv (t & [i Hi]%list_elem_of_lookup & Ht)%not_Forall_Exists%Exists_exists;
    [|apply _].
  destruct (place_of t) eqn:Hplace; [| | | |done].
  3,4: exists i; eapply inside_can_step; [done..|]; unfold inside; by rewrite Hplace.
  - destruct (accessor_step_Entry t (shared cfg) Hplace) as (t' & ? & _).
    exists i, t, t'. eexists. by split_and!.
  - destruct (Locking_waits cfg i t Hinv Hi Hplace)
      as [[? _]|(_ & _ & p & j & u & _ & _ & Hj & [_ Hu])]; [by exists i|].
    exists j. by eapply inside_can_step.
Qed.

(** A statement of a goroutine that does not wait leaves the pool fewer
    statements to run. *)
Lemma pool_step_weight cfg i :
  can_step cfg i →
  ∃ cfg', pool_step i cfg = Done (tt, cfg') ∧ (pool_weight cfg' < pool_weight cfg)%nat.
Proof.
  intros (t & t' & w' & Hi & Ht & Hstep). unfold pool_step. rewrite Hi, Hstep.
  eexists. split; [done|]. unfold pool_weight. simpl.
  pose proof (sum_list_insert statements_left _ i t t' Hi).
  pose proof (accessor_step_weight _ _ _ _ Hstep Ht). lia.
Qed.

(** From wherever the pool is, a schedule no longer than the statements
    left runs every goroutine to its return. *)
Lemma pool_returns_within n cfg :
  pool_inv w0 cfg → (pool_weight cfg ≤ n)%nat →
  ∃ sched cfg', (length sched ≤ n)%nat ∧ run_pool sched cfg = Done (tt, cfg') ∧
    all_returned cfg' ∧ pool_inv w0 cfg'.
Proof.
  revert cfg. induction n as [|n IH]; intros cfg Hinv Hn;
    (destruct (decide (all_returned cfg)) as [Hall|Hnot];
      [exists [], cfg; split_and!; [simpl; lia|done..]|]);
    destruct (pool_progress cfg Hinv Hnot) as [i Hi];
    destruct (pool_step_weight cfg i Hi) as (cfg1 & Hstep & Hlt); [lia|].
  destruct (pool_step_inv cfg i Hinv) as (? & Hstep' & Hinv1).
  rewrite Hstep in Hstep'. injection Hstep' as <-.
  destruct (IH cfg1 Hinv1) as (sched & cfg' & Hlen & Hrun & Hall & Hinv'); [lia|].
  exists (i :: sched), cfg'. split_and!; try done; [simpl; lia|].
  unfold run_pool. cbn [for_each]. by rewrite (exec_bind_done _ _ _ _ _ Hstep).
Qed.

(** The goroutines keep their calls. *)
Lemma pool_step_calls i cfg cfg' :
  pool_step i cfg = Done (tt, cfg') →
  call_of <$> goroutines cfg' = call_of <$> goroutines cfg.
Proof.
  unfold pool_step. destruct (goroutines cfg !! i) as [t|] eqn:Hi; [|by intros [= <-]].
  destruct (accessor_step t (shared cfg)) as [[t' w']|e] eqn:Hstep;
    [|by destruct e; intros [= <-]].
  intros [= <-]. simpl. rewrite list_fmap_insert, (accessor_step_call _ _ _ _ Hstep).
  apply list_insert_id. by rewrite list_lookup_fmap, Hi.
Qed.

Lemma run_pool_calls sched cfg cfg' :
  run_pool sched cfg = Done (tt, cfg') →
  call_of <$> goroutines cfg' = call_of <$> goroutines cfg.
Proof.
  apply (for_each_invariant
           (λ cfg1 : pool P, call_of <$> goroutines cfg1 = call_of <$> goroutines cfg));
    [|done].
  intros i cfg1 cfg2 _ <-. apply pool_step_calls.
Qed.

End preservation.

(** ** What the mutex gives *)

Section mutex_theorems.
Context {P : Type} `{!Provider P}.
Implicit Types (w : world P) (p : ptr) (t u : accessor) (ts : list accessor)
  (cfg : pool P) (sched : list nat).

Lemma started_inv w0 ts : started w0 ts → pool_inv w0 (pool_init ts w0).
Proof. intros [Hown Hts]. by apply pool_inv_init. Qed.

Lemma started_run w0 ts sched :
  started w0 ts →
  ∃ cfg, run_pool sched (pool_init ts w0) = Done (tt, cfg) ∧ pool_inv w0 cfg.
Proof. intros Hs. apply run_pool_inv; [apply Hs | by apply started_inv]. Qed.

(** The invariant at the end of a run. *)
Lemma run_inv w0 ts sched cfg :
  started w0 ts → run_pool sched (pool_init ts w0) = Done (tt, cfg) → pool_inv w0 cfg.
Proof.
  intros Hs Hrun. destruct (started_run w0 ts sched Hs) as (cfg' & Hrun' & Hinv).
  rewrite Hrun in Hrun'. by injection Hrun' as <-.
Qed.

Lemma goroutine_ok_call_ok d t : goroutine_ok d t → call_ok d (call_of t).
Proof.
  unfold goroutine_ok, call_ok, receiver. destruct (target (call_of t)); [done|].
  by destruct t.
Qed.

Lemma returned_not_inside t : has_returned t → inside t = false.
Proof. unfold has_returned, inside. by intros ->. Qed.

(** [C25] No statement of a guarded accessor panics, whatever the schedule: no
    [Unlock] finds its mutex free, and a goroutine that finds a mutex held
    waits. *)
Theorem accessors_never_panic w0 ts sched :
  started w0 ts → ∃ cfg, run_pool sched (pool_init ts w0) = Done (tt, cfg).
Proof.
  intros Hs. destruct (started_run w0 ts sched Hs) as (cfg & Hrun & _). by exists cfg.
Qed.

(** [C12] Mutual exclusion: two goroutines that are between [Lock] and [Unlock]
    on one consumer are one goroutine, and the mutex of the consumer is
    held. *)
Theorem mutex_excludes w0 ts sched cfg i j t u p :
  started w0 ts → run_pool sched (pool_init ts w0) = Done (tt, cfg) →
  goroutines cfg !! i = Some t → goroutines cfg !! j = Some u →
  holds t p → holds u p →
  i = j ∧ mutex (consumer_at (shared cfg) p) = true.
Proof.
  intros Hs Hrun Hi Hj [Hp Hin] Hu. pose proof (run_inv _ _ _ _ Hs Hrun) as Hinv.
  destruct (inside_facts w0 (proj1 Hs) cfg i t Hinv Hi Hin)
    as (p' & c & a & Hp' & Hc & _ & _ & Hm & _ & _ & Hout).
  assert (p' = p) as -> by congruence. split; [symmetry; by eapply Hout|].
  unfold consumer_at. by rewrite (lookup_total_correct _ _ _ Hc).
Qed.

(** [C6] The accessors are atomic: when every goroutine has returned, the
    calls that returned are the calls that were made, and the ledgers are
    those the same calls leave when they are made one after the other, in
    the order of their return, by the accessors of Consumer.v. *)
Theorem accessors_serialised w0 ts sched cfg :
  started w0 ts → run_pool sched (pool_init ts w0) = Done (tt, cfg) →
  all_returned cfg →
  returns cfg ≡ₚ call_of <$> ts ∧
  ∃ w', for_each run_call (returns cfg) w0 = Done (tt, w') ∧
        owned (shared cfg) ∧ abs (shared cfg) = abs w'.
Proof.
  intros Hs Hrun Hall. pose proof (run_inv _ _ _ _ Hs Hrun) as Hinv.
  pose proof Hinv as (_ & Hok & Hperm & _).
  rewrite filter_all, (run_pool_calls _ _ _ Hrun) in Hperm by done. split; [done|].
  destruct (pool_inv_quiet w0 (proj1 Hs) cfg Hinv) as [Hown Habs].
  { eapply Forall_impl; [exact Hall|]. apply returned_not_inside. }
  destruct (calls_step (returns cfg) w0 (proj1 Hs)) as (w' & Hcalls & _ & Habs').
  { rewrite Hperm, <-(run_pool_calls _ _ _ Hrun). apply Forall_fmap.
    eapply Forall_impl; [exact Hok|]. apply goroutine_ok_call_ok. }
  exists w'. by rewrite Habs, Habs'.
Qed.

(** [C22] [State] sees whole calls only: a [State] that has returned holds the
    offset, the metadata and the dirty flag of the snapshot of the ledger
    that the calls that returned before it leave, whatever statements of
    other goroutines ran beside it. *)
Theorem State_sees_whole_calls w0 ts sched cfg i ks p st :
  started w0 ts → run_pool sched (pool_init ts w0) = Done (tt, cfg) →
  goroutines cfg !! i = Some (GoState ks (Some p) (StateReturned st)) →
  ∃ pre post a c, returns cfg = pre ++ CallState ks (Some p) :: post ∧
    ledgers_after w0 pre !! p = Some a ∧ consumers w0 !! p = Some c ∧
    snapshot_of ks a (map_of c) st.
Proof.
  intros Hs Hrun Hi.
  assert (results_inv w0 (pool_init ts w0)) as Hres0.
  { apply Forall_forall. intros t Ht.
    destruct Hs as [_ Hts]. apply (proj1 (Forall_forall _ _) Hts) in Ht as [Ht _].
    by destruct t as [? [?|] []| |]. }
  pose proof (run_pool_results w0 (proj1 Hs) sched _ cfg (started_inv _ _ Hs) Hres0 Hrun)
    as Hres.
  exact (Forall_lookup_1 _ _ _ _ Hres Hi).
Qed.

(** [C32] A goroutine waits only at [Lock], and only for another goroutine
    that is inside on the same consumer: calls on different consumers
    never wait for each other. *)
Theorem waits_for_holder w0 ts sched cfg i :
  started w0 ts → run_pool sched (pool_init ts w0) = Done (tt, cfg) →
  waits cfg i →
  ∃ t p j u, goroutines cfg !! i = Some t ∧ place_of t = Locking ∧
    receiver t = Some p ∧ j ≠ i ∧ goroutines cfg !! j = Some u ∧ holds u p.
Proof.
  intros Hs Hrun (t & Hi & Hwait). pose proof (run_inv _ _ _ _ Hs Hrun) as Hinv.
  destruct (place_of t) eqn:Ht.
  - destruct (accessor_step_Entry t (shared cfg) Ht) as (? & ? & _). congruence.
  - destruct (Locking_waits w0 cfg i t Hinv Hi Ht)
      as [(_ & Hnot & _)|(_ & _ & p & j & u & ?)]; [by destruct Hnot; exists t|].
    by exists t, p, j, u.
  - destruct (inside_can_step w0 (proj1 Hs) cfg i t Hinv Hi) as (? & ? & ? & ? & _ & ?);
      [unfold inside; by rewrite Ht|congruence].
  - destruct (inside_can_step w0 (proj1 Hs) cfg i t Hinv Hi) as (? & ? & ? & ? & _ & ?);
      [unfold inside; by rewrite Ht|congruence].
  - rewrite (accessor_step_Returned t _ Ht) in Hwait. done.
Qed.

(** [C21] The accessors return: wherever a run has come to, some goroutine can
    run as long as one has not returned, and a schedule no longer than
    the statements left brings every goroutine to its return. *)
Theorem accessors_return w0 ts sched cfg :
  started w0 ts → run_pool sched (pool_init ts w0) = Done (tt, cfg) →
  (¬ all_returned cfg → ∃ i, can_step cfg i) ∧
  ∃ sched' cfg', (length sched' ≤ pool_weight cfg)%nat ∧
    run_pool sched' cfg = Done (tt, cfg') ∧ all_returned cfg'.
Proof.
  intros Hs Hrun. pose proof (run_inv _ _ _ _ Hs Hrun) as Hinv.
  split; [by apply (pool_progress w0 (proj1 Hs))|].
  destruct (pool_returns_within w0 (proj1 Hs) (pool_weight cfg) cfg Hinv)
    as (sched' & cfg' & ? & ? & ? & _); [done|]. by exists sched', cfg'.
Qed.

(** [C15] The confirmed offset of a consumer never decreases, at any statement
    of any schedule: between two points of a run, as between two calls. *)
Theorem Offset_never_decreases_in_pool w0 ts sched sched' cfg cfg' p :
  started w0 ts → run_pool sched (pool_init ts w0) = Done (tt, cfg) →
  run_pool sched' cfg = Done (tt, cfg') →
  Offset (Info (state_at w0 p)) ≤ Offset (Info (state_at (shared cfg) p)) ∧
  Offset (Info (state_at (shared cfg) p)) ≤ Offset (Info (state_at (shared cfg') p)).
Proof.
  intros Hs Hrun Hrun'. split.
  - by apply (run_pool_offsets w0 (proj1 Hs) sched (pool_init ts w0) cfg (started_inv _ _ Hs)).
  - apply (run_pool_offsets w0 (proj1 Hs) sched' cfg cfg'); [|done]. by eapply run_inv.
Qed.

(** An access of a goroutine is to a cell of the consumer it is inside
    on, or to the map object of that consumer. *)
Lemma accesses_inside w0 ts sched cfg i t a :
  started w0 ts → run_pool sched (pool_init ts w0) = Done (tt, cfg) →
  goroutines cfg !! i = Some t → a ∈ accesses t →
  ∃ p c x, holds t p ∧ consumers (shared cfg) !! p = Some c ∧
    others_out (goroutines cfg) i p ∧ (a = Read x ∨ a = Write x) ∧
    x ∈ [OffsetOf p; MetadataOf p; DirtyOf p; PendingOf p; MapAt (map_of c)].
Proof.
  intros Hs Hrun Hi Ha. pose proof (run_inv _ _ _ _ Hs Hrun) as Hinv.
  assert (inside t = true) as Hin.
  { by destruct t as [? [?|] []|[?|] ? []|[?|] ? ? []]; try apply elem_of_nil in Ha. }
  destruct (inside_facts w0 (proj1 Hs) cfg i t Hinv Hi Hin)
    as (p & c & a0 & Hp & Hc & _ & _ & _ & _ & Hfound & Hout).
  exists p, c. unfold holds.
  destruct t as [ks [q|] []|[q|] o []|[q|] o m []]; try done;
    unfold receiver in Hp; simpl in Hp; injection Hp as ->; simpl in Ha, Hfound;
    try subst; repeat case_decide; set_unfold; naive_solver.
Qed.

(** [C13] The guarded accessors are free of data races: two statements of two
    goroutines that may both run next never read and write, or write
    and write, the same field or the same map object.  The
    interleavings of whole statements of this file are all the
    behaviours Go gives such a program. *)
Theorem guarded_accessors_race_free w0 ts sched cfg i j t u :
  started w0 ts → run_pool sched (pool_init ts w0) = Done (tt, cfg) →
  goroutines cfg !! i = Some t → goroutines cfg !! j = Some u → i ≠ j →
  ¬ race (accesses t) (accesses u).
Proof.
  intros Hs Hrun Hi Hj Hne (a & b & Ha & Hb & Hab).
  destruct (accesses_inside _ _ _ _ _ _ _ Hs Hrun Hi Ha)
    as (p & c & x & Ht & Hc & Hout & Hx & Hcell).
  destruct (accesses_inside _ _ _ _ _ _ _ Hs Hrun Hj Hb)
    as (q & cq & y & Hu & Hcq & _ & Hy & Hcell').
  assert (x = y) as <- by (by destruct Hx as [-> | ->], Hy as [-> | ->]).
  assert (p = q) as <-; [|by destruct Hne; symmetry; eapply Hout].
  destruct (decide (p = q)) as [|Hpq]; [done|].
  pose proof (run_inv _ _ _ _ Hs Hrun) as (Hmaps & _).
  pose proof (same_maps_separate w0 (proj1 Hs) _ _ _ _ _ Hmaps Hcq Hc Hpq).
  set_unfold. naive_solver.
Qed.

(** [C23] [AddPendingOffset] and [RemovePendingOffset] take no lock: at any
    point of any schedule, while a goroutine is between [Lock] and
    [Unlock] on the consumer at [p], so that the mutex of [p] is held, a
    call of either on [p] does not wait.  It returns with the mutex still
    held and every consumer object as it was, and has written the
    pending offsets of the ledger the mutex guards. *)
Theorem unguarded_accessors_ignore_mutex w0 ts sched cfg i t p offset :
  started w0 ts → run_pool sched (pool_init ts w0) = Done (tt, cfg) →
  goroutines cfg !! i = Some t → holds t p →
  mutex (consumer_at (shared cfg) p) = true ∧
  (∃ w', AddPendingOffset (Some p) offset (shared cfg) = Done (tt, w') ∧
         consumers w' = consumers (shared cfg) ∧
         pending_at w' p = {[offset]} ∪ pending_at (shared cfg) p) ∧
  (∃ w', RemovePendingOffset (Some p) offset (shared cfg) = Done (tt, w') ∧
         consumers w' = consumers (shared cfg) ∧
         pending_at w' p = pending_at (shared cfg) p ∖ {[offset]}).
Proof.
  intros Hs Hrun Hi [Hp Hin]. pose proof (run_inv _ _ _ _ Hs Hrun) as Hinv.
  destruct (inside_facts w0 (proj1 Hs) cfg i t Hinv Hi Hin)
    as (p' & c & a0 & Hp' & Hc & [r Hr] & _ & Hm & _).
  assert (p' = p) as -> by congruence.
  assert (consumer_at (shared cfg) p = c) as Hat
    by (unfold consumer_at; by rewrite (lookup_total_correct _ _ _ Hc)).
  unfold map_of in Hr. split; [by rewrite Hat|].
  rewrite AddPendingOffset_exec, RemovePendingOffset_exec.
  unfold pending_at, pending, state_at. rewrite !Hat, !Hr.
  rewrite map_assign_Some, map_delete_Some.
  split; (eexists; split_and!; [done..|]);
    rewrite consumer_at_set_maps, maps_set_maps, !Hat, !Hr; simpl;
    by rewrite lookup_total_insert_eq.
Qed.

End mutex_theorems.

(** ** The theorems on the pool of five goroutines *)

Lemma ex_started : started ex_owned ex_goroutines.
Proof. by_decide. Qed.

Lemma ex_working_run : run_pool (round_robin 3) ex_pool = Done (tt, ex_working).
Proof. by_compute. Qed.

Lemma ex_done_run : run_pool (round_robin 13) ex_pool = Done (tt, ex_done).
Proof. by_compute. Qed.

(** The calls return in the order 4, 3, 0, 1, 2: the call on nil, the
    [State] on the consumer 2, and the three calls on the consumer 1 in the
    order in which they took its mutex. *)
Example ex_done_returns :
  all_returned ex_done ∧
  returns ex_done = [ CallMarkOffset None 9 ""; CallState [] (Some 2%positive);
                      CallMarkOffset (Some 1%positive) 6 "m";
                      CallState [5; 7] (Some 1%positive);
                      CallMarkCommitted (Some 1%positive) 6 ] ∧
  goroutines ex_done !! 1%nat
  = Some (GoState [5; 7] (Some 1%positive) (StateReturned ex_snapshot)).
Proof. split; [by_decide|by_compute]. Qed.

(** Between two statements of [MarkOffset] the ledger of the store is one
    that no call leaves: the offset is 6 and the ledger is not dirty. *)
Example MarkOffset_half_done :
  abs (shared ex_half) !! 1%positive
  = Some {| l_Offset := 6; l_Pending := {[5; 7]}; l_Metadata := ""; l_Dirty := false |} ∧
  abs ex_owned !! 1%positive
  = Some {| l_Offset := 4; l_Pending := {[5; 7]}; l_Metadata := ""; l_Dirty := false |} ∧
  spec_MarkOffset 6 "m"
    {| l_Offset := 4; l_Pending := {[5; 7]}; l_Metadata := ""; l_Dirty := false |}
  = {| l_Offset := 6; l_Pending := {[5; 7]}; l_Metadata := "m"; l_Dirty := true |}.
Proof. split_and!; by_compute. Qed.

Lemma accessors_never_panic_witness :
  ∃ cfg, run_pool (round_robin 13) ex_pool = Done (tt, cfg).
Proof. apply (accessors_never_panic ex_owned ex_goroutines), ex_started. Defined.

Lemma mutex_excludes_witness :
  (0 = 0)%nat ∧ mutex (consumer_at (shared ex_working) 1%positive) = true.
Proof.
  apply (mutex_excludes ex_owned ex_goroutines (round_robin 3) ex_working 0 0
           (GoMarkOffset (Some 1%positive) 6 "m" MarkOffsetOffset)
           (GoMarkOffset (Some 1%positive) 6 "m" MarkOffsetOffset));
    [apply ex_started | apply ex_working_run | by_compute..].
Defined.

Lemma accessors_serialised_witness :
  returns ex_done ≡ₚ call_of <$> ex_goroutines ∧
  ∃ w', for_each run_call (returns ex_done) ex_owned = Done (tt, w') ∧
        owned (shared ex_done) ∧ abs (shared ex_done) = abs w'.
Proof.
  apply (accessors_serialised ex_owned ex_goroutines (round_robin 13) ex_done);
    [apply ex_started | apply ex_done_run | by_decide].
Defined.

Lemma State_sees_whole_calls_witness :
  ∃ pre post a c, returns ex_done = pre ++ CallState [5; 7] (Some 1%positive) :: post ∧
    ledgers_after ex_owned pre !! 1%positive = Some a ∧
    consumers ex_owned !! 1%positive = Some c ∧
    snapshot_of [5; 7] a (map_of c) ex_snapshot.
Proof.
  apply (State_sees_whole_calls ex_owned ex_goroutines (round_robin 13) ex_done 1);
    [apply ex_started | apply ex_done_run | by_compute].
Defined.

Lemma waits_for_holder_witness :
  ∃ t p j u, goroutines ex_working !! 1%nat = Some t ∧ place_of t = Locking ∧
    receiver t = Some p ∧ j ≠ 1%nat ∧ goroutines ex_working !! j = Some u ∧ holds u p.
Proof.
  apply (waits_for_holder ex_owned ex_goroutines (round_robin 3) ex_working 1);
    [apply ex_started | apply ex_working_run |].
  exists (GoState [5; 7] (Some 1%positive) StateLock). split; by_compute.
Defined.

Lemma accessors_return_witness :
  (¬ all_returned ex_working → ∃ i, can_step ex_working i) ∧
  ∃ sched' cfg', (length sched' ≤ pool_weight ex_working)%nat ∧
    run_pool sched' ex_working = Done (tt, cfg') ∧ all_returned cfg'.
Proof.
  apply (accessors_return ex_owned ex_goroutines (round_robin 3) ex_working);
    [apply ex_started | apply ex_working_run].
Defined.

Lemma guarded_accessors_race_free_witness :
  ¬ race (accesses (GoMarkOffset (Some 1%positive) 6 "m" MarkOffsetOffset))
      (accesses (GoState [] (Some 2%positive)
                   (StateInfo {| Info := ex_received; Dirty := false |}))).
Proof.
  apply (guarded_accessors_race_free ex_owned ex_goroutines (round_robin 3) ex_working 0 3);
    [apply ex_started | apply ex_working_run | by_compute | by_compute | lia].
Defined.

Lemma unguarded_accessors_ignore_mutex_witness :
  mutex (consumer_at (shared ex_working) 1%positive) = true ∧
  (∃ w', AddPendingOffset (Some 1%positive) 9 (shared ex_working) = Done (tt, w') ∧
         consumers w' = consumers (shared ex_working) ∧
         pending_at w' 1%positive = {[9]} ∪ pending_at (shared ex_working) 1%positive) ∧
  (∃ w', RemovePendingOffset (Some 1%positive) 9 (shared ex_working) = Done (tt, w') ∧
         consumers w' = consumers (shared ex_working) ∧
         pending_at w' 1%positive = pending_at (shared ex_working) 1%positive ∖ {[9]}).
Proof.
  apply (unguarded_accessors_ignore_mutex ex_owned ex_goroutines (round_robin 3) ex_working 0
           (GoMarkOffset (Some 1%positive) 6 "m" MarkOffsetOffset) 1%positive 9);
    [apply ex_started | apply ex_working_run | by_compute | by_compute].
Defined.

Lemma Offset_never_decreases_in_pool_witness :
  Offset (Info (state_at ex_owned 1%positive))
    ≤ Offset (Info (state_at (shared ex_working) 1%positive)) ∧
  Offset (Info (state_at (shared ex_working) 1%positive))
    ≤ Offset (Info (state_at (shared ex_done) 1%positive)).
Proof.
  apply (Offset_never_decreases_in_pool ex_owned ex_goroutines (round_robin 3)
           (round_robin 10) ex_working ex_done);
    [apply ex_started | apply ex_working_run | by_compute].
Defined.
