(* ===== verification/Registry.v ===== *)
(** * Registry: the partitionMap

    A [partitionMap] (src/unnamed/part_000) maps a [topicPartition]
    (src/cluster.go) to the consumer of that partition, behind a
    reader/writer lock.  The rebalance procedure stores the consumers it
    creates, the committer asks [HasDirty] and takes a [Snapshot], and
    [Info] lists the partitions held, per topic and sorted, for the
    difference [int32Slice.Diff] computes.

    The state of these methods is a [system]: the registry and the [world]
    of consumer objects, map objects and client state of Consumer.v.  The
    map [data] holds pointers, nil included, as the Go map does.

    Each [range] over a Go map visits the keys in an order the language
    does not fix.  The order is an argument of the methods that range
    ([tps], [topics], and [ord] for the ranges of the [State] calls inside),
    and the theorems hold for every order that visits each key once
    ([range_keys]).

    The lock is a field: a writer flag and a count of readers.  In a
    sequential run a lock that cannot be taken is taken by nobody who
    could release it, so [RWMutex_RLock] and [RWMutex_Lock] fail with
    [Deadlock] then.

    [Stop] starts goroutines and waits for them: it is modelled with the
    shutdown protocol in Lifecycle.v ([Stop_step]) and proved in
    Shutdown.v. *)

From S2P Require Import Prelude Strconv Heap Offsets Assign Sort Consumer.

#[local] Open Scope Z_scope.

(** ** topicPartition *)

Record topicPartition : Set := mkTopicPartition {
  Topic : string;
  Partition : Z;
}.

#[export] Instance topicPartition_eq_dec : EqDecision topicPartition.
Proof. solve_decision. Defined.

#[export] Instance topicPartition_countable : Countable topicPartition :=
  inj_countable' (λ tp, (Topic tp, Partition tp)) (λ '(t, p), mkTopicPartition t p)
    (λ tp, match tp with mkTopicPartition _ _ => eq_refl end).

(** ** sync.RWMutex *)

Record RWMutex : Set := mkRWMutex {
  writer : bool;
  readers : nat;
}.

#[export] Instance RWMutex_eq_dec : EqDecision RWMutex.
Proof. solve_decision. Defined.

Definition RWMutex_free : RWMutex := {| writer := false; readers := 0 |}.

Definition RWMutex_RLock : exec RWMutex unit :=
  rw ← get;
  if writer rw then raise Deadlock
  else put {| writer := false; readers := S (readers rw) |}.

Definition RWMutex_RUnlock : exec RWMutex unit :=
  rw ← get;
  match readers rw with
  | O => raise UnlockOfUnlocked
  | S n => put {| writer := writer rw; readers := n |}
  end.

Definition RWMutex_Lock : exec RWMutex unit :=
  rw ← get;
  if writer rw || bool_decide (readers rw ≠ O) then raise Deadlock
  else put {| writer := true; readers := 0 |}.

Definition RWMutex_Unlock : exec RWMutex unit :=
  rw ← get;
  if writer rw then put {| writer := false; readers := readers rw |}
  else raise UnlockOfUnlocked.

(** ** partitionMap *)

Module PartitionMap.

Record partitionMap : Type := mkPartitionMap {
  data : gmap topicPartition cref;
  mutex : RWMutex;
}.

(** The registry together with the objects its pointers refer to. *)
Record system (P : Type) : Type := mkSystem {
  registry : partitionMap;
  objects : world P;
}.
Arguments mkSystem {P} _ _.
Arguments registry {P} _.
Arguments objects {P} _.

Definition newPartitionMap : partitionMap :=
  {| data := ∅; mutex := RWMutex_free |}.

Definition set_data (d : gmap topicPartition cref) (m : partitionMap) : partitionMap :=
  {| data := d; mutex := mutex m |}.
Definition set_mutex (rw : RWMutex) (m : partitionMap) : partitionMap :=
  {| data := data m; mutex := rw |}.

Section methods.
Context {P : Type} `{!Provider P}.

Definition set_registry (m : partitionMap) (s : system P) : system P :=
  {| registry := m; objects := objects s |}.
Definition set_objects (w : world P) (s : system P) : system P :=
  {| registry := registry s; objects := w |}.

(** Running a computation on the lock, and on the objects. *)
Definition on_mutex {A} (m : exec RWMutex A) : exec (system P) A :=
  zoom (λ s, mutex (registry s)) (λ rw s, set_registry (set_mutex rw (registry s)) s) m.
Definition on_objects {A} (m : exec (world P) A) : exec (system P) A :=
  zoom objects set_objects m.

(** [m.data[tp]]: nil when the key is absent. *)
Definition data_at (s : system P) (tp : topicPartition) : cref :=
  default None (data (registry s) !! tp).

(** *** Fetch *)

Definition Fetch (topic : string) (partition : Z) : exec (system P) cref :=
  on_mutex RWMutex_RLock ;;
  s ← get;
  let pc := data_at s {| Topic := topic; Partition := partition |} in
  on_mutex RWMutex_RUnlock ;;
  mret pc.

(** *** Store *)

Definition Store (topic : string) (partition : Z) (pc : cref) : exec (system P) unit :=
  on_mutex RWMutex_Lock ;;
  modify (λ s, set_registry
    (set_data (<[{| Topic := topic; Partition := partition |} := pc]> (data (registry s)))
       (registry s)) s) ;;
  on_mutex RWMutex_Unlock.

(** *** HasDirty *)

(** The loop of [HasDirty] when the range visits [tps]; [ord tp] is the
    order of the range inside the [State] call on the consumer of [tp]. *)
Fixpoint HasDirty_loop (ord : topicPartition → list Z) (tps : list topicPartition)
    : exec (system P) bool :=
  match tps with
  | [] => mret false
  | tp :: tps' =>
      s ← get;
      state ← on_objects (State (ord tp) (data_at s tp));
      if Dirty state then mret true else HasDirty_loop ord tps'
  end.

(** The deferred [RUnlock] runs when the loop has returned. *)
Definition HasDirty (ord : topicPartition → list Z) (tps : list topicPartition)
    : exec (system P) bool :=
  on_mutex RWMutex_RLock ;;
  r ← HasDirty_loop ord tps;
  on_mutex RWMutex_RUnlock ;;
  mret r.

(** *** Snapshot *)

Definition Snapshot_body (ord : topicPartition → list Z) (tp : topicPartition)
    (snap : gmap topicPartition partitionState)
    : exec (system P) (gmap topicPartition partitionState) :=
  s ← get;
  state ← on_objects (State (ord tp) (data_at s tp));
  mret (<[tp := state]> snap).

Fixpoint Snapshot_loop (ord : topicPartition → list Z) (tps : list topicPartition)
    (snap : gmap topicPartition partitionState)
    : exec (system P) (gmap topicPartition partitionState) :=
  match tps with
  | [] => mret snap
  | tp :: tps' => snap' ← Snapshot_body ord tp snap; Snapshot_loop ord tps' snap'
  end.

Definition Snapshot (ord : topicPartition → list Z) (tps : list topicPartition)
    : exec (system P) (gmap topicPartition partitionState) :=
  on_mutex RWMutex_RLock ;;
  snap ← Snapshot_loop ord tps ∅;
  on_mutex RWMutex_RUnlock ;;
  mret snap.

(** *** Clear *)

Definition Clear (tps : list topicPartition) : exec (system P) unit :=
  on_mutex RWMutex_Lock ;;
  for_each (λ tp, modify (λ s,
    set_registry (set_data (delete tp (data (registry s))) (registry s)) s)) tps ;;
  on_mutex RWMutex_Unlock.

(** *** Info *)

(** [info[tp.Topic] = append(info[tp.Topic], tp.Partition)] *)
Definition Info_collect (info : gmap string int32Slice) (tp : topicPartition)
    : gmap string int32Slice :=
  <[Topic tp := default [] (info !! Topic tp) ++ [Partition tp]]> info.

(** [sort.Sort(int32Slice(info[topic]))]: the slice is sorted in place. *)
Definition Info_sort (topic : string) : exec (gmap string int32Slice) unit :=
  zoom (λ info, default [] (info !! topic)) (λ p info, <[topic := p]> info) Sort.

(** [Info], when the range over [m.data] visits [tps] and the range over
    [info] visits [topics]. *)
Definition Info (tps : list topicPartition) (topics : list string)
    : exec (system P) (gmap string int32Slice) :=
  let info := ∅ in
  on_mutex RWMutex_RLock ;;
  let info := foldl Info_collect info tps in
  on_mutex RWMutex_RUnlock ;;
  match for_each Info_sort topics info with
  | Done (_, info) => mret info
  | Panic e => raise e
  end.

End methods.

(** ** Ranges *)

(** [tps] is an order in which a range over [m.data] can visit the keys. *)
Definition range_keys (m : partitionMap) (tps : list topicPartition) : Prop :=
  tps ≡ₚ elements (dom (data m)).

#[export] Instance range_keys_dec m tps : Decision (range_keys m tps).
Proof. unfold range_keys. apply _. Defined.

(** ** Reference definitions *)

(** The partitions of [topic] the registry holds, ascending. *)
Definition partitions_of (m : partitionMap) (topic : string) : int32Slice :=
  sorted_of (Partition <$> filter (λ tp, Topic tp = topic) (elements (dom (data m)))).

(** The topics the registry holds a partition of. *)
Definition topics_of (m : partitionMap) : gset string :=
  set_map Topic (dom (data m)).

(** The lock is free. *)
Definition free {P} (s : system P) : Prop := mutex (registry s) = RWMutex_free.

#[export] Instance free_dec {P} (s : system P) : Decision (free s).
Proof. unfold free. apply _. Defined.

(** Whether the consumer held for [tp] is dirty. *)
Definition dirty_at {P} (s : system P) (tp : topicPartition) : bool :=
  Dirty (state_of (objects s) (default None (data (registry s) !! tp))).

(** Every consumer the registry holds can be asked for its state. *)
Definition all_safe {P} `{!Provider P} (s : system P) : Prop :=
  map_Forall (λ _ c, State_safe (objects s) c) (data (registry s)).

#[export] Instance all_safe_dec {P} `{!Provider P} (s : system P) : Decision (all_safe s).
Proof. unfold all_safe. apply _. Defined.

(** The system with a reader, and with the writer, inside the lock. *)
Definition rlocked {P} (s : system P) : system P :=
  {| registry := set_mutex {| writer := false; readers := 1 |} (registry s);
     objects := objects s |}.
Definition wlocked {P} (s : system P) : system P :=
  {| registry := set_mutex {| writer := true; readers := 0 |} (registry s);
     objects := objects s |}.

(** [s'] differs from [s] at most in the map objects. *)
Definition only_maps_of {P} `{!Provider P} (s s' : system P) : Prop :=
  registry s' = registry s ∧ only_maps (objects s) (objects s').

(** A registry and two consumers to run the definitions on: the consumers
    1 and 2 of [ex_world] for the partitions 4 and 1 of topic "t". *)
Definition ex_registry : partitionMap :=
  {| data := {[ mkTopicPartition "t" 4 := Some 1%positive;
                mkTopicPartition "t" 1 := Some 2%positive;
                mkTopicPartition "u" 0 := None ]};
     mutex := RWMutex_free |}.
Definition ex_system : system fake_client :=
  {| registry := ex_registry; objects := ex_world |}.
Definition ex_tps : list topicPartition :=
  [mkTopicPartition "t" 4; mkTopicPartition "u" 0; mkTopicPartition "t" 1].

(** ** The lock *)

Section lock.
Context {P : Type} `{!Provider P}.
Implicit Types (s : system P) (m : partitionMap).

Lemma system_eq s s' :
  data (registry s) = data (registry s') → mutex (registry s) = mutex (registry s') →
  objects s = objects s' → s = s'.
Proof. destruct s as [[] ?], s' as [[] ?]. simpl. by intros -> -> ->. Qed.

Lemma RLock_free s : free s → on_mutex RWMutex_RLock s = Done (tt, rlocked s).
Proof. unfold free, on_mutex. exec_unfold. by intros ->. Qed.

Lemma RUnlock_reader s :
  mutex (registry s) = {| writer := false; readers := 1 |} →
  on_mutex RWMutex_RUnlock s
  = Done (tt, set_registry (set_mutex RWMutex_free (registry s)) s).
Proof. unfold on_mutex. exec_unfold. by intros ->. Qed.

Lemma RUnlock_rlocked s : free s → on_mutex RWMutex_RUnlock (rlocked s) = Done (tt, s).
Proof. intros Hs. rewrite RUnlock_reader by done. do 2 f_equal. by apply system_eq. Qed.

Lemma Lock_free s : free s → on_mutex RWMutex_Lock s = Done (tt, wlocked s).
Proof. unfold free, on_mutex. exec_unfold. by intros ->. Qed.

Lemma Unlock_writer s :
  mutex (registry s) = {| writer := true; readers := 0 |} →
  on_mutex RWMutex_Unlock s
  = Done (tt, set_registry (set_mutex RWMutex_free (registry s)) s).
Proof. unfold on_mutex. exec_unfold. by intros ->. Qed.

(** With the writer inside, no method can take the lock. *)
Lemma RLock_writer s : writer (mutex (registry s)) = true →
  on_mutex RWMutex_RLock s = Panic Deadlock.
Proof. destruct s as [[d [wr n]] w]. simpl. by intros ->. Qed.

Lemma Lock_held s : mutex (registry s) ≠ RWMutex_free →
  on_mutex RWMutex_Lock s = Panic Deadlock.
Proof. by destruct s as [[d [[] [|n]]] w]. Qed.

End lock.

(** ** Fetch, Store, Clear *)

Section crud.
Context {P : Type} `{!Provider P}.
Implicit Types (s : system P) (m : partitionMap) (pc : cref).

(** The system with the map of its registry replaced. *)
Lemma Fetch_exec topic partition s :
  free s → Fetch topic partition s = Done (data_at s (mkTopicPartition topic partition), s).
Proof.
  intros Hs. unfold Fetch.
  rewrite (exec_bind_done _ _ _ _ _ (RLock_free s Hs)). exec_unfold. cbv beta iota.
  by rewrite (RUnlock_rlocked s Hs).
Qed.

Lemma Store_exec topic partition pc s :
  free s →
  Store topic partition pc s
  = Done (tt, set_registry
      (set_data (<[mkTopicPartition topic partition := pc]> (data (registry s)))
         (registry s)) s).
Proof.
  intros Hs. unfold Store.
  rewrite (exec_bind_done _ _ _ _ _ (Lock_free s Hs)).
  rewrite (exec_bind_done _ _ _ tt _ eq_refl), Unlock_writer by done.
  do 2 f_equal. by apply system_eq.
Qed.

(** Deleting the keys of a range one by one. *)
Lemma Clear_fold tps s :
  foldl (λ s tp, set_registry (set_data (delete tp (data (registry s))) (registry s)) s)
    s tps
  = set_registry (set_data (foldl (λ d tp, delete tp d) (data (registry s)) tps)
      (registry s)) s.
Proof.
  revert s. induction tps as [|tp tps IH]; intros s; [by apply system_eq|].
  simpl. rewrite IH. by apply system_eq.
Qed.

Lemma dom_delete_list tps : ∀ d : gmap topicPartition cref,
  dom (foldl (λ d tp, delete tp d) d tps) = dom d ∖ list_to_set tps.
Proof.
  induction tps as [|tp tps IH]; intros d; simpl; [set_solver|].
  rewrite IH, dom_delete_L. set_solver.
Qed.

Lemma delete_range (d : gmap topicPartition cref) tps :
  tps ≡ₚ elements (dom d) → foldl (λ d tp, delete tp d) d tps = ∅.
Proof.
  intros Hks. apply dom_empty_inv_L.
  rewrite dom_delete_list, Hks, list_to_set_elements_L. set_solver.
Qed.

Lemma Clear_exec tps s :
  free s →
  Clear tps s
  = Done (tt, set_registry
      (set_data (foldl (λ d tp, delete tp d) (data (registry s)) tps) (registry s)) s).
Proof.
  intros Hs. unfold Clear.
  rewrite (exec_bind_done _ _ _ _ _ (Lock_free s Hs)).
  rewrite (exec_bind_done _ _ _ _ _ (for_each_modify _ tps (wlocked s))).
  rewrite Clear_fold, Unlock_writer by done.
  do 2 f_equal. by apply system_eq.
Qed.

(** [Store] then [Fetch].  On a registry whose lock is free, [Store]
    returns with the lock free, and afterwards [Fetch] of the stored key
    returns the stored pointer, [Fetch] of any other key what it returned
    before; neither touches a consumer. *)
Theorem Fetch_Store topic partition pc topic' partition' s :
  free s →
  ∃ s', Store topic partition pc s = Done (tt, s') ∧ free s' ∧
    objects s' = objects s ∧
    Fetch topic' partition' s'
    = Done (if decide (mkTopicPartition topic partition = mkTopicPartition topic' partition')
            then pc else data_at s (mkTopicPartition topic' partition'), s').
Proof.
  intros Hs. eexists. split; [by apply Store_exec|]. split; [done|]. split; [done|].
  rewrite Fetch_exec by done. do 2 f_equal. unfold data_at. simpl. case_decide as Heq.
  - by rewrite Heq, lookup_insert_eq.
  - by rewrite lookup_insert_ne.
Qed.

(** [Clear] empties the registry, in whatever order its range visits
    the keys: afterwards the registry is a new one.  The consumers it held
    are not closed by it; they are the objects they were. *)
Theorem Clear_spec tps s :
  free s → range_keys (registry s) tps →
  Clear tps s = Done (tt, set_registry newPartitionMap s).
Proof.
  intros Hs Hks. rewrite Clear_exec by done. rewrite delete_range by done.
  do 2 f_equal. by apply system_eq.
Qed.

(** A method called while the writer holds the lock never returns:
    [Fetch] and [Store] block. *)
Theorem Fetch_Store_blocked topic partition pc s :
  writer (mutex (registry s)) = true →
  Fetch topic partition s = Panic Deadlock ∧
  Store topic partition pc s = Panic Deadlock.
Proof.
  intros Hw. unfold Fetch, Store. split.
  - by rewrite (exec_bind_panic _ _ _ _ (RLock_writer s Hw)).
  - rewrite (exec_bind_panic _ _ _ Deadlock); [done|].
    apply Lock_held. intros Hfree. by rewrite Hfree in Hw.
Qed.

End crud.

(** ** HasDirty and Snapshot *)

Section state_loops.
Context {P : Type} `{!Provider P}.
Implicit Types (s : system P) (m : partitionMap) (w : world P).

#[export] Instance only_maps_of_preorder : PreOrder only_maps_of.
Proof.
  split; [done|]. intros s1 s2 s3 [Hr1 Ho1] [Hr2 Ho2].
  split; [congruence | by etrans].
Qed.

Lemma only_maps_of_dirty_at s s' tp : only_maps_of s s' → dirty_at s' tp = dirty_at s tp.
Proof. intros [Hr Ho]. unfold dirty_at. by rewrite Hr, (only_maps_state_of _ _ _ Ho). Qed.

Lemma only_maps_of_all_safe s s' : only_maps_of s s' → all_safe s → all_safe s'.
Proof.
  intros [Hr Ho] Hsafe tp c Htp. rewrite Hr in Htp.
  eapply only_maps_State_safe; [done | by eapply Hsafe].
Qed.

Lemma all_safe_data_at s tp : all_safe s → State_safe (objects s) (data_at s tp).
Proof.
  intros Hsafe. unfold data_at.
  destruct (data (registry s) !! tp) as [c|] eqn:Htp; [by eapply Hsafe | done].
Qed.

(** One [State] call of a loop. *)
Lemma State_held ord tp s :
  all_safe s →
  ∃ st s', on_objects (State (ord tp) (data_at s tp)) s = Done (st, s') ∧
    up_to_metadata st (state_of (objects s) (data_at s tp)) ∧ only_maps_of s s'.
Proof.
  intros Hsafe.
  destruct (State_total (ord tp) (data_at s tp) (objects s)) as (st & w' & Hrun & Hst & Hw);
    [by apply all_safe_data_at|].
  exists st, (set_objects w' s). unfold on_objects. exec_unfold. by rewrite Hrun.
Qed.

Lemma HasDirty_loop_spec ord tps : ∀ s,
  all_safe s →
  ∃ s', HasDirty_loop ord tps s = Done (existsb (dirty_at s) tps, s') ∧ only_maps_of s s'.
Proof.
  induction tps as [|tp tps IH]; intros s Hsafe; [by exists s|].
  destruct (State_held ord tp s Hsafe) as (st & s1 & Hrun & (Hdirty & _) & Hs1).
  cbn [HasDirty_loop existsb]. rewrite (exec_bind_done _ _ _ s s eq_refl).
  rewrite (exec_bind_done _ _ _ _ _ Hrun). unfold dirty_at at 1. fold (data_at s tp).
  rewrite <-Hdirty. destruct (Dirty st); [by exists s1|].
  destruct (IH s1) as (s' & -> & Hs'); [by eapply only_maps_of_all_safe|].
  exists s'. split; [|by etrans]. do 2 f_equal. simpl.
  apply existsb_pointwise. intros tp'. by apply only_maps_of_dirty_at.
Qed.

Lemma Snapshot_loop_spec ord tps : ∀ s snap,
  all_safe s →
  ∃ snap' s', Snapshot_loop ord tps snap s = Done (snap', s') ∧ only_maps_of s s' ∧
    ∀ tp, if decide (tp ∈ tps)
          then ∃ st, snap' !! tp = Some st ∧
                 up_to_metadata st (state_of (objects s) (data_at s tp))
          else snap' !! tp = snap !! tp.
Proof.
  induction tps as [|tp tps IH]; intros s snap Hsafe.
  { exists snap, s. split; [done|]. split; [done|]. intros tp.
    by rewrite decide_False by apply not_elem_of_nil. }
  destruct (State_held ord tp s Hsafe) as (st & s1 & Hrun & Hst & Hs1).
  cbn [Snapshot_loop]. unfold Snapshot_body at 1.
  rewrite (exec_bind_done _ _ _ (<[tp := st]> snap) s1).
  2:{ rewrite (exec_bind_done _ _ _ s s eq_refl).
      by rewrite (exec_bind_done _ _ _ _ _ Hrun). }
  destruct (IH s1 (<[tp := st]> snap)) as (snap' & s' & -> & Hs' & Hsnap);
    [by eapply only_maps_of_all_safe|].
  exists snap', s'. split; [done|]. split; [by etrans|]. intros tp'.
  specialize (Hsnap tp'). destruct Hs1 as [Hr Ho].
  unfold data_at in *. rewrite Hr, (only_maps_state_of _ _ _ Ho) in Hsnap.
  destruct (decide (tp' ∈ tps)) as [Hin|Hin].
  - by rewrite decide_True by by right.
  - destruct (decide (tp' = tp)) as [->|Hne].
    + rewrite decide_True by by left. exists st. by rewrite Hsnap, lookup_insert_eq.
    + rewrite decide_False by by intros [?|?]%elem_of_cons.
      by rewrite Hsnap, lookup_insert_ne.
Qed.

(** The methods around their loops. *)
Lemma HasDirty_exec ord tps s :
  free s →
  HasDirty ord tps s
  = match HasDirty_loop ord tps (rlocked s) with
    | Done (r, s') => (on_mutex RWMutex_RUnlock ;; mret r) s'
    | Panic e => Panic e
    end.
Proof.
  intros Hs. unfold HasDirty. by rewrite (exec_bind_done _ _ _ _ _ (RLock_free s Hs)).
Qed.

Lemma Snapshot_exec ord tps s :
  free s →
  Snapshot ord tps s
  = match Snapshot_loop ord tps ∅ (rlocked s) with
    | Done (snap, s') => (on_mutex RWMutex_RUnlock ;; mret snap) s'
    | Panic e => Panic e
    end.
Proof.
  intros Hs. unfold Snapshot. by rewrite (exec_bind_done _ _ _ _ _ (RLock_free s Hs)).
Qed.

(** Leaving a loop that ran inside the read lock. *)
Lemma leave_rlocked {A} (a : A) s s' :
  free s → only_maps_of (rlocked s) s' →
  ∃ s'', (on_mutex RWMutex_RUnlock ;; mret a) s' = Done (a, s'') ∧ only_maps_of s s''.
Proof.
  intros Hs [Hr Ho]. eexists. split.
  - by rewrite (exec_bind_done _ _ _ _ _ (RUnlock_reader s' ltac:(by rewrite Hr))).
  - split; [|done]. simpl. rewrite Hr. destruct s as [[d rw] w].
    unfold free in Hs. simpl in *. by subst.
Qed.

(** [HasDirty] returns, and what. *)
Lemma HasDirty_result ord tps s :
  free s → all_safe s →
  ∃ s', HasDirty ord tps s = Done (existsb (dirty_at s) tps, s') ∧ only_maps_of s s'.
Proof.
  intros Hs Hsafe. rewrite HasDirty_exec by done.
  destruct (HasDirty_loop_spec ord tps (rlocked s) Hsafe) as (s1 & -> & Hs1).
  destruct (leave_rlocked (existsb (dirty_at (rlocked s)) tps) s s1 Hs Hs1)
    as (s' & -> & Hs').
  by exists s'.
Qed.

(** [C17] [HasDirty] answers whether a consumer held by the registry is
    dirty, in whatever order the range visits them and wherever it stops;
    a nil pointer counts as clean.  It returns with the lock free, and
    changes nothing but the map objects its [State] calls write to. *)
Theorem HasDirty_spec ord tps s :
  free s → range_keys (registry s) tps → all_safe s →
  ∃ b s', HasDirty ord tps s = Done (b, s') ∧ only_maps_of s s' ∧
    (b = true ↔ ∃ tp, tp ∈ dom (data (registry s)) ∧ dirty_at s tp = true).
Proof.
  intros Hs Hks Hsafe. destruct (HasDirty_result ord tps s Hs Hsafe) as (s' & -> & Hs').
  eexists _, s'. split; [done|]. split; [done|].
  rewrite existsb_elem_of. by setoid_rewrite Hks; setoid_rewrite elem_of_elements.
Qed.

(** A mark on a consumer whose ledger has a map keeps every consumer of
    the registry fit for [State]. *)
Lemma MarkOffset_all_safe s p offset metadata :
  all_safe s → unlocked (objects s) p →
  PendingOffsets (Consumer.Info (state_at (objects s) p)) ≠ None →
  all_safe (set_objects
    (upd p (set_state (mark_offset offset metadata (state_at (objects s) p))
                      (consumer_at (objects s) p)) (objects s)) s).
Proof.
  intros Hsafe Hm Hmap tp [q|] Htp; [|done].
  destruct (upd_state_result p (mark_offset offset metadata (state_at (objects s) p))
              (objects s) Hm) as (Hst & (_ & _ & Hother & _) & Hm').
  simpl. destruct (decide (q = p)) as [->|Hne].
  - split; [done|]. rewrite Hst. unfold mark_offset.
    case_decide; [simpl|]; by intros ?.
  - specialize (Hsafe tp (Some q) Htp). simpl in Hsafe.
    unfold unlocked, state_at in *. by rewrite (Hother q Hne).
Qed.

(** After [MarkOffset] with an offset above the confirmed one on a
    consumer the registry holds, [HasDirty] returns true. *)
Theorem HasDirty_after_MarkOffset ord tps s tp p offset metadata :
  free s → range_keys (registry s) tps → all_safe s →
  data (registry s) !! tp = Some (Some p) →
  PendingOffsets (Consumer.Info (state_at (objects s) p)) ≠ None →
  Offset (Consumer.Info (state_at (objects s) p)) < offset →
  ∃ s1 s2, on_objects (MarkOffset (Some p) offset metadata) s = Done (tt, s1) ∧
    HasDirty ord tps s1 = Done (true, s2).
Proof.
  intros Hs Hks Hsafe Htp Hmap Hlt.
  destruct (Hsafe tp _ Htp) as [Hm _].
  pose proof (MarkOffset_all_safe s p offset metadata Hsafe Hm Hmap) as Hsafe1.
  destruct (HasDirty_result ord tps _ (Hs : free (set_objects _ s)) Hsafe1)
    as (s2 & Hrun & _).
  eexists _, s2. split.
  { unfold on_objects, zoom. by rewrite MarkOffset_exec. }
  rewrite Hrun. do 2 f_equal. apply existsb_elem_of. exists tp. split.
  - rewrite Hks. apply elem_of_elements. by apply elem_of_dom.
  - unfold dirty_at. simpl. rewrite Htp. simpl. rewrite state_at_upd.
    unfold mark_offset. by rewrite decide_True.
Qed.

(** [C16] [Snapshot] returns one state for each key of the registry: the
    state of the consumer held for it, up to the metadata that [State]
    writes, and the empty state for a nil pointer.  The pending map of a
    state is the one its consumer holds, not a copy.  It returns with the
    lock free. *)
Theorem Snapshot_spec ord tps s :
  free s → range_keys (registry s) tps → all_safe s →
  ∃ snap s', Snapshot ord tps s = Done (snap, s') ∧ only_maps_of s s' ∧
    dom snap = dom (data (registry s)) ∧
    ∀ tp st, snap !! tp = Some st →
      up_to_metadata st (state_of (objects s) (data_at s tp)).
Proof.
  intros Hs Hks Hsafe. rewrite Snapshot_exec by done.
  destruct (Snapshot_loop_spec ord tps (rlocked s) ∅ Hsafe) as (snap & s1 & -> & Hs1 & Hsnap).
  destruct (leave_rlocked snap s s1 Hs Hs1) as (s' & -> & Hs').
  exists snap, s'. split; [done|]. split; [done|]. split.
  - apply set_eq. intros tp. specialize (Hsnap tp).
    rewrite elem_of_dom, <-elem_of_elements, <-Hks.
    case_decide; [naive_solver|]. rewrite Hsnap, lookup_empty. split; [by intros []|done].
  - intros tp st Htp. specialize (Hsnap tp). case_decide; [naive_solver|].
    by rewrite Hsnap in Htp.
Qed.

End state_loops.

(** ** Info *)

Section info.
Context {P : Type} `{!Provider P}.
Implicit Types (s : system P) (m : partitionMap) (info : gmap string int32Slice).

(** What the first loop collects: for each topic the partitions of its
    keys, in the order of the range. *)
Lemma Info_collect_lookup tps topic : ∀ info,
  default [] (foldl Info_collect info tps !! topic)
  = default [] (info !! topic) ++ (Partition <$> filter (λ tp, Topic tp = topic) tps).
Proof.
  induction tps as [|tp tps IH]; intros info; simpl; [by rewrite app_nil_r|].
  rewrite IH. unfold Info_collect at 1. destruct (decide (Topic tp = topic)) as [<-|Hne].
  - rewrite lookup_insert_eq, filter_cons_True by done. simpl.
    by rewrite <-app_assoc.
  - by rewrite lookup_insert_ne, filter_cons_False by done.
Qed.

Lemma Info_collect_dom tps : ∀ info,
  dom (foldl Info_collect info tps) = dom info ∪ list_to_set (Topic <$> tps).
Proof.
  induction tps as [|tp tps IH]; intros info; simpl; [set_solver|].
  rewrite IH. unfold Info_collect at 1. rewrite dom_insert_L. set_solver.
Qed.

(** The second loop sorts the slice of each topic it visits. *)
Lemma Info_sort_exec topic info :
  Info_sort topic info = Done (tt, <[topic := sorted_of (default [] (info !! topic))]> info).
Proof. unfold Info_sort, zoom. by rewrite (Sorts_sorted_of Sort). Qed.

Lemma Info_sort_loop topics : ∀ info,
  ∃ info', for_each Info_sort topics info = Done (tt, info') ∧
    ∀ topic, info' !! topic
             = if decide (topic ∈ topics)
               then Some (sorted_of (default [] (info !! topic)))
               else info !! topic.
Proof.
  induction topics as [|t ts IH]; intros info.
  { exists info. split; [done|]. intros topic.
    by rewrite decide_False by apply not_elem_of_nil. }
  cbn [for_each]. rewrite (exec_bind_done _ _ _ _ _ (Info_sort_exec t info)).
  destruct (IH (<[t := sorted_of (default [] (info !! t))]> info)) as (info' & -> & Hinfo).
  exists info'. split; [done|]. intros topic. rewrite Hinfo.
  destruct (decide (topic = t)) as [->|Hne].
  - rewrite lookup_insert_eq, (decide_True (P:=t ∈ t :: ts)) by by left. simpl.
    case_decide; [|by rewrite lookup_insert_eq].
    by rewrite sorted_of_idemp by apply sorted_of_ascending.
  - rewrite lookup_insert_ne by done.
    destruct (decide (topic ∈ ts)) as [Hin|Hin].
    + by rewrite decide_True by by right.
    + rewrite lookup_insert_ne by done.
      by rewrite decide_False by by intros [?|?]%elem_of_cons.
Qed.

(** The topics of a range over the registry. *)
Lemma range_keys_topics m tps :
  range_keys m tps → list_to_set (Topic <$> tps) = topics_of m.
Proof.
  intros Hks. unfold topics_of, set_map. apply set_eq. intros topic.
  rewrite !elem_of_list_to_set. by rewrite Hks.
Qed.

Lemma range_keys_partitions m tps topic :
  range_keys m tps →
  sorted_of (Partition <$> filter (λ tp, Topic tp = topic) tps) = partitions_of m topic.
Proof. intros Hks. unfold partitions_of. by rewrite Hks. Qed.

(** [Info] around its loops. *)
Lemma Info_exec tps topics s :
  free s →
  Info tps topics s
  = match for_each Info_sort topics (foldl Info_collect ∅ tps) with
    | Done (_, info) => Done (info, s)
    | Panic e => Panic e
    end.
Proof.
  intros Hs. unfold Info. rewrite (exec_bind_done _ _ _ _ _ (RLock_free s Hs)).
  rewrite (exec_bind_done _ _ _ _ _ (RUnlock_rlocked s Hs)).
  by destruct (for_each _ _ _) as [[[] info]|].
Qed.

(** [C31] [Info] returns, for each topic the registry holds a partition of,
    the partitions it holds, ascending, and no entry for any other topic:
    whatever the orders of its two ranges.  It leaves the system as it
    was, the lock free. *)
Theorem Info_spec tps topics s :
  free s → range_keys (registry s) tps → topics ≡ₚ elements (topics_of (registry s)) →
  ∃ info, Info tps topics s = Done (info, s) ∧
    ∀ topic, info !! topic
             = if decide (topic ∈ topics_of (registry s))
               then Some (partitions_of (registry s) topic)
               else None.
Proof.
  intros Hs Hks Htopics. rewrite Info_exec by done.
  destruct (Info_sort_loop topics (foldl Info_collect ∅ tps)) as (info & -> & Hinfo).
  exists info. split; [done|]. intros topic. rewrite Hinfo, Info_collect_lookup.
  assert (topic ∈ topics ↔ topic ∈ topics_of (registry s)) as Hin.
  { by rewrite Htopics, elem_of_elements. }
  rewrite lookup_empty. simpl. rewrite (range_keys_partitions _ _ _ Hks).
  destruct (decide (topic ∈ topics_of (registry s))) as [Ht|Ht].
  - by rewrite decide_True by by apply Hin.
  - rewrite decide_False by by intros ?%Hin.
    apply not_elem_of_dom.
    rewrite Info_collect_dom, dom_empty_L, (range_keys_topics _ _ Hks). set_solver.
Qed.

(** The partitions [Info] lists for a topic are those of the keys held. *)
Lemma elem_of_partitions_of m topic x :
  x ∈ partitions_of m topic ↔ mkTopicPartition topic x ∈ dom (data m).
Proof.
  unfold partitions_of. rewrite sorted_of_perm, list_elem_of_fmap. split.
  - intros ([t y] & -> & [Ht Hin]%list_elem_of_filter). simpl in *. subst.
    by apply elem_of_elements.
  - intros Hin. exists (mkTopicPartition topic x). split; [done|].
    apply list_elem_of_filter. split; [done | by apply elem_of_elements].
Qed.

(** The lists [Info] returns are what [Diff] needs: the difference of
    the lists of a topic, from a registry before and after a change, is
    the list of the partitions of that topic that the first holds and the
    second does not. *)
Theorem Info_Diff m m' topic :
  Len (partitions_of m' topic) ≤ int_max 64 →
  ∃ res, Diff (partitions_of m topic) (partitions_of m' topic) = Done res ∧
    ∀ x, x ∈ res ↔ mkTopicPartition topic x ∈ dom (data m) ∧
                   mkTopicPartition topic x ∉ dom (data m').
Proof.
  intros Hlen.
  destruct (Diff_loop_spec (partitions_of m topic) (partitions_of m' topic) [] Hlen)
    as (kept & Hrun & _ & _ & Heq).
  exists kept. unfold Diff. rewrite Hrun. split; [done|]. intros x.
  rewrite Heq by apply sorted_of_ascending.
  by rewrite list_elem_of_difference, !elem_of_partitions_of.
Qed.

End info.

(** ** The theorems on a concrete registry *)

Lemma Fetch_Store_witness :
  ∃ s', Store "t" 7 (Some 3%positive) ex_system = Done (tt, s') ∧ free s' ∧
    objects s' = objects ex_system ∧
    Fetch "t" 7 s'
    = Done (if decide (mkTopicPartition "t" 7 = mkTopicPartition "t" 7)
            then Some 3%positive else data_at ex_system (mkTopicPartition "t" 7), s').
Proof. apply (Fetch_Store "t" 7 (Some 3%positive) "t" 7 ex_system). by_decide. Defined.

Lemma Clear_spec_witness :
  Clear ex_tps ex_system = Done (tt, set_registry newPartitionMap ex_system).
Proof. apply (Clear_spec ex_tps ex_system); by_decide. Defined.

Lemma Fetch_Store_blocked_witness :
  Fetch "t" 4 (wlocked ex_system) = Panic Deadlock ∧
  Store "t" 4 None (wlocked ex_system) = Panic Deadlock.
Proof. apply (Fetch_Store_blocked "t" 4 None (wlocked ex_system)). reflexivity. Defined.

Lemma HasDirty_spec_witness :
  ∃ b s', HasDirty (λ _, []) ex_tps ex_system = Done (b, s') ∧ only_maps_of ex_system s' ∧
    (b = true ↔ ∃ tp, tp ∈ dom (data (registry ex_system)) ∧ dirty_at ex_system tp = true).
Proof. apply (HasDirty_spec (λ _, []) ex_tps ex_system); by_decide. Defined.

Lemma HasDirty_after_MarkOffset_witness :
  ∃ s1 s2, on_objects (MarkOffset (Some 1%positive) 9 "") ex_system = Done (tt, s1) ∧
    HasDirty (λ _, []) ex_tps s1 = Done (true, s2).
Proof.
  apply (HasDirty_after_MarkOffset (λ _, []) ex_tps ex_system (mkTopicPartition "t" 4));
    by_decide.
Defined.

Lemma Snapshot_spec_witness :
  ∃ snap s', Snapshot (λ _, [7; 5]) ex_tps ex_system = Done (snap, s') ∧
    only_maps_of ex_system s' ∧
    dom snap = dom (data (registry ex_system)) ∧
    ∀ tp st, snap !! tp = Some st →
      up_to_metadata st (state_of (objects ex_system) (data_at ex_system tp)).
Proof. apply (Snapshot_spec (λ _, [7; 5]) ex_tps ex_system); by_decide. Defined.

Lemma Info_spec_witness :
  ∃ info, Info ex_tps ["u"; "t"] ex_system = Done (info, ex_system) ∧
    ∀ topic, info !! topic
             = if decide (topic ∈ topics_of (registry ex_system))
               then Some (partitions_of (registry ex_system) topic)
               else None.
Proof. apply (Info_spec ex_tps ["u"; "t"] ex_system); by_decide. Defined.

Lemma Info_Diff_witness :
  ∃ res, Diff (partitions_of ex_registry "t") (partitions_of newPartitionMap "t")
         = Done res ∧
    ∀ x, x ∈ res ↔ mkTopicPartition "t" x ∈ dom (data ex_registry) ∧
                   mkTopicPartition "t" x ∉ dom (data newPartitionMap).
Proof. apply (Info_Diff ex_registry newPartitionMap "t"). by_decide. Defined.

Example HasDirty_empty :
  HasDirty (λ _, []) [] (mkSystem newPartitionMap ex_world)
  = Done (false, mkSystem newPartitionMap ex_world).
Proof. reflexivity. Qed.

Example Info_example :
  exec_value (Info ex_tps ["u"; "t"]) ex_system = Some {[ "t" := [1; 4]; "u" := [0] ]}.
Proof. by_compute. Qed.

Example Snapshot_example :
  exec_value (Snapshot (λ _, [7; 5]) ex_tps) ex_system
  = Some {[ mkTopicPartition "t" 4 :=
              {| Consumer.Info := {| Offset := 4; PendingOffsets := Some 1%positive;
                                     Metadata := "7,5," |}; Dirty := false |};
            mkTopicPartition "t" 1 :=
              {| Consumer.Info := ex_received; Dirty := false |};
            mkTopicPartition "u" 0 := inhabitant ]}.
Proof. by_compute. Qed.

End PartitionMap.
