(* ===== verification/Typing.v ===== *)
(** * Typing: what the types of the program promise

    The model keeps every integer in [Z], every pointer in [positive] and
    the lock of the registry in a record, so the types of the Go program
    have to be stated: a partition is an [int32], an offset an [int64]
    and a confirmed offset not below -1; a pointer that is not nil refers
    to a consumer of the store; between two calls the lock of the
    registry is free.

    [system_wf] collects these conditions.  This file proves that every
    method of the registry (src/unnamed/part_000: [Fetch], [Store],
    [HasDirty], [Snapshot], [Clear], [Info]), every accessor of a consumer
    and the constructor keep them when they return, on arguments of their
    types, and that what they return is of its type: the pointer [Fetch]
    returns refers to a consumer, the states of a [Snapshot] hold offsets
    in range, the slices of [Info] hold [int32]s. *)

From S2P Require Import Prelude Strconv Heap Offsets Assign Sort Consumer Registry.

#[local] Open Scope Z_scope.

(** ** Calls and what they return *)

(** A call of a method of the registry, of an accessor or of the
    constructor.  The orders of the ranges inside are arguments, as in
    Registry.v. *)
Inductive method : Type :=
| CallFetch (topic : string) (partition : Z)
| CallStore (topic : string) (partition : Z) (pc : cref)
| CallHasDirty (ord : topicPartition → list Z) (tps : list topicPartition)
| CallSnapshot (ord : topicPartition → list Z) (tps : list topicPartition)
| CallClear (tps : list topicPartition)
| CallInfo (tps : list topicPartition) (topics : list string)
| CallAccessor (k : call)
| CallNew (ks : list Z) (topic : string) (partition : Z) (info : offsetInfo)
    (defaultOffset : Z).

Inductive value : Type :=
| VNone
| VPointer (c : cref)
| VBool (b : bool)
| VSnapshot (snap : gmap topicPartition partitionState)
| VInfo (info : gmap string int32Slice)
| VNew (c : cref) (err : option error).

Section typing.
Context {P : Type} `{!Provider P}.
Implicit Types (s : PartitionMap.system P) (w : world P) (c : cref).

Definition run_method (m : method) : exec (PartitionMap.system P) value :=
  match m with
  | CallFetch topic partition => VPointer <$> PartitionMap.Fetch topic partition
  | CallStore topic partition pc => PartitionMap.Store topic partition pc ;; mret VNone
  | CallHasDirty ord tps => VBool <$> PartitionMap.HasDirty ord tps
  | CallSnapshot ord tps => VSnapshot <$> PartitionMap.Snapshot ord tps
  | CallClear tps => PartitionMap.Clear tps ;; mret VNone
  | CallInfo tps topics => VInfo <$> PartitionMap.Info tps topics
  | CallAccessor k => PartitionMap.on_objects (run_call k) ;; mret VNone
  | CallNew ks topic partition info defaultOffset =>
      r ← PartitionMap.on_objects
             (newPartitionConsumer ks topic partition info defaultOffset);
      mret (VNew r.1 r.2)
  end.

(** ** The types *)

(** A pointer is nil or refers to a consumer of the store. *)
Definition cref_wf w c : Prop :=
  match c with
  | None => True
  | Some p => p ∈ dom (consumers w)
  end.

(** The keys of the registry are [int32] partitions, its pointers refer
    to consumers, and the offsets of the store are in range. *)
Definition typed s : Prop :=
  map_Forall (λ tp c, in_int 32 (Partition tp) ∧ cref_wf (PartitionMap.objects s) c)
    (PartitionMap.data (PartitionMap.registry s)) ∧
  world_wf (PartitionMap.objects s).

(** A system between two calls. *)
Definition system_wf s : Prop := PartitionMap.free s ∧ typed s.

(** The arguments of a call are of their types; a range visits the keys
    of the registry. *)
Definition method_wf s (m : method) : Prop :=
  match m with
  | CallFetch _ partition => in_int 32 partition
  | CallStore _ partition pc =>
      in_int 32 partition ∧ cref_wf (PartitionMap.objects s) pc
  | CallHasDirty _ tps | CallSnapshot _ tps | CallClear tps | CallInfo tps _ =>
      PartitionMap.range_keys (PartitionMap.registry s) tps
  | CallAccessor k => call_wf k
  | CallNew _ _ partition info defaultOffset =>
      in_int 32 partition ∧ offsetInfo_wf info ∧ in_int 64 defaultOffset
  end.

(** The states of a snapshot hold offsets in range, under [int32] keys. *)
Definition snap_wf (snap : gmap topicPartition partitionState) : Prop :=
  map_Forall (λ tp st, in_int 32 (Partition tp) ∧ offsetInfo_wf (Info st)) snap.

(** What a call returns is of its type, in the system it leaves. *)
Definition value_wf s (v : value) : Prop :=
  match v with
  | VNone | VBool _ => True
  | VPointer c => cref_wf (PartitionMap.objects s) c
  | VSnapshot snap => snap_wf snap
  | VInfo info => map_Forall (λ _ p, int32Slice_wf p) info
  | VNew c err => cref_wf (PartitionMap.objects s) c ∧ (c = None ↔ is_Some err)
  end.

(** A sequence of calls, one after the other, and the condition that each
    finds arguments of its types in the system the calls before it left. *)
Definition run_methods (ms : list method) : exec (PartitionMap.system P) unit :=
  for_each (λ m, run_method m ;; mret tt) ms.

Fixpoint methods_wf s (ms : list method) : Prop :=
  match ms with
  | [] => True
  | m :: ms' =>
      method_wf s m ∧
      match run_method m s with
      | Done (_, s') => methods_wf s' ms'
      | Panic _ => True
      end
  end.

#[export] Instance cref_wf_dec w c : Decision (cref_wf w c).
Proof. destruct c; simpl; apply _. Defined.

#[export] Instance snap_wf_dec snap : Decision (snap_wf snap).
Proof. unfold snap_wf. apply _. Defined.

#[export] Instance method_wf_dec s m : Decision (method_wf s m).
Proof.
  destruct m as [| | | | | |k|]; unfold method_wf, PartitionMap.range_keys;
    try destruct k; apply _.
Defined.

#[export] Instance methods_wf_dec s ms : Decision (methods_wf s ms).
Proof.
  revert s. induction ms as [|m ms IH]; intros s; cbn [methods_wf]; [apply _|].
  destruct (run_method m s) as [[? ?]|?]; apply _.
Defined.

End typing.

(** A ledger for a new consumer, and a sequence of calls on [ex_system]. *)
Definition ex_info : offsetInfo :=
  {| Offset := 12; PendingOffsets := Some 9%positive; Metadata := "" |}.

Definition ex_methods : list method :=
  [ CallNew [] "t" 0 ex_info 15;
    CallStore "t" 0 (Some 4%positive);
    CallAccessor (CallMarkOffset (Some 4%positive) 13 "");
    CallSnapshot (λ _, []) (mkTopicPartition "t" 0 :: PartitionMap.ex_tps);
    CallInfo (mkTopicPartition "t" 0 :: PartitionMap.ex_tps) ["u"; "t"] ].

(** ** What keeps a system typed *)

Section typed_lemmas.
Context {P : Type} `{!Provider P}.
Implicit Types (s : PartitionMap.system P) (w : world P) (c : cref)
  (d : gmap topicPartition cref).

Lemma cref_wf_mono w w' c :
  dom (consumers w) ⊆ dom (consumers w') → cref_wf w c → cref_wf w' c.
Proof. destruct c as [p|]; [|done]. simpl. set_solver. Qed.

(** The pointer the registry holds for a key refers to a consumer. *)
Lemma typed_data_at s tp : typed s → cref_wf (PartitionMap.objects s) (PartitionMap.data_at s tp).
Proof.
  intros [Hd _]. unfold PartitionMap.data_at.
  destruct (_ !! tp) as [c|] eqn:Hc; [|done]. by destruct (map_Forall_lookup_1 _ _ _ _ Hd Hc).
Qed.

(** A change of the objects that keeps the store well formed and loses no
    consumer keeps the system typed. *)
Lemma typed_objects s s' :
  PartitionMap.data (PartitionMap.registry s') = PartitionMap.data (PartitionMap.registry s) →
  dom (consumers (PartitionMap.objects s)) ⊆ dom (consumers (PartitionMap.objects s')) →
  world_wf (PartitionMap.objects s') → typed s → typed s'.
Proof.
  intros Hd Hdom Hwf [Hkeys _]. split; [|done]. rewrite Hd.
  eapply map_Forall_impl; [exact Hkeys|]. intros tp c [? ?]. split; [done|].
  by eapply cref_wf_mono.
Qed.

(** A change of the keys that adds nothing but typed entries does too. *)
Lemma typed_data s d :
  map_Forall (λ tp c, in_int 32 (Partition tp) ∧ cref_wf (PartitionMap.objects s) c) d →
  typed s →
  typed (PartitionMap.set_registry (PartitionMap.set_data d (PartitionMap.registry s)) s).
Proof. by intros Hd [_ Hw]. Qed.

Lemma lookup_foldl_delete d (tps : list topicPartition) tp c :
  foldl (λ d tp, delete tp d) d tps !! tp = Some c → d !! tp = Some c.
Proof.
  revert d. induction tps as [|tp' tps IH]; intros d; [done|]. simpl.
  intros Hc%IH. by apply lookup_delete_Some in Hc as [_ Hc].
Qed.

(** Taking the lock, as a reader or as the writer, changes no type. *)
Lemma typed_rlocked s : typed s → typed (PartitionMap.rlocked s).
Proof. done. Qed.

(** Leaving a loop that ran inside the read lock of a free system. *)
Lemma leave_typed {A} (a : A) s s1 r s' :
  PartitionMap.free s →
  PartitionMap.registry s1 = PartitionMap.registry (PartitionMap.rlocked s) →
  typed s1 →
  (PartitionMap.on_mutex RWMutex_RUnlock ;; mret a) s1 = Done (r, s') →
  r = a ∧ system_wf s'.
Proof.
  intros Hfree Hreg Htyped.
  rewrite (exec_bind_done _ _ _ _ _ (PartitionMap.RUnlock_reader s1 ltac:(by rewrite Hreg))).
  intros [= <- <-]. split; [done|]. split; [done|].
  eapply typed_objects; [| |apply Htyped|exact Htyped]; done.
Qed.

End typed_lemmas.

(** ** The loops that ask the consumers for their state *)

Section state_loops.
Context {P : Type} `{!Provider P}.
Implicit Types (s : PartitionMap.system P) (w : world P) (c : cref)
  (snap : gmap topicPartition partitionState).

Lemma on_objects_inv {A} (m : exec (world P) A) s a s' :
  PartitionMap.on_objects m s = Done (a, s') →
  ∃ w', m (PartitionMap.objects s) = Done (a, w') ∧ s' = PartitionMap.set_objects w' s.
Proof.
  unfold PartitionMap.on_objects, zoom.
  destruct (m _) as [[a' w']|]; [|done]. intros [= <- <-]. by exists w'.
Qed.

(** A computation on the objects that keeps the store well formed and
    loses no consumer keeps the system typed. *)
Lemma on_objects_typed {A} (m : exec (world P) A) s a s' :
  (∀ w', m (PartitionMap.objects s) = Done (a, w') →
         world_wf w' ∧ dom (consumers (PartitionMap.objects s)) ⊆ dom (consumers w')) →
  typed s → PartitionMap.on_objects m s = Done (a, s') →
  typed s' ∧ PartitionMap.registry s' = PartitionMap.registry s.
Proof.
  intros Hm Htyped (w' & Hrun & ->)%on_objects_inv. destruct (Hm w' Hrun) as [Hwf Hdom].
  split; [|done]. by apply (typed_objects s).
Qed.

Lemma State_typed ks c s st s' :
  typed s → PartitionMap.on_objects (State ks c) s = Done (st, s') →
  typed s' ∧ PartitionMap.registry s' = PartitionMap.registry s ∧ offsetInfo_wf (Info st).
Proof.
  intros Htyped Hrun. pose proof Hrun as (w' & HS & _)%on_objects_inv.
  destruct (State_wf _ _ _ _ _ (proj2 Htyped) HS) as (_ & Hst & _).
  destruct (on_objects_typed (State ks c) s st s') as [? ?]; [|done..].
  intros w1 HS1. by destruct (State_wf _ _ _ _ _ (proj2 Htyped) HS1) as (? & _ & ?).
Qed.

Lemma HasDirty_loop_typed ord tps : ∀ s r s',
  typed s → PartitionMap.HasDirty_loop ord tps s = Done (r, s') →
  typed s' ∧ PartitionMap.registry s' = PartitionMap.registry s.
Proof.
  induction tps as [|tp tps IH]; intros s r s' Htyped; [by intros [= _ <-]|].
  cbn [PartitionMap.HasDirty_loop]. rewrite (exec_bind_done _ _ _ s s eq_refl).
  intros (st & s1 & Hrun & Hrest)%exec_bind_inv.
  destruct (State_typed _ _ _ _ _ Htyped Hrun) as (Htyped1 & Hreg1 & _).
  destruct (Dirty st); [by injection Hrest as _ <-|].
  destruct (IH _ _ _ Htyped1 Hrest) as [? Hreg]. split; [done|]. by rewrite Hreg.
Qed.

Lemma Snapshot_loop_typed ord tps : ∀ s snap snap' s',
  typed s → Forall (λ tp, in_int 32 (Partition tp)) tps → snap_wf snap →
  PartitionMap.Snapshot_loop ord tps snap s = Done (snap', s') →
  typed s' ∧ PartitionMap.registry s' = PartitionMap.registry s ∧ snap_wf snap'.
Proof.
  induction tps as [|tp tps IH]; intros s snap snap' s' Htyped Htps Hsnap;
    [by intros [= <- <-]|].
  apply Forall_cons in Htps as [Htp Htps]. cbn [PartitionMap.Snapshot_loop].
  intros (snap1 & s1 & Hbody & Hrest)%exec_bind_inv. revert Hbody.
  unfold PartitionMap.Snapshot_body. rewrite (exec_bind_done _ _ _ s s eq_refl).
  intros (st & s2 & Hrun & [= <- <-])%exec_bind_inv.
  destruct (State_typed _ _ _ _ _ Htyped Hrun) as (Htyped1 & Hreg1 & Hst).
  destruct (IH _ _ _ _ Htyped1 Htps (map_Forall_insert_2 _ _ _ _ (conj Htp Hst) Hsnap) Hrest)
    as (? & Hreg & ?).
  split; [done|]. split; [by rewrite Hreg | done].
Qed.

End state_loops.

(** ** The methods, one by one *)

Section methods_typed.
Context {P : Type} `{!Provider P}.
Implicit Types (s : PartitionMap.system P) (w : world P) (c : cref).

(** A range over the registry visits [int32] partitions. *)
Lemma range_keys_typed s tps :
  typed s → PartitionMap.range_keys (PartitionMap.registry s) tps →
  Forall (λ tp, in_int 32 (Partition tp)) tps.
Proof.
  intros [Hd _] Hks. apply Forall_forall. intros tp Htp.
  unfold PartitionMap.range_keys in Hks. rewrite Hks, elem_of_elements in Htp.
  apply elem_of_dom in Htp as [c Hc]. by destruct (map_Forall_lookup_1 _ _ _ _ Hd Hc).
Qed.

Lemma Fetch_typed topic partition s c s' :
  system_wf s → PartitionMap.Fetch topic partition s = Done (c, s') →
  system_wf s' ∧ cref_wf (PartitionMap.objects s') c.
Proof.
  intros [Hfree Ht]. rewrite PartitionMap.Fetch_exec by done. intros [= <- <-].
  split; [done|]. by apply typed_data_at.
Qed.

Lemma Store_typed topic partition pc s s' :
  system_wf s → in_int 32 partition → cref_wf (PartitionMap.objects s) pc →
  PartitionMap.Store topic partition pc s = Done (tt, s') → system_wf s'.
Proof.
  intros [Hfree Ht] Hp Hpc. rewrite PartitionMap.Store_exec by done. intros [= <-].
  split; [done|]. apply typed_data; [|done].
  apply map_Forall_insert_2; [done | apply Ht].
Qed.

Lemma Clear_typed tps s s' :
  system_wf s → PartitionMap.Clear tps s = Done (tt, s') → system_wf s'.
Proof.
  intros [Hfree Ht]. rewrite PartitionMap.Clear_exec by done. intros [= <-].
  split; [done|]. apply typed_data; [|done].
  apply map_Forall_lookup. intros tp c Hc%lookup_foldl_delete.
  by apply (map_Forall_lookup_1 _ _ _ _ (proj1 Ht)).
Qed.

Lemma HasDirty_typed ord tps s r s' :
  system_wf s → PartitionMap.HasDirty ord tps s = Done (r, s') → system_wf s'.
Proof.
  intros [Hfree Ht]. rewrite PartitionMap.HasDirty_exec by done.
  destruct (PartitionMap.HasDirty_loop _ _ _) as [[b s1]|] eqn:Hloop; [|done].
  intros Hleave.
  destruct (HasDirty_loop_typed _ _ _ _ _ (typed_rlocked s Ht) Hloop) as [Ht1 Hreg].
  by destruct (leave_typed b s s1 r s' Hfree Hreg Ht1 Hleave).
Qed.

Lemma Snapshot_typed ord tps s snap s' :
  system_wf s → PartitionMap.range_keys (PartitionMap.registry s) tps →
  PartitionMap.Snapshot ord tps s = Done (snap, s') → system_wf s' ∧ snap_wf snap.
Proof.
  intros [Hfree Ht] Hks. rewrite PartitionMap.Snapshot_exec by done.
  destruct (PartitionMap.Snapshot_loop _ _ _ _) as [[snap1 s1]|] eqn:Hloop; [|done].
  intros Hleave.
  destruct (Snapshot_loop_typed _ _ _ _ _ _ (typed_rlocked s Ht)
              (range_keys_typed s tps Ht Hks) (map_Forall_empty _) Hloop)
    as (Ht1 & Hreg & Hsnap).
  by destruct (leave_typed snap1 s s1 snap s' Hfree Hreg Ht1 Hleave) as [-> ?].
Qed.

(** The partitions the first loop of [Info] collects are those of the keys. *)
Lemma Info_collect_typed tps topic :
  Forall (λ tp, in_int 32 (Partition tp)) tps →
  int32Slice_wf (default [] (foldl PartitionMap.Info_collect ∅ tps !! topic)).
Proof.
  intros Htps. rewrite PartitionMap.Info_collect_lookup, lookup_empty. simpl.
  apply Forall_fmap, Forall_forall. intros tp [_ Htp]%list_elem_of_filter.
  by apply (proj1 (Forall_forall _ _) Htps).
Qed.

Lemma Info_typed tps topics s info s' :
  system_wf s → PartitionMap.range_keys (PartitionMap.registry s) tps →
  PartitionMap.Info tps topics s = Done (info, s') →
  s' = s ∧ map_Forall (λ _ p, int32Slice_wf p) info.
Proof.
  intros [Hfree Ht] Hks. rewrite PartitionMap.Info_exec by done.
  destruct (PartitionMap.Info_sort_loop topics (foldl PartitionMap.Info_collect ∅ tps))
    as (info' & -> & Hinfo).
  intros [= <- <-]. split; [done|]. apply map_Forall_lookup. intros topic p.
  pose proof (Info_collect_typed tps topic (range_keys_typed s tps Ht Hks)) as Hwf.
  rewrite Hinfo. case_decide.
  - intros [= <-]. unfold int32Slice_wf in *. by rewrite sorted_of_perm.
  - intros Hp. unfold int32Slice in *. by rewrite Hp in Hwf.
Qed.

Lemma Accessor_typed k s s' :
  system_wf s → call_wf k →
  PartitionMap.on_objects (run_call k) s = Done (tt, s') → system_wf s'.
Proof.
  intros [Hfree Ht] Hk Hrun.
  destruct (on_objects_typed (run_call k) s tt s') as [Ht' Hreg]; [|done..|].
  - intros w' Hw. split; [by eapply run_call_wf; [|apply Ht|] | by eapply run_call_dom].
  - split; [|done]. unfold PartitionMap.free. by rewrite Hreg.
Qed.

(** A store with one more consumer, whose ledger is well formed. *)
Lemma world_wf_upd p pc w :
  world_wf w → offsetInfo_wf (Info (state pc)) → world_wf (upd p pc w).
Proof.
  intros [Hmaps Hinfo] Hpc. split; [done|]. intros q. unfold state_at.
  destruct (decide (p = q)) as [<-|Hne];
    [by rewrite consumer_at_upd | rewrite consumer_at_upd_ne by done; apply Hinfo].
Qed.

Lemma New_typed ks topic partition info defaultOffset s r s' :
  system_wf s → offsetInfo_wf info →
  PartitionMap.on_objects (newPartitionConsumer ks topic partition info defaultOffset) s
  = Done (r, s') →
  system_wf s' ∧ cref_wf (PartitionMap.objects s') r.1 ∧ (r.1 = None ↔ is_Some r.2).
Proof.
  intros [Hfree Ht] Hinfo (w' & Hrun & ->)%on_objects_inv.
  destruct (newPartitionConsumer_cases ks topic partition info defaultOffset
              (PartitionMap.objects s)) as (cl & [(err & Heq)|(h & info' & Hinfo' & Heq)]);
    rewrite Heq in Hrun; injection Hrun as <- <-; simpl.
  { split; [|by split; [|split]]. split; [done|].
    by apply (typed_objects s); [| |apply Ht|]. }
  assert (offsetInfo_wf info') as Hwf'.
  { destruct Hinfo' as [->| ->]; [done|]. unfold offsetInfo_wf. simpl. by int_ranges. }
  split; [|split; [rewrite dom_insert; set_solver | by split; [|intros []]]].
  split; [done|]. apply (typed_objects s); [done| |by apply world_wf_upd; [apply Ht|]|done].
  cbn [PartitionMap.objects PartitionMap.set_objects upd consumers set_consumers set_client].
  rewrite dom_insert. set_solver.
Qed.

End methods_typed.

(** ** Preservation *)

Section preservation.
Context {P : Type} `{!Provider P}.
Implicit Types (s : PartitionMap.system P) (m : method) (v : value).

Lemma run_method_typed m s v s' :
  system_wf s → method_wf s m → run_method m s = Done (v, s') →
  system_wf s' ∧ value_wf s' v.
Proof.
  intros Hs Hm. destruct m; cbn [run_method method_wf] in *.
  - intros (c & Hrun & ->)%exec_fmap_inv. by eapply Fetch_typed.
  - intros ([] & s1 & Hrun & [= <- <-])%exec_bind_inv. split; [|done].
    by eapply Store_typed; [| | |exact Hrun]; [|apply Hm..].
  - intros (b & Hrun & ->)%exec_fmap_inv. split; [|done]. by eapply HasDirty_typed.
  - intros (snap & Hrun & ->)%exec_fmap_inv. by eapply Snapshot_typed.
  - intros ([] & s1 & Hrun & [= <- <-])%exec_bind_inv. split; [|done].
    by eapply Clear_typed.
  - intros (info & Hrun & ->)%exec_fmap_inv.
    by destruct (Info_typed _ _ _ _ _ Hs Hm Hrun) as [-> ?].
  - intros ([] & s1 & Hrun & [= <- <-])%exec_bind_inv. split; [|done].
    by eapply Accessor_typed.
  - intros (r & s1 & Hrun & [= <- <-])%exec_bind_inv.
    by eapply New_typed; [|apply Hm|exact Hrun].
Qed.

(** [C10] Every method of the registry, every accessor and the constructor
    keep the types of the program: when a call on arguments of its types
    returns, partitions are [int32]s, offsets are [int64]s and no
    confirmed offset is below -1, every pointer of the registry refers
    to a consumer, the lock of the registry is free, and what the call
    returns is of its type. *)
Theorem run_method_wf m s v s' :
  system_wf s → method_wf s m → run_method m s = Done (v, s') →
  system_wf s' ∧ value_wf s' v.
Proof. apply run_method_typed. Qed.

End preservation.

(** [ex_system] is typed. *)
Lemma run_methods_typed ms s s' :
  system_wf s → methods_wf s ms → run_methods ms s = Done (tt, s') → system_wf s'.
Proof.
  revert s. induction ms as [|m ms IH]; intros s Hs Hms; [by intros [= <-]|].
  destruct Hms as [Hm Hms]. unfold run_methods. cbn [for_each].
  intros ([] & s1 & (v & s2 & Hrun & [= <-])%exec_bind_inv & Hrest)%exec_bind_inv.
  rewrite Hrun in Hms. eapply IH; [|exact Hms|exact Hrest].
  by eapply run_method_typed.
Qed.

Lemma ex_system_wf : system_wf PartitionMap.ex_system.
Proof.
  split; [reflexivity|]. split; [by_decide|]. apply world_wf_alt; by_decide.
Qed.

Lemma run_method_wf_witness :
  ∃ v s', run_method (CallSnapshot (λ _, []) PartitionMap.ex_tps) PartitionMap.ex_system
          = Done (v, s') ∧ system_wf s' ∧ value_wf s' v.
Proof.
  eexists _, _. split; [by_compute|].
  apply (run_method_wf (CallSnapshot (λ _, []) PartitionMap.ex_tps) PartitionMap.ex_system);
    [apply ex_system_wf | unfold method_wf, PartitionMap.range_keys; by_decide | by_compute].
Defined.

(** A consumer is made, stored and marked, and the registry is read: every
    call finds arguments of its types, and the system the calls leave is
    typed. *)
Example ex_methods_typed :
  ∃ s', run_methods ex_methods PartitionMap.ex_system = Done (tt, s') ∧ system_wf s'.
Proof.
  eexists. split; [by_compute|].
  by eapply (run_methods_typed ex_methods);
    [apply ex_system_wf | by_decide | by_compute].
Qed.
