(* ===== verification/Readers.v ===== *)
(** * Readers: the registry's methods, one statement at a time

    [Fetch], [Store] and [Clear] of the [partitionMap]
    (src/unnamed/part_000) work between a lock and an unlock of the
    registry's [sync.RWMutex]: [Fetch] as a reader, [Store] and [Clear] as
    writers.  Registry.v runs each of them from entry to return; here they
    are goroutines ([caller]) that take one statement at a time, in the
    order a schedule gives, on one registry ([crowd]).

    A goroutine that cannot take the lock waits: its step leaves the crowd
    as it was.  [range] reads the keys of the map when the loop of [Clear]
    starts, in an order the language does not fix: the order is the
    argument [ord] of the goroutine, a function of the map it finds.

    The invariant [crowd_inv] reads the lock as the owner of the map.  With
    no writer inside the map is what the methods that have returned make of
    the first map, run in turn, and the lock counts the readers inside.
    With a writer inside nobody else is, and what is left of the writer's
    method makes of the map what the whole method makes of the map it found
    ([finish], [method_effect]).  The history of the crowd records each
    return with its value; [run_in_turn] is the sequential run it is
    compared to.

    It follows, for every schedule, that no statement panics
    ([registry_callers_never_panic]); that a writer is inside alone, that
    the lock counts the readers and that a reader holds the pointer the map
    has ([writer_excludes], [writer_blocks_others],
    [readers_block_writers]); that when all have returned the registry is
    the one the methods leave when run in turn in the order of their
    returns, each [Fetch] with the pointer it returned
    ([registry_serialised]); that a [Clear] at its [Unlock] has left the
    registry empty ([Clear_leaves_empty]); and that the goroutines cannot
    deadlock and return within [crowd_weight] statements, the loop of
    [Clear] over at most the keys the registry had and the keys stored
    since ([room], [registry_callers_return]).

    [HasDirty], [Snapshot] and [Info] hold the read lock across calls of
    [State] and are no goroutines of this file; [Stop] is a thread of
    Lifecycle.v. *)

From S2P Require Import Prelude Strconv Heap Offsets Consumer Registry Typing Mutex.
Import PartitionMap.

#[local] Open Scope Z_scope.

(** ** Program counters *)

(** [Fetch]: at [RLock], at the read of [m.data], at [RUnlock] with the
    pointer read, returned with it. *)
Inductive fetch_pc : Type :=
| FetchRLock
| FetchRead
| FetchRUnlock (pc : cref)
| FetchReturned (pc : cref).

(** [Store]: at [Lock], at the assignment, at [Unlock], returned. *)
Inductive store_pc : Type :=
| StoreLock
| StoreWrite
| StoreUnlock
| StoreReturned.

(** [Clear]: at [Lock]; in the loop over the keys [tps] with the keys
    [rest] to come; at [Unlock]; returned. *)
Inductive clear_pc : Type :=
| ClearLock
| ClearRange (tps rest : list topicPartition)
| ClearUnlock (tps : list topicPartition)
| ClearReturned (tps : list topicPartition).

(** A goroutine in a method of the registry. *)
Inductive caller : Type :=
| GoFetch (topic : string) (partition : Z) (at_ : fetch_pc)
| GoStore (topic : string) (partition : Z) (pc : cref) (at_ : store_pc)
| GoClear (ord : gmap topicPartition cref → list topicPartition) (at_ : clear_pc).

(** ** One statement *)

Section statements.
Context {P : Type} `{!Provider P}.

Definition Fetch_step (topic : string) (partition : Z) (at_ : fetch_pc) :
    exec (system P) fetch_pc :=
  match at_ with
  | FetchRLock => on_mutex RWMutex_RLock ;; mret FetchRead
  | FetchRead =>
      s ← get;
      mret (FetchRUnlock (data_at s {| Topic := topic; Partition := partition |}))
  | FetchRUnlock pc => on_mutex RWMutex_RUnlock ;; mret (FetchReturned pc)
  | FetchReturned pc => mret (FetchReturned pc)
  end.

Definition Store_step (topic : string) (partition : Z) (pc : cref) (at_ : store_pc) :
    exec (system P) store_pc :=
  match at_ with
  | StoreLock => on_mutex RWMutex_Lock ;; mret StoreWrite
  | StoreWrite =>
      modify (λ s, set_registry
        (set_data (<[{| Topic := topic; Partition := partition |} := pc]>
                     (data (registry s))) (registry s)) s) ;;
      mret StoreUnlock
  | StoreUnlock => on_mutex RWMutex_Unlock ;; mret StoreReturned
  | StoreReturned => mret StoreReturned
  end.

Definition Clear_step (ord : gmap topicPartition cref → list topicPartition)
    (at_ : clear_pc) : exec (system P) clear_pc :=
  match at_ with
  | ClearLock =>
      on_mutex RWMutex_Lock ;;
      s ← get;
      let tps := ord (data (registry s)) in
      mret (ClearRange tps tps)
  | ClearRange tps [] => mret (ClearUnlock tps)
  | ClearRange tps (tp :: rest) =>
      modify (λ s, set_registry (set_data (delete tp (data (registry s))) (registry s)) s) ;;
      mret (ClearRange tps rest)
  | ClearUnlock tps => on_mutex RWMutex_Unlock ;; mret (ClearReturned tps)
  | ClearReturned tps => mret (ClearReturned tps)
  end.

Definition caller_step (t : caller) : exec (system P) caller :=
  match t with
  | GoFetch topic partition at_ => GoFetch topic partition <$> Fetch_step topic partition at_
  | GoStore topic partition pc at_ =>
      GoStore topic partition pc <$> Store_step topic partition pc at_
  | GoClear ord at_ => GoClear ord <$> Clear_step ord at_
  end.

End statements.

(** ** What a goroutine is doing *)

(** The call a goroutine makes.  The keys of a [Clear] are known once it
    has the lock. *)
Definition method_of (t : caller) : method :=
  match t with
  | GoFetch topic partition _ => CallFetch topic partition
  | GoStore topic partition pc _ => CallStore topic partition pc
  | GoClear _ (ClearRange tps _ | ClearUnlock tps | ClearReturned tps) => CallClear tps
  | GoClear _ ClearLock => CallClear []
  end.

(** What the call returns. *)
Definition value_of (t : caller) : value :=
  match t with
  | GoFetch _ _ (FetchRUnlock pc | FetchReturned pc) => VPointer pc
  | _ => VNone
  end.

Definition call_returned (t : caller) : Prop :=
  match t with
  | GoFetch _ _ (FetchReturned _) | GoStore _ _ _ StoreReturned
  | GoClear _ (ClearReturned _) => True
  | _ => False
  end.

#[export] Instance call_returned_dec t : Decision (call_returned t).
Proof. destruct t as [? ? []|? ? ? []|? []]; apply _. Defined.

Definition at_start (t : caller) : Prop :=
  match t with
  | GoFetch _ _ FetchRLock | GoStore _ _ _ StoreLock | GoClear _ ClearLock => True
  | _ => False
  end.

#[export] Instance at_start_dec t : Decision (at_start t).
Proof. destruct t as [? ? []|? ? ? []|? []]; apply _. Defined.

(** 1 for a goroutine between [RLock] and [RUnlock]. *)
Definition reads (t : caller) : nat :=
  match t with
  | GoFetch _ _ (FetchRead | FetchRUnlock _) => 1
  | _ => 0
  end.

(** A goroutine between [Lock] and [Unlock]. *)
Definition writes (t : caller) : bool :=
  match t with
  | GoStore _ _ _ (StoreWrite | StoreUnlock) => true
  | GoClear _ (ClearRange _ _ | ClearUnlock _) => true
  | _ => false
  end.

Definition within (t : caller) : bool := writes t || bool_decide (reads t = 1%nat).

(** The statements a goroutine has still to run, when a [Clear] that has
    not taken the lock will find at most [B] keys. *)
Definition calls_left (B : nat) (t : caller) : nat :=
  match t with
  | GoFetch _ _ FetchRLock => 3
  | GoFetch _ _ FetchRead => 2
  | GoFetch _ _ (FetchRUnlock _) => 1
  | GoFetch _ _ (FetchReturned _) => 0
  | GoStore _ _ _ StoreLock => 3
  | GoStore _ _ _ StoreWrite => 2
  | GoStore _ _ _ StoreUnlock => 1
  | GoStore _ _ _ StoreReturned => 0
  | GoClear _ ClearLock => 3 + B
  | GoClear _ (ClearRange _ rest) => 2 + length rest
  | GoClear _ (ClearUnlock _) => 1
  | GoClear _ (ClearReturned _) => 0
  end.

(** 1 for a [Store] that has not written its key. *)
Definition stores_ahead (t : caller) : nat :=
  match t with
  | GoStore _ _ _ (StoreLock | StoreWrite) => 1
  | _ => 0
  end.

(** [range] visits each key of the map once. *)
Definition range_order (t : caller) : Prop :=
  match t with
  | GoClear ord _ => ∀ d, ord d ≡ₚ elements (dom d)
  | _ => True
  end.

(** ** The crowd *)

Record crowd (P : Type) : Type := mkCrowd {
  callers : list caller;
  sys : system P;
  history : list (method * value);
}.
Arguments mkCrowd {P} _ _ _.
Arguments callers {P} _.
Arguments sys {P} _.
Arguments history {P} _.

Section crowd.
Context {P : Type} `{!Provider P}.

(** The scheduler runs goroutine [i] for one statement.  A goroutine that
    cannot take the lock waits.  A return is recorded with its value. *)
Definition crowd_step (i : nat) : exec (crowd P) unit := λ cfg,
  match callers cfg !! i with
  | None => Done (tt, cfg)
  | Some t =>
      match caller_step t (sys cfg) with
      | Done (t', s') =>
          Done (tt, {| callers := <[i := t']> (callers cfg);
                       sys := s';
                       history := if decide (call_returned t' ∧ ¬ call_returned t)
                                  then history cfg ++ [(method_of t', value_of t')]
                                  else history cfg |})
      | Panic Deadlock => Done (tt, cfg)
      | Panic e => Panic e
      end
  end.

Definition run_crowd (sched : list nat) : exec (crowd P) unit :=
  for_each crowd_step sched.

Definition crowd_init (ts : list caller) (s : system P) : crowd P :=
  {| callers := ts; sys := s; history := [] |}.

(** The start: the lock is free and every goroutine is at its first
    statement. *)
Definition convened (s : system P) (ts : list caller) : Prop :=
  free s ∧ Forall at_start ts.

#[export] Instance convened_dec s ts : Decision (convened s ts).
Proof. unfold convened. apply _. Defined.

Definition all_back (cfg : crowd P) : Prop := Forall call_returned (callers cfg).

#[export] Instance all_back_dec cfg : Decision (all_back cfg).
Proof. unfold all_back. apply _. Defined.

Definition crowd_weight (B : nat) (cfg : crowd P) : nat :=
  sum_list_with (calls_left B) (callers cfg).

(** The keys the registry has, and the keys still to be stored: no
    [Clear] finds more keys than that. *)
Definition room (cfg : crowd P) : nat :=
  size (dom (data (registry (sys cfg)))) + sum_list_with stores_ahead (callers cfg).

(** Goroutine [i] has a statement to run, and does not wait. *)
Definition can_move (cfg : crowd P) (i : nat) : Prop :=
  ∃ t t' s', callers cfg !! i = Some t ∧ ¬ call_returned t ∧
             caller_step t (sys cfg) = Done (t', s').

(** The methods run in turn, each from entry to return, with the values
    they return. *)
Fixpoint run_in_turn (ms : list method) : exec (system P) (list value) :=
  match ms with
  | [] => mret []
  | m :: ms => v ← run_method m; vs ← run_in_turn ms; mret (v :: vs)
  end.

End crowd.

(** ** The invariant *)

(** What the statements a writer has still to run make of the map [d]. *)
Definition finish (t : caller) (d : gmap topicPartition cref) : gmap topicPartition cref :=
  match t with
  | GoStore topic partition pc StoreWrite =>
      <[{| Topic := topic; Partition := partition |} := pc]> d
  | GoClear _ (ClearRange _ rest) => foldl (λ d tp, delete tp d) d rest
  | _ => d
  end.

(** What the method of a goroutine makes of the map [d], run alone. *)
Definition method_effect (t : caller) (d : gmap topicPartition cref) : gmap topicPartition cref :=
  match t with
  | GoFetch _ _ _ => d
  | GoStore topic partition pc _ =>
      <[{| Topic := topic; Partition := partition |} := pc]> d
  | GoClear _ (ClearRange tps _ | ClearUnlock tps | ClearReturned tps) =>
      foldl (λ d tp, delete tp d) d tps
  | GoClear _ ClearLock => d
  end.

(** The pointer a reader holds is the one the map [d] has. *)
Definition seen (t : caller) (d : gmap topicPartition cref) : Prop :=
  match t with
  | GoFetch topic partition (FetchRUnlock pc) =>
      pc = default None (d !! {| Topic := topic; Partition := partition |})
  | _ => True
  end.

(** The pointer a [Fetch] returned is the one the map [d] has. *)
Definition seen_on_return (t : caller) (d : gmap topicPartition cref) : Prop :=
  match t with
  | GoFetch topic partition (FetchReturned pc) =>
      pc = default None (d !! {| Topic := topic; Partition := partition |})
  | _ => True
  end.

(** What a [Clear] has made of the map [d]: the keys left are among the
    keys still to visit. *)
Definition cleared (t : caller) (d : gmap topicPartition cref) : Prop :=
  match t with
  | GoClear _ (ClearRange _ rest) => dom d ⊆ list_to_set rest
  | GoClear _ (ClearUnlock _) => d = ∅
  | _ => True
  end.

(** The lock owns the map: [d] is the map the returned methods leave. *)
Definition rw_inv (ts : list caller) (m : partitionMap) (d : gmap topicPartition cref) :
    Prop :=
  if writer (mutex m) then
    readers (mutex m) = 0%nat ∧
    ∃ i t, ts !! i = Some t ∧ writes t = true ∧ finish t (data m) = method_effect t d ∧
           ∀ j u, ts !! j = Some u → within u = true → j = i
  else
    data m = d ∧ readers (mutex m) = sum_list_with reads ts ∧
    Forall (λ u, writes u = false ∧ seen u d) ts.

Section invariant.
Context {P : Type} `{!Provider P}.

Definition crowd_inv (s0 : system P) (cfg : crowd P) : Prop :=
  ∃ σ, free σ ∧ objects σ = objects (sys cfg) ∧
       run_in_turn (history cfg).*1 s0 = Done ((history cfg).*2, σ) ∧
       rw_inv (callers cfg) (registry (sys cfg)) (data (registry σ)) ∧
       history cfg ≡ₚ (λ t, (method_of t, value_of t)) <$> filter call_returned (callers cfg).

End invariant.

(** ** A crowd to run *)

(** Two [Fetch], two [Store] and a [Clear] on [ex_system]; the [range] of
    [Clear] visits the keys in ascending order of their codes. *)
Definition ex_callers : list caller :=
  [ GoFetch "t" 4 FetchRLock;
    GoStore "t" 7 (Some 2%positive) StoreLock;
    GoClear (λ d, elements (dom d)) ClearLock;
    GoFetch "t" 7 FetchRLock;
    GoStore "u" 0 (Some 1%positive) StoreLock ].

Definition ex_crowd : crowd fake_client := crowd_init ex_callers ex_system.

(** The crowd a computation leaves. *)
Definition crowd_of (r : outcome (unit * crowd fake_client)) : crowd fake_client :=
  match r with
  | Done (_, cfg) => cfg
  | Panic _ => ex_crowd
  end.

(** Both [Fetch] are inside, and the [Store] of "t", 7 waits. *)
Definition ex_reading : crowd fake_client :=
  crowd_of (run_crowd [0; 3; 1; 0; 1]%nat ex_crowd).

(** The [Clear] is in its loop. *)
Definition ex_clearing : crowd fake_client :=
  crowd_of (run_crowd [2; 2; 0; 1; 2]%nat ex_crowd).

(** The [Clear] has visited every key and is at its [Unlock]. *)
Definition ex_unlocking : crowd fake_client :=
  crowd_of (run_crowd (round_robin 13) ex_crowd).

(** Every goroutine has returned. *)
Definition ex_back : crowd fake_client :=
  crowd_of (run_crowd (round_robin 14) ex_crowd).

(** ** Lists of goroutines *)

Section lists.
Context {A B : Type} (Q : A → Prop) `{!∀ x, Decision (Q x)}.

(** The goroutines that satisfy [Q], after a statement of goroutine [i]. *)
Lemma filter_insert_fresh (f : A → B) (l : list A) i x y :
  l !! i = Some x → ¬ Q x →
  f <$> filter Q (<[i := y]> l)
  ≡ₚ (f <$> filter Q l) ++ (if decide (Q y) then [f y] else []).
Proof.
  intros Hi Hx. rewrite <-(take_drop_middle l i x Hi) at 2.
  rewrite insert_take_drop by (by eapply lookup_lt_Some).
  rewrite !filter_app, !filter_cons. destruct (decide (Q x)); [done|].
  destruct (decide (Q y)); rewrite ?fmap_app, ?fmap_cons, ?app_nil_r; [|done].
  by rewrite <-Permutation_middle, <-Permutation_cons_append.
Qed.

Lemma sum_list_with_0 (f : A → nat) (l : list A) :
  sum_list_with f l = 0%nat → Forall (λ x, f x = 0%nat) l.
Proof. induction l as [|x l IH]; simpl; [done|]. intros. constructor; [lia|apply IH; lia]. Qed.

Lemma sum_list_with_all_0 (f : A → nat) (l : list A) :
  Forall (λ x, f x = 0%nat) l → sum_list_with f l = 0%nat.
Proof. induction 1 as [|x l Hx _ IH]; simpl; [done|]. by rewrite Hx, IH. Qed.

End lists.

(** ** One statement, as an equation *)

Section step_equations.
Context {P : Type} `{!Provider P}.
Implicit Types (s : system P) (t : caller).

Lemma step_RLock topic partition s :
  caller_step (GoFetch topic partition FetchRLock) s
  = if writer (mutex (registry s)) then Panic Deadlock
    else Done (GoFetch topic partition FetchRead,
               set_registry (set_mutex {| writer := false;
                                          readers := S (readers (mutex (registry s))) |}
                               (registry s)) s).
Proof. by destruct s as [[d [[] n]] w]. Qed.

Lemma step_RUnlock topic partition pc s :
  caller_step (GoFetch topic partition (FetchRUnlock pc)) s
  = match readers (mutex (registry s)) with
    | O => Panic UnlockOfUnlocked
    | S n => Done (GoFetch topic partition (FetchReturned pc),
               set_registry (set_mutex {| writer := writer (mutex (registry s));
                                          readers := n |} (registry s)) s)
    end.
Proof. by destruct s as [[d [wr [|n]]] w]. Qed.

Lemma step_Lock t t' s :
  (∃ topic partition pc, t = GoStore topic partition pc StoreLock ∧
     t' = GoStore topic partition pc StoreWrite) ∨
  (∃ ord, t = GoClear ord ClearLock ∧
     t' = GoClear ord (ClearRange (ord (data (registry s))) (ord (data (registry s))))) →
  caller_step t s
  = if decide (mutex (registry s) = RWMutex_free)
    then Done (t', set_registry (set_mutex {| writer := true; readers := 0 |} (registry s)) s)
    else Panic Deadlock.
Proof.
  intros [(? & ? & ? & -> & ->)|(? & -> & ->)]; by destruct s as [[d [[] [|n]]] w].
Qed.

Lemma step_Unlock t t' s :
  (∃ topic partition pc, t = GoStore topic partition pc StoreUnlock ∧
     t' = GoStore topic partition pc StoreReturned) ∨
  (∃ ord tps, t = GoClear ord (ClearUnlock tps) ∧ t' = GoClear ord (ClearReturned tps)) →
  caller_step t s
  = if writer (mutex (registry s))
    then Done (t', set_registry (set_mutex {| writer := false;
                                             readers := readers (mutex (registry s)) |}
                                  (registry s)) s)
    else Panic UnlockOfUnlocked.
Proof.
  intros [(? & ? & ? & -> & ->)|(? & ? & -> & ->)]; by destruct s as [[d [[] n]] w].
Qed.

(** A goroutine that has returned runs nothing. *)
Lemma step_returned t s : call_returned t → caller_step t s = Done (t, s).
Proof. by destruct t as [? ? []|? ? ? []|? []]. Qed.

End step_equations.

(** ** What the lock owns *)

Section lock_lemmas.
Implicit Types (t u : caller) (ts : list caller) (m : partitionMap)
  (d : gmap topicPartition cref).

Lemma seen_out t d : within t = false → seen t d.
Proof. by destruct t as [? ? []|? ? ? []|? []]. Qed.

Lemma within_reads t : (reads t = 1 → within t = true)%nat.
Proof. unfold within. intros ->. by rewrite orb_true_r. Qed.

Lemma within_writes t : writes t = true → within t = true.
Proof. unfold within. by intros ->. Qed.

Lemma reads_out t : within t = false → reads t = 0%nat.
Proof. by destruct t as [? ? []|? ? ? []|? []]. Qed.

Lemma writes_out t : within t = false → writes t = false.
Proof. by destruct t as [? ? []|? ? ? []|? []]. Qed.

Lemma at_start_out t : at_start t → within t = false.
Proof. by destruct t as [? ? []|? ? ? []|? []]; intros []. Qed.

Lemma at_start_not_returned t : at_start t → ¬ call_returned t.
Proof. destruct t as [? ? []|? ? ? []|? []]; intros []; by intros []. Qed.

(** A reader inside: no writer is. *)
Lemma rw_inv_reader ts m d i t :
  rw_inv ts m d → ts !! i = Some t → reads t = 1%nat →
  writer (mutex m) = false ∧ data m = d ∧
  readers (mutex m) = sum_list_with reads ts ∧ seen t d.
Proof.
  unfold rw_inv. intros Hinv Hi Ht. destruct (writer (mutex m)).
  - destruct Hinv as (_ & j & u & Hj & Hu & _ & Huniq).
    assert (i = j) as -> by eauto using within_reads. rewrite Hi in Hj.
    injection Hj as <-. by destruct t as [? ? []|? ? ? []|? []].
  - destruct Hinv as (? & ? & Hall). by destruct (Forall_lookup_1 _ _ _ _ Hall Hi).
Qed.

(** A writer inside: nobody else is. *)
Lemma rw_inv_writer ts m d i t :
  rw_inv ts m d → ts !! i = Some t → writes t = true →
  mutex m = {| writer := true; readers := 0 |} ∧ finish t (data m) = method_effect t d ∧
  ∀ j u, ts !! j = Some u → within u = true → j = i.
Proof.
  unfold rw_inv. intros Hinv Hi Ht. destruct (mutex m) as [[] n]; simpl in *.
  - destruct Hinv as (-> & j & u & Hj & Hu & ? & Huniq).
    assert (i = j) as -> by eauto using within_writes. rewrite Hi in Hj.
    by injection Hj as <-.
  - destruct Hinv as (_ & _ & Hall). destruct (Forall_lookup_1 _ _ _ _ Hall Hi). congruence.
Qed.

(** With the lock free nobody is inside. *)
Lemma rw_inv_free ts m d :
  rw_inv ts m d → mutex m = RWMutex_free →
  data m = d ∧ Forall (λ u, within u = false) ts.
Proof.
  unfold rw_inv. intros Hinv Hm. rewrite Hm in Hinv. simpl in Hinv.
  destruct Hinv as (? & Hsum & Hall).
  split; [done|]. symmetry in Hsum. apply sum_list_with_0 in Hsum.
  apply Forall_forall. intros u Hu. unfold within.
  rewrite (proj1 (proj1 (Forall_forall _ _) Hall u Hu)),
    (proj1 (Forall_forall _ _) Hsum u Hu). done.
Qed.

(** A statement of a goroutine with no writer inside: the lock counts the
    readers. *)
Lemma rw_inv_shared ts m m' d i t t' :
  rw_inv ts m d → writer (mutex m) = false → ts !! i = Some t →
  data m' = data m → writer (mutex m') = false →
  (readers (mutex m') + reads t = readers (mutex m) + reads t')%nat →
  writes t' = false → seen t' d →
  rw_inv (<[i := t']> ts) m' d.
Proof.
  unfold rw_inv. intros Hinv Hm Hi Hd Hm' Hn Hw Hseen. rewrite Hm in Hinv.
  rewrite Hm', Hd. destruct Hinv as (? & Hsum & Hall).
  split_and!; [done| |by apply Forall_insert].
  pose proof (sum_list_insert reads ts i t t' Hi). lia.
Qed.

(** [Lock] on a free lock. *)
Lemma rw_inv_acquire ts m d i t t' :
  rw_inv ts m d → mutex m = RWMutex_free → ts !! i = Some t →
  writes t' = true → finish t' d = method_effect t' d →
  rw_inv (<[i := t']> ts) (set_mutex {| writer := true; readers := 0 |} m) d.
Proof.
  intros Hinv Hm Hi Hw Hfin. destruct (rw_inv_free ts m d Hinv Hm) as [Hd Hout].
  unfold rw_inv. simpl. split; [done|]. exists i, t'.
  rewrite list_lookup_insert_eq by (by eapply lookup_lt_Some). rewrite Hd.
  split_and!; [done..|]. intros j u Hj Hu. destruct (decide (j = i)) as [|Hne]; [done|].
  rewrite list_lookup_insert_ne in Hj by done.
  pose proof (Forall_lookup_1 _ _ _ _ Hout Hj). simpl in *. congruence.
Qed.

(** A statement of the writer inside. *)
Lemma rw_inv_held ts m m' d i t t' :
  rw_inv ts m d → ts !! i = Some t → writes t = true → writes t' = true →
  mutex m' = mutex m → finish t' (data m') = finish t (data m) → method_effect t' d = method_effect t d →
  rw_inv (<[i := t']> ts) m' d.
Proof.
  intros Hinv Hi Ht Ht' Hm Hfin Heff.
  destruct (rw_inv_writer ts m d i t Hinv Hi Ht) as (Hrw & Hd & Huniq).
  unfold rw_inv. rewrite Hm, Hrw. simpl. split; [done|]. exists i, t'.
  rewrite list_lookup_insert_eq by (by eapply lookup_lt_Some).
  split_and!; [done..|congruence|]. intros j u Hj Hu.
  destruct (decide (j = i)) as [|Hne]; [done|].
  rewrite list_lookup_insert_ne in Hj by done. eauto.
Qed.

(** [Unlock] by the writer inside: the map is what its method makes. *)
Lemma rw_inv_release ts m d i t t' :
  rw_inv ts m d → ts !! i = Some t → writes t = true → finish t (data m) = data m →
  within t' = false →
  rw_inv (<[i := t']> ts) (set_mutex RWMutex_free m) (method_effect t d).
Proof.
  intros Hinv Hi Ht Hfin Ht'.
  destruct (rw_inv_writer ts m d i t Hinv Hi Ht) as (Hrw & Hd & Huniq).
  assert (Forall (λ u, within u = false) (<[i := t']> ts)) as Hout.
  { apply Forall_lookup. intros j u Hj. destruct (decide (j = i)) as [->|Hne].
    - rewrite list_lookup_insert_eq in Hj by (by eapply lookup_lt_Some). congruence.
    - rewrite list_lookup_insert_ne in Hj by done.
      destruct (within u) eqn:Hu; [|done]. by destruct Hne; eauto. }
  unfold rw_inv. simpl. split_and!.
  - congruence.
  - symmetry. apply sum_list_with_all_0. eapply Forall_impl; [done|]. apply reads_out.
  - eapply Forall_impl; [done|]. intros u Hu. split; [by apply writes_out|by apply seen_out].
Qed.

End lock_lemmas.

(** ** The invariant is kept *)

Section preservation.
Context {P : Type} `{!Provider P} (s0 : system P).
Implicit Types (s σ : system P) (t u : caller) (ts : list caller) (cfg : crowd P)
  (d : gmap topicPartition cref).

Lemma run_in_turn_snoc ms vs m v s σ σ' :
  run_in_turn ms s = Done (vs, σ) → run_method m σ = Done (v, σ') →
  run_in_turn (ms ++ [m]) s = Done (vs ++ [v], σ').
Proof.
  revert vs s. induction ms as [|m1 ms IH]; intros vs s; simpl.
  - intros [= <- <-] Hm. by rewrite (exec_bind_done _ _ _ _ _ Hm).
  - intros (v1 & s1 & Hm1 & (vs1 & s2 & Hms & [= <- <-])%exec_bind_inv)%exec_bind_inv Hm.
    rewrite (exec_bind_done _ _ _ _ _ Hm1), (exec_bind_done _ _ _ _ _ (IH _ _ Hms Hm)).
    done.
Qed.

(** The method of a goroutine that has returned, run alone on a free
    registry: it returns what the goroutine returned when the pointer a
    [Fetch] read is the one the registry has, and leaves the map [method_effect]
    gives. *)
Lemma run_method_effect t σ :
  free σ → call_returned t → seen_on_return t (data (registry σ)) →
  run_method (method_of t) σ
  = Done (value_of t, set_registry (set_data (method_effect t (data (registry σ))) (registry σ)) σ).
Proof.
  intros Hσ Ht Hseen. destruct t as [? ? []|? ? ? []|? []]; try done; simpl in *.
  - unfold fmap, exec_fmap. rewrite Fetch_exec by done. unfold data_at. rewrite Hseen.
    do 2 f_equal. by apply system_eq.
  - by rewrite (exec_bind_done _ _ _ _ _ (Store_exec _ _ _ _ Hσ)).
  - by rewrite (exec_bind_done _ _ _ _ _ (Clear_exec _ _ Hσ)).
Qed.

(** A statement that is no return keeps the invariant when the lock
    still owns the map. *)
Lemma crowd_inv_quiet cfg i t t' s' :
  crowd_inv s0 cfg → callers cfg !! i = Some t → ¬ call_returned t → ¬ call_returned t' →
  objects s' = objects (sys cfg) →
  (∀ d, rw_inv (callers cfg) (registry (sys cfg)) d →
        rw_inv (<[i := t']> (callers cfg)) (registry s') d) →
  crowd_inv s0 {| callers := <[i := t']> (callers cfg); sys := s'; history := history cfg |}.
Proof.
  intros (σ & Hσ & Hobj & Hrun & Hrw & Hperm) Hi Ht Ht' Hobj' Hkeep.
  exists σ. simpl. split_and!; [done|congruence|done|by apply Hkeep|].
  rewrite (filter_insert_fresh call_returned _ _ i t t' Hi Ht), decide_False by done.
  by rewrite app_nil_r.
Qed.

(** A return keeps the invariant when the method, run alone on the map the
    returned methods left, returns the same value, and the lock owns the
    map it makes. *)
Lemma crowd_inv_return cfg i t t' s' :
  crowd_inv s0 cfg → callers cfg !! i = Some t → ¬ call_returned t → call_returned t' →
  objects s' = objects (sys cfg) →
  (∀ d, rw_inv (callers cfg) (registry (sys cfg)) d →
        seen_on_return t' d ∧ rw_inv (<[i := t']> (callers cfg)) (registry s') (method_effect t' d)) →
  crowd_inv s0 {| callers := <[i := t']> (callers cfg); sys := s';
                  history := history cfg ++ [(method_of t', value_of t')] |}.
Proof.
  intros (σ & Hσ & Hobj & Hrun & Hrw & Hperm) Hi Ht Ht' Hobj' Hkeep.
  destruct (Hkeep _ Hrw) as [Hseen Hrw'].
  exists (set_registry (set_data (method_effect t' (data (registry σ))) (registry σ)) σ).
  simpl. split_and!; [done|congruence| |done|].
  - rewrite !fmap_app. eapply run_in_turn_snoc; [done|]. by apply run_method_effect.
  - rewrite (filter_insert_fresh call_returned _ _ i t t' Hi Ht), decide_True by done.
    by rewrite Hperm.
Qed.

Lemma crowd_step_waits cfg i t :
  callers cfg !! i = Some t → caller_step t (sys cfg) = Panic Deadlock →
  crowd_step i cfg = Done (tt, cfg).
Proof. unfold crowd_step. by intros -> ->. Qed.

Lemma reads_le_sum ts i t : ts !! i = Some t → (reads t ≤ sum_list_with reads ts)%nat.
Proof.
  intros Hi. rewrite <-(take_drop_middle ts i t Hi), sum_list_with_app. simpl. lia.
Qed.

(** The invariant, read off for the registry. *)
Lemma crowd_inv_rw cfg : crowd_inv s0 cfg → ∃ d, rw_inv (callers cfg) (registry (sys cfg)) d.
Proof. intros (σ & _ & _ & _ & Hrw & _). eauto. Qed.

Lemma crowd_step_Fetch cfg i topic partition at_ :
  crowd_inv s0 cfg → callers cfg !! i = Some (GoFetch topic partition at_) →
  ∃ cfg', crowd_step i cfg = Done (tt, cfg') ∧ crowd_inv s0 cfg'.
Proof.
  intros Hinv Hi. destruct (crowd_inv_rw cfg Hinv) as [d0 Hrw0]. destruct at_ as [| |pc|pc].
  - destruct (writer (mutex (registry (sys cfg)))) eqn:Hw.
    { exists cfg. split; [|done]. eapply crowd_step_waits; [done|]. by rewrite step_RLock, Hw. }
    unfold crowd_step. rewrite Hi, step_RLock, Hw. eexists. split; [done|]. simpl.
    eapply crowd_inv_quiet; [done..|by intros []|by intros []|done|]. intros d Hrw.
    eapply rw_inv_shared; [done..|simpl; lia|done|done].
  - unfold crowd_step. rewrite Hi. eexists. split; [done|]. simpl.
    eapply crowd_inv_quiet; [done..|by intros []|by intros []|done|]. intros d Hrw.
    destruct (rw_inv_reader _ _ _ i _ Hrw Hi) as (Hw & Hd & _); [done|].
    eapply rw_inv_shared; [done..|simpl; lia|done|]. simpl. unfold data_at. by rewrite Hd.
  - destruct (rw_inv_reader _ _ _ i _ Hrw0 Hi) as (Hw & _ & Hn & _); [done|].
    pose proof (reads_le_sum _ _ _ Hi) as Hle.
    unfold crowd_step. rewrite Hi, step_RUnlock.
    destruct (readers (mutex (registry (sys cfg)))) as [|n] eqn:Hrd; [simpl in Hle; lia|].
    eexists. split; [done|]. simpl.
    eapply crowd_inv_return; [done..|by intros []|done|done|]. intros d Hrw.
    destruct (rw_inv_reader _ _ _ i _ Hrw Hi) as (_ & _ & _ & Hseen); [done|].
    split; [done|]. eapply rw_inv_shared; [done..|simpl; lia|done|done].
  - exists cfg. unfold crowd_step. rewrite Hi. simpl. rewrite list_insert_id by done.
    by destruct cfg.
Qed.

Lemma crowd_step_Lock cfg i t t' :
  crowd_inv s0 cfg → callers cfg !! i = Some t →
  (∃ topic partition pc, t = GoStore topic partition pc StoreLock ∧
     t' = GoStore topic partition pc StoreWrite) ∨
  (∃ ord, t = GoClear ord ClearLock ∧
     t' = GoClear ord (ClearRange (ord (data (registry (sys cfg))))
                                  (ord (data (registry (sys cfg)))))) →
  ∃ cfg', crowd_step i cfg = Done (tt, cfg') ∧ crowd_inv s0 cfg'.
Proof.
  intros Hinv Hi Ht. pose proof (step_Lock t t' (sys cfg) Ht) as Hstep.
  destruct (decide (mutex (registry (sys cfg)) = RWMutex_free)) as [Hm|Hm];
    [|exists cfg; split; [by eapply crowd_step_waits|done]].
  unfold crowd_step. rewrite Hi, Hstep.
  assert (¬ call_returned t ∧ ¬ call_returned t' ∧ writes t' = true ∧
          ∀ d, finish t' d = method_effect t' d) as (? & ? & ? & ?)
    by (destruct Ht as [(? & ? & ? & -> & ->)|(? & -> & ->)]; split_and!; auto).
  rewrite decide_False by tauto. eexists. split; [done|].
  eapply crowd_inv_quiet; [done..|]. intros d Hrw. by eapply rw_inv_acquire.
Qed.

Lemma crowd_step_Unlock cfg i t t' :
  crowd_inv s0 cfg → callers cfg !! i = Some t →
  (∃ topic partition pc, t = GoStore topic partition pc StoreUnlock ∧
     t' = GoStore topic partition pc StoreReturned) ∨
  (∃ ord tps, t = GoClear ord (ClearUnlock tps) ∧ t' = GoClear ord (ClearReturned tps)) →
  ∃ cfg', crowd_step i cfg = Done (tt, cfg') ∧ crowd_inv s0 cfg'.
Proof.
  intros Hinv Hi Ht. pose proof (step_Unlock t t' (sys cfg) Ht) as Hstep.
  assert (¬ call_returned t ∧ call_returned t' ∧ writes t = true ∧ within t' = false ∧
          (∀ d, method_effect t' d = method_effect t d) ∧ ∀ d, finish t d = d) as (? & ? & Hw & ? & Heff & ?)
    by (destruct Ht as [(? & ? & ? & -> & ->)|(? & ? & -> & ->)]; split_and!; try done; auto).
  destruct (crowd_inv_rw cfg Hinv) as [d0 Hrw0].
  destruct (rw_inv_writer _ _ _ i t Hrw0 Hi Hw) as (Hm & _).
  rewrite Hm in Hstep. cbn [writer readers] in Hstep.
  unfold crowd_step. rewrite Hi, Hstep, decide_True by tauto.
  eexists. split; [done|]. eapply crowd_inv_return; [done..|]. intros d Hrw.
  split; [by destruct Ht as [(? & ? & ? & -> & ->)|(? & ? & -> & ->)]|].
  rewrite Heff. by apply rw_inv_release.
Qed.

(** A statement of a writer between [Lock] and [Unlock]. *)
Lemma crowd_step_write cfg i t t' s' :
  crowd_inv s0 cfg → callers cfg !! i = Some t →
  caller_step t (sys cfg) = Done (t', s') →
  writes t = true → writes t' = true → ¬ call_returned t → ¬ call_returned t' →
  objects s' = objects (sys cfg) → mutex (registry s') = mutex (registry (sys cfg)) →
  finish t' (data (registry s')) = finish t (data (registry (sys cfg))) →
  (∀ d, method_effect t' d = method_effect t d) →
  ∃ cfg', crowd_step i cfg = Done (tt, cfg') ∧ crowd_inv s0 cfg'.
Proof.
  intros Hinv Hi Hstep Ht Ht' Hr Hr' Hobj Hm Hfin Heff.
  unfold crowd_step. rewrite Hi, Hstep, decide_False by tauto.
  eexists. split; [done|]. eapply crowd_inv_quiet; [done..|]. intros d Hrw.
  eapply rw_inv_held; [done..|by rewrite Heff].
Qed.

(** Every statement the scheduler runs returns or waits, and keeps the
    invariant. *)
Lemma crowd_step_inv cfg i :
  crowd_inv s0 cfg → ∃ cfg', crowd_step i cfg = Done (tt, cfg') ∧ crowd_inv s0 cfg'.
Proof.
  intros Hinv. destruct (callers cfg !! i) as [t|] eqn:Hi;
    [|exists cfg; unfold crowd_step; by rewrite Hi].
  destruct t as [topic partition at_|topic partition pc []|ord [|tps [|tp rest]|tps|tps]].
  - by eapply crowd_step_Fetch.
  - eapply crowd_step_Lock; [done..|]. left. by eexists _, _, _.
  - eapply crowd_step_write; [done|done|reflexivity|done|done|by intros []..|done|done|done|done].
  - eapply crowd_step_Unlock; [done..|]. left. by eexists _, _, _.
  - exists cfg. unfold crowd_step. rewrite Hi. simpl. rewrite list_insert_id by done.
    by destruct cfg.
  - eapply crowd_step_Lock; [done..|]. right. by eexists.
  - eapply crowd_step_write; [done|done|reflexivity|done|done|by intros []..|done|done|done|done].
  - eapply crowd_step_write; [done|done|reflexivity|done|done|by intros []..|done|done|done|done].
  - eapply crowd_step_Unlock; [done..|]. right. by eexists _, _.
  - exists cfg. unfold crowd_step. rewrite Hi. simpl. rewrite list_insert_id by done.
    by destruct cfg.
Qed.

Lemma run_crowd_inv sched cfg :
  crowd_inv s0 cfg → ∃ cfg', run_crowd sched cfg = Done (tt, cfg') ∧ crowd_inv s0 cfg'.
Proof.
  revert cfg. induction sched as [|i sched IH]; intros cfg Hinv; [by exists cfg|].
  destruct (crowd_step_inv cfg i Hinv) as (cfg1 & Hstep & Hinv1).
  destruct (IH cfg1 Hinv1) as (cfg' & Hrun & Hinv'). exists cfg'.
  split; [|done]. unfold run_crowd. cbn [for_each].
  by rewrite (exec_bind_done _ _ _ _ _ Hstep).
Qed.

(** The invariant holds when the goroutines start. *)
Lemma crowd_inv_init ts : convened s0 ts → crowd_inv s0 (crowd_init ts s0).
Proof.
  intros [Hfree Hts]. exists s0. simpl. split_and!; [done..| |].
  - unfold rw_inv. rewrite Hfree. simpl. split_and!; [done| |].
    + symmetry. apply sum_list_with_all_0. eapply Forall_impl; [done|].
      intros t Ht. by apply reads_out, at_start_out.
    + eapply Forall_impl; [done|]. intros t Ht%at_start_out.
      split; [by apply writes_out|by apply seen_out].
  - rewrite filter_none; [done|]. eapply Forall_impl; [done|]. apply at_start_not_returned.
Qed.

(** With every goroutine back the lock is free, and the registry is the
    one the methods leave, run in turn. *)
Lemma crowd_inv_back cfg :
  crowd_inv s0 cfg → all_back cfg →
  free (sys cfg) ∧ run_in_turn (history cfg).*1 s0 = Done ((history cfg).*2, sys cfg).
Proof.
  intros (σ & Hσ & Hobj & Hrun & Hrw & _) Hall.
  assert (Forall (λ u, within u = false) (callers cfg)) as Hout
    by (eapply Forall_impl; [exact Hall|]; by intros [? ? []|? ? ? []|? []]).
  unfold rw_inv, free in *.
  destruct (mutex (registry (sys cfg))) as [[] n] eqn:Hm; simpl in Hrw.
  - destruct Hrw as (_ & i & t & Hi & Ht & _).
    pose proof (Forall_lookup_1 _ _ _ _ Hout Hi) as Hno. apply writes_out in Hno. congruence.
  - destruct Hrw as (Hd & -> & _). rewrite sum_list_with_all_0 in Hm |- *
      by (eapply Forall_impl; [exact Hout|]; apply reads_out).
    split; [done|]. rewrite Hrun. do 2 f_equal. apply system_eq; [done| |done].
    by rewrite Hσ, Hm.
Qed.

(** A goroutine inside has a statement to run, and does not wait. *)
Lemma within_can_move cfg i t :
  crowd_inv s0 cfg → callers cfg !! i = Some t → within t = true → can_move cfg i.
Proof.
  intros Hinv Hi Ht. destruct (crowd_inv_rw cfg Hinv) as [d Hrw].
  exists t. destruct t as [topic partition []|topic partition pc []|ord [|tps [|tp rest]|tps|tps]];
    try done.
  1,3,5,6: eexists _, _; split_and!; [done|by intros []|reflexivity].
  - destruct (rw_inv_reader _ _ _ i _ Hrw Hi) as (_ & _ & Hn & _); [done|].
    pose proof (reads_le_sum _ _ _ Hi) as Hle. simpl in Hle.
    destruct (readers (mutex (registry (sys cfg)))) as [|n] eqn:Hrd; [lia|].
    eexists _, _. split_and!; [done|by intros []|]. by rewrite step_RUnlock, Hrd.
  - destruct (rw_inv_writer _ _ _ i _ Hrw Hi) as (Hm & _); [done|].
    eexists _, _. split_and!; [done|by intros []|].
    rewrite (step_Unlock _ (GoStore topic partition pc StoreReturned)), Hm;
      [done|left; by eexists _, _, _].
  - destruct (rw_inv_writer _ _ _ i _ Hrw Hi) as (Hm & _); [done|].
    eexists _, _. split_and!; [done|by intros []|].
    rewrite (step_Unlock _ (GoClear ord (ClearReturned tps))), Hm;
      [done|right; by eexists _, _].
Qed.

(** With the lock free a goroutine that has not returned takes it. *)
Lemma free_can_move cfg i t :
  free (sys cfg) → callers cfg !! i = Some t → ¬ call_returned t → within t = false →
  can_move cfg i.
Proof.
  unfold free. intros Hm Hi Ht Hout. exists t.
  destruct t as [topic partition []|topic partition pc []|ord []]; try done; try by destruct Ht.
  - eexists _, _. split_and!; [done..|]. by rewrite step_RLock, Hm.
  - eexists _, _. split_and!; [done..|].
    rewrite (step_Lock _ (GoStore topic partition pc StoreWrite))
      by (left; by eexists _, _, _). by rewrite decide_True.
  - eexists _, _. split_and!; [done..|].
    rewrite (step_Lock _ (GoClear ord (ClearRange _ _))) by (right; by eexists).
    by rewrite decide_True.
Qed.

(** Until every goroutine has returned, one of them has a statement to
    run and does not wait. *)
Lemma crowd_progress cfg : crowd_inv s0 cfg → ¬ all_back cfg → ∃ i, can_move cfg i.
Proof.
  intros Hinv (t & [i Hi]%list_elem_of_lookup & Ht)%not_Forall_Exists%Exists_exists;
    [|apply _].
  destruct (decide (Forall (λ u, within u = false) (callers cfg))) as [Hout|Hin].
  - exists i. eapply free_can_move; [|done..|by eapply Forall_lookup_1 in Hout].
    destruct (crowd_inv_rw cfg Hinv) as [d Hrw]. unfold rw_inv, free in *.
    destruct (mutex (registry (sys cfg))) as [[] n] eqn:Hm; simpl in Hrw.
    + destruct Hrw as (_ & j & u & Hj & Hu & _).
      pose proof (Forall_lookup_1 _ _ _ _ Hout Hj) as Hno. apply writes_out in Hno.
      congruence.
    + destruct Hrw as (_ & -> & _). rewrite sum_list_with_all_0; [done|].
      eapply Forall_impl; [exact Hout|]. apply reads_out.
  - apply not_Forall_Exists in Hin; [|apply _].
    apply Exists_exists in Hin as (u & [j Hj]%list_elem_of_lookup & Hu).
    exists j. eapply within_can_move; [done..|]. simpl in Hu. by destruct (within u).
Qed.

(** With a writer inside, every other goroutine waits or has returned. *)
Lemma writer_blocks_others cfg i j t u :
  crowd_inv s0 cfg → callers cfg !! i = Some t → writes t = true →
  callers cfg !! j = Some u → i ≠ j →
  caller_step u (sys cfg) = Panic Deadlock ∨ call_returned u.
Proof.
  intros Hinv Hi Ht Hj Hne. destruct (crowd_inv_rw cfg Hinv) as [d Hrw].
  destruct (rw_inv_writer _ _ _ i t Hrw Hi Ht) as (Hm & _ & Huniq).
  destruct (within u) eqn:Hu; [by destruct Hne; symmetry; eauto|].
  destruct u as [topic partition []|topic partition pc []|ord []]; try done;
    try (right; exact I).
  - left. by rewrite step_RLock, Hm.
  - left. rewrite (step_Lock _ (GoStore topic partition pc StoreWrite))
      by (left; by eexists _, _, _). by rewrite decide_False by (by rewrite Hm).
  - left. rewrite (step_Lock _ (GoClear ord (ClearRange _ _))) by (right; by eexists).
    by rewrite decide_False by (by rewrite Hm).
Qed.

(** With a reader inside, a goroutine at [Lock] waits: [Store] and
    [Clear] do not start while a [Fetch] reads. *)
Lemma readers_block_writers cfg i j t u :
  crowd_inv s0 cfg → callers cfg !! i = Some t → reads t = 1%nat →
  callers cfg !! j = Some u → at_start u →
  (∀ topic partition, u ≠ GoFetch topic partition FetchRLock) →
  caller_step u (sys cfg) = Panic Deadlock.
Proof.
  intros Hinv Hi Ht Hj Hu Hw. destruct (crowd_inv_rw cfg Hinv) as [d Hrw].
  destruct (rw_inv_reader _ _ _ i t Hrw Hi Ht) as (_ & _ & Hn & _).
  pose proof (reads_le_sum _ _ _ Hi) as Hle.
  assert (mutex (registry (sys cfg)) ≠ RWMutex_free) as Hm
    by (intros Hm; rewrite Hm in Hn; simpl in Hn; lia).
  destruct u as [topic partition []|topic partition pc []|ord []]; try by destruct Hu.
  - by destruct (Hw topic partition).
  - rewrite (step_Lock _ (GoStore topic partition pc StoreWrite))
      by (left; by eexists _, _, _). by rewrite decide_False.
  - rewrite (step_Lock _ (GoClear ord (ClearRange _ _))) by (right; by eexists).
    by rewrite decide_False.
Qed.

(** A statement of a [Clear] leaves among the keys to visit the keys the
    map has, when the [range] visits each key once. *)
Lemma caller_step_cleared t s t' s' :
  caller_step t s = Done (t', s') → range_order t → cleared t (data (registry s)) →
  cleared t' (data (registry s')).
Proof.
  destruct t as [? ? []|? ? ? []|ord [|? [|tp rest]| |]], s as [[d [[] [|n]]] w];
    intros [= <- <-] Hord Hd; simpl in *; try done.
  all: first [ rewrite dom_delete_L; set_solver
             | apply dom_empty_inv_L; set_solver
             | intros tp; rewrite elem_of_list_to_set, (Hord d); by rewrite elem_of_elements ].
Qed.

(** Every [Clear] that is inside has left among the keys to visit the keys
    the map has. *)
Lemma crowd_step_cleared cfg i cfg' :
  crowd_inv s0 cfg → crowd_step i cfg = Done (tt, cfg') →
  Forall range_order (callers cfg) →
  Forall (λ t, cleared t (data (registry (sys cfg)))) (callers cfg) →
  Forall (λ t, cleared t (data (registry (sys cfg')))) (callers cfg').
Proof.
  intros Hinv Hstep Hord Hall. unfold crowd_step in Hstep.
  destruct (callers cfg !! i) as [t|] eqn:Hi; [|by simplify_eq].
  destruct (caller_step t (sys cfg)) as [[t' s']|e] eqn:Ht; [|by destruct e; simplify_eq].
  simplify_eq. simpl. apply Forall_lookup. intros j u Hj.
  destruct (decide (j = i)) as [->|Hne].
  - rewrite list_lookup_insert_eq in Hj by (by eapply lookup_lt_Some).
    injection Hj as <-. eapply caller_step_cleared; [done|..];
      [by eapply Forall_lookup_1 in Hord|by eapply Forall_lookup_1 in Hall].
  - rewrite list_lookup_insert_ne in Hj by done.
    pose proof (Forall_lookup_1 _ _ _ _ Hall Hj) as Hu.
    destruct (writes u) eqn:Hw; [|by destruct u as [? ? []|? ? ? []|? []]].
    destruct (writer_blocks_others cfg j i u t Hinv Hj Hw Hi Hne) as [Hwait|Hret];
      [congruence|]. rewrite (step_returned _ _ Hret) in Ht. by injection Ht as <- <-.
Qed.

End preservation.

(** ** Termination *)

Section termination.
Context {P : Type} `{!Provider P}.
Implicit Types (s : system P) (t u : caller) (cfg : crowd P).

Lemma size_dom_insert (d : gmap topicPartition cref) tp pc :
  (size (dom (<[tp := pc]> d)) ≤ S (size (dom d)))%nat.
Proof.
  rewrite dom_insert_L, size_union_alt, size_singleton.
  apply le_n_S, subseteq_size. set_solver.
Qed.

Lemma size_dom_delete (d : gmap topicPartition cref) tp :
  (size (dom (delete tp d)) ≤ size (dom d))%nat.
Proof. rewrite dom_delete_L. apply subseteq_size. set_solver. Qed.

(** A statement adds no key that was not to be stored. *)
Lemma caller_step_room t s t' s' :
  caller_step t s = Done (t', s') →
  (size (dom (data (registry s'))) + stores_ahead t'
   ≤ size (dom (data (registry s))) + stores_ahead t)%nat.
Proof.
  destruct t as [? ? []|? ? ? []|? [|? [|tp rest]| |]], s as [[d [[] [|n]]] w];
    intros [= <- <-]; simpl; try lia.
  all: first [pose proof (size_dom_insert d {| Topic := topic; Partition := partition |} pc)
             |pose proof (size_dom_delete d tp)]; lia.
Qed.

(** The order of a [range] stays the one the goroutine has. *)
Lemma caller_step_order t s t' s' :
  caller_step t s = Done (t', s') → range_order t → range_order t'.
Proof.
  destruct t as [? ? []|? ? ? []|? [|? [|tp rest]| |]], s as [[d [[] [|n]]] w];
    by intros [= <- <-].
Qed.

(** A statement of a goroutine that does not wait leaves it fewer
    statements to run. *)
Lemma caller_step_weight B t s t' s' :
  caller_step t s = Done (t', s') → ¬ call_returned t → range_order t →
  (size (dom (data (registry s))) ≤ B)%nat →
  (calls_left B t' < calls_left B t)%nat.
Proof.
  destruct t as [? ? []|? ? ? []|ord [|? [|tp rest]| |]], s as [[d [[] [|n]]] w];
    intros [= <- <-] Ht Hord HB; simpl in *; try lia; try by destruct Ht.
  all: rewrite (Permutation_length (Hord d)); unfold size, set_size in HB; simpl in HB; lia.
Qed.

Lemma crowd_step_room i cfg cfg' :
  crowd_step i cfg = Done (tt, cfg') →
  (room cfg' ≤ room cfg)%nat ∧
  (Forall range_order (callers cfg) → Forall range_order (callers cfg')).
Proof.
  unfold crowd_step. destruct (callers cfg !! i) as [t|] eqn:Hi; [|by intros [= <-]].
  destruct (caller_step t (sys cfg)) as [[t' s']|e] eqn:Hstep;
    [|by destruct e; intros [= <-]].
  intros [= <-]. unfold room. simpl. split.
  - pose proof (caller_step_room _ _ _ _ Hstep).
    pose proof (sum_list_insert stores_ahead _ i t t' Hi). lia.
  - intros Hall. apply Forall_insert; [done|].
    eapply caller_step_order; [done|]. by eapply Forall_lookup_1 in Hall.
Qed.

Lemma run_crowd_room B sched cfg cfg' :
  run_crowd sched cfg = Done (tt, cfg') →
  (room cfg ≤ B)%nat ∧ Forall range_order (callers cfg) →
  (room cfg' ≤ B)%nat ∧ Forall range_order (callers cfg').
Proof.
  intros Hrun Hcfg.
  apply (for_each_invariant (λ cfg, (room cfg ≤ B)%nat ∧ Forall range_order (callers cfg))
           crowd_step sched cfg cfg'); [|done..].
  intros i c c' _ [? ?] [? ?]%crowd_step_room. split; [lia|auto].
Qed.

(** A statement of a goroutine that does not wait leaves the crowd fewer
    statements to run. *)
Lemma crowd_step_weight B cfg i :
  can_move cfg i → (room cfg ≤ B)%nat → Forall range_order (callers cfg) →
  ∃ cfg', crowd_step i cfg = Done (tt, cfg') ∧ (crowd_weight B cfg' < crowd_weight B cfg)%nat.
Proof.
  intros (t & t' & s' & Hi & Ht & Hstep) HB Hord. unfold crowd_step. rewrite Hi, Hstep.
  eexists. split; [done|]. unfold crowd_weight, room in *. simpl.
  pose proof (sum_list_insert (calls_left B) _ i t t' Hi).
  assert (calls_left B t' < calls_left B t)%nat; [|lia].
  eapply caller_step_weight; [done|done|by eapply Forall_lookup_1 in Hord|lia].
Qed.

(** From wherever the crowd is, a schedule no longer than the statements
    left runs every goroutine to its return. *)
Lemma crowd_returns_within s0 B n cfg :
  crowd_inv s0 cfg → (room cfg ≤ B)%nat → Forall range_order (callers cfg) →
  (crowd_weight B cfg ≤ n)%nat →
  ∃ sched cfg', (length sched ≤ n)%nat ∧ run_crowd sched cfg = Done (tt, cfg') ∧
    all_back cfg'.
Proof.
  revert cfg. induction n as [|n IH]; intros cfg Hinv HB Hord Hn;
    (destruct (decide (all_back cfg)) as [Hall|Hnot];
      [exists [], cfg; split_and!; [simpl; lia|done..]|]);
    destruct (crowd_progress s0 cfg Hinv Hnot) as [i Hi];
    destruct (crowd_step_weight B cfg i Hi HB Hord) as (cfg1 & Hstep & Hlt); [lia|].
  destruct (crowd_step_inv s0 cfg i Hinv) as (? & Hstep' & Hinv1).
  rewrite Hstep in Hstep'. injection Hstep' as <-.
  destruct (crowd_step_room _ _ _ Hstep) as [HB1 Hord1].
  destruct (IH cfg1 Hinv1) as (sched & cfg' & Hlen & Hrun & Hall); [lia|auto|lia|].
  exists (i :: sched), cfg'. split_and!; try done; [simpl; lia|].
  unfold run_crowd. cbn [for_each]. by rewrite (exec_bind_done _ _ _ _ _ Hstep).
Qed.

End termination.

(** ** The theorems *)

Section rwmutex_theorems.
Context {P : Type} `{!Provider P}.
Implicit Types (s : system P) (t u : caller) (ts : list caller) (cfg : crowd P).

(** The invariant holds wherever a run has come to. *)
Lemma convened_run s0 ts sched cfg :
  convened s0 ts → run_crowd sched (crowd_init ts s0) = Done (tt, cfg) → crowd_inv s0 cfg.
Proof.
  intros Hs Hrun.
  destruct (run_crowd_inv s0 sched _ (crowd_inv_init s0 ts Hs)) as (cfg' & Hrun' & Hinv).
  congruence.
Qed.

(** No statement of [Fetch], [Store] or [Clear] panics, in any
    schedule: no goroutine unlocks a lock it does not hold, and a goroutine
    that cannot take the lock waits. *)
Theorem registry_callers_never_panic s0 ts sched :
  convened s0 ts → ∃ cfg, run_crowd sched (crowd_init ts s0) = Done (tt, cfg).
Proof.
  intros Hs.
  destruct (run_crowd_inv s0 sched _ (crowd_inv_init s0 ts Hs)) as (cfg & Hrun & _).
  by exists cfg.
Qed.

(** The methods of the registry are serialised: when every goroutine
    has returned, the registry is the one the methods leave, run one after
    the other in the order of their returns, each [Fetch] has returned the
    pointer it returns in that run, and the lock is free. *)
Theorem registry_serialised s0 ts sched cfg :
  convened s0 ts → run_crowd sched (crowd_init ts s0) = Done (tt, cfg) → all_back cfg →
  run_in_turn (history cfg).*1 s0 = Done ((history cfg).*2, sys cfg) ∧
  history cfg ≡ₚ (λ t, (method_of t, value_of t)) <$> callers cfg ∧
  free (sys cfg).
Proof.
  intros Hs Hrun Hall. pose proof (convened_run _ _ _ _ Hs Hrun) as Hinv.
  destruct (crowd_inv_back s0 cfg Hinv Hall) as [Hfree Hseq]. split_and!; [done| |done].
  destruct Hinv as (_ & _ & _ & _ & _ & Hperm). by rewrite Hperm, filter_all.
Qed.

(** A writer excludes everybody, and readers share: at any point of
    any schedule, a goroutine between [Lock] and [Unlock] is the only one
    inside; with no writer inside the lock counts the goroutines between
    [RLock] and [RUnlock], and a reader holds the pointer the map has. *)
Theorem writer_excludes s0 ts sched cfg :
  convened s0 ts → run_crowd sched (crowd_init ts s0) = Done (tt, cfg) →
  (∀ i j t u, callers cfg !! i = Some t → callers cfg !! j = Some u →
     writes t = true → within u = true → i = j) ∧
  (∀ i t, callers cfg !! i = Some t → reads t = 1%nat →
     mutex (registry (sys cfg))
     = {| writer := false; readers := sum_list_with reads (callers cfg) |} ∧
     seen t (data (registry (sys cfg)))).
Proof.
  intros Hs Hrun. destruct (crowd_inv_rw s0 cfg (convened_run _ _ _ _ Hs Hrun)) as [d Hrw].
  split.
  - intros i j t u Hi Hj Ht Hu.
    destruct (rw_inv_writer _ _ _ i t Hrw Hi Ht) as (_ & _ & Huniq). symmetry. eauto.
  - intros i t Hi Ht. destruct (rw_inv_reader _ _ _ i t Hrw Hi Ht) as (Hw & -> & Hn & ?).
    split; [|done]. destruct (mutex (registry (sys cfg))). simpl in *. congruence.
Qed.

(** The methods return: wherever a run has come to, some goroutine can
    run as long as one has not returned, and a schedule no longer than the
    statements left brings every goroutine to its return, the loop of
    [Clear] included: it visits the keys the registry had and the keys
    stored since, at most. *)
Theorem registry_callers_return s0 ts sched cfg :
  convened s0 ts → Forall range_order ts →
  run_crowd sched (crowd_init ts s0) = Done (tt, cfg) →
  (¬ all_back cfg → ∃ i, can_move cfg i) ∧
  ∃ sched' cfg',
    (length sched' ≤ crowd_weight (room (crowd_init ts s0)) cfg)%nat ∧
    run_crowd sched' cfg = Done (tt, cfg') ∧ all_back cfg'.
Proof.
  intros Hs Hord Hrun. pose proof (convened_run _ _ _ _ Hs Hrun) as Hinv.
  split; [by apply (crowd_progress s0)|].
  destruct (run_crowd_room (room (crowd_init ts s0)) _ _ _ Hrun) as [HB Hord']; [done|].
  by apply (crowd_returns_within s0 (room (crowd_init ts s0)) _ cfg).
Qed.

(** [Clear] removes all entries: a [Clear] that has come to its
    [Unlock] has left the registry empty, whatever the other goroutines
    have stored before it took the lock and try to store since. *)
Theorem Clear_leaves_empty s0 ts sched cfg i ord tps :
  convened s0 ts → Forall range_order ts →
  run_crowd sched (crowd_init ts s0) = Done (tt, cfg) →
  callers cfg !! i = Some (GoClear ord (ClearUnlock tps)) →
  data (registry (sys cfg)) = ∅.
Proof.
  intros Hs Hord Hrun Hi.
  assert (crowd_inv s0 cfg ∧ Forall range_order (callers cfg) ∧
          Forall (λ t, cleared t (data (registry (sys cfg)))) (callers cfg))
    as (_ & _ & Hall).
  { apply (for_each_invariant
      (λ cfg, crowd_inv s0 cfg ∧ Forall range_order (callers cfg) ∧
              Forall (λ t, cleared t (data (registry (sys cfg)))) (callers cfg))
      crowd_step sched (crowd_init ts s0) cfg); [| |done].
    - intros j c c' _ (Hinv & Ho & Hc) Hstep. split_and!.
      + destruct (crowd_step_inv s0 c j Hinv) as (? & ? & ?). congruence.
      + by apply (crowd_step_room j c c').
      + by apply (crowd_step_cleared s0 c j c').
    - split_and!; [by apply crowd_inv_init|done|]. simpl.
      eapply Forall_impl; [exact (proj2 Hs)|]. by intros [? ? []|? ? ? []|? []]. }
  exact (Forall_lookup_1 _ _ _ _ Hall Hi).
Qed.

End rwmutex_theorems.

(** ** The theorems at work *)

Lemma ex_convened : convened ex_system ex_callers.
Proof. by_decide. Qed.

Lemma ex_range_order : Forall range_order ex_callers.
Proof. unfold ex_callers. repeat (apply Forall_cons_2; [by simpl|]). apply Forall_nil_2. Qed.

Lemma ex_reading_run : run_crowd [0; 3; 1; 0; 1]%nat ex_crowd = Done (tt, ex_reading).
Proof. by vm_compute. Qed.

Lemma ex_clearing_run : run_crowd [2; 2; 0; 1; 2]%nat ex_crowd = Done (tt, ex_clearing).
Proof. by vm_compute. Qed.

Lemma ex_back_run : run_crowd (round_robin 14) ex_crowd = Done (tt, ex_back).
Proof. by vm_compute. Qed.

Lemma registry_callers_never_panic_witness :
  ∃ cfg, run_crowd [2; 2; 0; 1; 2]%nat (crowd_init ex_callers ex_system) = Done (tt, cfg).
Proof.
  apply (registry_callers_never_panic ex_system ex_callers [2; 2; 0; 1; 2]%nat), ex_convened.
Defined.

Lemma registry_serialised_witness :
  run_in_turn (history ex_back).*1 ex_system = Done ((history ex_back).*2, sys ex_back) ∧
  history ex_back ≡ₚ (λ t, (method_of t, value_of t)) <$> callers ex_back ∧
  free (sys ex_back).
Proof.
  apply (registry_serialised ex_system ex_callers (round_robin 14) ex_back);
    [apply ex_convened | apply ex_back_run | by_decide].
Defined.

Lemma writer_excludes_witness :
  (∀ i j t u, callers ex_clearing !! i = Some t → callers ex_clearing !! j = Some u →
     writes t = true → within u = true → i = j) ∧
  (∀ i t, callers ex_clearing !! i = Some t → reads t = 1%nat →
     mutex (registry (sys ex_clearing))
     = {| writer := false; readers := sum_list_with reads (callers ex_clearing) |} ∧
     seen t (data (registry (sys ex_clearing)))).
Proof.
  apply (writer_excludes ex_system ex_callers [2; 2; 0; 1; 2]%nat ex_clearing);
    [apply ex_convened | apply ex_clearing_run].
Defined.

Lemma registry_callers_return_witness :
  (¬ all_back ex_reading → ∃ i, can_move ex_reading i) ∧
  ∃ sched' cfg',
    (length sched' ≤ crowd_weight (room (crowd_init ex_callers ex_system)) ex_reading)%nat ∧
    run_crowd sched' ex_reading = Done (tt, cfg') ∧ all_back cfg'.
Proof.
  apply (registry_callers_return ex_system ex_callers [0; 3; 1; 0; 1]%nat ex_reading);
    [apply ex_convened | apply ex_range_order | apply ex_reading_run].
Defined.

Lemma ex_unlocking_run : run_crowd (round_robin 13) ex_crowd = Done (tt, ex_unlocking).
Proof. by vm_compute. Qed.

Lemma Clear_leaves_empty_witness : data (registry (sys ex_unlocking)) = ∅.
Proof.
  apply (Clear_leaves_empty ex_system ex_callers (round_robin 13) ex_unlocking 2
           (λ d, elements (dom d))
           [mkTopicPartition "u" 0; mkTopicPartition "t" 7;
            mkTopicPartition "t" 1; mkTopicPartition "t" 4]);
    [apply ex_convened | apply ex_range_order | apply ex_unlocking_run | by vm_compute].
Defined.

(** Two readers are inside at once, and a writer waits for both. *)
Example readers_share :
  mutex (registry (sys ex_reading)) = {| writer := false; readers := 2 |} ∧
  crowd_step 1 ex_reading = Done (tt, ex_reading).
Proof. by vm_compute. Qed.

(** In the run of [ex_back] both [Store] return after the [Fetch] and
    before the [Clear], which leaves the registry empty. *)
Example ex_back_history :
  (history ex_back).*1
  = [ CallFetch "t" 4; CallFetch "t" 7; CallStore "u" 0 (Some 1%positive);
      CallStore "t" 7 (Some 2%positive);
      CallClear [mkTopicPartition "u" 0; mkTopicPartition "t" 7;
                 mkTopicPartition "t" 1; mkTopicPartition "t" 4] ] ∧
  data (registry (sys ex_back)) = ∅.
Proof. by vm_compute. Qed.
