(* ===== verification/Lifecycle.v ===== *)
(** * Lifecycle: the forwarding loop, Close and Stop as goroutines

    [partitionConsumer.Loop], [partitionConsumer.Close] and
    [partitionMap.Stop] (src/unnamed/part_000) are a protocol between
    goroutines: the loop forwards what the stream yields until the stream
    ends or [dying] is closed, and closes [dead] when it returns; [Close]
    closes the stream, sets [closed], closes [dying] and waits for [dead];
    [Stop] starts one goroutine per key of the registry, each of which
    closes a consumer, and waits for all of them.

    ** Threads

    A goroutine is a [thread]: the method it runs, its receiver and a
    program counter that names the statement it is at ([loop_pc],
    [close_pc], [stop_pc]).  [Loop_step], [Close_step] and [Stop_step] run
    one statement.  A statement that cannot run in the current state (a
    receive on an empty channel, a send nobody takes, a lock that is held,
    a [Wait] on a counter that is not zero) is [Blocked]; a run-time panic
    of a goroutine is a [Crash] of the program.  A [select] picks one of
    its ready cases: the case is part of the [action], so every choice Go
    can make is a run of the model.

    ** State

    The threads share a [shared] state: the [system] of Registry.v
    (registry, consumer objects with their [closed] flag and their [dying]
    and [dead] channels, client state), the channels of each stream of the
    Kafka client, the two channels [Loop] forwards to, and the counters of
    the [sync.WaitGroup]s.  [dying] and [dead] carry no value and are only
    ever closed: each is a flag that says whether it is closed.  A channel
    the loop sends to is a [sink]: whether the application accepts a
    value now, and what it has received, with the consumer that sent it.

    ** The environment

    The Kafka client feeds the streams ([Feed], [FeedError]), the
    application starts and stops receiving ([Accept]), and the callers of
    this code start goroutines ([Go]).  A [run] is a sequence of actions
    of threads and environment.

    The channels of a stream belong to the client library; what
    [pcm.Close()] does to them is modelled from the library's
    documentation: both channels are closed, and the errors still in the
    channel are drained into the result. *)

From S2P Require Import Prelude Heap Offsets Consumer Registry.

#[local] Open Scope Z_scope.

(** ** Channels of the client *)

(** [sarama.ConsumerMessage] *)
Record ConsumerMessage : Set := mkConsumerMessage {
  msg_Topic : string;
  msg_Partition : Z;
  msg_Offset : Z;
}.

#[export] Instance ConsumerMessage_eq_dec : EqDecision ConsumerMessage.
Proof. solve_decision. Defined.

(** The channels [Messages()] and [Errors()] of a partition stream: what
    each holds, and whether the library has closed them. *)
Record stream : Set := mkStream {
  Messages : list ConsumerMessage;
  Errors : list error;
  stream_closed : bool;
}.

#[export] Instance stream_eq_dec : EqDecision stream.
Proof. solve_decision. Defined.

#[export] Instance stream_inhabited : Inhabited stream :=
  populate {| Messages := []; Errors := []; stream_closed := false |}.

Definition set_Messages (ms : list ConsumerMessage) (st : stream) : stream :=
  {| Messages := ms; Errors := Errors st; stream_closed := stream_closed st |}.
Definition set_Errors (es : list error) (st : stream) : stream :=
  {| Messages := Messages st; Errors := es; stream_closed := stream_closed st |}.

(** What [pcm.Close()] leaves of the channels. *)
Definition stream_Close (st : stream) : stream :=
  {| Messages := Messages st; Errors := []; stream_closed := true |}.

(** A channel the loop sends to. *)
Record sink (A : Type) : Type := mkSink {
  accepting : bool;
  received : list A;
}.
Arguments mkSink {A} _ _.
Arguments accepting {A} _.
Arguments received {A} _.

Definition send {A} (a : A) (k : sink A) : sink A :=
  {| accepting := accepting k; received := received k ++ [a] |}.

(** ** Program counters *)

(** The statements of [Loop]: its entry, where [close(c.dead)] is
    deferred; the outer [select]; the inner [select] with the message or
    the error to forward; and its end. *)
Inductive loop_pc : Set :=
| LoopEntry
| LoopSelect
| LoopMessage (msg : ConsumerMessage)
| LoopError (err : error)
| LoopReturned.

(** The statements of [Close]: the test of [c.closed], [c.pcm.Close()],
    [c.closed = true], [close(c.dying)], [<-c.dead], the two [return]s,
    and, for a goroutine of [Stop], the end after [wg.Done()], which
    remembers which of the two [return]s was taken. *)
Inductive close_pc : Set :=
| CloseEntry
| ClosePcm
| CloseFlag (err : option error)
| CloseDying (err : option error)
| CloseWait (err : option error)
| CloseReturnedNil
| CloseReturned (err : option error)
| CloseDone (early : bool).

(** The statements of [Stop]: its entry, the loop over the keys still to
    visit, which ends in [wg.Wait()], and its end. *)
Inductive stop_pc : Set :=
| StopEntry
| StopRange (tps : list topicPartition)
| StopReturned.

#[export] Instance loop_pc_eq_dec : EqDecision loop_pc.
Proof. solve_decision. Defined.
#[export] Instance close_pc_eq_dec : EqDecision close_pc.
Proof. solve_decision. Defined.
#[export] Instance stop_pc_eq_dec : EqDecision stop_pc.
Proof. solve_decision. Defined.

(** The cases of the two [select] statements of [Loop]. *)
Inductive select_case : Set := CaseMessage | CaseError | CaseDying | CaseSend.

#[export] Instance select_case_eq_dec : EqDecision select_case.
Proof. solve_decision. Defined.

(** A goroutine: [c.Loop(messages, errors)]; [c.Close()], called
    directly or by the goroutine of [Stop] that owns the wait group [wg];
    [m.Stop()], whose range visits [tps]. *)
Inductive thread : Set :=
| TLoop (c : cref) (pc : loop_pc)
| TClose (c : cref) (pc : close_pc) (wg : option nat)
| TStop (tps : list topicPartition) (pc : stop_pc).

#[export] Instance thread_eq_dec : EqDecision thread.
Proof. solve_decision. Defined.

(** What running a statement gives. *)
Inductive result (A : Type) : Type :=
| Blocked
| Next (a : A)
| Crash (p : panic).
Arguments Blocked {A}.
Arguments Next {A} a.
Arguments Crash {A} p.

(** ** The shared state *)

Record shared (P : Type) : Type := mkShared {
  sys : PartitionMap.system P;
  streams : gmap handle stream;
  messages : sink (ptr * ConsumerMessage);
  errors : sink (ptr * error);
  wgs : gmap nat nat;
}.
Arguments mkShared {P} _ _ _ _ _.
Arguments sys {P} _.
Arguments streams {P} _.
Arguments messages {P} _.
Arguments errors {P} _.
Arguments wgs {P} _.

Record config (P : Type) : Type := mkConfig {
  state_of_config : shared P;
  threads : gmap nat thread;
}.
Arguments mkConfig {P} _ _.
Arguments state_of_config {P} _.
Arguments threads {P} _.

(** What the threads and the environment do. *)
Inductive action : Set :=
| Run (tid : nat) (k : select_case)
| Feed (h : handle) (msg : ConsumerMessage)
| FeedError (h : handle) (err : error)
| Accept (msgs errs : bool)
| Go (t : thread).

Section steps.
Context {P : Type} `{!Provider P}.
Implicit Types (sh : shared P) (p : ptr) (c : cref).

Definition set_sys (s : PartitionMap.system P) sh : shared P :=
  {| sys := s; streams := streams sh; messages := messages sh; errors := errors sh;
     wgs := wgs sh |}.
Definition set_streams (ss : gmap handle stream) sh : shared P :=
  {| sys := sys sh; streams := ss; messages := messages sh; errors := errors sh;
     wgs := wgs sh |}.
Definition set_messages (k : sink (ptr * ConsumerMessage)) sh : shared P :=
  {| sys := sys sh; streams := streams sh; messages := k; errors := errors sh;
     wgs := wgs sh |}.
Definition set_errors (k : sink (ptr * error)) sh : shared P :=
  {| sys := sys sh; streams := streams sh; messages := messages sh; errors := k;
     wgs := wgs sh |}.
Definition set_wgs (ws : gmap nat nat) sh : shared P :=
  {| sys := sys sh; streams := streams sh; messages := messages sh; errors := errors sh;
     wgs := ws |}.

(** The consumer object at [p], and the same replaced. *)
Definition consumer_of sh p : partitionConsumer :=
  consumer_at (PartitionMap.objects (sys sh)) p.
Definition set_consumer p (pc : partitionConsumer) sh : shared P :=
  set_sys (PartitionMap.set_objects (upd p pc (PartitionMap.objects (sys sh))) (sys sh)) sh.

(** The stream behind a handle, and the same replaced. *)
Definition stream_of sh (h : handle) : stream := streams sh !!! h.
Definition set_stream (h : handle) (st : stream) sh : shared P :=
  set_streams (<[h := st]> (streams sh)) sh.

(** ** Loop *)

(** Leaving [Loop]: the deferred [close(c.dead)] runs. *)
Definition Loop_return p sh : result (loop_pc * shared P) :=
  let pc := consumer_of sh p in
  if dead pc then Crash CloseOfClosedChannel
  else Next (LoopReturned, set_consumer p (set_dead true pc) sh).

(** One statement of [Loop]; [k] is the case a [select] takes. *)
Definition Loop_step c (at_ : loop_pc) (k : select_case) sh : result (loop_pc * shared P) :=
  match c with
  | None => if at_ is LoopEntry then Crash NilDereference else Blocked
  | Some p =>
      let pc := consumer_of sh p in
      let st := stream_of sh (pcm pc) in
      match at_, k with
      | LoopEntry, _ => Next (LoopSelect, sh)
      | LoopSelect, CaseMessage =>
          match Messages st with
          | msg :: rest =>
              Next (LoopMessage msg, set_stream (pcm pc) (set_Messages rest st) sh)
          | [] => if stream_closed st then Loop_return p sh else Blocked
          end
      | LoopSelect, CaseError =>
          match Errors st with
          | err :: rest =>
              Next (LoopError err, set_stream (pcm pc) (set_Errors rest st) sh)
          | [] => if stream_closed st then Loop_return p sh else Blocked
          end
      | LoopMessage msg, CaseSend =>
          if accepting (messages sh)
          then Next (LoopSelect, set_messages (send (p, msg) (messages sh)) sh)
          else Blocked
      | LoopError err, CaseSend =>
          if accepting (errors sh)
          then Next (LoopSelect, set_errors (send (p, err) (errors sh)) sh)
          else Blocked
      | (LoopSelect | LoopMessage _ | LoopError _), CaseDying =>
          if dying pc then Loop_return p sh else Blocked
      | _, _ => Blocked
      end
  end.

(** ** Close *)

(** [wg.Done()] *)
Definition wg_Done (wg : nat) sh : result (shared P) :=
  match wgs sh !!! wg with
  | O => Crash NegativeWaitGroup
  | S n => Next (set_wgs (<[wg := n]> (wgs sh)) sh)
  end.

(** One statement of [Close], or of the goroutine of [Stop] that calls it. *)
Definition Close_step c (at_ : close_pc) (wg : option nat) sh
    : result (close_pc * shared P) :=
  match c with
  | None => if at_ is CloseEntry then Crash NilDereference else Blocked
  | Some p =>
      let pc := consumer_of sh p in
      match at_ with
      | CloseEntry => if closed pc then Next (CloseReturnedNil, sh) else Next (ClosePcm, sh)
      | ClosePcm =>
          let w := PartitionMap.objects (sys sh) in
          let '(err, cl) := pcm_Close (pcm pc) (client w) in
          Next (CloseFlag err,
                set_stream (pcm pc) (stream_Close (stream_of sh (pcm pc)))
                  (set_sys (PartitionMap.set_objects (set_client cl w) (sys sh)) sh))
      | CloseFlag err => Next (CloseDying err, set_consumer p (set_closed true pc) sh)
      | CloseDying err =>
          if dying pc then Crash CloseOfClosedChannel
          else Next (CloseWait err, set_consumer p (set_dying true pc) sh)
      | CloseWait err => if dead pc then Next (CloseReturned err, sh) else Blocked
      | CloseReturnedNil | CloseReturned _ =>
          match wg with
          | Some g =>
              match wg_Done g sh with
              | Next sh' => Next (CloseDone (bool_decide (at_ = CloseReturnedNil)), sh')
              | Crash e => Crash e
              | Blocked => Blocked
              end
          | None => Blocked
          end
      | CloseDone _ => Blocked
      end
  end.

(** ** Stop *)

(** One statement of [Stop], run by the thread [tid], whose wait group
    is the one of that name; the goroutine it starts, if any. *)
Definition Stop_step (tid : nat) (tps : list topicPartition) (at_ : stop_pc) sh
    : result (stop_pc * shared P * option thread) :=
  let s := sys sh in
  let rw := PartitionMap.mutex (PartitionMap.registry s) in
  let set_rw rw' :=
    PartitionMap.set_registry (PartitionMap.set_mutex rw' (PartitionMap.registry s)) s in
  match at_ with
  | StopEntry =>
      match RWMutex_RLock rw with
      | Done (_, rw') =>
          Next (StopRange tps, set_wgs (<[tid := O]> (wgs sh)) (set_sys (set_rw rw') sh), None)
      | Panic _ => Blocked
      end
  | StopRange (tp :: rest) =>
      Next (StopRange rest, set_wgs (<[tid := S (wgs sh !!! tid)]> (wgs sh)) sh,
            Some (TClose (PartitionMap.data_at s tp) CloseEntry (Some tid)))
  | StopRange [] =>
      match wgs sh !!! tid with
      | O =>
          match RWMutex_RUnlock rw with
          | Done (_, rw') => Next (StopReturned, set_sys (set_rw rw') sh, None)
          | Panic e => Crash e
          end
      | S _ => Blocked
      end
  | StopReturned => Blocked
  end.

(** ** Threads and actions *)

(** One statement of a thread. *)
Definition thread_step (tid : nat) (t : thread) (k : select_case) sh
    : result (thread * shared P * option thread) :=
  match t with
  | TLoop c at_ =>
      match Loop_step c at_ k sh with
      | Next (at', sh') => Next (TLoop c at', sh', None)
      | Blocked => Blocked
      | Crash e => Crash e
      end
  | TClose c at_ wg =>
      match Close_step c at_ wg sh with
      | Next (at', sh') => Next (TClose c at' wg, sh', None)
      | Blocked => Blocked
      | Crash e => Crash e
      end
  | TStop tps at_ =>
      match Stop_step tid tps at_ sh with
      | Next (at', sh', new) => Next (TStop tps at', sh', new)
      | Blocked => Blocked
      | Crash e => Crash e
      end
  end.

(** Starting a goroutine. *)
Definition spawn (new : option thread) (ts : gmap nat thread) : gmap nat thread :=
  match new with
  | Some t => <[fresh (dom ts) := t]> ts
  | None => ts
  end.

(** A goroutine starts at the entry of its method. *)
Definition at_entry (t : thread) : bool :=
  match t with
  | TLoop _ LoopEntry | TClose _ CloseEntry None | TStop _ StopEntry => true
  | _ => false
  end.

Definition run_action (a : action) (cfg : config P) : result (config P) :=
  let sh := state_of_config cfg in
  match a with
  | Run tid k =>
      match threads cfg !! tid with
      | Some t =>
          match thread_step tid t k sh with
          | Next (t', sh', new) => Next (mkConfig sh' (spawn new (<[tid := t']> (threads cfg))))
          | Blocked => Blocked
          | Crash e => Crash e
          end
      | None => Blocked
      end
  | Feed h msg =>
      let st := stream_of sh h in
      if stream_closed st then Blocked
      else Next (mkConfig (set_stream h (set_Messages (Messages st ++ [msg]) st) sh)
                   (threads cfg))
  | FeedError h err =>
      let st := stream_of sh h in
      if stream_closed st then Blocked
      else Next (mkConfig (set_stream h (set_Errors (Errors st ++ [err]) st) sh)
                   (threads cfg))
  | Accept msgs errs =>
      Next (mkConfig
              (set_errors {| accepting := errs; received := received (errors sh) |}
                 (set_messages {| accepting := msgs; received := received (messages sh) |} sh))
              (threads cfg))
  | Go t =>
      if at_entry t then Next (mkConfig sh (spawn (Some t) (threads cfg))) else Blocked
  end.

(** A step of the program, *)
Inductive step (cfg : config P) (a : action) (cfg' : config P) : Prop :=
| step_action : run_action a cfg = Next cfg' → step cfg a cfg'.

(** a run of it, *)
Inductive run : config P → list action → config P → Prop :=
| run_nil cfg : run cfg [] cfg
| run_cons cfg a cfg' acts cfg'' :
    step cfg a cfg' → run cfg' acts cfg'' → run cfg (a :: acts) cfg''.

(** and the same as a function: the configuration a schedule leads to. *)
Fixpoint run_schedule (acts : list action) (cfg : config P) : result (config P) :=
  match acts with
  | [] => Next cfg
  | a :: acts' =>
      match run_action a cfg with
      | Next cfg' => run_schedule acts' cfg'
      | Blocked => Blocked
      | Crash e => Crash e
      end
  end.

End steps.

(** ** Reference definitions *)

Section protocol.
Context {P : Type} `{!Provider P}.
Implicit Types (sh : shared P) (cfg : config P) (p : ptr) (c : cref) (t : thread).

(** What a thread's program counter says of the consumer it works on. *)
Definition thread_ok sh t : Prop :=
  match t with
  | TLoop (Some p) LoopReturned => dead (consumer_of sh p) = true
  | TClose (Some p) at_ _ =>
      let pc := consumer_of sh p in
      match at_ with
      | CloseEntry | ClosePcm => True
      | CloseFlag _ => stream_closed (stream_of sh (pcm pc)) = true
      | CloseDying _ | CloseReturnedNil | CloseDone true => closed pc = true
      | CloseWait _ => closed pc = true ∧ dying pc = true
      | CloseReturned _ | CloseDone false =>
          closed pc = true ∧ dying pc = true ∧ dead pc = true
      end
  | _ => True
  end.

(** The statements of [Close] behind [c.closed = true], on the way
    through the wait. *)
Definition past_flag (at_ : close_pc) : Prop :=
  match at_ with
  | CloseDying _ | CloseWait _ | CloseReturned _ | CloseDone false => True
  | _ => False
  end.

(** What the flags of a consumer say of the threads. *)
Definition consumer_ok cfg p : Prop :=
  let pc := consumer_of (state_of_config cfg) p in
  (dead pc = true → ∃ tid, threads cfg !! tid = Some (TLoop (Some p) LoopReturned)) ∧
  (dying pc = true → closed pc = true) ∧
  (closed pc = true → stream_closed (stream_of (state_of_config cfg) (pcm pc)) = true) ∧
  (closed pc = true →
   ∃ tid at_ wg, threads cfg !! tid = Some (TClose (Some p) at_ wg) ∧ past_flag at_).

(** The invariant of the protocol. *)
Definition protocol_inv cfg : Prop :=
  map_Forall (λ _ t, thread_ok (state_of_config cfg) t) (threads cfg) ∧
  ∀ p, consumer_ok cfg p.

(** A configuration in which nothing has been closed. *)
Definition all_open cfg : Prop :=
  (∀ p, let pc := consumer_of (state_of_config cfg) p in
        closed pc = false ∧ dying pc = false ∧ dead pc = false) ∧
  map_Forall (λ _ t, at_entry t = true) (threads cfg).

(** The threads that run [Loop] on [p], and those that run [Close] on it. *)
Definition is_loop_of p t : Prop := ∃ at_, t = TLoop (Some p) at_.
Definition is_close_of p t : Prop := ∃ at_ wg, t = TClose (Some p) at_ wg.

(** [Close] on [p] has returned from waiting for [dead]. *)
Definition Close_returned cfg p : Prop :=
  ∃ tid err wg, threads cfg !! tid = Some (TClose (Some p) (CloseReturned err) wg).

(** The loop of [p] has returned. *)
Definition Loop_returned cfg p : Prop :=
  ∃ tid, threads cfg !! tid = Some (TLoop (Some p) LoopReturned).

(** The messages the application has received from [p]. *)
Definition received_from cfg p : list ConsumerMessage :=
  (filter (λ x, x.1 = p) (received (messages (state_of_config cfg)))).*2.

(** The environment starts no goroutine on [p]. *)
Definition no_Go_on p (a : action) : Prop :=
  match a with
  | Go (TLoop c _) | Go (TClose c _ _) => c ≠ Some p
  | _ => True
  end.

(** No thread runs [Loop] on [p]; every thread that does has returned; at
    most one thread does. *)
Definition no_loop_of cfg p : Prop :=
  ∀ tid t, threads cfg !! tid = Some t → ¬ is_loop_of p t.
Definition loops_returned cfg p : Prop :=
  ∀ tid t, threads cfg !! tid = Some t → is_loop_of p t → t = TLoop (Some p) LoopReturned.
Definition one_loop cfg p : Prop :=
  ∀ tid1 tid2 t1 t2, threads cfg !! tid1 = Some t1 → threads cfg !! tid2 = Some t2 →
    is_loop_of p t1 → is_loop_of p t2 → tid1 = tid2.

(** The message a [Loop] holds between taking it from the stream and
    forwarding it. *)
Definition in_flight (at_ : loop_pc) : list ConsumerMessage :=
  match at_ with
  | LoopMessage msg => [msg]
  | _ => []
  end.

(** The thread [tid] is the only one that reads the stream of [p]. *)
Definition sole_reader cfg p (tid : nat) : Prop :=
  ∀ tid' q at_, threads cfg !! tid' = Some (TLoop (Some q) at_) →
    pcm (consumer_of (state_of_config cfg) q) = pcm (consumer_of (state_of_config cfg) p) →
    tid' = tid.

(** What has been received from [p], what its [Loop] holds and what its
    stream holds make up the sequence [X]; once the [Loop] has returned,
    what has been received is a prefix of [X]. *)
Definition forwarding_inv cfg p (tid : nat) (X : list ConsumerMessage) : Prop :=
  sole_reader cfg p tid ∧
  ∃ at_, threads cfg !! tid = Some (TLoop (Some p) at_) ∧
    if decide (at_ = LoopReturned) then received_from cfg p `prefix_of` X
    else received_from cfg p ++ in_flight at_ ++
         Messages (stream_of (state_of_config cfg)
                     (pcm (consumer_of (state_of_config cfg) p))) = X.

(** The messages a run feeds to the stream [h]. *)
Definition fed (h : handle) (acts : list action) : list ConsumerMessage :=
  omap (λ a, match a with
             | Feed h' msg => if decide (h' = h) then Some msg else None
             | _ => None
             end) acts.

(** The environment starts no [Loop]. *)
Definition no_Go_Loop (a : action) : Prop :=
  match a with
  | Go (TLoop _ _) => False
  | _ => True
  end.

(** What steps never undo: the flags of the consumers and the closing of
    the streams. *)
Definition flags_le (pc pc' : partitionConsumer) : Prop :=
  pcm pc' = pcm pc ∧
  (closed pc = true → closed pc' = true) ∧
  (dying pc = true → dying pc' = true) ∧
  (dead pc = true → dead pc' = true).

Definition shared_le sh sh' : Prop :=
  (∀ p, flags_le (consumer_of sh p) (consumer_of sh' p)) ∧
  (∀ h, stream_closed (stream_of sh h) = true → stream_closed (stream_of sh' h) = true).

(** What the step of a thread to [t'] may have done to the flags: nothing,
    or set one of them, and what was true then. *)
Inductive flag_step sh (t' : thread) sh' : Prop :=
| flags_same :
    (∀ q, consumer_of sh' q = consumer_of sh q) →
    (∀ h, stream_closed (stream_of sh' h) = stream_closed (stream_of sh h)) →
    flag_step sh t' sh'
| flags_dead p :
    t' = TLoop (Some p) LoopReturned →
    dead (consumer_of sh p) = false →
    sh' = set_consumer p (set_dead true (consumer_of sh p)) sh → flag_step sh t' sh'
| flags_dying p :
    closed (consumer_of sh p) = true →
    dying (consumer_of sh p) = false →
    sh' = set_consumer p (set_dying true (consumer_of sh p)) sh → flag_step sh t' sh'
| flags_closed p :
    (∃ err wg, t' = TClose (Some p) (CloseDying err) wg) →
    stream_closed (stream_of sh (pcm (consumer_of sh p))) = true →
    sh' = set_consumer p (set_closed true (consumer_of sh p)) sh → flag_step sh t' sh'
| flags_stream h :
    (∀ q, consumer_of sh' q = consumer_of sh q) →
    (∀ h', stream_closed (stream_of sh' h')
           = if decide (h = h') then true else stream_closed (stream_of sh h')) →
    flag_step sh t' sh'.

End protocol.

(** ** Configurations to run the definitions on *)

(** The consumer 1 of [ex_world] reads a stream that holds the messages 5
    and 6 of partition 4 of topic "t"; the application accepts what is
    sent to it. *)
Definition ex_msg (o : Z) : ConsumerMessage := mkConsumerMessage "t" 4 o.
Definition ex_shared : shared fake_client :=
  {| sys := PartitionMap.ex_system;
     streams := {[ 1%positive := mkStream [ex_msg 5; ex_msg 6] [] false ]};
     messages := mkSink true []; errors := mkSink true []; wgs := ∅ |}.

(** A [Loop] and a call of [Close] on that consumer, both at their entry. *)
Definition ex_config : config fake_client :=
  {| state_of_config := ex_shared;
     threads := {[ 0%nat := TLoop (Some 1%positive) LoopEntry;
                   1%nat := TClose (Some 1%positive) CloseEntry None ]} |}.

(** The configuration a schedule ends in. *)
Definition config_of (r : result (config fake_client)) : config fake_client :=
  match r with Next cfg => cfg | _ => ex_config end.

(** The loop forwards message 5; [Close] runs up to its wait; the loop
    sees [dying] and returns; [Close] returns. *)
Definition ex_close_schedule : list action :=
  [Run 0 CaseSend; Run 0 CaseMessage; Run 0 CaseSend;
   Run 1 CaseSend; Run 1 CaseSend; Run 1 CaseSend; Run 1 CaseSend;
   Run 0 CaseDying; Run 1 CaseSend].
Definition ex_closed : config fake_client :=
  config_of (run_schedule ex_close_schedule ex_config).

(** After that, a second call of [Close] starts, *)
Definition ex_again : config fake_client :=
  config_of (run_action (Go (TClose (Some 1%positive) CloseEntry None)) ex_closed).

(** or the client feeds another stream, and a [Loop] of the consumer 2
    forwards from it. *)
Definition ex_after_schedule : list action :=
  [Accept true true; Feed 2%positive (ex_msg 9); Go (TLoop (Some 2%positive) LoopEntry);
   Run 2 CaseSend; Run 2 CaseMessage; Run 2 CaseSend].
Definition ex_after : config fake_client :=
  config_of (run_schedule ex_after_schedule ex_closed).

(** The loop at its [select] and [Close] at its wait. *)
Definition ex_dying_schedule : list action :=
  [Run 0 CaseSend; Run 1 CaseSend; Run 1 CaseSend; Run 1 CaseSend; Run 1 CaseSend].
Definition ex_dying : config fake_client :=
  config_of (run_schedule ex_dying_schedule ex_config).

(** The loop takes message 5, the client feeds message 7, the loop
    forwards 5 and takes 6, [Close] starts. *)
Definition ex_forward_schedule : list action :=
  [Run 0 CaseSend; Run 0 CaseMessage; Feed 1%positive (ex_msg 7); Run 0 CaseSend;
   Run 0 CaseMessage; Run 1 CaseSend].
Definition ex_forwarded : config fake_client :=
  config_of (run_schedule ex_forward_schedule ex_config).

(** Two calls of [Close] on the consumer 1, interleaved statement by
    statement up to [close(c.dying)]. *)
Definition ex_two_closers : config fake_client :=
  {| state_of_config := ex_shared;
     threads := {[ 0%nat := TClose (Some 1%positive) CloseEntry None;
                   1%nat := TClose (Some 1%positive) CloseEntry None ]} |}.
Definition ex_race_schedule : list action :=
  [Run 0 CaseSend; Run 1 CaseSend; Run 0 CaseSend; Run 1 CaseSend;
   Run 0 CaseSend; Run 1 CaseSend].
Definition ex_race : config fake_client :=
  config_of (run_schedule ex_race_schedule ex_two_closers).

(** A call of [Close] on the consumer 1, on which no [Loop] runs. *)
Definition ex_lone_closer : config fake_client :=
  {| state_of_config := ex_shared;
     threads := {[ 0%nat := TLoop (Some 2%positive) LoopEntry;
                   1%nat := TClose (Some 1%positive) CloseEntry None ]} |}.
Definition ex_lone_schedule : list action :=
  [Run 1 CaseSend; Feed 1%positive (ex_msg 7); Run 1 CaseSend; Run 1 CaseSend;
   Run 1 CaseSend; Run 0 CaseSend; Go (TLoop (Some 3%positive) LoopEntry)].
Definition ex_lone : config fake_client :=
  config_of (run_schedule ex_lone_schedule ex_lone_closer).

(** ** Tactics *)

(** The cases of a thread found in a given configuration. *)
Ltac threads_list H := apply elem_of_map_to_list in H; vm_compute in H.
Ltac list_cases H :=
  repeat (apply elem_of_cons in H as [H|H]; [simplify_eq|]);
  try by apply elem_of_nil in H.
Ltac threads_cases H := threads_list H; list_cases H.

(** ** The shared state under updates *)

Section shared_lemmas.
Context {P : Type} `{!Provider P}.
Implicit Types (sh : shared P) (cfg : config P) (p q : ptr) (c : cref) (t : thread).

Lemma consumer_of_set_consumer p q pc sh :
  consumer_of (set_consumer p pc sh) q = if decide (p = q) then pc else consumer_of sh q.
Proof.
  unfold consumer_of, set_consumer. simpl. case_decide as Hpq.
  - subst. apply consumer_at_upd.
  - by apply consumer_at_upd_ne.
Qed.

Lemma stream_of_set_stream h h' st sh :
  stream_of (set_stream h st sh) h' = if decide (h = h') then st else stream_of sh h'.
Proof.
  unfold stream_of, set_stream. simpl. case_decide as Hh.
  - subst. apply lookup_total_insert_eq.
  - by apply lookup_total_insert_ne.
Qed.

#[export] Instance flags_le_preorder : PreOrder flags_le.
Proof.
  split; [by intros c; repeat split|].
  intros c1 c2 c3 (? & ? & ? & ?) (? & ? & ? & ?).
  split; [congruence|]. naive_solver.
Qed.

#[export] Instance shared_le_preorder : PreOrder (shared_le (P:=P)).
Proof.
  split; [by intros s; split|]. intros s1 s2 s3 [Hc1 Hs1] [Hc2 Hs2]. split.
  - intros p. etrans; [apply Hc1 | apply Hc2].
  - intros h Hh. by apply Hs2, Hs1.
Qed.

(** An update that touches neither the flags of a consumer nor the
    closing of a stream. *)
Lemma shared_le_same sh sh' :
  (∀ p, consumer_of sh' p = consumer_of sh p) →
  (∀ h, stream_closed (stream_of sh' h) = stream_closed (stream_of sh h)) →
  shared_le sh sh'.
Proof. intros Hc Hs. split; [intros p; by rewrite Hc | intros h; by rewrite Hs]. Qed.

Lemma shared_le_set_consumer p pc sh :
  flags_le (consumer_of sh p) pc → shared_le sh (set_consumer p pc sh).
Proof.
  intros Hle. split; [|done]. intros q. rewrite consumer_of_set_consumer.
  case_decide; by subst.
Qed.

Lemma shared_le_set_stream h st sh :
  (stream_closed (stream_of sh h) = true → stream_closed st = true) →
  shared_le sh (set_stream h st sh).
Proof.
  intros Hle. split; [done|]. intros h'. rewrite stream_of_set_stream.
  case_decide; by subst.
Qed.

(** What the invariant of a thread depends on only grows. *)
Lemma thread_ok_le sh sh' t : shared_le sh sh' → thread_ok sh t → thread_ok sh' t.
Proof.
  intros [Hc Hs]. destruct t as [[p|] []|[p|] [| |?|?|?| |?|[]] wg|]; simpl; try done;
    destruct (Hc p) as (Hpcm & Hclosed & Hdying & Hdead);
    rewrite ?Hpcm; intros; destruct_and?; split_and?; auto.
Qed.

(** [Loop]: leaving closes [dead], and nothing else touches a flag. *)
Lemma Loop_return_spec p sh at' sh' :
  Loop_return p sh = Next (at', sh') →
  at' = LoopReturned ∧ dead (consumer_of sh p) = false ∧
  sh' = set_consumer p (set_dead true (consumer_of sh p)) sh.
Proof.
  unfold Loop_return. destruct (dead (consumer_of sh p)) eqn:Hdead; [done|].
  by intros [= <- <-].
Qed.

Lemma Loop_step_spec c at_ k sh at' sh' :
  Loop_step c at_ k sh = Next (at', sh') →
  at_ ≠ LoopReturned ∧
  ∃ p, c = Some p ∧
    ((at' ≠ LoopReturned ∧
      (∀ q, consumer_of sh' q = consumer_of sh q) ∧
      (∀ h, stream_closed (stream_of sh' h) = stream_closed (stream_of sh h))) ∨
     (at' = LoopReturned ∧ dead (consumer_of sh p) = false ∧
      sh' = set_consumer p (set_dead true (consumer_of sh p)) sh)).
Proof.
  unfold Loop_step. destruct c as [p|]; [|by destruct at_].
  intros Hstep. split; [by intros ->; destruct k|]. exists p. split; [done|].
  assert (∀ h st, stream_closed st = stream_closed (stream_of sh h) →
    ∀ h', stream_closed (stream_of (set_stream h st sh) h')
          = stream_closed (stream_of sh h')) as Hstream.
  { intros h st Hst h'. rewrite stream_of_set_stream. case_decide; by subst. }
  destruct at_, k; simplify_eq; repeat case_match; simplify_eq;
    try (by left; split_and!; try done; apply Hstream);
    right; by apply Loop_return_spec.
Qed.

Lemma flag_step_le sh t' sh' : flag_step sh t' sh' → shared_le sh sh'.
Proof.
  intros [Hc Hs|p _ Hp ->|p _ Hp ->|p _ _ ->|h Hc Hs].
  - by apply shared_le_same.
  - apply shared_le_set_consumer. by repeat split.
  - apply shared_le_set_consumer. by repeat split.
  - apply shared_le_set_consumer. by repeat split.
  - split; [intros p; by rewrite Hc|]. intros h' Hh'. rewrite Hs. by case_decide.
Qed.

(** [Close]: each statement sets at most one flag, in the order stream,
    [closed], [dying]. *)
Lemma Close_step_spec c at_ wg sh at' sh' :
  Close_step c at_ wg sh = Next (at', sh') →
  thread_ok sh (TClose c at_ wg) →
  flag_step sh (TClose c at' wg) sh' ∧ thread_ok sh' (TClose c at' wg).
Proof.
  unfold Close_step. destruct c as [p|]; [|by destruct at_].
  destruct at_ as [| |err|err|err| |err|early]; simpl; intros Hstep Hok.
  - destruct (closed (consumer_of sh p)) eqn:Hclosed; simplify_eq; by split; [apply flags_same|].
  - destruct (pcm_Close _ _) as [err cl]. simplify_eq. split.
    + apply (flags_stream _ _ _ (pcm (consumer_of sh p))); [done|].
      intros h'. rewrite stream_of_set_stream. by case_decide.
    + simpl. rewrite stream_of_set_stream. by rewrite decide_True.
  - simplify_eq. split; [by apply (flags_closed _ _ _ p); eauto|].
    simpl. by rewrite consumer_of_set_consumer, decide_True.
  - destruct (dying (consumer_of sh p)) eqn:Hdying; simplify_eq.
    split; [by apply (flags_dying _ _ _ p)|].
    simpl. by rewrite consumer_of_set_consumer, decide_True.
  - destruct (dead (consumer_of sh p)) eqn:Hdead; simplify_eq.
    split; [by apply flags_same|]. simpl. by destruct Hok.
  - destruct wg as [g|]; [|done]. unfold wg_Done in Hstep.
    destruct (wgs sh !!! g); simplify_eq. by split; [apply flags_same|].
  - destruct wg as [g|]; [|done]. unfold wg_Done in Hstep.
    destruct (wgs sh !!! g); simplify_eq. by split; [apply flags_same|].
  - done.
Qed.

(** Behind the flag, [Close] goes on through the wait. *)
Lemma Close_step_past_flag c at_ wg sh at' sh' :
  Close_step c at_ wg sh = Next (at', sh') → past_flag at_ → past_flag at'.
Proof.
  unfold Close_step, wg_Done. destruct c as [p|]; [|by destruct at_].
  destruct at_ as [| |err|err|err| |err|[]]; simpl; try done; intros Hstep _;
    repeat case_match; by simplify_eq.
Qed.

(** [Stop] touches no flag, and what it starts is a call of [Close]. *)
Lemma Stop_step_spec tid tps at_ sh at' sh' new :
  Stop_step tid tps at_ sh = Next (at', sh', new) →
  (∀ q, consumer_of sh' q = consumer_of sh q) ∧
  (∀ h, stream_of sh' h = stream_of sh h) ∧
  (new = None ∨ ∃ c, new = Some (TClose c CloseEntry (Some tid))).
Proof.
  unfold Stop_step. destruct at_ as [|[|tp rest]|]; simpl; intros Hstep;
    repeat case_match; simplify_eq; split_and!; try done; eauto.
Qed.

(** One statement of any thread. *)
Lemma thread_step_spec tid t k sh t' sh' new :
  thread_step tid t k sh = Next (t', sh', new) →
  thread_ok sh t →
  flag_step sh t' sh' ∧ thread_ok sh' t' ∧
  (∀ q, t ≠ TLoop (Some q) LoopReturned) ∧
  (new = None ∨ ∃ c, new = Some (TClose c CloseEntry (Some tid))) ∧
  (∀ q at_ wg, t = TClose (Some q) at_ wg → past_flag at_ →
     ∃ at', t' = TClose (Some q) at' wg ∧ past_flag at').
Proof.
  destruct t as [c at_|c at_ wg|tps at_]; simpl; intros Hstep Hok.
  - destruct (Loop_step c at_ k sh) as [|[at' sh1]|] eqn:Hloop; simplify_eq.
    apply Loop_step_spec in Hloop as (Hat & p & -> & [(Hat' & Hc & Hs)|(-> & Hdead & ->)]).
    + split_and!; [by apply flags_same|by destruct at'|congruence|by left|done].
    + split_and!; [by apply (flags_dead _ _ _ p)| |congruence|by left|done].
      simpl. by rewrite consumer_of_set_consumer, decide_True.
  - destruct (Close_step c at_ wg sh) as [|[at' sh1]|] eqn:Hclose; simplify_eq.
    destruct (Close_step_spec _ _ _ _ _ _ Hclose Hok).
    split_and!; try done; [by left|].
    intros q at0 wg0 [= -> -> ->] Hpast. exists at'. split; [done|].
    by eapply Close_step_past_flag.
  - destruct (Stop_step tid tps at_ sh) as [|[[at' sh1] new1]|] eqn:Hstop; simplify_eq.
    apply Stop_step_spec in Hstop as (Hc & Hs & Hnew).
    split_and!; try done. apply flags_same; [done|]. intros h. by rewrite Hs.
Qed.

End shared_lemmas.

(** ** The invariant *)

Section invariant.
Context {P : Type} `{!Provider P}.
Implicit Types (sh : shared P) (cfg : config P) (p q : ptr) (c : cref) (t : thread).

Lemma spawn_lookup new (ts : gmap nat thread) tid t :
  ts !! tid = Some t → spawn new ts !! tid = Some t.
Proof.
  intros Htid. destruct new as [t0|]; [|done]. simpl.
  rewrite lookup_insert_ne; [done|]. intros <-.
  by apply (is_fresh (dom ts)), elem_of_dom.
Qed.

Lemma spawn_Forall (Q : thread → Prop) new (ts : gmap nat thread) :
  from_option Q True new → map_Forall (λ _, Q) ts → map_Forall (λ _, Q) (spawn new ts).
Proof. destruct new; [|done]. simpl. intros. by apply map_Forall_insert_2. Qed.

(** The invariant after an update of the flags that comes with the
    threads it needs. *)
Lemma protocol_inv_update cfg t' sh' ts' :
  protocol_inv cfg →
  flag_step (state_of_config cfg) t' sh' →
  (∀ q tid, threads cfg !! tid = Some (TLoop (Some q) LoopReturned) →
            ts' !! tid = Some (TLoop (Some q) LoopReturned)) →
  (∀ q, t' = TLoop (Some q) LoopReturned → ∃ tid, ts' !! tid = Some t') →
  (∀ q tid at_ wg, threads cfg !! tid = Some (TClose (Some q) at_ wg) → past_flag at_ →
     ∃ at', ts' !! tid = Some (TClose (Some q) at' wg) ∧ past_flag at') →
  (∀ q err wg, t' = TClose (Some q) (CloseDying err) wg → ∃ tid, ts' !! tid = Some t') →
  map_Forall (λ _ t, thread_ok sh' t) ts' →
  protocol_inv (mkConfig sh' ts').
Proof.
  intros [_ Hcons] Hflags Hkeep Hnew Hkeepc Hnewc Hthreads. split; [done|]. intros q.
  destruct (Hcons q) as (Hdead & Hdying & Hclosed & Hby). unfold consumer_ok. simpl.
  assert (dead (consumer_of (state_of_config cfg) q) = true →
          ∃ tid, ts' !! tid = Some (TLoop (Some q) LoopReturned)) as Hdead'.
  { intros [tid Htid]%Hdead. eauto. }
  assert (closed (consumer_of (state_of_config cfg) q) = true →
          ∃ tid at_ wg, ts' !! tid = Some (TClose (Some q) at_ wg) ∧ past_flag at_)
    as Hby'.
  { intros (tid & at_ & wg & Htid & Hpast)%Hby.
    destruct (Hkeepc _ _ _ _ Htid Hpast) as (at' & ? & ?). by eexists _, _, _. }
  destruct Hflags as [Hc Hs|p -> Hp ->|p Hcl Hp ->|p (err & wg & ->) Hst ->|h Hc Hs];
    rewrite ?consumer_of_set_consumer, ?Hc, ?Hs; try done;
    try (case_decide as Hpq; [subst q; simpl|done]).
  - split_and!; [by eauto|done|done|done].
  - by split_and!.
  - split_and!; [done|done|done|]. intros _.
    destruct (Hnewc _ _ _ eq_refl) as [tid Htid]. by eexists _, _, _.
  - split_and!; [done|done| |done]. intros Hq%Hclosed. case_decide; [done|]. by rewrite Hq.
Qed.

(** The client feeds a stream: the invariant does not look at what the
    channels hold. *)
Lemma protocol_inv_set_stream cfg h st :
  protocol_inv cfg →
  stream_closed st = stream_closed (stream_of (state_of_config cfg) h) →
  protocol_inv (mkConfig (set_stream h st (state_of_config cfg)) (threads cfg)).
Proof.
  intros Hinv Hst. pose proof Hinv as [Hthreads _].
  apply (protocol_inv_update cfg (TStop [] StopEntry)); try done; [|by eauto|].
  - apply flags_same; [done|]. intros h'. rewrite stream_of_set_stream.
    case_decide; by subst.
  - eapply map_Forall_impl; [done|]. intros ? t0. simpl. apply thread_ok_le.
    apply shared_le_set_stream. by rewrite Hst.
Qed.

(** Every step keeps the invariant. *)
Lemma protocol_inv_step cfg a cfg' : protocol_inv cfg → step cfg a cfg' → protocol_inv cfg'.
Proof.
  intros Hinv [Hstep]. pose proof Hinv as [Hthreads Hcons].
  destruct a as [tid k|h msg|h err|msgs errs|t]; simpl in Hstep.
  - destruct (threads cfg !! tid) as [t|] eqn:Htid; [|done].
    destruct (thread_step tid t k _) as [|[[t' sh'] new]|] eqn:Ht; simplify_eq.
    destruct (thread_step_spec _ _ _ _ _ _ _ Ht (Hthreads _ _ Htid))
      as (Hflags & Hok' & Hnot & Hnew & Hpast).
    apply (protocol_inv_update cfg t'); [done|done|..].
    + intros q tid' Htid'. apply spawn_lookup. rewrite lookup_insert_ne; [done|].
      intros <-. rewrite Htid in Htid'. injection Htid' as ->. by eapply Hnot.
    + intros q ->. exists tid. by apply spawn_lookup, lookup_insert_eq.
    + intros q tid' at_ wg Htid' Hat. destruct (decide (tid = tid')) as [<-|Hne].
      * rewrite Htid in Htid'. injection Htid' as ->.
        destruct (Hpast _ _ _ eq_refl Hat) as (at' & -> & Hat').
        exists at'. split; [|done]. by apply spawn_lookup, lookup_insert_eq.
      * exists at_. split; [|done]. apply spawn_lookup. by rewrite lookup_insert_ne.
    + intros q err wg ->. exists tid. by apply spawn_lookup, lookup_insert_eq.
    + apply spawn_Forall; [by destruct Hnew as [->|[[?|] ->]]|].
      apply map_Forall_insert_2; [done|].
      eapply map_Forall_impl; [done|]. intros ? t0. simpl.
      by apply thread_ok_le, (flag_step_le _ t').
  - destruct (stream_closed (stream_of _ h)) eqn:Hclosed; simplify_eq.
    by apply protocol_inv_set_stream.
  - destruct (stream_closed (stream_of _ h)) eqn:Hclosed; simplify_eq.
    by apply protocol_inv_set_stream.
  - simplify_eq. apply (protocol_inv_update cfg (TStop [] StopEntry)); try done;
      [by apply flags_same|by eauto].
  - destruct (at_entry t) eqn:Hentry; simplify_eq.
    apply (protocol_inv_update cfg (TStop [] StopEntry)); try done.
    + by apply flags_same.
    + intros q tid Htid. by apply (spawn_lookup (Some t)).
    + intros q tid at_ wg Htid Hat. exists at_. split; [|done].
      by apply (spawn_lookup (Some t)).
    + apply (spawn_Forall _ (Some t)); [|done]. simpl.
      by destruct t as [[?|] []|[?|] [] [?|]|? []].
Qed.

Lemma protocol_inv_run cfg acts cfg' : run cfg acts cfg' → protocol_inv cfg → protocol_inv cfg'.
Proof. induction 1; eauto using protocol_inv_step. Qed.

(** [all_open], for a store given by its contents. *)
Lemma all_open_alt cfg :
  map_Forall (λ _ pc, closed pc = false ∧ dying pc = false ∧ dead pc = false)
    (consumers (PartitionMap.objects (sys (state_of_config cfg)))) →
  map_Forall (λ _ t, at_entry t = true) (threads cfg) →
  all_open cfg.
Proof.
  intros Hcons Hthreads. split; [|done]. intros p. unfold consumer_of, consumer_at.
  rewrite lookup_total_alt.
  destruct (consumers _ !! p) as [pc|] eqn:Hp; [by apply (Hcons p)|done].
Qed.

(** Nothing closed, nobody started: the invariant holds. *)
Lemma all_open_inv cfg : all_open cfg → protocol_inv cfg.
Proof.
  intros [Hopen Hentry]. split.
  - eapply map_Forall_impl; [done|]. intros tid t. simpl.
    by destruct t as [[?|] []|[?|] [] [?|]|? []].
  - intros p. destruct (Hopen p) as (Hc & Hy & Hd). unfold consumer_ok.
    rewrite Hc, Hy, Hd. by split_and!.
Qed.

End invariant.

(** ** Close and the loop *)

Section close_and_loop.
Context {P : Type} `{!Provider P}.
Implicit Types (sh : shared P) (cfg : config P) (p q : ptr) (c : cref) (t : thread).

(** A step of a thread keeps the method it runs and its receiver. *)
Lemma thread_step_kind tid t k sh t' sh' new p :
  thread_step tid t k sh = Next (t', sh', new) →
  (is_loop_of p t' ↔ is_loop_of p t) ∧ (is_close_of p t' ↔ is_close_of p t).
Proof.
  unfold is_loop_of, is_close_of.
  destruct t as [c at_|c at_ wg|tps at_]; simpl; intros Hstep;
    repeat case_match; simplify_eq; naive_solver.
Qed.

(** The goroutine a step starts is a call of [Close] for the wait group
    of the thread that starts it. *)
Lemma thread_step_spawned tid t k sh t' sh' new :
  thread_step tid t k sh = Next (t', sh', Some new) →
  ∃ c, new = TClose c CloseEntry (Some tid).
Proof.
  destruct t as [c at_|c at_ wg|tps at_]; simpl; intros Hstep.
  - by destruct (Loop_step _ _ _ _) as [|[]|].
  - by destruct (Close_step _ _ _ _) as [|[]|].
  - destruct (Stop_step _ _ _ _) as [|[[at' sh1] new1]|] eqn:Hstop; simplify_eq.
    by apply Stop_step_spec in Hstop as (_ & _ & [|[c [= ->]]]); eauto.
Qed.

(** What a step of a thread adds to what the application has received. *)
Lemma thread_step_received tid t k sh t' sh' new :
  thread_step tid t k sh = Next (t', sh', new) →
  received (messages sh') = received (messages sh) ∨
  ∃ p msg, t = TLoop (Some p) (LoopMessage msg) ∧ t' = TLoop (Some p) LoopSelect ∧
    received (messages sh') = received (messages sh) ++ [(p, msg)].
Proof.
  destruct t as [[p|] at_|[p|] at_ wg|tps at_]; simpl; intros Hstep.
  - unfold Loop_return in Hstep. destruct at_, k; simpl in Hstep;
      repeat case_match; simplify_eq; eauto.
    right. by eexists _, _.
  - by destruct at_.
  - unfold wg_Done in Hstep. destruct at_; simpl in Hstep;
      repeat case_match; simplify_eq; eauto.
  - by destruct at_.
  - destruct at_ as [|[|]|]; simpl in Hstep; repeat case_match; simplify_eq; eauto.
Qed.

(** [C3] [Close] returns from its wait only after [Loop] has returned.  In
    every run from a configuration in which nothing is closed, when a call
    of [Close] on a consumer is at its last [return], a [Loop] of that
    consumer has returned and closed [dead], and before that the stream
    was closed, [closed] set and [dying] closed. *)
Theorem Close_returns_after_Loop cfg0 acts cfg p :
  all_open cfg0 → run cfg0 acts cfg → Close_returned cfg p →
  Loop_returned cfg p ∧
  let pc := consumer_of (state_of_config cfg) p in
  dead pc = true ∧ dying pc = true ∧ closed pc = true ∧
  stream_closed (stream_of (state_of_config cfg) (pcm pc)) = true.
Proof.
  intros Hopen Hrun (tid & err & wg & Htid).
  destruct (protocol_inv_run _ _ _ Hrun (all_open_inv _ Hopen)) as [Hthreads Hcons].
  destruct (Hthreads _ _ Htid) as (Hclosed & Hdying & Hdead).
  destruct (Hcons p) as (Hloop & _ & Hstream & _).
  by split; [apply Hloop|split_and!; auto].
Qed.

(** [C34] [Close] on a consumer whose [closed] flag is set returns nil at
    once, whatever the first call returned and whether or not the loop
    has returned: it does not wait for [dead]. *)
Theorem Close_again_returns_nil cfg tid p wg k :
  threads cfg !! tid = Some (TClose (Some p) CloseEntry wg) →
  closed (consumer_of (state_of_config cfg) p) = true →
  run_action (Run tid k) cfg
  = Next (mkConfig (state_of_config cfg)
            (<[tid := TClose (Some p) CloseReturnedNil wg]> (threads cfg))).
Proof. intros Htid Hclosed. simpl. by rewrite Htid; simpl; rewrite Hclosed. Qed.

(** [C33] Two calls of [Close] on one consumer that have both passed the
    test of [closed] crash the program: the second [close(c.dying)] is a
    close of a closed channel. *)
Theorem concurrent_Close_panics cfg tid1 tid2 p err1 err2 wg1 wg2 k1 k2 :
  tid1 ≠ tid2 →
  threads cfg !! tid1 = Some (TClose (Some p) (CloseDying err1) wg1) →
  threads cfg !! tid2 = Some (TClose (Some p) (CloseDying err2) wg2) →
  run_schedule [Run tid1 k1; Run tid2 k2] cfg = Crash CloseOfClosedChannel.
Proof.
  intros Hne H1 H2. cbn [run_schedule run_action]. rewrite H1. simpl.
  destruct (dying (consumer_of (state_of_config cfg) p)) eqn:Hdying; [done|].
  cbn [run_schedule run_action threads state_of_config spawn].
  rewrite lookup_insert_ne, H2 by done. simpl.
  by rewrite consumer_of_set_consumer, decide_True.
Qed.

(** [C36] [Loop] returns only when the stream is closed and the channel it
    reads is empty, or when [dying] is closed: an error of the stream does
    not end it. *)
Theorem Loop_returns_only_when p at_ k sh sh' :
  Loop_step (Some p) at_ k sh = Next (LoopReturned, sh') →
  let pc := consumer_of sh p in
  let st := stream_of sh (pcm pc) in
  (k = CaseDying ∧ dying pc = true) ∨
  (at_ = LoopSelect ∧ stream_closed st = true ∧
   (k = CaseMessage ∧ Messages st = [] ∨ k = CaseError ∧ Errors st = [])).
Proof.
  cbv zeta. destruct at_, k; simpl; intros Hstep; repeat case_match; simplify_eq;
    try done; naive_solver.
Qed.

End close_and_loop.

(** ** Runs *)

Section runs.
Context {P : Type} `{!Provider P}.
Implicit Types (sh : shared P) (cfg : config P) (p q : ptr) (c : cref) (t : thread).

Lemma spawn_lookup_inv new (ts : gmap nat thread) tid t :
  spawn new ts !! tid = Some t → ts !! tid = Some t ∨ new = Some t.
Proof.
  destruct new as [t0|]; [|by left]. simpl.
  destruct (decide (fresh (dom ts) = tid)) as [<-|Hne].
  - rewrite lookup_insert_eq. intros [= ->]. by right.
  - rewrite lookup_insert_ne by done. by left.
Qed.

(** A step is a statement of a thread, or an action of the environment
    that touches no flag and delivers nothing. *)
Lemma step_inv cfg a cfg' :
  step cfg a cfg' →
  (∃ tid k t t' new,
     a = Run tid k ∧ threads cfg !! tid = Some t ∧
     thread_step tid t k (state_of_config cfg) = Next (t', state_of_config cfg', new) ∧
     threads cfg' = spawn new (<[tid := t']> (threads cfg))) ∨
  ((∀ tid k, a ≠ Run tid k) ∧
   (∀ q, consumer_of (state_of_config cfg') q = consumer_of (state_of_config cfg) q) ∧
   (∀ h, stream_closed (stream_of (state_of_config cfg') h)
         = stream_closed (stream_of (state_of_config cfg) h)) ∧
   received (messages (state_of_config cfg')) = received (messages (state_of_config cfg)) ∧
   (threads cfg' = threads cfg ∨
    ∃ t, a = Go t ∧ at_entry t = true ∧ threads cfg' = spawn (Some t) (threads cfg))).
Proof.
  intros [Hstep]. destruct a as [tid k|h msg|h err|msgs errs|t]; simpl in Hstep.
  - left. destruct (threads cfg !! tid) as [t|] eqn:Htid; [|done].
    destruct (thread_step tid t k _) as [|[[t' sh'] new]|] eqn:Ht; simplify_eq.
    by eexists _, _, _, _, _.
  - right. destruct (stream_closed (stream_of _ h)) eqn:Hclosed; simplify_eq.
    split_and!; try done; [|by left]. intros h'. simpl.
    rewrite stream_of_set_stream. case_decide; by subst.
  - right. destruct (stream_closed (stream_of _ h)) eqn:Hclosed; simplify_eq.
    split_and!; try done; [|by left]. intros h'. simpl.
    rewrite stream_of_set_stream. case_decide; by subst.
  - right. simplify_eq. split_and!; try done. by left.
  - right. destruct (at_entry t) eqn:Hentry; simplify_eq.
    split_and!; try done. right. by exists t.
Qed.

(** The threads after a step: those before it, the one that ran, and the
    one that was started. *)
Lemma step_threads cfg a cfg' tid' t' :
  step cfg a cfg' → threads cfg' !! tid' = Some t' →
  threads cfg !! tid' = Some t' ∨
  (∃ k t sh' new, a = Run tid' k ∧ threads cfg !! tid' = Some t ∧
     thread_step tid' t k (state_of_config cfg) = Next (t', sh', new)) ∨
  (∃ tid k c, a = Run tid k ∧ t' = TClose c CloseEntry (Some tid)) ∨
  (a = Go t' ∧ at_entry t' = true).
Proof.
  intros [(tid & k & t & t1 & new & -> & Htid & Ht & ->)|(_ & _ & _ & _ & Hts)]%step_inv.
  - intros [Hin| ->]%spawn_lookup_inv.
    + destruct (decide (tid = tid')) as [->|Hne].
      * rewrite lookup_insert_eq in Hin. injection Hin as ->.
        right; left. by eexists _, _, _, _.
      * rewrite lookup_insert_ne in Hin by done. by left.
    + apply thread_step_spawned in Ht as [c ->]. right; right; left. by eexists _, _, _.
  - destruct Hts as [->|(t & -> & Hentry & ->)]; [by left|].
    intros [Hin|[= ->]]%spawn_lookup_inv; [by left|]. by right; right; right.
Qed.

Lemma run_schedule_run acts : ∀ cfg cfg',
  run_schedule acts cfg = Next cfg' ↔ run cfg acts cfg'.
Proof.
  induction acts as [|a acts IH]; intros cfg cfg'; simpl.
  - split; [intros [= ->]; constructor | by inversion 1].
  - split.
    + destruct (run_action a cfg) as [|cfg1|] eqn:Ha; try done.
      intros Hrest%IH. by eapply run_cons; [constructor|].
    + inversion 1 as [|? ? cfg1 ? ? [Ha] Hrest]; subst. rewrite Ha. by apply IH.
Qed.

Lemma run_app cfg acts cfg' acts' cfg'' :
  run cfg acts cfg' → run cfg' acts' cfg'' → run cfg (acts ++ acts') cfg''.
Proof. induction 1; [done|]. intros. simpl. eapply run_cons; eauto. Qed.

(** A thread that has returned from [Loop] runs no statement. *)
Lemma Loop_returned_blocked tid c k sh :
  thread_step tid (TLoop c LoopReturned) k sh = Blocked.
Proof. by destruct c, k. Qed.

(** While nobody starts a [Loop] on [p], no thread runs one and [dead]
    stays open. *)
Lemma no_loop_step cfg a cfg' p :
  protocol_inv cfg → step cfg a cfg' → no_Go_on p a →
  no_loop_of cfg p ∧ dead (consumer_of (state_of_config cfg) p) = false →
  no_loop_of cfg' p ∧ dead (consumer_of (state_of_config cfg') p) = false.
Proof.
  intros [Hthreads _] Hstep Hgo [Hno Hdead]. split.
  - intros tid' t' Htid'.
    destruct (step_threads _ _ _ _ _ Hstep Htid')
      as [Hold|[(k & t & sh' & new & -> & Ht & Hrun)|[(tid & k & c & -> & ->)|[-> Hentry]]]].
    + by eapply Hno.
    + rewrite (proj1 (thread_step_kind _ _ _ _ _ _ _ p Hrun)). by eapply Hno.
    + by intros [].
    + intros [at_ ->]. by apply Hgo.
  - destruct (step_inv _ _ _ Hstep)
      as [(tid & k & t & t' & new & -> & Ht & Hrun & Hts)|(_ & Hc & _)];
      [|by rewrite Hc].
    destruct (thread_step_spec _ _ _ _ _ _ _ Hrun (Hthreads _ _ Ht)) as (Hflags & _).
    destruct Hflags as [Hc _|q -> Hq ->|q _ Hq ->|q _ _ ->|h Hc _];
      rewrite ?Hc, ?consumer_of_set_consumer; try done; case_decide; subst; try done.
    exfalso. eapply Hno; [done|].
    apply (thread_step_kind _ _ _ _ _ _ _ p Hrun). by eexists.
Qed.

(** Where every [Loop] on [p] has returned, none runs again and nothing
    more is received from [p]. *)
Lemma loops_returned_step cfg a cfg' p :
  step cfg a cfg' → no_Go_on p a → loops_returned cfg p →
  loops_returned cfg' p ∧ received_from cfg' p = received_from cfg p.
Proof.
  intros Hstep Hgo Hret. split.
  - intros tid' t' Htid' Hloop.
    destruct (step_threads _ _ _ _ _ Hstep Htid')
      as [Hold|[(k & t & sh' & new & -> & Ht & Hrun)|[(tid & k & c & -> & ->)|[-> Hentry]]]].
    + by eapply Hret.
    + apply (thread_step_kind _ _ _ _ _ _ _ p Hrun) in Hloop.
      rewrite (Hret _ _ Ht Hloop), Loop_returned_blocked in Hrun. done.
    + by destruct Hloop.
    + destruct Hloop as [at_ ->]. by destruct Hgo.
  - unfold received_from.
    destruct (step_inv _ _ _ Hstep)
      as [(tid & k & t & t' & new & -> & Ht & Hrun & Hts)|(_ & _ & _ & -> & _)]; [|done].
    destruct (thread_step_received _ _ _ _ _ _ _ Hrun) as [->|(q & msg & -> & -> & ->)];
      [done|].
    rewrite filter_app, filter_cons_False, filter_nil, app_nil_r; [done|].
    simpl. intros ->. by specialize (Hret _ _ Ht ltac:(by eexists)).
Qed.

(** [C35] [Close] on a consumer on which no [Loop] runs never returns: as
    long as nobody starts one, [dead] stays open and the call stays at
    its wait. *)
Theorem Close_without_Loop_blocks cfg0 acts cfg p :
  all_open cfg0 → no_loop_of cfg0 p → Forall (no_Go_on p) acts →
  run cfg0 acts cfg →
  ¬ Close_returned cfg p ∧ dead (consumer_of (state_of_config cfg) p) = false.
Proof.
  intros Hopen Hno Hgo Hrun.
  assert (protocol_inv cfg ∧ no_loop_of cfg p ∧
          dead (consumer_of (state_of_config cfg) p) = false) as (Hinv & _ & Hdead).
  { pose proof (all_open_inv _ Hopen) as Hinv. destruct Hopen as [Hopen _].
    destruct (Hopen p) as (_ & _ & Hdead). clear Hopen.
    induction Hrun as [|cfg a cfg1 acts cfg2 Hstep Hrun IH]; [done|].
    apply Forall_cons in Hgo as [Ha Hgo].
    destruct (no_loop_step _ _ _ p Hinv Hstep Ha) as [Hno1 Hdead1]; [done|].
    apply IH; eauto using protocol_inv_step. }
  split; [|done]. intros (tid & err & wg & Htid).
  destruct Hinv as [Hthreads _]. destruct (Hthreads _ _ Htid) as (_ & _ & Hd).
  by rewrite Hd in Hdead.
Qed.

(** [C19] Nothing is delivered past shutdown.  Once a call of [Close] on a
    consumer with one [Loop] has returned from its wait, the application
    receives no further message from that consumer, whatever runs
    afterwards, as long as nobody starts another [Loop] on it. *)
Theorem no_delivery_after_Close cfg0 acts0 cfg acts cfg' p :
  all_open cfg0 → run cfg0 acts0 cfg →
  one_loop cfg p → Close_returned cfg p →
  Forall (no_Go_on p) acts → run cfg acts cfg' →
  received_from cfg' p = received_from cfg p.
Proof.
  intros Hopen Hrun0 Hone (tid & err & wg & Htid) Hgo Hrun.
  destruct (protocol_inv_run _ _ _ Hrun0 (all_open_inv _ Hopen)) as [Hthreads Hcons].
  destruct (Hthreads _ _ Htid) as (_ & _ & Hdead).
  destruct (Hcons p) as ([tid0 Htid0]%(λ H, H Hdead) & _).
  assert (loops_returned cfg p) as Hret.
  { intros tid1 t1 Htid1 Hloop.
    rewrite (Hone tid1 tid0 _ _ Htid1 Htid0 Hloop ltac:(by eexists)) in Htid1. congruence. }
  clear -Hret Hgo Hrun.
  induction Hrun as [|cfg a cfg1 acts cfg2 Hstep Hrun IH]; [done|].
  apply Forall_cons in Hgo as [Ha Hgo].
  destruct (loops_returned_step _ _ _ p Hstep Ha Hret) as [Hret1 <-]. by apply IH.
Qed.

End runs.

(** ** Forwarding *)

Section forwarding.
Context {P : Type} `{!Provider P}.
Implicit Types (sh : shared P) (cfg : config P) (p q : ptr) (c : cref) (t : thread).

(** No statement changes the handle of a consumer. *)
Lemma thread_step_pcm tid t k sh t' sh' new q :
  thread_step tid t k sh = Next (t', sh', new) →
  pcm (consumer_of sh' q) = pcm (consumer_of sh q).
Proof.
  destruct t as [[p|] at_|[p|] at_ wg|tps at_]; simpl; intros Hstep.
  - unfold Loop_return in Hstep. destruct at_, k; simpl in Hstep;
      repeat case_match; simplify_eq; rewrite ?consumer_of_set_consumer; try done;
      case_decide; by subst.
  - by destruct at_.
  - unfold wg_Done in Hstep. destruct at_; simpl in Hstep;
      repeat case_match; simplify_eq; rewrite ?consumer_of_set_consumer; try done;
      case_decide; by subst.
  - by destruct at_.
  - destruct at_ as [|[|]|]; simpl in Hstep; by repeat case_match; simplify_eq.
Qed.

Lemma step_pcm cfg a cfg' q :
  step cfg a cfg' →
  pcm (consumer_of (state_of_config cfg') q) = pcm (consumer_of (state_of_config cfg) q).
Proof.
  intros [(tid & k & t & t' & new & -> & Ht & Hrun & Hts)|(_ & Hc & _)]%step_inv.
  - by eapply thread_step_pcm.
  - by rewrite Hc.
Qed.

(** What a statement of [Loop] on [p] moves: from the stream to the
    thread, and from the thread to the application. *)
Lemma Loop_step_forward p at_ k sh at' sh' :
  Loop_step (Some p) at_ k sh = Next (at', sh') →
  let h := pcm (consumer_of sh p) in
  (∀ h', h' ≠ h → Messages (stream_of sh' h') = Messages (stream_of sh h')) ∧
  ∃ sent, received (messages sh') = received (messages sh) ++ ((λ m, (p, m)) <$> sent) ∧
    (at' = LoopReturned ∧ sent = [] ∨
     at' ≠ LoopReturned ∧
     sent ++ in_flight at' ++ Messages (stream_of sh' h)
     = in_flight at_ ++ Messages (stream_of sh h)).
Proof.
  cbv zeta. intros Hstep. unfold Loop_step, Loop_return in Hstep.
  assert (∀ st h', h' ≠ pcm (consumer_of sh p) →
    Messages (stream_of (set_stream (pcm (consumer_of sh p)) st sh) h')
    = Messages (stream_of sh h')) as Hother.
  { intros st h' Hh'. by rewrite stream_of_set_stream, decide_False. }
  destruct at_, k; simpl in Hstep; repeat case_match; simplify_eq;
    (split; [first [by auto | by intros; reflexivity]|]);
    try (by exists []; rewrite app_nil_r; split; [done|]; left);
    try (by exists []; rewrite app_nil_r; split; [done|]; right).
  - exists []. rewrite app_nil_r. split; [done|]. right. split; [done|]. simpl.
    rewrite stream_of_set_stream, decide_True by done. simpl. congruence.
  - exists []. rewrite app_nil_r. split; [done|]. right. split; [done|]. simpl.
    by rewrite stream_of_set_stream, decide_True by done.
  - exists [msg]. split; [done|]. by right.
Qed.

(** The other threads move nothing. *)
Lemma other_step_forward tid t k sh t' sh' new :
  thread_step tid t k sh = Next (t', sh', new) →
  (∀ q at_, t ≠ TLoop (Some q) at_) →
  (∀ h, Messages (stream_of sh' h) = Messages (stream_of sh h)) ∧
  received (messages sh') = received (messages sh).
Proof.
  destruct t as [[p|] at_|[p|] at_ wg|tps at_]; simpl; intros Hstep Hnot.
  - by destruct (Hnot p at_).
  - by destruct at_.
  - unfold wg_Done in Hstep. destruct at_; simpl in Hstep;
      repeat case_match; simplify_eq; split; try done.
    intros h. rewrite stream_of_set_stream. by case_decide; subst.
  - by destruct at_.
  - destruct at_ as [|[|]|]; simpl in Hstep; by repeat case_match; simplify_eq.
Qed.

(** What is received from [p], as a function of what is received. *)
Lemma received_from_own cfg cfg' p sent :
  received (messages (state_of_config cfg'))
  = received (messages (state_of_config cfg)) ++ ((λ m, (p, m)) <$> sent) →
  received_from cfg' p = received_from cfg p ++ sent.
Proof.
  unfold received_from. intros ->. rewrite filter_app, fmap_app. f_equal.
  induction sent as [|m sent IH]; [done|].
  rewrite fmap_cons, filter_cons_True, fmap_cons by done. simpl. by f_equal.
Qed.

Lemma received_from_other cfg cfg' p q sent :
  q ≠ p →
  received (messages (state_of_config cfg'))
  = received (messages (state_of_config cfg)) ++ ((λ m, (q, m)) <$> sent) →
  received_from cfg' p = received_from cfg p.
Proof.
  unfold received_from. intros Hne ->. rewrite filter_app, fmap_app.
  rewrite <-(app_nil_r (_.*2)) at 2. f_equal.
  induction sent as [|m sent IH]; [done|].
  by rewrite fmap_cons, filter_cons_False.
Qed.

(** The only reader stays the only reader while nobody starts a [Loop]. *)
Lemma sole_reader_step cfg a cfg' p tid :
  step cfg a cfg' → no_Go_Loop a → sole_reader cfg p tid → sole_reader cfg' p tid.
Proof.
  intros Hstep Hgo Hsole tid' q at' Htid'. rewrite !(step_pcm _ _ _ _ Hstep).
  destruct (step_threads _ _ _ _ _ Hstep Htid')
    as [Hold|[(k & t & sh' & new & -> & Ht & Hrun)|[(? & ? & ? & _ & [=])|[-> _]]]].
  - by eapply Hsole.
  - destruct (proj1 (proj1 (thread_step_kind _ _ _ _ _ _ _ q Hrun)) ltac:(by eexists))
      as [at0 ->]. by eapply Hsole.
  - done.
Qed.

(** A statement of the reader itself. *)
Lemma forwarding_own_step cfg k cfg' p tid X :
  step cfg (Run tid k) cfg' → forwarding_inv cfg p tid X → forwarding_inv cfg' p tid X.
Proof.
  intros Hstep [Hsole (at_ & Htid & HX)].
  split; [by eapply sole_reader_step|]. rewrite (step_pcm _ _ _ _ Hstep).
  destruct (step_inv _ _ _ Hstep)
    as [(? & ? & t & t' & new & [= <- <-] & Ht & Hrun & Hts)|(Hno & _)];
    [|by destruct (Hno tid k)].
  rewrite Htid in Ht. injection Ht as <-. cbn [thread_step] in Hrun.
  destruct (Loop_step _ _ _ _) as [|[at' sh']|] eqn:Hloop; simplify_eq.
  destruct (Loop_step_spec _ _ _ _ _ _ Hloop) as [Hat _].
  rewrite decide_False in HX by done.
  destruct (Loop_step_forward _ _ _ _ _ _ Hloop) as (_ & sent & Hrecv & Hsent).
  exists at'. split; [by rewrite Hts; apply spawn_lookup, lookup_insert_eq|].
  rewrite (received_from_own cfg cfg' p sent Hrecv).
  destruct Hsent as [[-> ->]|[Hat' Heq]].
  - rewrite decide_True, app_nil_r by done. rewrite <-HX. by apply prefix_app_r.
  - rewrite decide_False by done. by rewrite <-app_assoc, Heq.
Qed.

(** A statement of another thread. *)
Lemma forwarding_other_step cfg tid' k cfg' p tid X :
  tid' ≠ tid →
  step cfg (Run tid' k) cfg' → forwarding_inv cfg p tid X → forwarding_inv cfg' p tid X.
Proof.
  intros Hne Hstep [Hsole (at_ & Htid & HX)].
  split; [by eapply sole_reader_step|]. rewrite (step_pcm _ _ _ _ Hstep).
  destruct (step_inv _ _ _ Hstep)
    as [(? & ? & t & t' & new & [= <- <-] & Ht & Hrun & Hts)|(Hno & _)];
    [|by destruct (Hno tid' k)].
  exists at_. split.
  { rewrite Hts. apply spawn_lookup. by rewrite lookup_insert_ne. }
  assert (received_from cfg' p = received_from cfg p ∧
          Messages (stream_of (state_of_config cfg')
                      (pcm (consumer_of (state_of_config cfg) p)))
          = Messages (stream_of (state_of_config cfg)
                        (pcm (consumer_of (state_of_config cfg) p)))) as [-> ->]; [|done].
  assert ((∃ q at0, t = TLoop (Some q) at0) ∨ ∀ q at0, t ≠ TLoop (Some q) at0)
    as [(q & at0 & ->)|Hnot] by (destruct t as [[q|] ?|? ? ?|? ?]; eauto).
  - cbn [thread_step] in Hrun.
    destruct (Loop_step _ _ _ _) as [|[at' sh']|] eqn:Hloop; simplify_eq.
    destruct (Loop_step_forward _ _ _ _ _ _ Hloop) as (Hother & sent & Hrecv & _).
    assert (pcm (consumer_of (state_of_config cfg) q)
            ≠ pcm (consumer_of (state_of_config cfg) p)) as Hpcm.
    { intros Heq. by apply Hne, (Hsole _ _ _ Ht). }
    split; [|by apply Hother].
    apply (received_from_other cfg cfg' p q sent); [by intros ->|done].
  - destruct (other_step_forward _ _ _ _ _ _ _ Hrun Hnot) as [Hm Hr].
    split; [|done]. unfold received_from. by rewrite Hr.
Qed.

(** An action of the environment. *)
Lemma forwarding_env_step cfg a cfg' p tid X :
  (∀ tid' k, a ≠ Run tid' k) → no_Go_Loop a →
  step cfg a cfg' → forwarding_inv cfg p tid X →
  forwarding_inv cfg' p tid
    (X ++ fed (pcm (consumer_of (state_of_config cfg) p)) [a]).
Proof.
  intros Hnot Hgo Hstep [Hsole (at_ & Htid & HX)].
  split; [by eapply sole_reader_step|]. rewrite (step_pcm _ _ _ _ Hstep).
  exists at_. destruct Hstep as [Hstep].
  destruct a as [tid' k|h msg|h err|msgs errs|t]; simpl in Hstep;
    [by destruct (Hnot tid' k)|..]; repeat case_match; simplify_eq; simpl;
    rewrite ?stream_of_set_stream;
    (split; [first [done | by apply (spawn_lookup (Some _))]|]);
    repeat case_decide; simplify_eq; simpl; rewrite ?app_nil_r; try done;
    try (by apply prefix_app_r); by rewrite !app_assoc.
Qed.

Lemma forwarding_step cfg a cfg' p tid X :
  no_Go_Loop a → step cfg a cfg' → forwarding_inv cfg p tid X →
  forwarding_inv cfg' p tid
    (X ++ fed (pcm (consumer_of (state_of_config cfg) p)) [a]).
Proof.
  intros Hgo Hstep Hinv. destruct a as [tid' k|h msg|h err|msgs errs|t];
    try by apply forwarding_env_step.
  simpl. rewrite app_nil_r. destruct (decide (tid' = tid)) as [->|Hne].
  - by eapply forwarding_own_step.
  - by eapply forwarding_other_step.
Qed.

(** [C4] Within one partition, messages are forwarded in the order the
    stream produces them.  While one [Loop] reads the stream of a
    consumer, what the application has received from the consumer, the
    message the loop holds and what is left in the stream are, in this
    order, what the stream held and what the client fed to it since; once
    the loop has returned, what has been received is a prefix of that. *)
Theorem Loop_forwards_in_order cfg acts cfg' p tid at_ :
  threads cfg !! tid = Some (TLoop (Some p) at_) → at_ ≠ LoopReturned →
  sole_reader cfg p tid → Forall no_Go_Loop acts → run cfg acts cfg' →
  let h := pcm (consumer_of (state_of_config cfg) p) in
  let X := received_from cfg p ++ in_flight at_ ++
           Messages (stream_of (state_of_config cfg) h) ++ fed h acts in
  ∃ at', threads cfg' !! tid = Some (TLoop (Some p) at') ∧
    received_from cfg' p `prefix_of` X ∧
    (at' ≠ LoopReturned →
     received_from cfg' p ++ in_flight at' ++ Messages (stream_of (state_of_config cfg') h)
     = X).
Proof.
  intros Htid Hat Hsole Hgo Hrun. cbv zeta.
  assert (forwarding_inv cfg p tid
            (received_from cfg p ++ in_flight at_ ++
             Messages (stream_of (state_of_config cfg)
                         (pcm (consumer_of (state_of_config cfg) p))))) as Hinv.
  { split; [done|]. exists at_. by rewrite decide_False. }
  rewrite !(app_assoc _ _ (fed _ _)). revert Hinv. generalize (received_from cfg p
    ++ in_flight at_ ++ Messages (stream_of (state_of_config cfg)
                                    (pcm (consumer_of (state_of_config cfg) p)))).
  clear Htid Hat Hsole.
  induction Hrun as [cfg|cfg a cfg1 acts cfg2 Hstep Hrun IH]; intros X Hinv.
  - destruct Hinv as [_ (at' & Htid & HX)]. exists at'. simpl. rewrite app_nil_r.
    split; [done|]. case_decide; [done|].
    split; [|done]. rewrite <-HX. by apply prefix_app_r.
  - apply Forall_cons in Hgo as [Ha Hgo].
    apply (forwarding_step _ _ _ _ _ _ Ha Hstep) in Hinv.
    destruct (IH Hgo _ Hinv) as (at' & Htid & Hpre & Heq).
    rewrite (step_pcm _ _ _ _ Hstep) in Hpre, Heq.
    change (a :: acts) with ([a] ++ acts). unfold fed in *. rewrite omap_app, app_assoc.
    by exists at'.
Qed.

End forwarding.

(** ** The theorems on the configurations above *)

(** A run of [run_schedule] is a [run]. *)
Ltac by_schedule := apply run_schedule_run; vm_compute; reflexivity.

Lemma ex_config_open : all_open ex_config.
Proof. apply all_open_alt; by_decide. Qed.

Lemma Close_returns_after_Loop_witness :
  Loop_returned ex_closed 1%positive ∧
  let pc := consumer_of (state_of_config ex_closed) 1%positive in
  dead pc = true ∧ dying pc = true ∧ closed pc = true ∧
  stream_closed (stream_of (state_of_config ex_closed) (pcm pc)) = true.
Proof.
  apply (Close_returns_after_Loop ex_config ex_close_schedule ex_closed 1%positive).
  - apply ex_config_open.
  - by_schedule.
  - by exists 1%nat, None, None.
Defined.

Lemma Close_again_returns_nil_witness :
  run_action (Run 2 CaseSend) ex_again
  = Next (mkConfig (state_of_config ex_again)
            (<[2%nat := TClose (Some 1%positive) CloseReturnedNil None]> (threads ex_again))).
Proof.
  apply (Close_again_returns_nil ex_again 2 1%positive None CaseSend);
    vm_compute; reflexivity.
Defined.

Lemma concurrent_Close_panics_witness :
  run_schedule [Run 0 CaseSend; Run 1 CaseSend] ex_race = Crash CloseOfClosedChannel.
Proof.
  apply (concurrent_Close_panics ex_race 0 1 1%positive None None None None);
    [done|vm_compute; reflexivity..].
Defined.

Lemma Loop_returns_only_when_witness :
  let sh := state_of_config ex_dying in
  let pc := consumer_of sh 1%positive in
  let st := stream_of sh (pcm pc) in
  (CaseDying = CaseDying ∧ dying pc = true) ∨
  (LoopSelect = LoopSelect ∧ stream_closed st = true ∧
   (CaseDying = CaseMessage ∧ Messages st = [] ∨ CaseDying = CaseError ∧ Errors st = [])).
Proof.
  apply (Loop_returns_only_when 1%positive LoopSelect CaseDying (state_of_config ex_dying)
           (set_consumer 1%positive
              (set_dead true (consumer_of (state_of_config ex_dying) 1%positive))
              (state_of_config ex_dying))).
  vm_compute. reflexivity.
Defined.

Lemma Close_without_Loop_blocks_witness :
  ¬ Close_returned ex_lone 1%positive ∧
  dead (consumer_of (state_of_config ex_lone) 1%positive) = false.
Proof.
  apply (Close_without_Loop_blocks ex_lone_closer ex_lone_schedule ex_lone 1%positive).
  - apply all_open_alt; by_decide.
  - intros tid t Ht [at_ ->]. threads_cases Ht.
  - unfold ex_lone_schedule. repeat constructor; by simpl.
  - by_schedule.
Defined.

Lemma no_delivery_after_Close_witness :
  received_from ex_after 1%positive = received_from ex_closed 1%positive.
Proof.
  apply (no_delivery_after_Close ex_config ex_close_schedule ex_closed ex_after_schedule
           ex_after 1%positive).
  - apply ex_config_open.
  - by_schedule.
  - intros tid1 tid2 t1 t2 H1 H2 [at1 ->] [at2 ->].
    threads_list H1. threads_list H2. by list_cases H1; list_cases H2.
  - by exists 1%nat, None, None.
  - unfold ex_after_schedule. repeat constructor; by simpl.
  - by_schedule.
Defined.

Lemma Loop_forwards_in_order_witness :
  let h := pcm (consumer_of (state_of_config ex_config) 1%positive) in
  let X := received_from ex_config 1%positive ++ in_flight LoopEntry ++
           Messages (stream_of (state_of_config ex_config) h) ++ fed h ex_forward_schedule in
  ∃ at', threads ex_forwarded !! 0%nat = Some (TLoop (Some 1%positive) at') ∧
    received_from ex_forwarded 1%positive `prefix_of` X ∧
    (at' ≠ LoopReturned →
     received_from ex_forwarded 1%positive ++ in_flight at' ++
       Messages (stream_of (state_of_config ex_forwarded) h)
     = X).
Proof.
  apply (Loop_forwards_in_order ex_config ex_forward_schedule ex_forwarded 1%positive 0).
  - done.
  - done.
  - intros tid q at_ Ht Hq. by threads_cases Ht.
  - unfold ex_forward_schedule. repeat constructor; by simpl.
  - by_schedule.
Defined.

(** What the application has received when [Close] has returned: of the
    messages 5 and 6 the stream held, the first. *)
Example Close_example : received_from ex_closed 1%positive = [ex_msg 5].
Proof. by vm_compute. Qed.
