(* ===== verification/Shutdown.v ===== *)
(** * Shutdown: termination of the goroutines, and Stop as a join

    This file proves what the protocol of Lifecycle.v achieves as a whole.

    - Termination.  Each thread has a [weight]: the statements it can
      still run, counting for a [Loop] the values left in the channels of
      its stream and for a [Stop] the goroutines it will start.  Every
      statement of a thread lowers the weight of the configuration
      ([Run_decreases]), so when the client feeds nothing more, every
      schedule ends after at most [weight] statements
      ([schedule_bounded]).

    - [Stop] is a join.  The counter of the wait group of a [Stop] is the
      number of its goroutines that have not called [wg.Done()]
      ([stop_inv], kept by every step: [stop_inv_step]), so [wg.Done()]
      never panics ([Done_never_panics]), and [Stop] returns only when
      every goroutine it started has returned from [Close]: every
      consumer of the registry is closed ([Stop_closes_all]), and when no
      other call of [Close] runs beside, its loop has returned and [dead]
      is closed ([Stop_joins]).

    - Progress.  While a [Stop] has not returned, some thread is not
      blocked ([Stop_never_deadlocks]): the [Stop] itself, one of its
      goroutines, or the [Loop] a goroutine waits for, which [dying] lets
      return.  This needs a [Loop] on every consumer of the range and no
      writer on the lock ([progress_inv]).  With the bound on schedules,
      some schedule takes the [Stop] to its return from wherever the run
      is, unless a goroutine panics ([Stop_can_return]).

    - Where [Stop] crashes: on a registry that holds a nil pointer
      ([Stop_nil_entry_panics]) and beside a second [Stop]
      ([concurrent_Stop_panics]).

    The keys a [Stop] ranges over are part of its thread ([TStop tps]):
    the theorems hold for every list of keys, and so for every order of
    the range. *)

From S2P Require Import Prelude Heap Offsets Consumer Registry Lifecycle.

(** ** Sums over the threads *)

(** The sum of [f] over the threads of a map. *)
Definition total (f : thread → nat) (ts : gmap nat thread) : nat :=
  map_fold (λ _ t n, f t + n) 0 ts.

(** ** Weights *)

Section weights.
Context {P : Type} `{!Provider P}.
Implicit Types (sh : shared P) (cfg : config P) (t : thread).

(** The values left in the channels of a stream. *)
Definition pending sh (h : handle) : nat :=
  length (Messages (stream_of sh h)) + length (Errors (stream_of sh h)).

(** The statements a thread can still run. *)
Definition weight_of sh t : nat :=
  match t with
  | TLoop (Some p) at_ =>
      match at_ with
      | LoopReturned => 0
      | LoopSelect => 3 + 2 * pending sh (pcm (consumer_of sh p))
      | LoopEntry | LoopMessage _ | LoopError _ =>
          4 + 2 * pending sh (pcm (consumer_of sh p))
      end
  | TLoop None _ => 0
  | TClose _ at_ _ =>
      match at_ with
      | CloseEntry => 7
      | ClosePcm => 6
      | CloseFlag _ => 5
      | CloseDying _ => 4
      | CloseWait _ => 3
      | CloseReturnedNil | CloseReturned _ => 1
      | CloseDone _ => 0
      end
  | TStop tps at_ =>
      match at_ with
      | StopEntry => 2 + 8 * length tps
      | StopRange rest => 1 + 8 * length rest
      | StopReturned => 0
      end
  end.

Definition weight cfg : nat := total (weight_of (state_of_config cfg)) (threads cfg).

(** The action is a statement of a thread. *)
Definition is_Run (a : action) : Prop :=
  match a with
  | Run _ _ => True
  | _ => False
  end.

End weights.

(** ** The goroutines of a Stop *)

Section stop_defs.
Context {P : Type} `{!Provider P}.
Implicit Types (sh : shared P) (cfg : config P) (t : thread).

(** A goroutine of the wait group [g] that has not called [wg.Done()]. *)
Definition is_pending (g : nat) t : bool :=
  match t with
  | TClose _ at_ (Some g') =>
      bool_decide (g' = g) && (if at_ is CloseDone _ then false else true)
  | _ => false
  end.

(** One for each of them: how many there are. *)
Definition pend (g : nat) t : nat := if is_pending g t then 1 else 0.
Definition count (g : nat) (ts : gmap nat thread) : nat := total (pend g) ts.

(** The goroutine [Stop] started for the pointer [c]. *)
Definition started_for cfg (g : nat) (c : cref) : Prop :=
  ∃ tid at_, threads cfg !! tid = Some (TClose c at_ (Some g)).

(** The pointer the registry holds for a key. *)
Definition held cfg (tp : topicPartition) : cref :=
  PartitionMap.data_at (sys (state_of_config cfg)) tp.

(** What is true of the thread [tid] that runs [Stop] over the keys [tps]. *)
Definition stop_inv cfg (tid : nat) (tps : list topicPartition) : Prop :=
  ∃ at_, threads cfg !! tid = Some (TStop tps at_) ∧
    match at_ with
    | StopEntry => ∀ tid' c at', threads cfg !! tid' ≠ Some (TClose c at' (Some tid))
    | StopRange rest =>
        wgs (state_of_config cfg) !!! tid = count tid (threads cfg) ∧
        ∃ visited, tps = visited ++ rest ∧
          Forall (λ tp, started_for cfg tid (held cfg tp)) visited
    | StopReturned =>
        count tid (threads cfg) = 0 ∧
        Forall (λ tp, started_for cfg tid (held cfg tp)) tps
    end.

(** Every call of [Close] is one of this [Stop]. *)
Definition only_closers_of cfg (tid : nat) : Prop :=
  ∀ tid' c at_ wg, threads cfg !! tid' = Some (TClose c at_ wg) → wg = Some tid.

(** The thread [tid] is the only one that runs [Stop]. *)
Definition one_Stop cfg (tid : nat) : Prop :=
  ∀ tid' tps at_, threads cfg !! tid' = Some (TStop tps at_) → tid' = tid.

(** The environment starts no [Close] and no [Stop]. *)
Definition no_Go_Close (a : action) : Prop :=
  match a with
  | Go (TClose _ _ _) | Go (TStop _ _) => False
  | _ => True
  end.

(** Some thread is not blocked. *)
Definition can_run cfg : Prop :=
  ∃ tid k, run_action (Run tid k) cfg ≠ Blocked.

(** A thread runs [Loop] on [p]; every key of [tps] holds a consumer on
    which one does. *)
Definition has_loop cfg (p : ptr) : Prop :=
  ∃ i at_, threads cfg !! i = Some (TLoop (Some p) at_).
Definition loops_for cfg (tps : list topicPartition) : Prop :=
  ∀ tp, tp ∈ tps → ∃ p, held cfg tp = Some p ∧ has_loop cfg p.

(** The goroutines of the [Stop] of [tid] were started for keys of [tps]. *)
Definition closers_held cfg (tid : nat) (tps : list topicPartition) : Prop :=
  ∀ i c at_, threads cfg !! i = Some (TClose c at_ (Some tid)) →
    ∃ tp, tp ∈ tps ∧ c = held cfg tp.

(** No writer holds the lock of the registry. *)
Definition no_writer cfg : Prop :=
  writer (PartitionMap.mutex (PartitionMap.registry (sys (state_of_config cfg)))) = false.

(** Some schedule of statements of threads takes the [Stop] of [tid] to
    its return, or to a crash. *)
Definition can_return cfg (tid : nat) (tps : list topicPartition) : Prop :=
  ∃ acts, Forall is_Run acts ∧
    ((∃ e, run_schedule acts cfg = Crash e) ∨
     (∃ cfg', run cfg acts cfg' ∧ threads cfg' !! tid = Some (TStop tps StopReturned))).

(** What the progress of a [Stop] rests on. *)
Definition progress_inv cfg (tid : nat) (tps : list topicPartition) : Prop :=
  protocol_inv cfg ∧ stop_inv cfg tid tps ∧ closers_held cfg tid tps ∧
  loops_for cfg tps ∧ no_writer cfg.

End stop_defs.

(** ** Configurations to run the definitions on *)

(** A registry that holds the consumers 1 and 2 of [ex_world], a [Loop] on
    each, and a call of [Stop] that ranges over the two keys. *)
Definition ex_stop_tps : list topicPartition :=
  [mkTopicPartition "t" 4; mkTopicPartition "t" 1].
Definition ex_stop_shared : shared fake_client :=
  {| sys := PartitionMap.set_registry
              {| PartitionMap.data := {[ mkTopicPartition "t" 4 := Some 1%positive;
                                         mkTopicPartition "t" 1 := Some 2%positive ]};
                 PartitionMap.mutex := RWMutex_free |}
              PartitionMap.ex_system;
     streams := {[ 1%positive := mkStream [ex_msg 5; ex_msg 6] [] false ]};
     messages := mkSink true []; errors := mkSink true []; wgs := ∅ |}.
Definition ex_stop_config : config fake_client :=
  {| state_of_config := ex_stop_shared;
     threads := {[ 0%nat := TLoop (Some 1%positive) LoopEntry;
                   1%nat := TLoop (Some 2%positive) LoopEntry;
                   2%nat := TStop ex_stop_tps StopEntry ]} |}.

(** The loops start, [Stop] starts its two goroutines (the threads 3 and
    4), each runs [Close] up to the wait, each loop sees [dying] and
    returns, the goroutines finish, [Stop] returns. *)
Definition ex_stop_schedule : list action :=
  [Run 0 CaseSend; Run 1 CaseSend; Run 0 CaseMessage;
   Run 2 CaseSend; Run 2 CaseSend; Run 2 CaseSend;
   Run 3 CaseSend; Run 3 CaseSend; Run 3 CaseSend; Run 3 CaseSend;
   Run 4 CaseSend; Run 4 CaseSend; Run 4 CaseSend; Run 4 CaseSend;
   Run 1 CaseDying; Run 4 CaseSend; Run 4 CaseSend;
   Run 0 CaseDying; Run 3 CaseSend; Run 3 CaseSend;
   Run 2 CaseSend].
Definition ex_stopped : config fake_client :=
  config_of (run_schedule ex_stop_schedule ex_stop_config).

(** The same run up to the last [return] of the goroutine 3. *)
Definition ex_returning : config fake_client :=
  config_of (run_schedule (take 19 ex_stop_schedule) ex_stop_config).

(** [Stop] on the registry [ex_registry], which holds a nil pointer for
    the key ("u", 0). *)
Definition ex_nil_stop : config fake_client :=
  {| state_of_config := ex_shared;
     threads := {[ 0%nat := TStop PartitionMap.ex_tps StopEntry ]} |}.

(** Two calls of [Stop] at once. *)
Definition ex_two_stops : config fake_client :=
  {| state_of_config := ex_stop_shared;
     threads := {[ 0%nat := TStop ex_stop_tps StopEntry;
                   1%nat := TStop ex_stop_tps StopEntry ]} |}.

(** ** Sums *)

Section totals.
Implicit Types (f g : thread → nat) (ts : gmap nat thread).

Lemma total_empty f : total f ∅ = 0.
Proof. apply map_fold_empty. Qed.

Lemma total_insert f ts i t :
  ts !! i = None → total f (<[i := t]> ts) = f t + total f ts.
Proof. intros Hi. apply (map_fold_insert_L (λ _ t n, f t + n)); [|done]. intros. lia. Qed.

Lemma total_delete f ts i t :
  ts !! i = Some t → total f ts = f t + total f (delete i ts).
Proof. intros Hi. apply (map_fold_delete_L (λ _ t n, f t + n)); [|done]. intros. lia. Qed.

(** Replacing a thread. *)
Lemma total_update f ts i t t' :
  ts !! i = Some t → total f (<[i := t']> ts) + f t = f t' + total f ts.
Proof.
  intros Hi. rewrite <-insert_delete_eq, total_insert by apply lookup_delete_eq.
  rewrite (total_delete f ts i t Hi). lia.
Qed.

Lemma total_spawn f new ts :
  total f (spawn new ts) = from_option f 0 new + total f ts.
Proof.
  destruct new as [t|]; [|done]. simpl. apply total_insert.
  apply not_elem_of_dom, is_fresh.
Qed.

Lemma total_mono f g ts :
  (∀ i t, ts !! i = Some t → f t ≤ g t) → total f ts ≤ total g ts.
Proof.
  induction ts as [|i t ts Hi IH] using map_ind; intros Hfg.
  - by rewrite !total_empty.
  - rewrite !total_insert by done.
    specialize (Hfg i t (lookup_insert_eq _ _ _)) as Hit.
    assert (total f ts ≤ total g ts); [|lia].
    apply IH. intros j t' Hj. apply (Hfg j). rewrite lookup_insert_ne; [done|].
    intros <-. by rewrite Hi in Hj.
Qed.

Lemma total_ext f g ts :
  (∀ i t, ts !! i = Some t → f t = g t) → total f ts = total g ts.
Proof.
  intros Hfg. apply Nat.le_antisymm; apply total_mono; intros i t Hi;
    by rewrite (Hfg i t Hi).
Qed.

(** A sum that is not zero has a term that is not zero. *)
Lemma total_pos f ts : 0 < total f ts → ∃ i t, ts !! i = Some t ∧ 0 < f t.
Proof.
  induction ts as [|i t ts Hi IH] using map_ind; [rewrite total_empty; lia|].
  rewrite total_insert by done. intros Hpos. destruct (decide (0 < f t)) as [Ht|Ht].
  - exists i, t. by rewrite lookup_insert_eq.
  - destruct IH as (j & t' & Hj & Ht'); [lia|]. exists j, t'. split; [|done].
    rewrite lookup_insert_ne; [done|]. intros <-. by rewrite Hi in Hj.
Qed.

Lemma total_zero f ts i t : total f ts = 0 → ts !! i = Some t → f t = 0.
Proof. intros Hz Hi. rewrite (total_delete f ts i t Hi) in Hz. lia. Qed.

End totals.

(** ** Termination *)

Section termination.
Context {P : Type} `{!Provider P}.
Implicit Types (sh : shared P) (cfg : config P) (t : thread).

Lemma pending_set_stream h st sh h' :
  pending (set_stream h st sh) h'
  = if decide (h = h') then length (Messages st) + length (Errors st) else pending sh h'.
Proof. unfold pending. rewrite stream_of_set_stream. by case_decide. Qed.

(** No statement adds a value to a channel of a stream. *)
Lemma thread_step_pending tid t k sh t' sh' new h :
  thread_step tid t k sh = Next (t', sh', new) → pending sh' h ≤ pending sh h.
Proof.
  destruct t as [[p|] at_|[p|] at_ wg|tps at_]; simpl; intros Hstep.
  - unfold Loop_return in Hstep. destruct at_, k; simpl in Hstep;
      repeat case_match; simplify_eq; rewrite ?pending_set_stream; try done;
      case_decide; subst; unfold pending; simpl; try done;
      repeat match goal with
             | H : Messages _ = _ :: _ |- _ => rewrite H
             | H : Errors _ = _ :: _ |- _ => rewrite H
             end; simpl; lia.
  - by destruct at_.
  - unfold wg_Done in Hstep. destruct at_; simpl in Hstep;
      repeat case_match; simplify_eq; rewrite ?pending_set_stream; try done.
    case_decide; subst; unfold pending, stream_of; simpl; lia.
  - by destruct at_.
  - destruct at_ as [|[|]|]; simpl in Hstep; by repeat case_match; simplify_eq.
Qed.

(** So no statement adds to the weight of another thread. *)
Lemma weight_of_mono tid t k sh t' sh' new t0 :
  thread_step tid t k sh = Next (t', sh', new) → weight_of sh' t0 ≤ weight_of sh t0.
Proof.
  intros Hstep. destruct t0 as [[p|] at_|c at_ wg|tps at_]; simpl; try done.
  rewrite (thread_step_pcm _ _ _ _ _ _ _ p Hstep).
  pose proof (thread_step_pending _ _ _ _ _ _ _
                (pcm (consumer_of sh p)) Hstep).
  destruct at_; lia.
Qed.

(** The statement a thread runs lowers its weight by more than the
    weight of the goroutine it starts. *)
Lemma thread_step_weight tid t k sh t' sh' new :
  thread_step tid t k sh = Next (t', sh', new) →
  weight_of sh' t' + from_option (weight_of sh') 0 new < weight_of sh t.
Proof.
  destruct t as [[p|] at_|[p|] at_ wg|tps at_]; simpl; intros Hstep.
  - unfold Loop_return in Hstep. destruct at_, k; simpl in Hstep;
      repeat case_match; simplify_eq; simpl; rewrite ?consumer_of_set_consumer;
      try lia; try (rewrite decide_True by done; simpl);
      rewrite ?pending_set_stream, ?decide_True by done; unfold pending; simpl;
      repeat match goal with
             | H : Messages _ = _ :: _ |- _ => rewrite H
             | H : Errors _ = _ :: _ |- _ => rewrite H
             end; unfold stream_of, consumer_of; simpl; lia.
  - by destruct at_.
  - unfold wg_Done in Hstep. destruct at_; simpl in Hstep;
      repeat case_match; simplify_eq; simpl; lia.
  - by destruct at_.
  - destruct at_ as [|[|]|]; simpl in Hstep; repeat case_match; simplify_eq; simpl; lia.
Qed.

(** Every statement of a thread lowers the weight of the configuration. *)
Lemma Run_decreases cfg tid k cfg' :
  step cfg (Run tid k) cfg' → weight cfg' < weight cfg.
Proof.
  intros [(? & ? & t & t' & new & [= <- <-] & Ht & Hrun & Hts)|(Hno & _)]%step_inv;
    [|by destruct (Hno tid k)].
  unfold weight. rewrite Hts, total_spawn.
  pose proof (total_update (weight_of (state_of_config cfg')) (threads cfg) tid t t' Ht).
  pose proof (total_mono (weight_of (state_of_config cfg'))
                (weight_of (state_of_config cfg)) (delete tid (threads cfg))
                (λ _ t0 _, weight_of_mono _ _ _ _ _ _ _ t0 Hrun)).
  pose proof (total_delete (weight_of (state_of_config cfg')) (threads cfg) tid t Ht).
  pose proof (total_delete (weight_of (state_of_config cfg)) (threads cfg) tid t Ht).
  pose proof (thread_step_weight _ _ _ _ _ _ _ Hrun). lia.
Qed.

(** [C18] Termination.  Every statement of a thread lowers the weight of
    the configuration, so a schedule of statements of threads is no longer
    than the weight of the configuration it starts from: the loops and the
    calls of [Close] and [Stop] cannot run forever on what the streams
    hold. *)
Theorem schedule_bounded cfg acts cfg' :
  Forall is_Run acts → run cfg acts cfg' → length acts + weight cfg' ≤ weight cfg.
Proof.
  intros Hacts Hrun. induction Hrun as [|cfg a cfg1 acts cfg2 Hstep Hrun IH]; [done|].
  apply Forall_cons in Hacts as [Ha Hacts]. specialize (IH Hacts).
  destruct a as [tid k| | | |]; try done.
  pose proof (Run_decreases _ _ _ _ Hstep). simpl. lia.
Qed.

End termination.

(** ** The wait group of a Stop *)

Section wait_group.
Context {P : Type} `{!Provider P}.
Implicit Types (sh : shared P) (cfg : config P) (t : thread) (g : nat).

Lemma count_zero g ts :
  (∀ i t, ts !! i = Some t → is_pending g t = false) → count g ts = 0.
Proof.
  intros Hnone. unfold count. rewrite (total_ext _ (λ _, 0)).
  - induction ts as [|i t ts Hi IH] using map_ind; [apply total_empty|].
    rewrite total_insert by done. apply IH. intros j t' Hj. apply (Hnone j).
    rewrite lookup_insert_ne; [done|]. intros <-. by rewrite Hi in Hj.
  - intros i t Hi. unfold pend. by rewrite (Hnone i t Hi).
Qed.

(** The count after a statement of the thread [tid]. *)
Lemma count_step g ts tid t t' new :
  ts !! tid = Some t →
  count g (spawn new (<[tid := t']> ts)) + pend g t
  = pend g t' + from_option (pend g) 0 new + count g ts.
Proof.
  intros Ht. unfold count. rewrite total_spawn.
  pose proof (total_update (pend g) ts tid t t' Ht). lia.
Qed.

(** No statement changes what the registry holds. *)
Lemma thread_step_data tid t k sh t' sh' new :
  thread_step tid t k sh = Next (t', sh', new) →
  PartitionMap.data (PartitionMap.registry (sys sh'))
  = PartitionMap.data (PartitionMap.registry (sys sh)).
Proof.
  destruct t as [[p|] at_|[p|] at_ wg|tps at_]; simpl; intros Hstep.
  - unfold Loop_return in Hstep. destruct at_, k; simpl in Hstep;
      by repeat case_match; simplify_eq.
  - by destruct at_.
  - unfold wg_Done in Hstep. destruct at_; simpl in Hstep;
      by repeat case_match; simplify_eq.
  - by destruct at_.
  - destruct at_ as [|[|]|]; simpl in Hstep; by repeat case_match; simplify_eq.
Qed.

Lemma step_held cfg a cfg' tp : step cfg a cfg' → held cfg' tp = held cfg tp.
Proof.
  intros Hstep. unfold held, PartitionMap.data_at. f_equal. f_equal.
  destruct (step_inv _ _ _ Hstep)
    as [(tid & k & t & t' & new & -> & Ht & Hrun & Hts)|[Hno _]].
  - by eapply thread_step_data.
  - destruct Hstep as [Hstep]. destruct a as [tid k| | | |]; simpl in Hstep;
      [by destruct (Hno tid k)|..]; repeat case_match; by simplify_eq.
Qed.

(** The counter of [g] and the goroutines of [g], over a statement of a
    thread that is not the [Stop] of [g] at its entry. *)
Lemma thread_step_wg g tid t k sh t' sh' new :
  thread_step tid t k sh = Next (t', sh', new) →
  (∀ tps, tid = g → t ≠ TStop tps StopEntry) →
  wgs sh' !!! g + pend g t
  = wgs sh !!! g + pend g t' + from_option (pend g) 0 new.
Proof.
  destruct t as [[p|] at_|[p|] at_ wg|tps at_]; intros Hstep Hnot.
  - simpl in Hstep. unfold Loop_return in Hstep. destruct at_, k; simpl in Hstep;
      repeat case_match; simplify_eq; unfold pend; simpl; lia.
  - by destruct at_.
  - simpl in Hstep. unfold wg_Done in Hstep. destruct wg as [g'|], at_; simpl in Hstep;
      repeat case_match; simplify_eq; unfold pend; simpl; try lia;
      destruct (decide (g' = g)) as [->|Hne];
      rewrite ?lookup_total_insert_eq, ?lookup_total_insert_ne, ?bool_decide_eq_true_2,
        ?bool_decide_eq_false_2 by done; simpl; lia.
  - by destruct at_.
  - destruct at_ as [|[|tp rest]|]; simpl in Hstep; repeat case_match; simplify_eq;
      unfold pend; simpl; try lia; destruct (decide (tid = g)) as [->|Hne];
      rewrite ?lookup_total_insert_eq, ?lookup_total_insert_ne, ?bool_decide_eq_true_2,
        ?bool_decide_eq_false_2 by done; simpl; try lia.
    by destruct (Hnot tps eq_refl).
Qed.

(** No statement makes a goroutine of [g] out of another thread, and only
    the [Stop] of [g] starts one. *)
Lemma thread_step_pend g tid t k sh t' sh' new :
  thread_step tid t k sh = Next (t', sh', new) →
  pend g t' ≤ pend g t ∧ (tid ≠ g → from_option (pend g) 0 new = 0).
Proof.
  intros Hstep. split.
  - destruct t as [c at_|c at_ wg|tps at_]; simpl in Hstep.
    + destruct (Loop_step _ _ _ _) as [|[]|]; by simplify_eq.
    + destruct (Close_step _ _ _ _) as [|[at' ?]|] eqn:Hclose; simplify_eq.
      unfold Close_step, wg_Done in Hclose. destruct wg as [g'|]; [|done].
      destruct c, at_; simpl in Hclose; repeat case_match; simplify_eq;
        unfold pend; simpl; repeat case_match; lia.
    + destruct (Stop_step _ _ _ _) as [|[[] ?]|]; by simplify_eq.
  - intros Hne. destruct new as [tn|]; [|done].
    apply thread_step_spawned in Hstep as [c ->]. unfold pend. simpl.
    by rewrite bool_decide_eq_false_2.
Qed.

End wait_group.

(** ** Stop *)

Section stop.
Context {P : Type} `{!Provider P}.
Implicit Types (sh : shared P) (cfg : config P) (t : thread) (g : nat).

(** A call of [Close] stays the call it is. *)
Lemma closer_persists cfg a cfg' i c at_ wg :
  step cfg a cfg' → threads cfg !! i = Some (TClose c at_ wg) →
  ∃ at', threads cfg' !! i = Some (TClose c at' wg).
Proof.
  intros Hstep Hi. destruct (step_inv _ _ _ Hstep)
    as [(tid & k & t & t' & new & -> & Ht & Hrun & ->)
       |(_ & _ & _ & _ & [->|(t & _ & _ & ->)])]; [|by eauto|].
  - destruct (decide (tid = i)) as [->|Hne].
    + rewrite Hi in Ht. injection Ht as <-. simpl in Hrun.
      destruct (Close_step _ _ _ _) as [|[at' ?]|]; simplify_eq.
      exists at'. by apply spawn_lookup, lookup_insert_eq.
    + exists at_. apply spawn_lookup. by rewrite lookup_insert_ne.
  - exists at_. by apply (spawn_lookup (Some t)).
Qed.

Lemma started_for_step cfg a cfg' g c :
  step cfg a cfg' → started_for cfg g c → started_for cfg' g c.
Proof.
  intros Hstep (i & at_ & Hi).
  destruct (closer_persists _ _ _ _ _ _ _ Hstep Hi) as [at' Hi']. by exists i, at'.
Qed.

Lemma started_Forall_step cfg a cfg' g tps :
  step cfg a cfg' →
  Forall (λ tp, started_for cfg g (held cfg tp)) tps →
  Forall (λ tp, started_for cfg' g (held cfg' tp)) tps.
Proof.
  intros Hstep Hall. eapply Forall_impl; [exact Hall|]. intros tp. simpl.
  rewrite (step_held _ _ _ tp Hstep). by apply (started_for_step _ _ _ _ _ Hstep).
Qed.

(** An action of the environment changes no counter and starts no
    goroutine of a [Stop]. *)
Lemma env_step_stop cfg a cfg' g :
  step cfg a cfg' → (∀ tid k, a ≠ Run tid k) →
  wgs (state_of_config cfg') = wgs (state_of_config cfg) ∧
  count g (threads cfg') = count g (threads cfg) ∧
  (∀ i t, threads cfg !! i = Some t → threads cfg' !! i = Some t) ∧
  (∀ i c at_, threads cfg' !! i = Some (TClose c at_ (Some g)) →
              threads cfg !! i = Some (TClose c at_ (Some g))).
Proof.
  intros [Hstep] Hno. destruct a as [tid k|h msg|h err|msgs errs|t];
    cbn [run_action] in Hstep;
    [by destruct (Hno tid k)|..]; repeat case_match; simplify_eq; try done.
  cbn [threads state_of_config]. split; [done|]. split; [|split].
  - unfold count. etrans; [apply (total_spawn _ (Some t))|].
    by destruct t as [? []|? [] [?|]|? []].
  - intros i t0. apply (spawn_lookup (Some t)).
  - intros i c at_ [Hi|[= ->]]%(spawn_lookup_inv (Some t)); [done|].
    by destruct at_.
Qed.

(** The thread that runs [Stop] is touched by no other. *)
Lemma stop_persists cfg a cfg' tid tps at_ :
  step cfg a cfg' → (∀ k, a ≠ Run tid k) →
  threads cfg !! tid = Some (TStop tps at_) →
  threads cfg' !! tid = Some (TStop tps at_).
Proof.
  intros Hstep Hno Htid. destruct (step_inv _ _ _ Hstep)
    as [(tid' & k & t & t' & new & -> & Ht & Hrun & ->)
       |(_ & _ & _ & _ & [->|(t & _ & _ & ->)])]; [|done|].
  - apply spawn_lookup. rewrite lookup_insert_ne; [done|]. intros ->. by destruct (Hno k).
  - by apply (spawn_lookup (Some t)).
Qed.

(** A goroutine of [g] was one before the step, or the thread [g] has
    just started it. *)
Lemma closer_origin cfg a cfg' i c at' g :
  step cfg a cfg' → threads cfg' !! i = Some (TClose c at' (Some g)) →
  (∃ at_, threads cfg !! i = Some (TClose c at_ (Some g))) ∨
  (∃ k t t', a = Run g k ∧ threads cfg !! g = Some t ∧ at' = CloseEntry ∧
     thread_step g t k (state_of_config cfg)
     = Next (t', state_of_config cfg', Some (TClose c CloseEntry (Some g)))).
Proof.
  intros Hstep Hi. destruct (step_inv _ _ _ Hstep)
    as [(tid & k & t & t' & new & -> & Ht & Hrun & Hts)
       |(Hno & _ & _ & _ & [Hts|(t & _ & Hentry & Hts)])];
    rewrite Hts in Hi; [|by eauto|].
  - apply spawn_lookup_inv in Hi as [Hi| ->].
    + destruct (decide (tid = i)) as [->|Hne]; [|rewrite lookup_insert_ne in Hi by done; eauto].
      rewrite lookup_insert_eq in Hi. injection Hi as ->. left.
      destruct t as [? ?|c0 at_ wg|? ?]; simpl in Hrun;
        repeat case_match; simplify_eq; eauto.
    + destruct (thread_step_spawned _ _ _ _ _ _ _ Hrun) as [c0 [= -> -> ->]].
      right. by eexists k, t, t'.
  - apply (spawn_lookup_inv (Some t)) in Hi as [Hi|[= ->]]; [eauto|].
    by destruct at'.
Qed.

(** [Stop] itself: the counter it sets, adds to and waits for counts the
    goroutines it has started. *)
Lemma stop_inv_own cfg k cfg' tid tps :
  step cfg (Run tid k) cfg' → stop_inv cfg tid tps → stop_inv cfg' tid tps.
Proof.
  intros Hstep (at_ & Htid & Hat). destruct (step_inv _ _ _ Hstep)
    as [(? & ? & t & t' & new & [= <- <-] & Ht & Hrun & Hts)|[Hno _]];
    [|by destruct (Hno tid k)].
  rewrite Htid in Ht. injection Ht as <-.
  pose proof (count_step tid _ _ _ t' new Htid) as Hcount. rewrite <-Hts in Hcount.
  pose proof (λ tps0, started_Forall_step _ _ _ tid tps0 Hstep) as Hkeep.
  cbn [thread_step] in Hrun.
  destruct at_ as [|[|tp rest]|]; simpl in Hrun; repeat case_match; simplify_eq.
  - exists (StopRange tps). split; [rewrite Hts; apply lookup_insert_eq|].
    assert (count tid (threads cfg) = 0) as Hzero.
    { apply count_zero. intros i [| c at' [g|] |] Hi; try done. simpl.
      destruct (decide (g = tid)) as [->|Hne]; [by destruct (Hat i c at')|].
      by rewrite bool_decide_eq_false_2. }
    split; [|by exists []]. match goal with H : _ = state_of_config cfg' |- _ => rewrite <-H end.
      simpl. rewrite lookup_total_insert_eq.
    unfold pend in Hcount. simpl in Hcount. lia.
  - destruct Hat as (Hwg & visited & -> & Hall). rewrite app_nil_r in *.
    exists StopReturned. split; [rewrite Hts; apply lookup_insert_eq|].
    split; [|by apply Hkeep]. unfold pend in Hcount. simpl in Hcount. lia.
  - destruct Hat as (Hwg & visited & -> & Hall). exists (StopRange rest).
    split; [rewrite Hts; apply spawn_lookup, lookup_insert_eq|]. split.
    + match goal with H : _ = state_of_config cfg' |- _ => rewrite <-H end.
      simpl. rewrite lookup_total_insert_eq.
      unfold pend in Hcount. simpl in Hcount.
      rewrite bool_decide_eq_true_2 in Hcount by done. simpl in Hcount. lia.
    + exists (visited ++ [tp]). split; [by rewrite <-app_assoc|].
      apply Forall_app. split; [by apply Hkeep|]. apply Forall_singleton.
      rewrite (step_held _ _ _ tp Hstep). eexists _, CloseEntry. rewrite Hts.
      apply lookup_insert_eq.
Qed.

(** Another thread: a goroutine of this [Stop] counts down as it
    finishes, and nothing else touches the counter. *)
Lemma stop_inv_other cfg tid' k cfg' tid tps :
  tid' ≠ tid →
  step cfg (Run tid' k) cfg' → stop_inv cfg tid tps → stop_inv cfg' tid tps.
Proof.
  intros Hne Hstep (at_ & Htid & Hat). exists at_.
  split; [apply (stop_persists _ _ _ _ _ _ Hstep); [congruence|done]|].
  destruct (step_inv _ _ _ Hstep)
    as [(? & ? & t & t' & new & [= <- <-] & Ht & Hrun & Hts)|[Hno _]];
    [|by destruct (Hno tid' k)].
  pose proof (count_step tid _ _ _ t' new Ht) as Hcount. rewrite <-Hts in Hcount.
  assert (wgs (state_of_config cfg') !!! tid + pend tid t
          = wgs (state_of_config cfg) !!! tid + pend tid t'
            + from_option (pend tid) 0 new) as Hwg
    by (by apply (thread_step_wg tid _ _ _ _ _ _ _ Hrun)).
  destruct (thread_step_pend tid _ _ _ _ _ _ _ Hrun) as [Hle Hnew].
  specialize (Hnew Hne).
  pose proof (λ tps0, started_Forall_step _ _ _ tid tps0 Hstep) as Hkeep.
  destruct at_ as [|rest|].
  - intros i c at' Hi.
    destruct (closer_origin _ _ _ _ _ _ _ Hstep Hi) as [[at0 Hi0]|(k0 & ? & ? & [= -> _] & _)];
      [by destruct (Hat i c at0)|done].
  - destruct Hat as (Hwgs & visited & -> & Hall). split; [lia|by eauto].
  - destruct Hat as [Hzero Hall]. split; [lia|by eauto].
Qed.

(** What is true of a [Stop] stays true. *)
Lemma stop_inv_step cfg a cfg' tid tps :
  step cfg a cfg' → stop_inv cfg tid tps → stop_inv cfg' tid tps.
Proof.
  intros Hstep Hinv. destruct a as [tid' k| | | |].
  { destruct (decide (tid' = tid)) as [->|Hne];
      [by eapply stop_inv_own | by eapply stop_inv_other]. }
  all: destruct Hinv as (at_ & Htid & Hat); exists at_;
    destruct (env_step_stop _ _ _ tid Hstep) as (Hwgs & Hcount & Hold & Hnew); [done|];
    (split; [by apply Hold|]);
    pose proof (λ tps0, started_Forall_step _ _ _ tid tps0 Hstep) as Hkeep;
    destruct at_ as [|rest|];
    [ intros i c at' Hi%Hnew; by destruct (Hat i c at')
    | destruct Hat as (? & visited & -> & ?); rewrite Hwgs, Hcount; eauto
    | destruct Hat as (? & ?); rewrite Hcount; eauto ].
Qed.

Lemma stop_inv_run cfg acts cfg' tid tps :
  run cfg acts cfg' → stop_inv cfg tid tps → stop_inv cfg' tid tps.
Proof. induction 1; eauto using stop_inv_step. Qed.

(** A statement leaves a thread in the call it runs, and only [Stop]
    starts a goroutine. *)
Lemma thread_step_shape tid t k sh t' sh' new :
  thread_step tid t k sh = Next (t', sh', new) →
  match t' with
  | TLoop c _ => ∃ at_, t = TLoop c at_
  | TClose c _ wg => ∃ at_, t = TClose c at_ wg
  | TStop tps _ => ∃ at_, t = TStop tps at_
  end ∧
  (is_Some new → ∃ tps at_, t = TStop tps at_).
Proof.
  destruct t as [c at_|c at_ wg|tps at_]; simpl; intros Hstep;
    repeat case_match; simplify_eq; split; eauto; by intros [? [=]].
Qed.

(** While the environment starts no [Close] and no [Stop], one [Stop]
    stays the only one, and every call of [Close] is one of its
    goroutines. *)
Lemma only_closers_step cfg a cfg' tid :
  no_Go_Close a → step cfg a cfg' →
  one_Stop cfg tid ∧ only_closers_of cfg tid →
  one_Stop cfg' tid ∧ only_closers_of cfg' tid.
Proof.
  intros Hgo Hstep [Hone Hclosers]. destruct (step_inv _ _ _ Hstep)
    as [(tid0 & k & t & t' & new & -> & Ht & Hrun & Hts)
       |(Hno & _ & _ & _ & [Hts|(t & -> & Hentry & Hts)])];
    unfold one_Stop, only_closers_of; rewrite Hts.
  - destruct (thread_step_shape _ _ _ _ _ _ _ Hrun) as [Hshape Hnew].
    assert (∀ tn, new = Some tn → ∃ c, tn = TClose c CloseEntry (Some tid)) as Hspawned.
    { intros tn ->. destruct (thread_step_spawned _ _ _ _ _ _ _ Hrun) as [c ->].
      destruct Hnew as (tps & at_ & ->); [done|].
      rewrite (Hone _ _ _ Ht). eauto. }
    split.
    + intros i tps at_ [Hi|Hi]%spawn_lookup_inv; [|by destruct (Hspawned _ Hi) as [c [=]]].
      destruct (decide (tid0 = i)) as [->|Hne];
        [|rewrite lookup_insert_ne in Hi by done; eauto].
      rewrite lookup_insert_eq in Hi. injection Hi as ->.
      destruct Hshape as [at0 ->]. eauto.
    + intros i c at_ wg [Hi|Hi]%spawn_lookup_inv;
        [|by destruct (Hspawned _ Hi) as [c0 [= _ _ ->]]].
      destruct (decide (tid0 = i)) as [->|Hne];
        [|rewrite lookup_insert_ne in Hi by done; eauto].
      rewrite lookup_insert_eq in Hi. injection Hi as ->.
      destruct Hshape as [at0 ->]. eauto.
  - done.
  - split.
    + intros i tps at_ [Hi|[= ->]]%(spawn_lookup_inv (Some t)); [eauto|done].
    + intros i c at_ wg [Hi|[= ->]]%(spawn_lookup_inv (Some t)); [eauto|done].
Qed.

Lemma only_closers_run cfg acts cfg' tid :
  Forall no_Go_Close acts → run cfg acts cfg' →
  one_Stop cfg tid ∧ only_closers_of cfg tid →
  one_Stop cfg' tid ∧ only_closers_of cfg' tid.
Proof.
  intros Hacts Hrun. induction Hrun as [|cfg a cfg' acts cfg'' Hstep Hrun IH]; [done|].
  apply Forall_cons in Hacts as [Ha Hacts]. eauto using only_closers_step.
Qed.

(** At the entry of [Stop], in a configuration where every thread is at
    its entry. *)
Lemma stop_inv_entry cfg tid tps :
  all_open cfg → threads cfg !! tid = Some (TStop tps StopEntry) → stop_inv cfg tid tps.
Proof.
  intros [_ Hentry] Htid. exists StopEntry. split; [done|].
  intros i c at_ Hi. apply Hentry in Hi. by destruct at_.
Qed.

(** When [Stop] has returned, each of its goroutines has: the consumer it
    was started for is closed, and if every call of [Close] is one of
    these goroutines, its [Loop] has returned. *)
Lemma stop_returned cfg tid tps tp p :
  protocol_inv cfg → stop_inv cfg tid tps →
  threads cfg !! tid = Some (TStop tps StopReturned) →
  tp ∈ tps → held cfg tp = Some p →
  let pc := consumer_of (state_of_config cfg) p in
  closed pc = true ∧
  (only_closers_of cfg tid → dying pc = true ∧ dead pc = true ∧ Loop_returned cfg p).
Proof.
  intros [Hthreads Hcons] (at_ & Htid & Hat) Htid' Htp Hheld.
  rewrite Htid in Htid'. injection Htid' as ->. destruct Hat as [Hzero Hall].
  assert (∀ i c at_, threads cfg !! i = Some (TClose c at_ (Some tid)) →
            ∃ early, at_ = CloseDone early) as Hdone.
  { intros i c at_ Hi. pose proof (total_zero _ _ _ _ Hzero Hi) as Hp.
    unfold pend in Hp. simpl in Hp. rewrite bool_decide_eq_true_2 in Hp by done.
    destruct at_; try done. eauto. }
  rewrite Forall_forall in Hall. destruct (Hall tp Htp) as (i & at_ & Hi).
  rewrite Hheld in Hi. destruct (Hdone _ _ _ Hi) as [early ->].
  pose proof (Hthreads _ _ Hi) as Hok. simpl in Hok.
  assert (closed (consumer_of (state_of_config cfg) p) = true) as Hclosed
    by (destruct early; tauto).
  split; [done|]. intros Hclosers.
  destruct (Hcons p) as (Hdead & _ & _ & Hcloser).
  destruct (Hcloser Hclosed) as (j & at_ & wg & Hj & Hpast).
  rewrite (Hclosers _ _ _ _ Hj) in Hj. destruct (Hdone _ _ _ Hj) as [[] ->]; [done|].
  destruct (Hthreads _ _ Hj) as (_ & Hdying & Hd). simpl in Hdying, Hd.
  split; [done|]. split; [done|]. by apply Hdead.
Qed.

Lemma run_held cfg acts cfg' tp : run cfg acts cfg' → held cfg' tp = held cfg tp.
Proof.
  induction 1 as [|cfg a cfg' acts cfg'' Hstep _ IH]; [done|].
  by rewrite IH, (step_held _ _ _ tp Hstep).
Qed.

(** A range over the registry visits the key of every consumer it holds. *)
Lemma held_in_range cfg tps tp p :
  PartitionMap.range_keys (PartitionMap.registry (sys (state_of_config cfg))) tps →
  PartitionMap.data (PartitionMap.registry (sys (state_of_config cfg))) !! tp = Some (Some p) →
  tp ∈ tps ∧ held cfg tp = Some p.
Proof.
  intros Hks Htp. split.
  - rewrite Hks. apply elem_of_elements, elem_of_dom. by eexists.
  - unfold held, PartitionMap.data_at. by rewrite Htp.
Qed.

(** [Stop] closes every consumer of the registry.  In every run from
    a configuration in which nothing is closed and a thread is at the entry
    of [Stop], about to range over the keys of the registry in some order,
    whatever else runs beside it: when that [Stop] has returned, every
    consumer the registry holds has [closed] set. *)
Theorem Stop_closes_all cfg0 acts cfg tid tps tp p :
  all_open cfg0 → threads cfg0 !! tid = Some (TStop tps StopEntry) →
  PartitionMap.range_keys (PartitionMap.registry (sys (state_of_config cfg0))) tps →
  run cfg0 acts cfg → threads cfg !! tid = Some (TStop tps StopReturned) →
  PartitionMap.data (PartitionMap.registry (sys (state_of_config cfg0))) !! tp = Some (Some p) →
  closed (consumer_of (state_of_config cfg) p) = true.
Proof.
  intros Hopen Htid Hks Hrun Hret Hdata.
  destruct (held_in_range _ _ _ _ Hks Hdata) as [Htp Hheld].
  rewrite <-(run_held _ _ _ tp Hrun) in Hheld.
  apply (stop_returned cfg tid tps tp p); try done.
  - by apply (protocol_inv_run _ _ _ Hrun), all_open_inv.
  - by apply (stop_inv_run _ _ _ _ _ Hrun), stop_inv_entry.
Qed.

(** [C9] [Stop] waits for every [Loop].  If, beside, the calls of [Close]
    are those of the goroutines that this [Stop] starts (no other thread
    runs [Stop], none runs [Close] at the start and the environment starts
    none), then when [Stop] has returned, for every consumer the registry
    holds [dying] and [dead] are closed and its [Loop] has returned. *)
Theorem Stop_joins cfg0 acts cfg tid tps tp p :
  all_open cfg0 → threads cfg0 !! tid = Some (TStop tps StopEntry) →
  PartitionMap.range_keys (PartitionMap.registry (sys (state_of_config cfg0))) tps →
  one_Stop cfg0 tid → only_closers_of cfg0 tid → Forall no_Go_Close acts →
  run cfg0 acts cfg → threads cfg !! tid = Some (TStop tps StopReturned) →
  PartitionMap.data (PartitionMap.registry (sys (state_of_config cfg0))) !! tp = Some (Some p) →
  let pc := consumer_of (state_of_config cfg) p in
  dying pc = true ∧ dead pc = true ∧ Loop_returned cfg p.
Proof.
  intros Hopen Htid Hks Hone Hclosers Hacts Hrun Hret Hdata.
  destruct (held_in_range _ _ _ _ Hks Hdata) as [Htp Hheld].
  rewrite <-(run_held _ _ _ tp Hrun) in Hheld.
  apply (stop_returned cfg tid tps tp p); try done.
  - by apply (protocol_inv_run _ _ _ Hrun), all_open_inv.
  - by apply (stop_inv_run _ _ _ _ _ Hrun), stop_inv_entry.
  - by apply (only_closers_run _ _ _ _ Hacts Hrun).
Qed.

(** [wg.Done()] never panics.  In every run from a configuration in
    which nothing is closed, a goroutine of [Stop] that calls [wg.Done()]
    finds the counter positive: the counter is the number of goroutines
    that have not called it yet. *)
Theorem Done_never_panics cfg0 acts cfg tid tps i c at_ k :
  all_open cfg0 → threads cfg0 !! tid = Some (TStop tps StopEntry) →
  run cfg0 acts cfg → threads cfg !! i = Some (TClose c at_ (Some tid)) →
  run_action (Run i k) cfg ≠ Crash NegativeWaitGroup.
Proof.
  intros Hopen Htid Hrun Hi.
  destruct (stop_inv_run _ _ _ _ _ Hrun (stop_inv_entry _ _ _ Hopen Htid))
    as (at0 & _ & Hat).
  assert (is_pending tid (TClose c at_ (Some tid)) = true →
          0 < wgs (state_of_config cfg) !!! tid) as Hpos.
  { intros Hp. pose proof (total_delete (pend tid) _ _ _ Hi) as Htotal.
    unfold pend at 2 in Htotal. rewrite Hp in Htotal.
    destruct at0 as [|rest|]; [by destruct (Hat i c at_)|..]; destruct Hat as [Hc _];
      unfold count in Hc; lia. }
  cbn [run_action]. rewrite Hi. cbn [thread_step]. unfold Close_step, wg_Done.
  destruct c as [p|]; [|by destruct at_].
  destruct at_; simpl in Hpos |- *; rewrite ?bool_decide_eq_true_2 in Hpos by done;
    repeat case_match; simplify_eq; try done; by specialize (Hpos eq_refl); lia.
Qed.

End stop.

(** ** Progress *)

Section progress.
Context {P : Type} `{!Provider P}.
Implicit Types (sh : shared P) (cfg : config P) (t : thread) (p : ptr).

(** A [Loop] stays the [Loop] of its consumer. *)
Lemma loop_persists cfg a cfg' i c at_ :
  step cfg a cfg' → threads cfg !! i = Some (TLoop c at_) →
  ∃ at', threads cfg' !! i = Some (TLoop c at').
Proof.
  intros Hstep Hi. destruct (step_inv _ _ _ Hstep)
    as [(tid & k & t & t' & new & -> & Ht & Hrun & ->)
       |(_ & _ & _ & _ & [->|(t & _ & _ & ->)])]; [|by eauto|].
  - destruct (decide (tid = i)) as [->|Hne].
    + rewrite Hi in Ht. injection Ht as <-. simpl in Hrun.
      destruct (Loop_step _ _ _ _) as [|[at' ?]|]; simplify_eq.
      exists at'. by apply spawn_lookup, lookup_insert_eq.
    + exists at_. apply spawn_lookup. by rewrite lookup_insert_ne.
  - exists at_. by apply (spawn_lookup (Some t)).
Qed.

Lemma loops_for_step cfg a cfg' tps :
  step cfg a cfg' → loops_for cfg tps → loops_for cfg' tps.
Proof.
  intros Hstep Hloops tp Htp. destruct (Hloops tp Htp) as (p & Hheld & i & at_ & Hi).
  exists p. rewrite (step_held _ _ _ tp Hstep). split; [done|].
  destruct (loop_persists _ _ _ _ _ _ Hstep Hi) as [at' Hi']. by exists i, at'.
Qed.

(** A reader leaves the writer's flag alone. *)
Lemma RWMutex_reader_writer (rw : RWMutex) u r :
  RWMutex_RLock rw = Done (u, r) ∨ RWMutex_RUnlock rw = Done (u, r) →
  writer r = writer rw.
Proof. destruct rw as [[] [|n]]; intros [H|H]; cbv in H; by simplify_eq. Qed.

Lemma RWMutex_RLock_reader (rw : RWMutex) :
  writer rw = false → ∃ r, RWMutex_RLock rw = Done (tt, r).
Proof. destruct rw as [[] n]; [done|]. intros _. by eexists. Qed.

(** Only [Stop] touches the lock, and as a reader. *)
Lemma thread_step_writer tid t k sh t' sh' new :
  thread_step tid t k sh = Next (t', sh', new) →
  writer (PartitionMap.mutex (PartitionMap.registry (sys sh')))
  = writer (PartitionMap.mutex (PartitionMap.registry (sys sh))).
Proof.
  destruct t as [[p|] at_|[p|] at_ wg|tps at_]; simpl; intros Hstep.
  - unfold Loop_return in Hstep. destruct at_, k; simpl in Hstep;
      by repeat case_match; simplify_eq.
  - by destruct at_.
  - unfold wg_Done in Hstep. destruct at_; simpl in Hstep;
      by repeat case_match; simplify_eq.
  - by destruct at_.
  - destruct at_ as [|[|]|]; simpl in Hstep; repeat case_match; simplify_eq; simpl;
      eauto using RWMutex_reader_writer.
Qed.

Lemma no_writer_step cfg a cfg' : step cfg a cfg' → no_writer cfg → no_writer cfg'.
Proof.
  intros Hstep. unfold no_writer. destruct (step_inv _ _ _ Hstep)
    as [(tid & k & t & t' & new & -> & Ht & Hrun & Hts)|[Hno _]].
  - by rewrite (thread_step_writer _ _ _ _ _ _ _ Hrun).
  - destruct Hstep as [Hstep]. destruct a as [tid k| | | |]; simpl in Hstep;
      [by destruct (Hno tid k)|..]; repeat case_match; by simplify_eq.
Qed.

(** A goroutine [Stop] starts closes the consumer of a key of its range. *)
Lemma closers_held_step cfg a cfg' tid tps :
  step cfg a cfg' → stop_inv cfg tid tps →
  closers_held cfg tid tps → closers_held cfg' tid tps.
Proof.
  intros Hstep (at_ & Htid & Hat) Hheld i c at' Hi.
  destruct (closer_origin _ _ _ _ _ _ _ Hstep Hi)
    as [[at0 Hi0]|(k & t & t' & -> & Ht & -> & Hrun)].
  - destruct (Hheld _ _ _ Hi0) as (tp & Htp & ->). exists tp.
    by rewrite (step_held _ _ _ tp Hstep).
  - rewrite Htid in Ht. injection Ht as <-. cbn [thread_step] in Hrun.
    destruct at_ as [|[|tp rest]|]; simpl in Hrun; repeat case_match; simplify_eq.
    destruct Hat as (_ & visited & -> & _). exists tp.
    rewrite (step_held _ _ _ tp Hstep). split; [|done].
    apply elem_of_app. right. by left.
Qed.

Lemma progress_inv_step cfg a cfg' tid tps :
  step cfg a cfg' → progress_inv cfg tid tps → progress_inv cfg' tid tps.
Proof.
  intros Hstep (Hinv & Hstop & Hheld & Hloops & Hw).
  split_and!; eauto using protocol_inv_step, stop_inv_step, closers_held_step,
    loops_for_step, no_writer_step.
Qed.

Lemma progress_inv_run cfg acts cfg' tid tps :
  run cfg acts cfg' → progress_inv cfg tid tps → progress_inv cfg' tid tps.
Proof. induction 1; eauto using progress_inv_step. Qed.

Lemma progress_inv_entry cfg tid tps :
  all_open cfg → threads cfg !! tid = Some (TStop tps StopEntry) →
  loops_for cfg tps → no_writer cfg → progress_inv cfg tid tps.
Proof.
  intros Hopen Htid Hloops Hw.
  split_and!; [by apply all_open_inv|by apply stop_inv_entry| |done|done].
  intros i c at_ Hi. destruct Hopen as [_ Hentry]. apply Hentry in Hi. by destruct at_.
Qed.

(** A [Loop] whose consumer has [dying] closed and [dead] open can run:
    it has not returned, and wherever it is, it can see [dying]. *)
Lemma loop_can_run cfg p :
  protocol_inv cfg → has_loop cfg p →
  dying (consumer_of (state_of_config cfg) p) = true →
  dead (consumer_of (state_of_config cfg) p) = false →
  can_run cfg.
Proof.
  intros [Hthreads _] (i & at_ & Hi) Hdying Hdead. exists i, CaseDying.
  pose proof (Hthreads _ _ Hi) as Hok. cbn [run_action]. rewrite Hi. cbn [thread_step].
  destruct at_; simpl in Hok |- *; unfold Loop_return; rewrite ?Hdying, ?Hdead;
    [done..|congruence].
Qed.

(** A goroutine of [Stop] that has not finished can run, or the [Loop] it
    waits for can. *)
Lemma closer_can_run cfg i p at_ g :
  protocol_inv cfg → threads cfg !! i = Some (TClose (Some p) at_ (Some g)) →
  is_pending g (TClose (Some p) at_ (Some g)) = true →
  0 < wgs (state_of_config cfg) !!! g → has_loop cfg p → can_run cfg.
Proof.
  intros Hinv Hi Hpending Hwg Hloop. pose proof Hinv as [Hthreads _].
  pose proof (Hthreads _ _ Hi) as Hok. simpl in Hok, Hpending.
  rewrite andb_comm in Hpending.
  destruct at_; simpl in Hpending; [..|done];
    try (destruct (dead (consumer_of (state_of_config cfg) p)) eqn:Hdead;
         [|by apply (loop_can_run cfg p); try apply Hok]);
    exists i, CaseSend; cbn [run_action]; rewrite Hi; cbn [thread_step];
    unfold Close_step, wg_Done; simpl; rewrite ?Hdead; repeat case_match;
    simplify_eq; try done; lia.
Qed.

(** A [Stop] that has not returned does not leave the program stuck. *)
Lemma stop_can_run cfg tid tps at_ :
  progress_inv cfg tid tps → threads cfg !! tid = Some (TStop tps at_) →
  at_ ≠ StopReturned → can_run cfg.
Proof.
  intros (Hinv & (at0 & Htid0 & Hat) & Hheld & Hloops & Hw) Htid Hret.
  rewrite Htid in Htid0. injection Htid0 as <-.
  destruct at_ as [|[|tp rest]|]; [| | |done].
  - exists tid, CaseSend. cbn [run_action]. rewrite Htid. cbn [thread_step Stop_step].
    by destruct (RWMutex_RLock_reader _ Hw) as [r ->].
  - destruct Hat as (Hwg & _).
    destruct (wgs (state_of_config cfg) !!! tid) as [|n] eqn:Hn.
    + exists tid, CaseSend. cbn [run_action]. rewrite Htid. cbn [thread_step Stop_step].
      rewrite Hn. by destruct (RWMutex_RUnlock _) as [[]|].
    + destruct (total_pos (pend tid) (threads cfg)) as (i & t & Hi & Hp);
        [unfold count in Hwg; lia|].
      unfold pend in Hp. destruct (is_pending tid t) eqn:Hpending; [|lia].
      destruct t as [| c at' [g|] |]; try done. simpl in Hpending.
      apply andb_prop in Hpending as [->%bool_decide_eq_true Hat'].
      destruct (Hheld _ _ _ Hi) as (tp & Htp & ->).
      destruct (Hloops tp Htp) as (p & Hp' & Hloop). rewrite Hp' in Hi.
      apply (closer_can_run cfg i p at' tid); try done; [|lia].
      simpl. by rewrite bool_decide_eq_true_2.
  - exists tid, CaseSend. cbn [run_action]. by rewrite Htid.
Qed.

(** [C20] [Stop] does not deadlock.  In every run from a configuration in
    which nothing is closed, no writer holds the lock of the registry and
    a [Loop] runs on every consumer of a key the [Stop] ranges over: as
    long as the [Stop] has not returned, some goroutine is not blocked. *)
Theorem Stop_never_deadlocks cfg0 acts cfg tid tps at_ :
  all_open cfg0 → threads cfg0 !! tid = Some (TStop tps StopEntry) →
  loops_for cfg0 tps → no_writer cfg0 →
  run cfg0 acts cfg →
  threads cfg !! tid = Some (TStop tps at_) → at_ ≠ StopReturned →
  can_run cfg.
Proof.
  intros Hopen Htid Hloops Hw Hrun. apply stop_can_run.
  by apply (progress_inv_run _ _ _ _ _ Hrun), progress_inv_entry.
Qed.

(** A [Stop] has returned, or a statement crashes, or a statement runs
    and lowers the weight. *)
Lemma stop_next cfg tid tps :
  progress_inv cfg tid tps →
  threads cfg !! tid = Some (TStop tps StopReturned) ∨
  (∃ i k e, run_action (Run i k) cfg = Crash e) ∨
  (∃ i k cfg1, run_action (Run i k) cfg = Next cfg1 ∧ weight cfg1 < weight cfg ∧
     progress_inv cfg1 tid tps).
Proof.
  intros Hinv. pose proof Hinv as (_ & (at_ & Htid & _) & _).
  destruct (decide (at_ = StopReturned)) as [->|Hat]; [by left|]. right.
  destruct (stop_can_run cfg tid tps at_ Hinv Htid Hat) as (i & k & Hrun).
  destruct (run_action (Run i k) cfg) as [|cfg1|e] eqn:Ha; [done| |by left; eauto].
  right. exists i, k, cfg1. pose proof (step_action _ _ _ Ha) as Hstep.
  split; [done|]. split; [by apply (Run_decreases cfg i k)|].
  by apply (progress_inv_step cfg (Run i k)).
Qed.

Lemma can_return_returned cfg tid tps :
  threads cfg !! tid = Some (TStop tps StopReturned) → can_return cfg tid tps.
Proof.
  intros Hret. exists []. split; [by apply Forall_nil|]. right. exists cfg.
  split; [apply run_nil|done].
Qed.

Lemma can_return_crash cfg tid tps i k e :
  run_action (Run i k) cfg = Crash e → can_return cfg tid tps.
Proof.
  intros Ha. exists [Run i k]. split; [by apply Forall_singleton|].
  left. exists e. cbn [run_schedule]. by rewrite Ha.
Qed.

Lemma can_return_step cfg tid tps i k cfg1 :
  run_action (Run i k) cfg = Next cfg1 → can_return cfg1 tid tps → can_return cfg tid tps.
Proof.
  intros Ha (acts & Hacts & Hend). exists (Run i k :: acts). split; [by constructor|].
  destruct Hend as [[e He]|(cfg' & Hrun' & Hret)].
  - left. exists e. cbn [run_schedule]. by rewrite Ha.
  - right. exists cfg'. split; [|done]. by eapply run_cons; [constructor|].
Qed.

(** From a configuration of weight at most [n], at most [n] statements
    take a [Stop] to its return, unless one of them crashes. *)
Lemma stop_completes tid tps n : ∀ cfg,
  weight cfg ≤ n → progress_inv cfg tid tps → can_return cfg tid tps.
Proof.
  induction n as [|n IH]; intros cfg Hn Hinv;
    destruct (stop_next cfg tid tps Hinv)
      as [Hret|[(i & k & e & Ha)|(i & k & cfg1 & Ha & Hlt & Hinv1)]];
    eauto using can_return_returned, can_return_crash; [lia|].
  apply (can_return_step cfg tid tps i k cfg1 Ha), IH; [lia|done].
Qed.

(** [Stop] can return.  From every configuration of such a run, some
    schedule of statements of the goroutines takes the [Stop] to its
    return, unless a goroutine panics on the way: nothing the threads or
    the environment did before has made the return impossible.  With the
    bound on schedules, no goroutine can be kept waiting for ever. *)
Theorem Stop_can_return cfg0 acts0 cfg tid tps :
  all_open cfg0 → threads cfg0 !! tid = Some (TStop tps StopEntry) →
  loops_for cfg0 tps → no_writer cfg0 →
  run cfg0 acts0 cfg →
  can_return cfg tid tps.
Proof.
  intros Hopen Htid Hloops Hw Hrun. apply (stop_completes tid tps (weight cfg)); [done|].
  by apply (progress_inv_run _ _ _ _ _ Hrun), progress_inv_entry.
Qed.

End progress.

(** ** The theorems on the configurations above *)

Lemma ex_stop_config_open : all_open ex_stop_config.
Proof. apply all_open_alt; by_decide. Qed.

Lemma schedule_bounded_witness :
  length ex_stop_schedule + weight ex_stopped ≤ weight ex_stop_config.
Proof.
  apply (schedule_bounded ex_stop_config ex_stop_schedule ex_stopped).
  - unfold ex_stop_schedule. repeat constructor.
  - by_schedule.
Defined.

Lemma Stop_closes_all_witness :
  closed (consumer_of (state_of_config ex_stopped) 2%positive) = true.
Proof.
  apply (Stop_closes_all ex_stop_config ex_stop_schedule ex_stopped 2 ex_stop_tps
           (mkTopicPartition "t" 1) 2%positive).
  - apply ex_stop_config_open.
  - done.
  - unfold PartitionMap.range_keys. by_decide.
  - by_schedule.
  - vm_compute. reflexivity.
  - vm_compute. reflexivity.
Defined.

Lemma Done_never_panics_witness :
  run_action (Run 3 CaseSend) ex_returning ≠ Crash NegativeWaitGroup.
Proof.
  apply (Done_never_panics ex_stop_config (take 19 ex_stop_schedule) ex_returning 2
           ex_stop_tps 3 (Some 1%positive) (CloseReturned None) CaseSend).
  - apply ex_stop_config_open.
  - done.
  - by_schedule.
  - vm_compute. reflexivity.
Defined.

Lemma Stop_joins_witness :
  let pc := consumer_of (state_of_config ex_stopped) 1%positive in
  dying pc = true ∧ dead pc = true ∧ Loop_returned ex_stopped 1%positive.
Proof.
  apply (Stop_joins ex_stop_config ex_stop_schedule ex_stopped 2 ex_stop_tps
           (mkTopicPartition "t" 4) 1%positive).
  - apply ex_stop_config_open.
  - done.
  - unfold PartitionMap.range_keys. by_decide.
  - intros tid tps at_ Ht. by threads_cases Ht.
  - intros tid c at_ wg Ht. by threads_cases Ht.
  - unfold ex_stop_schedule. repeat constructor; by simpl.
  - by_schedule.
  - vm_compute. reflexivity.
  - vm_compute. reflexivity.
Defined.

Lemma ex_stop_loops : loops_for ex_stop_config ex_stop_tps.
Proof.
  intros tp Htp. unfold ex_stop_tps in Htp. list_cases Htp.
  - exists 1%positive. split; [by vm_compute|]. by exists 0, LoopEntry.
  - exists 2%positive. split; [by vm_compute|]. by exists 1, LoopEntry.
Qed.

Lemma Stop_never_deadlocks_witness :
  can_run (config_of (run_schedule (take 6 ex_stop_schedule) ex_stop_config)).
Proof.
  apply (Stop_never_deadlocks ex_stop_config (take 6 ex_stop_schedule) _ 2 ex_stop_tps
           (StopRange [])).
  - apply ex_stop_config_open.
  - done.
  - apply ex_stop_loops.
  - done.
  - by_schedule.
  - vm_compute. reflexivity.
  - done.
Defined.

Lemma Stop_can_return_witness : can_return ex_returning 2 ex_stop_tps.
Proof.
  apply (Stop_can_return ex_stop_config (take 19 ex_stop_schedule) ex_returning 2
           ex_stop_tps).
  - apply ex_stop_config_open.
  - done.
  - apply ex_stop_loops.
  - done.
  - by_schedule.
Defined.

(** The weights of the run above: 30 at the start, 0 at the end, 21
    statements between. *)
Example weight_example :
  weight ex_stop_config = 30 ∧ weight ex_stopped = 0 ∧ length ex_stop_schedule = 21.
Proof. by vm_compute. Qed.

(** [Stop] on a registry that holds a nil pointer crashes the
    program: the goroutine started for that key calls [Close] on nil. *)
Example Stop_nil_entry_panics :
  run_schedule [Run 0 CaseSend; Run 0 CaseSend; Run 0 CaseSend; Run 2 CaseSend] ex_nil_stop
  = Crash NilDereference.
Proof. by vm_compute. Qed.

(** Two calls of [Stop] at once crash the program.  [Stop] takes the
    read lock, so both enter; each starts a goroutine for the same
    consumer, and both goroutines pass the test of [closed] before either
    sets it: the second [close(c.dying)] is a close of a closed channel. *)
Example concurrent_Stop_panics :
  run_schedule
    [Run 0 CaseSend; Run 1 CaseSend; Run 0 CaseSend; Run 1 CaseSend;
     Run 2 CaseSend; Run 3 CaseSend; Run 2 CaseSend; Run 3 CaseSend;
     Run 2 CaseSend; Run 3 CaseSend; Run 2 CaseSend; Run 3 CaseSend]
    ex_two_stops
  = Crash CloseOfClosedChannel.
Proof. by vm_compute. Qed.

