(* ===== verification/Safety.v ===== *)
(** * Safety: a Stop that does not panic

    Shutdown.v shows that a [Stop] (src/unnamed/part_000) is a join, that
    it does not leave the program stuck, and where it crashes: on a nil
    entry of the registry, and beside a second [Stop] or [Close] on one of
    its consumers.  This file shows that these are the only ways: beside
    one [Stop] that ranges over keys holding distinct consumers, none
    nil, with at most one [Loop] on each consumer and no other call of
    [Close], no statement of any goroutine panics,

    - no [close(c.dying)] and no [close(c.dead)] finds its channel
      closed: each consumer has one closer and one loop;
    - no goroutine dereferences nil;
    - [wg.Done()] finds the counter positive and [RUnlock] finds the read
      lock held;

    and so a [Stop] that can return (Shutdown.v) does return, in at most
    [weight] statements from wherever the run is, with every consumer
    closed and every loop returned.

    The invariant is [crash_inv]; it holds at the entry of [Stop]
    ([crash_inv_entry]) and every step keeps it ([crash_inv_step]) as
    long as the environment starts no goroutine ([quiet]).

    While the [Stop] is inside its range it holds the read lock of the
    registry: a [Store] or a [Clear] made then waits, and the pointers
    of the registry are the ones the [Stop] found
    ([registry_frozen_during_Stop]).  The scenario the theorems are run
    on last is a [Stop] over five consumers, each with its loop
    ([ex_five]). *)

From S2P Require Import Prelude Heap Offsets Consumer Registry Lifecycle Shutdown.

(** ** The invariant *)

(** The statements of [Close] up to [close(c.dying)]. *)
Definition before_dying (at_ : close_pc) : Prop :=
  match at_ with
  | CloseEntry | ClosePcm | CloseFlag _ | CloseDying _ => True
  | _ => False
  end.

(** The keys a [Stop] has still to visit. *)
Definition remaining (tps : list topicPartition) (at_ : stop_pc) : list topicPartition :=
  match at_ with
  | StopEntry => tps
  | StopRange rest => rest
  | StopReturned => []
  end.

(** The action starts no goroutine. *)
Definition quiet (a : action) : Prop :=
  match a with
  | Go _ => False
  | _ => True
  end.

#[export] Instance before_dying_dec at_ : Decision (before_dying at_).
Proof. destruct at_; simpl; apply _. Defined.

#[export] Instance quiet_dec a : Decision (quiet a).
Proof. destruct a; simpl; apply _. Defined.

Section safety_defs.
Context {P : Type} `{!Provider P}.
Implicit Types (sh : shared P) (cfg : config P) (t : thread) (p : ptr).

(** No goroutine runs a method on nil. *)
Definition no_nil cfg : Prop :=
  ∀ i t, threads cfg !! i = Some t →
    match t with
    | TLoop None _ | TClose None _ _ => False
    | _ => True
    end.

(** No two goroutines run [Close] on one consumer, *)
Definition one_closer cfg : Prop :=
  ∀ i j c at_ at' wg wg',
    threads cfg !! i = Some (TClose c at_ wg) →
    threads cfg !! j = Some (TClose c at' wg') → i = j.

(** and one that has not closed [dying] finds it open. *)
Definition closers_early cfg : Prop :=
  ∀ i p at_ wg, threads cfg !! i = Some (TClose (Some p) at_ wg) → before_dying at_ →
    dying (consumer_of (state_of_config cfg) p) = false.

(** The read lock of the registry is held. *)
Definition read_locked cfg : Prop :=
  readers (PartitionMap.mutex (PartitionMap.registry (sys (state_of_config cfg)))) ≠ O.

(** The [Stop] between its entry and its return holds the read lock; the
    keys it has still to visit hold consumers, distinct from each other
    and from those a goroutine closes already. *)
Definition stop_inside cfg (tid : nat) (tps : list topicPartition) : Prop :=
  ∀ at_, threads cfg !! tid = Some (TStop tps at_) →
    ((∃ rest, at_ = StopRange rest) → read_locked cfg) ∧
    NoDup (held cfg <$> remaining tps at_) ∧
    Forall is_Some (held cfg <$> remaining tps at_) ∧
    ∀ i c a wg, threads cfg !! i = Some (TClose c a wg) →
      c ∉ held cfg <$> remaining tps at_.

(** What keeps a [Stop] from panicking. *)
Definition crash_inv cfg (tid : nat) (tps : list topicPartition) : Prop :=
  protocol_inv cfg ∧ stop_inv cfg tid tps ∧
  (one_Stop cfg tid ∧ only_closers_of cfg tid) ∧
  no_nil cfg ∧ one_closer cfg ∧ (∀ p, one_loop cfg p) ∧
  closers_early cfg ∧ stop_inside cfg tid tps.

(** What a statement of the thread [i] has done, in a configuration that
    satisfies the invariant: what the thread has become, the goroutine it
    started, and what it left as it was. *)
Inductive statement cfg (tid : nat) (tps : list topicPartition) (i : nat)
    (t' : thread) (new : option thread) cfg' : Prop :=
| statement_Loop p at_ at' :
    threads cfg !! i = Some (TLoop (Some p) at_) → t' = TLoop (Some p) at' → new = None →
    PartitionMap.registry (sys (state_of_config cfg'))
      = PartitionMap.registry (sys (state_of_config cfg)) →
    (∀ q, dying (consumer_of (state_of_config cfg') q)
          = dying (consumer_of (state_of_config cfg) q)) →
    statement cfg tid tps i t' new cfg'
| statement_Close p at_ at' :
    threads cfg !! i = Some (TClose (Some p) at_ (Some tid)) →
    t' = TClose (Some p) at' (Some tid) → new = None →
    PartitionMap.registry (sys (state_of_config cfg'))
      = PartitionMap.registry (sys (state_of_config cfg)) →
    (∀ q, q ≠ p → dying (consumer_of (state_of_config cfg') q)
                  = dying (consumer_of (state_of_config cfg) q)) →
    (before_dying at' →
     before_dying at_ ∧ dying (consumer_of (state_of_config cfg') p)
                        = dying (consumer_of (state_of_config cfg) p)) →
    statement cfg tid tps i t' new cfg'
| statement_Stop at_ at' :
    i = tid → threads cfg !! tid = Some (TStop tps at_) → t' = TStop tps at' →
    (∀ q, consumer_of (state_of_config cfg') q = consumer_of (state_of_config cfg) q) →
    (at_ = StopEntry ∧ at' = StopRange tps ∧ new = None ∧ read_locked cfg') ∨
    (∃ tp rest, at_ = StopRange (tp :: rest) ∧ at' = StopRange rest ∧
       new = Some (TClose (held cfg tp) CloseEntry (Some tid)) ∧
       PartitionMap.registry (sys (state_of_config cfg'))
         = PartitionMap.registry (sys (state_of_config cfg))) ∨
    (at_ = StopRange [] ∧ at' = StopReturned ∧ new = None) →
    statement cfg tid tps i t' new cfg'.

(** Where a [Stop] starts safely: nothing is closed and every thread is at
    its entry; [tid] is the only [Stop] and nobody else calls [Close]; no
    goroutine works on nil; no consumer has two [Loop]s; the keys of the
    range hold consumers, no two the same one. *)
Definition stop_ready cfg (tid : nat) (tps : list topicPartition) : Prop :=
  all_open cfg ∧ threads cfg !! tid = Some (TStop tps StopEntry) ∧
  one_Stop cfg tid ∧ only_closers_of cfg tid ∧ no_nil cfg ∧ (∀ p, one_loop cfg p) ∧
  NoDup (held cfg <$> tps) ∧ Forall is_Some (held cfg <$> tps).

(** No action panics. *)
Definition crash_free cfg : Prop := ∀ a e, run_action a cfg ≠ Crash e.

(** The [Stop] of [tid] has returned, all its consumers are closed and
    their loops have returned. *)
Definition stopped cfg (tid : nat) (tps : list topicPartition) : Prop :=
  threads cfg !! tid = Some (TStop tps StopReturned) ∧
  ∀ tp, tp ∈ tps → ∃ p, held cfg tp = Some p ∧
    let pc := consumer_of (state_of_config cfg) p in
    closed pc = true ∧ dying pc = true ∧ dead pc = true ∧ Loop_returned cfg p.

End safety_defs.

(** ** The scenario of the specification *)

(** Five consumers, each on a stream of its own, held by the registry for
    the partitions 0 to 4 of topic "t"; the first stream holds a
    message.  A [Loop] runs on each consumer, and the thread 5 calls
    [Stop]. *)
Definition ex_five_ptrs : list ptr := [1; 2; 3; 4; 5]%positive.
Definition ex_five_tps : list topicPartition :=
  (λ n, mkTopicPartition "t" n) <$> [0; 1; 2; 3; 4]%Z.
Definition ex_five_consumer (h : positive) : partitionConsumer :=
  new_consumer h {| Offset := -1; PendingOffsets := Some h; Metadata := "" |}.
Definition ex_five_shared : shared fake_client :=
  {| sys := {| PartitionMap.registry :=
                 {| PartitionMap.data := list_to_map (zip ex_five_tps (Some <$> ex_five_ptrs));
                    PartitionMap.mutex := RWMutex_free |};
               PartitionMap.objects :=
                 {| maps := ∅;
                    consumers := list_to_map ((λ h, (h, ex_five_consumer h)) <$> ex_five_ptrs);
                    client := ex_client |} |};
     streams := {[ 1%positive := mkStream [ex_msg 5] [] false ]};
     messages := mkSink true []; errors := mkSink true []; wgs := ∅ |}.
Definition ex_five : config fake_client :=
  {| state_of_config := ex_five_shared;
     threads := <[5 := TStop ex_five_tps StopEntry]>
                  (list_to_map (zip [0; 1; 2; 3; 4]
                     ((λ p, TLoop (Some p) LoopEntry) <$> ex_five_ptrs))) |}.

(** The run of Shutdown.v up to the first statement of the second
    goroutine of [Stop]: the [Stop] is inside its range. *)
Definition ex_inside : config fake_client :=
  config_of (run_schedule (take 10 ex_stop_schedule) ex_stop_config).

(** ** What one statement does *)

Section statements.
Context {P : Type} `{!Provider P}.
Implicit Types (sh : shared P) (cfg : config P) (t : thread) (p : ptr)
  (ts : gmap nat thread).

(** The threads after a statement of the thread [i]: itself, the others,
    and the goroutine it started, under a new name. *)
Lemma spawn_insert_lookup new ts i t' j u :
  spawn new (<[i := t']> ts) !! j = Some u →
  (j = i ∧ u = t') ∨ (j ≠ i ∧ ts !! j = Some u) ∨
  (new = Some u ∧ j ≠ i ∧ ts !! j = None ∧ j = fresh (dom (<[i := t']> ts))).
Proof.
  destruct new as [tn|]; simpl.
  - intros [[<- <-]|[Hne Hj]]%lookup_insert_Some.
    + pose proof (is_fresh (dom (<[i := t']> ts))) as Hfresh.
      set (j := fresh (dom (<[i := t']> ts))) in *.
      rewrite dom_insert, not_elem_of_union, not_elem_of_singleton, not_elem_of_dom in Hfresh.
      right; right. by destruct Hfresh.
    + apply lookup_insert_Some in Hj as [[<- <-]|[? ?]]; auto.
  - intros [[<- <-]|[? ?]]%lookup_insert_Some; auto.
Qed.

Lemma run_step_inv cfg i k cfg' :
  step cfg (Run i k) cfg' →
  ∃ t t' new, threads cfg !! i = Some t ∧
    thread_step i t k (state_of_config cfg) = Next (t', state_of_config cfg', new) ∧
    threads cfg' = spawn new (<[i := t']> (threads cfg)).
Proof.
  intros Hstep. destruct (step_inv _ _ _ Hstep)
    as [(? & ? & t & t' & new & [= <- <-] & Ht & Hrun & Hts)|[Hno _]];
    [by eauto 6 | by destruct (Hno i k)].
Qed.

(** An action of the environment that starts no goroutine leaves the
    threads, the consumers and the registry as they are. *)
Lemma quiet_step_inv cfg a cfg' :
  step cfg a cfg' → quiet a → (∀ i k, a ≠ Run i k) →
  threads cfg' = threads cfg ∧ sys (state_of_config cfg') = sys (state_of_config cfg).
Proof.
  intros [Hrun] Hq Hno. destruct a as [i k|h msg|h err|msgs errs|t]; simpl in *;
    [by destruct (Hno i k)| | | |done]; repeat case_match; by simplify_eq.
Qed.

(** A statement of [Loop] starts nothing, leaves the registry and closes
    no [dying]. *)
Lemma Loop_thread_step i c at_ k sh t' sh' new :
  thread_step i (TLoop c at_) k sh = Next (t', sh', new) →
  new = None ∧ (∃ p at', c = Some p ∧ t' = TLoop (Some p) at') ∧
  PartitionMap.registry (sys sh') = PartitionMap.registry (sys sh) ∧
  ∀ q, dying (consumer_of sh' q) = dying (consumer_of sh q).
Proof.
  cbn [thread_step]. destruct (Loop_step c at_ k sh) as [|[at' sh1]|] eqn:Hstep; [done| |done].
  intros [= <- <- <-]. split; [done|].
  destruct (Loop_step_spec _ _ _ _ _ _ Hstep) as (_ & p & -> & Hcases).
  split; [by eauto|].
  destruct Hcases as [(_ & Hsame & _)|(_ & _ & ->)].
  - split; [|by intros q; rewrite Hsame]. revert Hstep. unfold Loop_step, Loop_return.
    repeat case_match; intros; by simplify_eq.
  - split; [done|]. intros q. rewrite consumer_of_set_consumer. by case_decide; subst.
Qed.

(** A statement of [Close] on [p] starts nothing, leaves the registry and
    the other consumers, and closes [dying] from [CloseDying] only. *)
Lemma Close_thread_step i p at_ wg k sh t' sh' new :
  thread_step i (TClose (Some p) at_ wg) k sh = Next (t', sh', new) →
  new = None ∧
  PartitionMap.registry (sys sh') = PartitionMap.registry (sys sh) ∧
  (∀ q, q ≠ p → dying (consumer_of sh' q) = dying (consumer_of sh q)) ∧
  ∃ at', t' = TClose (Some p) at' wg ∧
    (before_dying at' →
     before_dying at_ ∧ dying (consumer_of sh' p) = dying (consumer_of sh p)).
Proof.
  cbn [thread_step]. destruct (Close_step _ at_ wg sh) as [|[at' sh1]|] eqn:Hstep; [done| |done].
  intros [= <- <- <-]. split; [done|]. revert Hstep. unfold Close_step, wg_Done.
  destruct at_; repeat case_match; intros; simplify_eq;
    (split; [done|]); (split; [|eexists; split; [done|]; try by intros []]);
    try (intros q Hq; by rewrite ?consumer_of_set_consumer, ?decide_False).
  all: intros _; split; [done|].
  all: by rewrite ?consumer_of_set_consumer, ?decide_True.
Qed.

(** A statement of [Stop]: it takes the read lock, or starts the goroutine
    of the next key, or releases the lock and returns. *)
Lemma Stop_thread_step i tps at_ k sh t' sh' new :
  thread_step i (TStop tps at_) k sh = Next (t', sh', new) →
  (∀ q, consumer_of sh' q = consumer_of sh q) ∧
  ∃ at', t' = TStop tps at' ∧
    ((at_ = StopEntry ∧ at' = StopRange tps ∧ new = None ∧
      readers (PartitionMap.mutex (PartitionMap.registry (sys sh'))) ≠ O) ∨
     (∃ tp rest, at_ = StopRange (tp :: rest) ∧ at' = StopRange rest ∧
        new = Some (TClose (PartitionMap.data_at (sys sh) tp) CloseEntry (Some i)) ∧
        PartitionMap.registry (sys sh') = PartitionMap.registry (sys sh)) ∨
     (at_ = StopRange [] ∧ at' = StopReturned ∧ new = None)).
Proof.
  cbn [thread_step]. destruct (Stop_step i tps at_ sh) as [|[[at' sh1] new1]|] eqn:Hstep;
    [done| |done].
  intros [= <- <- <-]. split; [by destruct (Stop_step_spec _ _ _ _ _ _ _ Hstep)|].
  exists at'. split; [done|]. revert Hstep. unfold Stop_step.
  destruct at_ as [|[|tp rest]|]; repeat case_match; intros; simplify_eq.
  - left. repeat split; try done. simpl.
    match goal with H : RWMutex_RLock _ = _ |- _ => revert H end.
    destruct (PartitionMap.mutex _) as [[] n]; intros Hl; cbv in Hl; by simplify_eq.
  - by right; right.
  - right; left. by eexists _, _.
Qed.

(** The statement a step has run. *)
Lemma step_statement cfg i k cfg' tid tps :
  step cfg (Run i k) cfg' → crash_inv cfg tid tps →
  ∃ t' new, threads cfg' = spawn new (<[i := t']> (threads cfg)) ∧
            statement cfg tid tps i t' new cfg'.
Proof.
  intros (t & t' & new & Ht & Hrun & Hts)%run_step_inv
    (_ & (at0 & Htid & _) & [Hone Hclosers] & Hnil & _).
  exists t', new. split; [done|]. destruct t as [c at_|c at_ wg|tps' at_].
  - destruct (Loop_thread_step _ _ _ _ _ _ _ _ Hrun) as (-> & (p & at' & -> & ->) & ? & ?).
    by eapply statement_Loop.
  - destruct c as [p|]; [|by destruct (Hnil _ _ Ht)].
    pose proof (Hclosers _ _ _ _ Ht) as ->.
    destruct (Close_thread_step _ _ _ _ _ _ _ _ _ Hrun) as (-> & ? & ? & at' & -> & ?).
    by eapply statement_Close.
  - pose proof (Hone _ _ _ Ht) as ->. rewrite Htid in Ht. injection Ht as <- <-.
    destruct (Stop_thread_step _ _ _ _ _ _ _ _ Hrun) as (Hsame & at' & -> & Hcases).
    eapply statement_Stop; [done..|].
    destruct Hcases as [(? & ? & ? & ?)|[(tp & rest & ? & ? & ? & ?)|?]]; eauto 10.
Qed.

End statements.

(** ** Every statement keeps the invariant *)

Section preservation.
Context {P : Type} `{!Provider P}.
Context (cfg cfg' : config P) (tid : nat) (tps : list topicPartition).
Context (i : nat) (t' : thread) (new : option thread).
Hypothesis Hinv : crash_inv cfg tid tps.
Hypothesis Hts : threads cfg' = spawn new (<[i := t']> (threads cfg)).
Hypothesis Hstmt : statement cfg tid tps i t' new cfg'.
Hypothesis Hheld : ∀ tp, held cfg' tp = held cfg tp.

(** The pointer of the goroutine a [Stop] starts is the one of the next
    key, which no goroutine closes yet. *)
Lemma spawned_fresh tp rest :
  threads cfg !! tid = Some (TStop tps (StopRange (tp :: rest))) →
  (∃ p, held cfg tp = Some p ∧ dying (consumer_of (state_of_config cfg) p) = false) ∧
  (∀ j c a wg, threads cfg !! j = Some (TClose c a wg) → c ≠ held cfg tp) ∧
  held cfg tp ∉ held cfg <$> rest.
Proof.
  intros Htid. destruct (Hinv) as ((_ & Hok) & _ & _ & _ & _ & _ & _ & Hinside).
  destruct (Hinside _ Htid) as (_ & Hnodup & Hsome & Hout). simpl in *.
  apply NoDup_cons in Hnodup as [Hnotin _]. apply Forall_cons in Hsome as [[p Hp] _].
  assert (∀ j c a wg, threads cfg !! j = Some (TClose c a wg) → c ≠ held cfg tp) as Hnew.
  { intros j c a wg Hj ->. apply (Hout _ _ _ _ Hj). by left. }
  split; [|done]. exists p. split; [done|].
  destruct (dying _) eqn:Hdying; [|done].
  destruct (Hok p) as (_ & Hclosed & _ & Hcloser).
  destruct (Hcloser (Hclosed Hdying)) as (j & a & wg & Hj & _).
  destruct (Hnew _ _ _ _ Hj). by rewrite Hp.
Qed.

(** A closer after the statement was one before, with its pointer, or has
    just been started for the next key. *)
Lemma closer_before j c a wg :
  threads cfg' !! j = Some (TClose c a wg) →
  (∃ a0, threads cfg !! j = Some (TClose c a0 wg) ∧ (j ≠ i → a0 = a)) ∨
  (∃ tp rest, threads cfg !! tid = Some (TStop tps (StopRange (tp :: rest))) ∧
     c = held cfg tp ∧ a = CloseEntry ∧ i = tid ∧
     j = fresh (dom (<[i := t']> (threads cfg)))).
Proof.
  rewrite Hts. intros [[-> Ht]|[[? Hj]|(Hnew & _ & _ & Hfresh)]]%spawn_insert_lookup.
  - destruct (Hstmt) as [? ? ? ? Ht'|? ? ? Hi Ht'|? ? ? ? Ht']; simplify_eq.
    left. by eexists.
  - left. by eexists.
  - destruct (Hstmt) as [? ? ? ? ? ->|? ? ? ? ? ->|at_ at' -> Htid _ _ Hcases]; [done..|].
    destruct Hcases as [(_ & _ & -> & _)|[(tp & rest & -> & _ & -> & _)|(_ & _ & ->)]];
      [done| |done].
    injection Hnew as <- <- <-. right. by eexists tp, rest.
Qed.

Lemma one_closer_step : one_closer cfg'.
Proof.
  destruct (Hinv) as (_ & _ & _ & _ & Hone & _).
  intros j1 j2 c a1 a2 wg1 wg2
    [(b1 & H1 & _)|(tp1 & rest1 & Htid1 & -> & _ & _ & ->)]%closer_before
    [(b2 & H2 & _)|(tp2 & rest2 & Htid2 & Hc & _ & _ & ->)]%closer_before;
    [by eapply Hone| | |done].
  - destruct (spawned_fresh _ _ Htid2) as (_ & Hnew & _). by destruct (Hnew _ _ _ _ H1).
  - destruct (spawned_fresh _ _ Htid1) as (_ & Hnew & _). by destruct (Hnew _ _ _ _ H2).
Qed.

Lemma no_nil_step : no_nil cfg'.
Proof.
  destruct (Hinv) as (_ & _ & _ & Hnil & _). intros j u Hj.
  destruct u as [[p|] at_|[p|] a wg|]; try done.
  - rewrite Hts in Hj. apply spawn_insert_lookup in Hj as [[-> Ht]|[[? Hj]|(Hnew & _)]].
    + by destruct (Hstmt) as [? ? ? ? ->|? ? ? ? ->|? ? ? ? ->].
    + by destruct (Hnil _ _ Hj).
    + destruct (Hstmt) as [? ? ? ? ? ->|? ? ? ? ? ->|? ? ? ? ? ? Hcases]; [done..|].
      by destruct Hcases as [(_ & _ & -> & _)|[(? & ? & _ & _ & -> & _)|(_ & _ & ->)]].
  - apply closer_before in Hj as [(a0 & Hj & _)|(tp & rest & Htid & Hc & _)].
    + by destruct (Hnil _ _ Hj).
    + destruct (spawned_fresh _ _ Htid) as ((p & Hp & _) & _). congruence.
Qed.

(** A [Loop] after the statement was one before, on the same consumer. *)
Lemma loop_before j p at' :
  threads cfg' !! j = Some (TLoop (Some p) at') →
  ∃ at_, threads cfg !! j = Some (TLoop (Some p) at_).
Proof.
  rewrite Hts. intros [[-> Ht]|[[? Hj]|(Hnew & _)]]%spawn_insert_lookup; [|by eauto|].
  - destruct (Hstmt) as [? ? ? ? Ht'|? ? ? Hi Ht'|? ? ? ? Ht']; simplify_eq. by eauto.
  - destruct (Hstmt) as [? ? ? ? ? ->|? ? ? ? ? ->|? ? ? ? ? ? Hcases]; [done..|].
    by destruct Hcases as [(_ & _ & -> & _)|[(? & ? & _ & _ & -> & _)|(_ & _ & ->)]].
Qed.

Lemma one_loop_step p : one_loop cfg' p.
Proof.
  destruct (Hinv) as (_ & _ & _ & _ & _ & Hloops & _).
  intros j1 j2 t1 t2 H1 H2 [a1 ->] [a2 ->].
  apply loop_before in H1 as [b1 H1]. apply loop_before in H2 as [b2 H2].
  eapply (Hloops p); [exact H1 | exact H2 | by eexists..].
Qed.

Lemma closers_early_step : closers_early cfg'.
Proof.
  pose proof Hinv as (_ & _ & _ & _ & Hone & _ & Hearly & _).
  intros j p a wg Hj Ha.
  destruct (closer_before _ _ _ _ Hj)
    as [(a0 & Hj0 & Hsame)|(tp & rest & Htid & Hc & _ & -> & _)].
  2:{ destruct (spawned_fresh _ _ Htid) as ((q & Hq & Hdying) & _).
      destruct (Hstmt) as [? ? ? Hi|? ? ? Hi|? ? ? ? ? Hcons]; simplify_eq.
      rewrite Hcons. congruence. }
  destruct (Hstmt) as [q ? ? Hi ? ? ? Hdying|q b b' Hi -> ? ? Hother Hown|? ? ? ? ? Hcons].
  - rewrite Hdying. destruct (decide (j = i)) as [->|Hne]; [congruence|].
    rewrite (Hsame Hne) in Hj0. by eapply Hearly.
  - destruct (decide (j = i)) as [->|Hne].
    + rewrite Hts in Hj. destruct new; [done|]. simpl in Hj.
      rewrite lookup_insert_eq in Hj. injection Hj as <- <- <-.
      destruct (Hown Ha) as [Hb ->]. by eapply Hearly.
    + rewrite (Hsame Hne) in Hj0. rewrite Hother; [by eapply Hearly|].
      intros ->. by destruct Hne; eapply Hone.
  - rewrite Hcons. destruct (decide (j = i)) as [->|Hne]; [subst; congruence|].
    rewrite (Hsame Hne) in Hj0. by eapply Hearly.
Qed.

(** The pointer of a closer is not among those still to visit. *)
Lemma closer_not_remaining at_ (rest : list topicPartition) j c a wg :
  threads cfg !! tid = Some (TStop tps at_) →
  (∀ x, x ∈ held cfg <$> rest → x ∈ held cfg <$> remaining tps at_) →
  (∀ tp rest', i = tid → at_ = StopRange (tp :: rest') →
               held cfg tp ∉ held cfg <$> rest) →
  threads cfg' !! j = Some (TClose c a wg) → c ∉ held cfg <$> rest.
Proof.
  intros Htid Hsub Hnext Hj Hin.
  destruct (Hinv) as (_ & _ & _ & _ & _ & _ & _ & Hinside).
  destruct (Hinside _ Htid) as (_ & _ & _ & Hout).
  apply closer_before in Hj as [(a0 & Hj & _)|(tp & rest' & Htid' & -> & _ & Hi & _)].
  - by apply (Hout _ _ _ _ Hj), Hsub.
  - rewrite Htid in Htid'. injection Htid' as ->. by eapply Hnext.
Qed.

Lemma stop_inside_step : stop_inside cfg' tid tps.
Proof.
  pose proof Hinv as (_ & (at0 & Htid & _) & _ & _ & _ & _ & _ & Hinside).
  destruct (Hinside _ Htid) as (Hlock & Hnodup & Hsome & Hout).
  intros at1 Htid1. pose proof closer_not_remaining as Hcl.
  assert (∀ l : list topicPartition, held cfg' <$> l = held cfg <$> l) as ->
    by (intros l; apply list_fmap_ext; auto).
  assert (∀ at_, threads cfg !! tid = Some (TStop tps at_) → at_ = at0) as Hat
    by (intros ? ?; congruence).
  destruct (Hstmt) as [p b b' Hi -> -> Hreg _|p b b' Hi -> -> Hreg _ _
                    |b b' -> Htid' -> Hcons Hcases].
  1,2: assert (tid ≠ i) as Hne by (intros ->; congruence).
  1,2: rewrite Hts in Htid1; simpl in Htid1; rewrite lookup_insert_ne in Htid1 by done.
  1,2: apply Hat in Htid1 as ->; unfold read_locked; rewrite Hreg.
  1,2: split; [done|]; split; [done|]; split; [done|].
  1,2: intros j c a wg Hj; by eapply (Hcl at0); [| |intros ? ? <-|exact Hj].
  apply Hat in Htid' as ->.
  assert (at1 = b') as ->.
  { rewrite Hts in Htid1.
    apply spawn_insert_lookup in Htid1 as [[_ [= ->]]|[[? _]|(_ & ? & _)]]; done. }
  destruct Hcases as [(-> & -> & -> & Hrl)|[(tp & rest & -> & -> & _ & Hreg)|(-> & -> & _)]].
  - split; [done|]. split; [done|]. split; [done|].
    intros j c a wg Hj. by eapply (Hcl StopEntry); [| | |exact Hj].
  - simpl in *. apply NoDup_cons in Hnodup as [Hnotin Hnodup].
    apply Forall_cons in Hsome as [_ Hsome].
    split; [intros _; unfold read_locked; rewrite Hreg; apply Hlock; eauto|].
    split; [done|]. split; [done|].
    intros j c a wg Hj. eapply (Hcl (StopRange (tp :: rest)));
      [done| | |exact Hj]; [by right | by intros ? ? _ [= <- <-]].
  - simpl. split; [by intros [? [=]]|]. split; [constructor|]. split; [constructor|].
    intros j c a wg _. apply not_elem_of_nil.
Qed.

End preservation.

(** ** The invariant along a run *)

Section invariant.
Context {P : Type} `{!Provider P}.
Implicit Types (cfg : config P) (a : action) (acts : list action).

Lemma quiet_no_Go a : quiet a → no_Go_Close a.
Proof. by destruct a as [| | | |[]]. Qed.

(** An action of the environment changes nothing the invariant reads. *)
Lemma crash_inv_env cfg a cfg' tid tps :
  step cfg a cfg' → quiet a → (∀ i k, a ≠ Run i k) →
  crash_inv cfg tid tps → crash_inv cfg' tid tps.
Proof.
  intros Hstep Hq Hno (Hprot & Hstop & Hown & Hnil & Hone & Hloops & Hearly & Hinside).
  destruct (quiet_step_inv _ _ _ Hstep Hq Hno) as [Hts Hsys].
  split; [by eapply protocol_inv_step|]. split; [by eapply stop_inv_step|].
  split; [by eapply only_closers_step; [apply quiet_no_Go| |]|].
  unfold no_nil, one_closer, one_loop, closers_early, stop_inside, read_locked, held,
    consumer_of in *.
  rewrite Hts, Hsys. done.
Qed.

Lemma crash_inv_step cfg a cfg' tid tps :
  step cfg a cfg' → quiet a → crash_inv cfg tid tps → crash_inv cfg' tid tps.
Proof.
  intros Hstep Hq Hinv. destruct a as [i k| | | |];
    try by eapply crash_inv_env; [done..|by intros ? ?|done].
  destruct (step_statement _ _ _ _ _ _ Hstep Hinv) as (t' & new & Hts & Hstmt).
  pose proof (λ tp, step_held _ _ _ tp Hstep) as Hheld.
  pose proof Hinv as (Hprot & Hstop & Hown & _).
  split; [by eapply protocol_inv_step|]. split; [by eapply stop_inv_step|].
  split; [by eapply only_closers_step; [apply quiet_no_Go| |]|].
  split; [by eapply no_nil_step|]. split; [by eapply one_closer_step|].
  split; [intros p; by eapply one_loop_step|].
  split; [by eapply closers_early_step | by eapply stop_inside_step].
Qed.

Lemma crash_inv_run cfg acts cfg' tid tps :
  run cfg acts cfg' → Forall quiet acts → crash_inv cfg tid tps → crash_inv cfg' tid tps.
Proof.
  induction 1 as [|cfg a cfg' acts cfg'' Hstep Hrun IH]; [done|].
  intros [Ha Hacts]%Forall_cons Hinv. eauto using crash_inv_step.
Qed.

(** The invariant holds where a [Stop] starts: nothing is closed, every
    thread is at its entry, no thread works on nil, each consumer has at
    most one [Loop], and the keys hold distinct consumers. *)
Lemma crash_inv_entry cfg tid tps :
  all_open cfg → threads cfg !! tid = Some (TStop tps StopEntry) →
  one_Stop cfg tid → only_closers_of cfg tid → no_nil cfg → (∀ p, one_loop cfg p) →
  NoDup (held cfg <$> tps) → Forall is_Some (held cfg <$> tps) →
  crash_inv cfg tid tps.
Proof.
  intros Hopen Htid Hone Hclosers Hnil Hloops Hnodup Hsome.
  assert (∀ i c b wg, threads cfg !! i ≠ Some (TClose c b wg)) as Hnone.
  { intros i c b wg Hi. pose proof (Hclosers _ _ _ _ Hi) as ->.
    destruct Hopen as [_ Hentry]. apply (map_Forall_lookup_1 _ _ _ _ Hentry) in Hi.
    by destruct b. }
  split; [by apply all_open_inv|]. split; [by apply stop_inv_entry|].
  split; [done|]. split; [done|].
  split; [intros i j c b b' wg wg' Hi; by destruct (Hnone _ _ _ _ Hi)|].
  split; [done|].
  split; [intros i p b wg Hi; by destruct (Hnone _ _ _ _ Hi)|].
  intros at_ Hat. rewrite Htid in Hat. injection Hat as <-.
  split; [by intros [? [=]]|]. split; [done|]. split; [done|].
  intros i c b wg Hi. by destruct (Hnone _ _ _ _ Hi).
Qed.

End invariant.

(** ** No statement panics *)

Section crash_freedom.
Context {P : Type} `{!Provider P}.
Implicit Types (cfg : config P) (acts : list action).

(** The counter of the wait group is positive while a goroutine of the
    [Stop] has not called [wg.Done()]. *)
Lemma wg_positive cfg tid tps i c b :
  stop_inv cfg tid tps → threads cfg !! i = Some (TClose c b (Some tid)) →
  is_pending tid (TClose c b (Some tid)) = true →
  0 < wgs (state_of_config cfg) !!! tid.
Proof.
  intros (at0 & _ & Hat) Hi Hp. pose proof (total_delete (pend tid) _ _ _ Hi) as Htotal.
  unfold pend at 2 in Htotal. rewrite Hp in Htotal.
  destruct at0 as [|rest|]; [by destruct (Hat i c b)|..]; destruct Hat as [Hc _];
    unfold count in Hc; lia.
Qed.

(** A [Loop] whose consumer has [dead] closed has returned. *)
Lemma dead_loop_returned cfg tid tps i p b :
  crash_inv cfg tid tps → threads cfg !! i = Some (TLoop (Some p) b) →
  dead (consumer_of (state_of_config cfg) p) = true → b = LoopReturned.
Proof.
  intros ((_ & Hok) & _ & _ & _ & _ & Hloops & _) Hi Hdead.
  destruct (Hok p) as ((j & Hj) & _); [done|].
  assert (j = i) as -> by (eapply (Hloops p); [exact Hj | exact Hi | by eexists..]).
  congruence.
Qed.

Lemma thread_no_crash cfg tid tps i t k e :
  crash_inv cfg tid tps → threads cfg !! i = Some t →
  thread_step i t k (state_of_config cfg) ≠ Crash e.
Proof.
  intros Hinv Hi. pose proof Hinv
    as (_ & Hstop & [Hone Hclosers] & Hnil & _ & _ & Hearly & Hinside).
  destruct t as [[p|] b|[p|] b wg|tps' b]; try by destruct (Hnil _ _ Hi).
  - destruct (dead (consumer_of (state_of_config cfg) p)) eqn:Hdead.
    { rewrite (dead_loop_returned _ _ _ _ _ _ Hinv Hi Hdead). by destruct k. }
    cbn [thread_step]. unfold Loop_step, Loop_return. rewrite Hdead.
    by repeat case_match.
  - pose proof (Hclosers _ _ _ _ Hi) as ->.
    pose proof (wg_positive _ _ _ _ _ _ Hstop Hi) as Hpos.
    pose proof (Hearly _ _ _ _ Hi) as Hdying.
    cbn [thread_step]. unfold Close_step, wg_Done.
    destruct b; simpl in *; rewrite ?bool_decide_eq_true_2 in Hpos by done;
      rewrite ?Hdying by done; repeat case_match; simplify_eq; try done;
      by specialize (Hpos eq_refl); lia.
  - pose proof (Hone _ _ _ Hi) as ->. destruct Hstop as (b0 & Htid & _).
    rewrite Htid in Hi. injection Hi as <- <-.
    destruct (Hinside _ Htid) as (Hlock & _). unfold read_locked in Hlock.
    cbn [thread_step]. unfold Stop_step, RWMutex_RUnlock.
    destruct b0 as [|[|tp rest]|]; exec_unfold; repeat case_match; simplify_eq; try done.
    by destruct Hlock; [eexists|].
Qed.

Lemma crash_inv_crash_free cfg tid tps : crash_inv cfg tid tps → crash_free cfg.
Proof.
  intros Hinv a e. destruct a as [i k|h msg|h err|msgs errs|t]; cbn [run_action];
    try by repeat case_match.
  destruct (threads cfg !! i) as [t|] eqn:Hi; [|done].
  pose proof (thread_no_crash cfg tid tps i t k) as Hno.
  destruct (thread_step _ _ _ _) as [|[[] ?]|e']; [done..|].
  by destruct (Hno e').
Qed.

Lemma stop_ready_inv cfg tid tps : stop_ready cfg tid tps → crash_inv cfg tid tps.
Proof. intros (? & ? & ? & ? & ? & ? & ? & ?). by apply crash_inv_entry. Qed.

(** [C8] Beside one [Stop] nothing panics.  In every run from a
    configuration in which a [Stop] can start safely, with an environment
    that feeds the streams and takes or refuses what is sent but starts
    no goroutine, no statement of any goroutine panics: no channel is
    closed twice, no nil is dereferenced, [wg.Done()] finds the counter
    positive and [RUnlock] finds the lock held. *)
Theorem Stop_never_panics cfg0 acts cfg tid tps :
  stop_ready cfg0 tid tps → Forall quiet acts → run cfg0 acts cfg → crash_free cfg.
Proof.
  intros Hready Hacts Hrun. apply (crash_inv_crash_free cfg tid tps).
  by apply (crash_inv_run cfg0 acts), stop_ready_inv.
Qed.

(** [C24] While a [Stop] is inside its range the registry cannot change:
    the read lock is held, so [Store] and [Clear] do not get the write
    lock, and every key holds the pointer it held when the [Stop]
    started.  The goroutines of the [Stop] close the consumers the
    registry held then. *)
Theorem registry_frozen_during_Stop cfg0 acts cfg tid tps rest topic partition pc tps' :
  stop_ready cfg0 tid tps → Forall quiet acts → run cfg0 acts cfg →
  threads cfg !! tid = Some (TStop tps (StopRange rest)) →
  let s := sys (state_of_config cfg) in
  PartitionMap.Store topic partition pc s = Panic Deadlock ∧
  PartitionMap.Clear tps' s = Panic Deadlock ∧
  ∀ tp, held cfg tp = held cfg0 tp.
Proof.
  intros Hready Hacts Hrun Htid.
  pose proof (crash_inv_run cfg0 acts cfg tid tps Hrun Hacts (stop_ready_inv _ _ _ Hready))
    as (_ & _ & _ & _ & _ & _ & _ & Hinside).
  destruct (Hinside _ Htid) as (Hlock & _).
  assert (PartitionMap.on_mutex RWMutex_Lock (sys (state_of_config cfg)) = Panic Deadlock)
    as Hheld.
  { apply PartitionMap.Lock_held. intros Hfree. apply Hlock; [by eexists|].
    by rewrite Hfree. }
  split; [by apply exec_bind_panic|]. split; [by apply exec_bind_panic|].
  intros tp. by eapply run_held.
Qed.

End crash_freedom.

(** ** Stop returns *)

Section completion.
Context {P : Type} `{!Provider P}.
Implicit Types (cfg : config P) (acts : list action).

Lemma is_Run_quiet a : is_Run a → quiet a.
Proof. by destruct a. Qed.

(** When a [Stop] has returned, its consumers are closed and their loops
    have returned. *)
Lemma returned_stopped cfg tid tps :
  progress_inv cfg tid tps → crash_inv cfg tid tps →
  threads cfg !! tid = Some (TStop tps StopReturned) → stopped cfg tid tps.
Proof.
  intros (Hprot & Hstop & _ & Hloops & _) (_ & _ & [_ Hclosers] & _) Hret.
  split; [done|]. intros tp Htp. destruct (Hloops tp Htp) as (p & Hp & _).
  exists p. split; [done|].
  destruct (stop_returned cfg tid tps tp p Hprot Hstop Hret Htp Hp) as [? Hrest].
  by destruct (Hrest Hclosers) as (? & ? & ?).
Qed.

(** From a configuration of weight at most [n], at most [n] statements
    take the [Stop] to its return. *)
Lemma stop_returns_within tid tps n : ∀ cfg,
  weight cfg ≤ n → progress_inv cfg tid tps → crash_inv cfg tid tps →
  ∃ acts cfg', Forall is_Run acts ∧ length acts ≤ n ∧ run cfg acts cfg' ∧
               stopped cfg' tid tps.
Proof.
  induction n as [|n IH]; intros cfg Hn Hprog Hinv;
    destruct (stop_next cfg tid tps Hprog)
      as [Hret|[(i & k & e & Ha)|(i & k & cfg1 & Ha & Hlt & Hprog1)]];
    try (by destruct (crash_inv_crash_free cfg tid tps Hinv (Run i k) e));
    try (exists [], cfg; split; [by apply Forall_nil|]; split; [simpl; lia|];
         split; [apply run_nil | by apply returned_stopped]); [lia|].
  pose proof (step_action _ _ _ Ha) as Hstep.
  destruct (IH cfg1) as (acts & cfg' & Hacts & Hlen & Hrun & Hstopped);
    [lia | done | by apply (crash_inv_step cfg (Run i k))|].
  exists (Run i k :: acts), cfg'. split; [by constructor|]. split; [simpl; lia|].
  split; [by eapply run_cons | done].
Qed.

(** [C7] [Stop] returns.  From every configuration of a run beside which
    a [Stop] started safely, with a [Loop] on each of its consumers and
    no writer on the lock, the goroutines need at most [weight]
    statements to take the [Stop] to its return, whatever was fed to the
    streams before: then every consumer of the range is closed, [dying]
    and [dead] are closed, and every loop has returned.  No statement on
    the way panics. *)
Theorem Stop_returns cfg0 acts0 cfg tid tps :
  stop_ready cfg0 tid tps → loops_for cfg0 tps → no_writer cfg0 →
  Forall quiet acts0 → run cfg0 acts0 cfg →
  ∃ acts cfg', Forall is_Run acts ∧ length acts ≤ weight cfg ∧ run cfg acts cfg' ∧
               stopped cfg' tid tps.
Proof.
  intros Hready Hloops Hw Hacts Hrun. pose proof Hready as (Hopen & Htid & _).
  apply (stop_returns_within tid tps (weight cfg)); [done| |].
  - by apply (progress_inv_run _ _ _ _ _ Hrun), progress_inv_entry.
  - by apply (crash_inv_run cfg0 acts0), stop_ready_inv.
Qed.

End completion.

(** ** The theorems on the configuration of Shutdown.v *)

Lemma ex_stop_ready : stop_ready ex_stop_config 2 ex_stop_tps.
Proof.
  split; [apply ex_stop_config_open|]. split; [done|].
  split; [intros i tps b Hi; by threads_cases Hi|].
  split; [intros i c b wg Hi; by threads_cases Hi|].
  split; [intros i t Hi; by threads_cases Hi|].
  split; [|split; by_decide].
  intros p i j t1 t2 Hi Hj [b1 ->] [b2 ->]. by threads_cases Hi; threads_cases Hj.
Qed.

Lemma Stop_never_panics_witness :
  crash_free (config_of (run_schedule (take 15 ex_stop_schedule) ex_stop_config)).
Proof.
  apply (Stop_never_panics ex_stop_config (take 15 ex_stop_schedule) _ 2 ex_stop_tps).
  - apply ex_stop_ready.
  - by_decide.
  - by_schedule.
Defined.

Lemma ex_five_ready : stop_ready ex_five 5 ex_five_tps.
Proof.
  split; [apply all_open_alt; by_decide|]. split; [done|].
  split; [intros i tps b Hi; by threads_cases Hi|].
  split; [intros i c b wg Hi; by threads_cases Hi|].
  split; [intros i t Hi; by threads_cases Hi|].
  split; [|split; by_decide].
  intros p i j t1 t2 Hi Hj [b1 ->] [b2 ->]. by threads_cases Hi; threads_cases Hj.
Qed.

Lemma ex_five_loops : loops_for ex_five ex_five_tps.
Proof.
  intros tp Htp. unfold ex_five_tps in Htp. simpl in Htp. list_cases Htp.
  - exists 1%positive. split; [by vm_compute|]. by exists 0, LoopEntry.
  - exists 2%positive. split; [by vm_compute|]. by exists 1, LoopEntry.
  - exists 3%positive. split; [by vm_compute|]. by exists 2, LoopEntry.
  - exists 4%positive. split; [by vm_compute|]. by exists 3, LoopEntry.
  - exists 5%positive. split; [by vm_compute|]. by exists 4, LoopEntry.
Qed.

(** The scenario of the specification: [Stop] on five consumers returns,
    within the weight of the configuration, with all five closed and all
    five loops returned. *)
Lemma Stop_returns_witness :
  ∃ acts cfg', Forall is_Run acts ∧ length acts ≤ weight ex_five ∧
               run ex_five acts cfg' ∧ stopped cfg' 5 ex_five_tps.
Proof.
  apply (Stop_returns ex_five [] ex_five 5 ex_five_tps).
  - apply ex_five_ready.
  - apply ex_five_loops.
  - done.
  - by apply Forall_nil.
  - apply run_nil.
Defined.

Lemma registry_frozen_during_Stop_witness :
  PartitionMap.Store "t" 7 None (sys (state_of_config ex_inside)) = Panic Deadlock ∧
  PartitionMap.Clear ex_stop_tps (sys (state_of_config ex_inside)) = Panic Deadlock ∧
  ∀ tp, held ex_inside tp = held ex_stop_config tp.
Proof.
  apply (registry_frozen_during_Stop ex_stop_config (take 10 ex_stop_schedule) ex_inside 2
           ex_stop_tps []).
  - apply ex_stop_ready.
  - by_decide.
  - by_schedule.
  - vm_compute. reflexivity.
Defined.

(** The run of [ex_stop_schedule] ends in a stopped configuration. *)
Example Stop_example : stopped ex_stopped 2 ex_stop_tps.
Proof.
  split; [by vm_compute|]. intros tp Htp. unfold ex_stop_tps in Htp. list_cases Htp.
  - exists 1%positive. split; [by vm_compute|]. repeat split; try by vm_compute.
    exists 0. by vm_compute.
  - exists 2%positive. split; [by vm_compute|]. repeat split; try by vm_compute.
    exists 1. by vm_compute.
Qed.
